(** * qub-typescript-json: lossless JSON tokenizer, parser and formatter

    A shallow embedding of [sources/json.ts] and the properties of its
    tokenizer, recursive-descent parser and pretty-printer. *)

From Stdlib Require Import String Ascii List Arith Lia Bool.
Import ListNotations.

Local Open Scope string_scope.
Local Open Scope list_scope.
Local Open Scope nat_scope.

Infix "+++" := String.append (right associativity, at level 60).

(** The double-quote character and one-character strings used in messages. *)
Definition dq : string := String "034"%char EmptyString.
Definition sq : string := "'".
Definition lf : string := String "010"%char EmptyString.
Definition cr : string := String "013"%char EmptyString.
Definition tab : string := String "009"%char EmptyString.

(** ** The qub collaborator: lexemes, spans and issues *)

Module LexType.
(** The lexeme classes the tokenizer distinguishes ([qub.LexType]).  Every
    class the tokenizer sends to its [default] case is [Other]. *)
Inductive t : Set :=
| LeftCurlyBracket | RightCurlyBracket
| LeftSquareBracket | RightSquareBracket
| Colon | Comma | Letters | SingleQuote | DoubleQuote
| Space | Tab | CarriageReturn | NewLine
| Dash | Plus | Digits | Period
| ForwardSlash | Asterisk | Backslash | Other.

Definition eqb (a b : t) : bool :=
  match a, b with
  | LeftCurlyBracket, LeftCurlyBracket | RightCurlyBracket, RightCurlyBracket
  | LeftSquareBracket, LeftSquareBracket
  | RightSquareBracket, RightSquareBracket
  | Colon, Colon | Comma, Comma | Letters, Letters
  | SingleQuote, SingleQuote | DoubleQuote, DoubleQuote
  | Space, Space | Tab, Tab | CarriageReturn, CarriageReturn
  | NewLine, NewLine | Dash, Dash | Plus, Plus | Digits, Digits
  | Period, Period | ForwardSlash, ForwardSlash | Asterisk, Asterisk
  | Backslash, Backslash | Other, Other => true
  | _, _ => false
  end.
End LexType.

(** A lexeme: its class and its raw text ([qub.Lex]; the start index a
    [qub.Lex] also carries is never read by json.ts). *)
Record Lex : Set := mkLex { lexType : LexType.t; lexText : string }.

Record Span : Set := mkSpan { spanStart : nat; spanLength : nat }.

Definition spanAfterEnd (s : Span) : nat := spanStart s + spanLength s.

Record Issue : Set := Error { message : string; issueSpan : Span }.

(** [qub.getCombinedText] and [qub.getCombinedLength] over lexemes. *)
Fixpoint getCombinedText (ls : list Lex) : string :=
  match ls with
  | [] => EmptyString
  | l :: r => lexText l +++ getCombinedText r
  end.

Fixpoint getCombinedLength (ls : list Lex) : nat :=
  match ls with
  | [] => 0
  | l :: r => String.length (lexText l) + getCombinedLength r
  end.

Module qub.
Definition LeftCurlyBracket := mkLex LexType.LeftCurlyBracket "{".
Definition RightCurlyBracket := mkLex LexType.RightCurlyBracket "}".
Definition LeftSquareBracket := mkLex LexType.LeftSquareBracket "[".
Definition RightSquareBracket := mkLex LexType.RightSquareBracket "]".
Definition Colon := mkLex LexType.Colon ":".
Definition Comma := mkLex LexType.Comma ",".
Definition Letters (text : string) := mkLex LexType.Letters text.
Definition ForwardSlash := mkLex LexType.ForwardSlash "/".
End qub.

(** *** The lexer *)

Definition isLetter (c : ascii) : bool :=
  let n := nat_of_ascii c in
  ((65 <=? n) && (n <=? 90)) || ((97 <=? n) && (n <=? 122)).

Definition isDigit (c : ascii) : bool :=
  let n := nat_of_ascii c in (48 <=? n) && (n <=? 57).

Definition one (c : ascii) : string := String c EmptyString.

(** The class of a character that forms a lexeme on its own. *)
Definition singleType (c : ascii) : LexType.t :=
  match nat_of_ascii c with
  | 123 => LexType.LeftCurlyBracket
  | 125 => LexType.RightCurlyBracket
  | 91 => LexType.LeftSquareBracket
  | 93 => LexType.RightSquareBracket
  | 58 => LexType.Colon
  | 44 => LexType.Comma
  | 39 => LexType.SingleQuote
  | 34 => LexType.DoubleQuote
  | 32 => LexType.Space
  | 9 => LexType.Tab
  | 13 => LexType.CarriageReturn
  | 10 => LexType.NewLine
  | 45 => LexType.Dash
  | 43 => LexType.Plus
  | 46 => LexType.Period
  | 47 => LexType.ForwardSlash
  | 42 => LexType.Asterisk
  | 92 => LexType.Backslash
  | _ => LexType.Other
  end.

(** Modelled from the spec: the external lexer [qub.Lexer] (section 6 and the
    glossary entry Lexeme).  It is not part of this repository; the spec
    fixes its classes, and the repository's tests fix that a letters run and
    a digits run are maximal and that a carriage return directly followed by
    a line feed is one new-line lexeme.  Every other character is a lexeme
    of its own. *)
Fixpoint lex (s : string) : list Lex :=
  match s with
  | EmptyString => []
  | String c s' =>
      let rest := lex s' in
      if isLetter c then
        match rest with
        | mkLex LexType.Letters t :: r => mkLex LexType.Letters (String c t) :: r
        | _ => mkLex LexType.Letters (one c) :: rest
        end
      else if isDigit c then
        match rest with
        | mkLex LexType.Digits t :: r => mkLex LexType.Digits (String c t) :: r
        | _ => mkLex LexType.Digits (one c) :: rest
        end
      else
        match singleType c, rest with
        | LexType.CarriageReturn, mkLex LexType.NewLine (String "010"%char EmptyString) :: r =>
            mkLex LexType.NewLine (String c lf) :: r
        | ty, _ => mkLex ty (one c) :: rest
        end
  end.

(** ** Tokens *)

Module TokenType.
Inductive t : Set :=
| LeftCurlyBracket | RightCurlyBracket
| LeftSquareBracket | RightSquareBracket
| Colon | Comma | True | False | Null | NewLine
| QuotedString | Number | Whitespace
| LineComment | BlockComment | Unrecognized.

Definition eqb (a b : t) : bool :=
  match a, b with
  | LeftCurlyBracket, LeftCurlyBracket | RightCurlyBracket, RightCurlyBracket
  | LeftSquareBracket, LeftSquareBracket
  | RightSquareBracket, RightSquareBracket
  | Colon, Colon | Comma, Comma | True, True | False, False | Null, Null
  | NewLine, NewLine | QuotedString, QuotedString | Number, Number
  | Whitespace, Whitespace | LineComment, LineComment
  | BlockComment, BlockComment | Unrecognized, Unrecognized => true
  | _, _ => false
  end.
End TokenType.

(** [class Token extends Segment]: the lexemes it was built from, its start
    index and its type. *)
Record Token : Set := mkToken {
  _basicTokens : list Lex;
  tokenStartIndex : nat;
  getType : TokenType.t }.

Definition tokenToString (t : Token) : string := getCombinedText (_basicTokens t).
Definition tokenLength (t : Token) : nat := getCombinedLength (_basicTokens t).
Definition tokenSpan (t : Token) : Span := mkSpan (tokenStartIndex t) (tokenLength t).

(** The token factory functions of json.ts.  They live in a module of their
    own because two of them are named like the propositions of the logic. *)
Module Tokens.
Definition LeftCurlyBracket (startIndex : nat) : Token :=
  mkToken [qub.LeftCurlyBracket] startIndex TokenType.LeftCurlyBracket.
Definition RightCurlyBracket (startIndex : nat) : Token :=
  mkToken [qub.RightCurlyBracket] startIndex TokenType.RightCurlyBracket.
Definition LeftSquareBracket (startIndex : nat) : Token :=
  mkToken [qub.LeftSquareBracket] startIndex TokenType.LeftSquareBracket.
Definition RightSquareBracket (startIndex : nat) : Token :=
  mkToken [qub.RightSquareBracket] startIndex TokenType.RightSquareBracket.
Definition Colon (startIndex : nat) : Token :=
  mkToken [qub.Colon] startIndex TokenType.Colon.
Definition Comma (startIndex : nat) : Token :=
  mkToken [qub.Comma] startIndex TokenType.Comma.
Definition True (startIndex : nat) : Token :=
  mkToken [qub.Letters "true"] startIndex TokenType.True.
Definition False (startIndex : nat) : Token :=
  mkToken [qub.Letters "false"] startIndex TokenType.False.
Definition Null (startIndex : nat) : Token :=
  mkToken [qub.Letters "null"] startIndex TokenType.Null.
Definition NewLine (basicToken : Lex) (startIndex : nat) : Token :=
  mkToken [basicToken] startIndex TokenType.NewLine.
Definition QuotedString (basicTokens : list Lex) (startIndex : nat) : Token :=
  mkToken basicTokens startIndex TokenType.QuotedString.
Definition Number (basicTokens : list Lex) (startIndex : nat) : Token :=
  mkToken basicTokens startIndex TokenType.Number.
Definition Whitespace (basicTokens : list Lex) (startIndex : nat) : Token :=
  mkToken basicTokens startIndex TokenType.Whitespace.
Definition LineComment (basicTokens : list Lex) (startIndex : nat) : Token :=
  mkToken basicTokens startIndex TokenType.LineComment.
Definition BlockComment (basicTokens : list Lex) (startIndex : nat) : Token :=
  mkToken basicTokens startIndex TokenType.BlockComment.
Definition Unrecognized (basicToken : Lex) (startIndex : nat) : Token :=
  mkToken [basicToken] startIndex TokenType.Unrecognized.
End Tokens.

(** ** The tokenizer *)

(** [qub.Lexer] seen as an iterator over its lexemes: before the first
    [next()] it has no current lexeme; afterwards the current lexeme is the
    head of [lexerInput]. *)
Record Lexer : Set := mkLexer { lexerStarted : bool; lexerInput : list Lex }.

Definition lexerNext (l : Lexer) : Lexer :=
  if lexerStarted l then mkLexer true (tl (lexerInput l))
  else mkLexer true (lexerInput l).

(** The lexer position inside [Tokenizer.next]: the current lexeme is the head
    of [lexes]; [basicStart] is [_currentBasicTokenStartIndex]. *)
Record Cursor : Set := mkCursor { lexes : list Lex; basicStart : nat }.

Definition currentBasicToken (c : Cursor) : option Lex := hd_error (lexes c).

Definition lexLength (l : Lex) : nat := String.length (lexText l).

(** [nextBasicToken()] once the lexer has started. *)
Definition nextBasicToken (c : Cursor) : Cursor :=
  match lexes c with
  | [] => c
  | l :: r => mkCursor r (basicStart c + lexLength l)
  end.

(** The cursor after the lexemes [consumed] were stepped over one by one. *)
Definition advance (consumed : list Lex) (rest : list Lex) (c : Cursor) : Cursor :=
  mkCursor rest (basicStart c + getCombinedLength consumed).

Definition isType (l : Lex) (ty : LexType.t) : bool := LexType.eqb (lexType l) ty.

(** The loop of the quoted-string case: the lexemes added to the token,
    whether the end quote was found, and the lexemes left. *)
Fixpoint quotedStringLoop (startQuote : LexType.t) (escaped : bool) (ls : list Lex)
  : list Lex * bool * list Lex :=
  match ls with
  | [] => ([], false, [])
  | c :: r =>
      if escaped then
        let '(a, e, r') := quotedStringLoop startQuote false r in (c :: a, e, r')
      else if isType c LexType.Backslash then
        let '(a, e, r') := quotedStringLoop startQuote true r in (c :: a, e, r')
      else if isType c startQuote then ([c], true, r)
      else
        let '(a, e, r') := quotedStringLoop startQuote false r in (c :: a, e, r')
  end.

Definition isWhitespaceLex (l : Lex) : bool :=
  isType l LexType.Space || isType l LexType.Tab || isType l LexType.CarriageReturn.

(** [while (nextBasicToken() && p(current)) add(current)]: the lexemes added
    and the lexemes left. *)
Fixpoint takeWhileLex (p : Lex -> bool) (ls : list Lex) : list Lex * list Lex :=
  match ls with
  | [] => ([], [])
  | c :: r =>
      if p c then let '(a, r') := takeWhileLex p r in (c :: a, r')
      else ([], ls)
  end.

(** The loop of the block-comment case. *)
Fixpoint blockCommentLoop (ls : list Lex) : list Lex * list Lex :=
  match ls with
  | [] => ([], [])
  | c :: r =>
      if isType c LexType.Asterisk then
        match r with
        | [] => ([c], [])
        | d :: r' =>
            if isType d LexType.ForwardSlash then ([c; d], r')
            else let '(a, rest) := blockCommentLoop r' in (c :: d :: a, rest)
        end
      else let '(a, rest) := blockCommentLoop r in (c :: a, rest)
  end.

(** ASCII [toLowerCase]. *)
Definition lowerChar (c : ascii) : ascii :=
  let n := nat_of_ascii c in
  if (65 <=? n) && (n <=? 90) then ascii_of_nat (n + 32) else c.

Fixpoint toLowerCase (s : string) : string :=
  match s with
  | EmptyString => EmptyString
  | String c r => String (lowerChar c) (toLowerCase r)
  end.

(** The Dash / Digits / Period case of [Tokenizer.next] is four blocks in a
    row; each returns the lexemes it adds to [numberBasicTokens], the issues
    it adds and the lexer position it leaves. *)

(** Negative sign. *)
Definition readSign (c : Cursor) : list Lex * Cursor :=
  match currentBasicToken c with
  | Some l => if isType l LexType.Dash then ([l], nextBasicToken c) else ([], c)
  | None => ([], c)
  end.

(** Whole number digits. *)
Definition readWhole (numberTokenStartIndex : nat) (c : Cursor)
  : list Lex * list Issue * Cursor :=
  match currentBasicToken c with
  | None =>
      ([], [Error "Missing whole number digits." (mkSpan numberTokenStartIndex 1)], c)
  | Some l =>
      if negb (isType l LexType.Digits) then
        ([], [Error "Expected whole number digits." (mkSpan (basicStart c) (lexLength l))], c)
      else ([l], [], nextBasicToken c)
  end.

(** Decimal point and fractional number digits. *)
Definition readFraction (c : Cursor) : list Lex * list Issue * Cursor :=
  match currentBasicToken c with
  | Some l =>
      if isType l LexType.Period then
        let decimalPointStartIndex := basicStart c in
        let c1 := nextBasicToken c in
        match currentBasicToken c1 with
        | None =>
            ([l], [Error "Missing fractional number digits." (mkSpan decimalPointStartIndex 1)], c1)
        | Some d =>
            if negb (isType d LexType.Digits) then
              ([l], [Error "Expected fractional number digits."
                       (mkSpan (basicStart c1) (lexLength d))], c1)
            else ([l; d], [], nextBasicToken c1)
        end
      else ([], [], c)
  | None => ([], [], c)
  end.

(** Exponent: the letter, an optional sign, the digits. *)
Definition readExponent (c : Cursor) : list Lex * list Issue * Cursor :=
  match currentBasicToken c with
  | Some l =>
      if isType l LexType.Letters && String.eqb (toLowerCase (lexText l)) "e" then
        let eStartIndex := basicStart c in
        let upperIssue :=
          if String.eqb (lexText l) "E"
          then [Error "'E' should be 'e'." (mkSpan eStartIndex 1)] else [] in
        let c1 := nextBasicToken c in
        match currentBasicToken c1 with
        | None =>
            ([l], upperIssue ++ [Error "Missing exponent number digits." (mkSpan eStartIndex 1)], c1)
        | Some s =>
            let exponentNumberSignOrDigitsStartIndex := basicStart c1 in
            let '(expSign, c2) :=
              if isType s LexType.Dash || isType s LexType.Plus
              then ([s], nextBasicToken c1) else ([], c1) in
            match currentBasicToken c2 with
            | None =>
                (l :: expSign,
                 upperIssue ++ [Error "Missing exponent number digits."
                                  (mkSpan exponentNumberSignOrDigitsStartIndex 1)], c2)
            | Some d =>
                if negb (isType d LexType.Digits) then
                  (l :: expSign,
                   upperIssue ++ [Error "Expected exponent number digits."
                                    (mkSpan (basicStart c2) (lexLength d))], c2)
                else (l :: expSign ++ [d], upperIssue, nextBasicToken c2)
            end
        end
      else ([], [], c)
  | None => ([], [], c)
  end.

Definition readNumber (tokenStart : nat) (c0 : Cursor) : Token * list Issue * Cursor :=
  let numberTokenStartIndex := tokenStart in
  let '(sign, c1) := readSign c0 in
  let '(whole, wholeIssues, c2) := readWhole numberTokenStartIndex c1 in
  let '(fraction, fractionIssues, c3) := readFraction c2 in
  let '(exponent, exponentIssues, c4) := readExponent c3 in
  (Tokens.Number (sign ++ whole ++ fraction ++ exponent) tokenStart,
   wholeIssues ++ fractionIssues ++ exponentIssues, c4).

(** The ForwardSlash case of [Tokenizer.next]. *)
Definition readSlash (tokenStart : nat) (forwardSlash : Lex) (c0 : Cursor)
  : Token * list Issue * Cursor :=
  let c1 := nextBasicToken c0 in
  match lexes c1 with
  | second :: r =>
      match lexType second with
      | LexType.ForwardSlash =>
          let '(a, rest) := takeWhileLex (fun l => negb (isType l LexType.NewLine)) r in
          (Tokens.LineComment (forwardSlash :: second :: a) tokenStart, [],
           advance (second :: a) rest c1)
      | LexType.Asterisk =>
          let '(a, rest) := blockCommentLoop r in
          (Tokens.BlockComment (forwardSlash :: second :: a) tokenStart, [],
           advance (second :: a) rest c1)
      | _ =>
          (Tokens.Unrecognized qub.ForwardSlash tokenStart,
           [Error ("Expected line comment's second forward slash (" +++ dq +++ "/" +++ dq +++ ").")
              (mkSpan (basicStart c1) (lexLength second))], c1)
      end
  | [] =>
      (Tokens.Unrecognized qub.ForwardSlash tokenStart,
       [Error ("Missing line comment's second forward slash (" +++ dq +++ "/" +++ dq +++ ").")
          (mkSpan tokenStart 1)], c1)
  end.

(** The [switch] of [Tokenizer.next] on a current lexeme [l]: the token
    built, the issues added and the lexer position afterwards. *)
Definition readToken (tokenStart : nat) (l : Lex) (c : Cursor) : Token * list Issue * Cursor :=
  match lexType l with
  | LexType.LeftCurlyBracket => (Tokens.LeftCurlyBracket tokenStart, [], nextBasicToken c)
  | LexType.RightCurlyBracket => (Tokens.RightCurlyBracket tokenStart, [], nextBasicToken c)
  | LexType.LeftSquareBracket => (Tokens.LeftSquareBracket tokenStart, [], nextBasicToken c)
  | LexType.RightSquareBracket => (Tokens.RightSquareBracket tokenStart, [], nextBasicToken c)
  | LexType.Colon => (Tokens.Colon tokenStart, [], nextBasicToken c)
  | LexType.Comma => (Tokens.Comma tokenStart, [], nextBasicToken c)
  | LexType.Letters =>
      let tok :=
        if String.eqb (lexText l) "true" then Tokens.True tokenStart
        else if String.eqb (lexText l) "false" then Tokens.False tokenStart
        else if String.eqb (lexText l) "null" then Tokens.Null tokenStart
        else Tokens.Unrecognized l tokenStart in
      (tok, [], nextBasicToken c)
  | LexType.SingleQuote | LexType.DoubleQuote =>
      let startQuote := l in
      let '(a, endQuote, rest) := quotedStringLoop (lexType startQuote) false (tl (lexes c)) in
      let quotedStringBasicTokens := startQuote :: a in
      (Tokens.QuotedString quotedStringBasicTokens tokenStart,
       if endQuote then []
       else [Error ("Missing end quote (" +++ lexText startQuote +++ ").")
               (mkSpan tokenStart (getCombinedLength quotedStringBasicTokens))],
       advance quotedStringBasicTokens rest c)
  | LexType.Space | LexType.Tab | LexType.CarriageReturn =>
      let '(a, rest) := takeWhileLex isWhitespaceLex (tl (lexes c)) in
      (Tokens.Whitespace (l :: a) tokenStart, [], advance (l :: a) rest c)
  | LexType.NewLine => (Tokens.NewLine l tokenStart, [], nextBasicToken c)
  | LexType.Dash | LexType.Digits | LexType.Period => readNumber tokenStart c
  | LexType.ForwardSlash => readSlash tokenStart l c
  | _ => (Tokens.Unrecognized l tokenStart, [], nextBasicToken c)
  end.

Record Tokenizer : Set := mkTokenizer {
  _tokenizer : Lexer;
  _currentBasicTokenStartIndex : nat;
  _currentToken : option Token;
  _currentTokenStartIndex : nat }.

(** [new Tokenizer(text, startIndex, issues)], over the lexemes of [text]. *)
Definition newTokenizer (input : list Lex) (startIndex : nat) : Tokenizer :=
  mkTokenizer (mkLexer false input) 0 None startIndex.

Definition hasStarted (t : Tokenizer) : bool := lexerStarted (_tokenizer t).
Definition hasCurrent (t : Tokenizer) : bool :=
  match _currentToken t with Some _ => true | None => false end.
Definition getCurrent (t : Tokenizer) : option Token := _currentToken t.

(** [Tokenizer.next()]: the tokenizer afterwards and the issues it added to
    its sink, in the order added. *)
Definition next (t : Tokenizer) : Tokenizer * list Issue :=
  let '(lexer, basicIndex, tokenStart) :=
    if negb (hasStarted t) then
      (* nextBasicToken() on a lexer that has not started *)
      (lexerNext (_tokenizer t), 0, _currentTokenStartIndex t)
    else
      (_tokenizer t, _currentBasicTokenStartIndex t,
       match _currentToken t with
       | Some tok => _currentTokenStartIndex t + tokenLength tok
       | None => _currentTokenStartIndex t
       end) in
  match lexerInput lexer with
  | l :: _ =>
      let '(tok, issues, c) := readToken tokenStart l (mkCursor (lexerInput lexer) basicIndex) in
      (mkTokenizer (mkLexer true (lexes c)) (basicStart c) (Some tok) tokenStart, issues)
  | [] => (mkTokenizer lexer basicIndex None tokenStart, [])
  end.

(** ** Segments *)

(** The classes [Token], [Property], [ObjectSegment] and [ArraySegment] of
    json.ts as one closed type. *)
#[warnings="-register-all"]
Inductive Segment : Set :=
| TokenSeg (t : Token)
| Property (_segments : list Segment)
| ObjectSegment (_segments : list Segment)
| ArraySegment (_segments : list Segment).

(** [Segment.startIndex]: a composite starts where its first child starts
    (its constructor throws on an empty list; the parser never builds one). *)
Fixpoint startIndex (s : Segment) : nat :=
  match s with
  | TokenSeg t => tokenStartIndex t
  | Property l | ObjectSegment l | ArraySegment l =>
      match l with
      | [] => 0
      | first :: _ => startIndex first
      end
  end.

Section Contiguous.
Variable getLength : Segment -> nat.

Fixpoint lastAfterEndIndex (l : list Segment) : nat :=
  match l with
  | [] => 0
  | [last] => startIndex last + getLength last
  | _ :: r => lastAfterEndIndex r
  end.

(** [qub.getContiguousLength]: from the start of the first value to the
    end of the last one. *)
Definition getContiguousLength (l : list Segment) : nat :=
  match l with
  | [] => 0
  | first :: _ => lastAfterEndIndex l - startIndex first
  end.
End Contiguous.

Fixpoint getLength (s : Segment) : nat :=
  match s with
  | TokenSeg t => tokenLength t
  | Property l | ObjectSegment l | ArraySegment l => getContiguousLength getLength l
  end.

Definition afterEndIndex (s : Segment) : nat := startIndex s + getLength s.
Definition span (s : Segment) : Span := mkSpan (startIndex s) (getLength s).

Section CombinedText.
Variable text : Segment -> string.

(** [qub.getCombinedText] over segments. *)
Fixpoint combinedText (l : list Segment) : string :=
  match l with
  | [] => EmptyString
  | s :: r => text s +++ combinedText r
  end.
End CombinedText.

Fixpoint toString (s : Segment) : string :=
  match s with
  | TokenSeg t => tokenToString t
  | Property l | ObjectSegment l | ArraySegment l => combinedText toString l
  end.

Definition isTokenOfType (s : Segment) (ty : TokenType.t) : bool :=
  match s with
  | TokenSeg t => TokenType.eqb (getType t) ty
  | _ => false
  end.

Definition previousIs (previousSegment : option Segment) (ty : TokenType.t) : bool :=
  match previousSegment with
  | Some s => isTokenOfType s ty
  | None => false
  end.

Section Format.
Variable format : Segment -> string.

(** The loop of [Property.format]. *)
Fixpoint formatProperty (l : list Segment) : string :=
  match l with
  | [] => EmptyString
  | segment :: r =>
      if negb (isTokenOfType segment TokenType.Whitespace) then
        format segment +++
        (if isTokenOfType segment TokenType.Colon && negb (match r with [] => true | _ => false end)
         then " " else EmptyString) +++
        formatProperty r
      else formatProperty r
  end.

(** The loop shared by [ObjectSegment.format] and [ArraySegment.format];
    [left] and [right] are the bracket types of the class. *)
Fixpoint formatBracketed (left right : TokenType.t)
         (previousSegment : option Segment) (l : list Segment) : string :=
  match l with
  | [] => EmptyString
  | segment :: r =>
      match segment with
      | TokenSeg t =>
          if TokenType.eqb (getType t) TokenType.NewLine
             || TokenType.eqb (getType t) left
             || TokenType.eqb (getType t) right
             || TokenType.eqb (getType t) TokenType.Comma
          then tokenToString t +++ formatBracketed left right (Some segment) r
          else if TokenType.eqb (getType t) TokenType.Whitespace
          then formatBracketed left right previousSegment r
          else
            (if previousIs previousSegment TokenType.NewLine then "  "
             else if negb (previousIs previousSegment left) then " "
             else EmptyString) +++
            tokenToString t +++ formatBracketed left right (Some segment) r
      | _ =>
          (if previousIs previousSegment TokenType.NewLine then "  " else EmptyString) +++
          format segment +++ formatBracketed left right (Some segment) r
      end
  end.
End Format.

Fixpoint format (s : Segment) : string :=
  match s with
  | TokenSeg t => tokenToString t
  | Property l => formatProperty format l
  | ObjectSegment l =>
      formatBracketed format TokenType.LeftCurlyBracket TokenType.RightCurlyBracket None l
  | ArraySegment l =>
      formatBracketed format TokenType.LeftSquareBracket TokenType.RightSquareBracket None l
  end.

(** [ObjectSegment.getProperties]. *)
Definition isProperty (s : Segment) : bool :=
  match s with Property _ => true | _ => false end.

Definition getProperties (object : Segment) : list Segment :=
  match object with
  | ObjectSegment l => filter isProperty l
  | _ => []
  end.

(** The walk of [ArraySegment.getElements]; [None] is an [undefined] slot.
    It returns the elements added and the final [expectingComma]. *)
Fixpoint elementsWalk (expectingComma : bool) (l : list Segment)
  : list (option Segment) * bool :=
  match l with
  | [] => ([], expectingComma)
  | segment :: r =>
      match segment with
      | ObjectSegment _ | ArraySegment _ =>
          let '(es, e) := elementsWalk true r in (Some segment :: es, e)
      | TokenSeg token =>
          match getType token with
          | TokenType.False | TokenType.Null | TokenType.Number
          | TokenType.QuotedString | TokenType.True =>
              let '(es, e) := elementsWalk true r in (Some segment :: es, e)
          | TokenType.Comma =>
              if negb expectingComma then
                let '(es, e) := elementsWalk expectingComma r in (None :: es, e)
              else elementsWalk false r
          | _ => elementsWalk expectingComma r
          end
      | Property _ => elementsWalk expectingComma r
      end
  end.

Definition getElements (array : Segment) : list (option Segment) :=
  match array with
  | ArraySegment l =>
      let '(elements, expectingComma) := elementsWalk false l in
      if negb (match elements with [] => true | _ => false end) && negb expectingComma
      then elements ++ [None] else elements
  | _ => []
  end.

(** ** Documents *)

Record Document : Set := mkDocument { documentSegments : list Segment }.

Definition isRootCandidate (segment : Segment) : bool :=
  match segment with
  | ObjectSegment _ | ArraySegment _ => true
  | TokenSeg t =>
      negb (TokenType.eqb (getType t) TokenType.NewLine)
      && negb (TokenType.eqb (getType t) TokenType.Whitespace)
  | Property _ => false
  end.

Definition getRoot (d : Document) : option Segment :=
  find isRootCandidate (documentSegments d).

Fixpoint documentFormatLoop (l : list Segment) : string :=
  match l with
  | [] => EmptyString
  | segment :: r => format segment +++ documentFormatLoop r
  end.

Definition documentFormat (d : Document) : string := documentFormatLoop (documentSegments d).
Definition documentToString (d : Document) : string := combinedText toString (documentSegments d).
Definition documentLength (d : Document) : nat := getContiguousLength getLength (documentSegments d).

(** ** The parser *)

(** Parser code runs over the tokenizer and the issue sink.  [addIssue] only
    appends to the sink, so a computation returns the issues it appended, in
    order.  [None] is a run that did not return: the recursion bound [fuel]
    ran out, or a function was entered without a current token (where the
    source throws). *)
Definition Parser (A : Type) : Type := Tokenizer -> option (A * Tokenizer * list Issue).

Definition ret {A : Type} (a : A) : Parser A := fun t => Some (a, t, []).

Definition bind {A B : Type} (m : Parser A) (f : A -> Parser B) : Parser B :=
  fun t =>
    match m t with
    | None => None
    | Some (a, t1, i1) =>
        match f a t1 with
        | None => None
        | Some (b, t2, i2) => Some (b, t2, i1 ++ i2)
        end
    end.

Notation "x <- m ;; k" := (bind m (fun x => k))
  (at level 61, m at next level, right associativity).
Notation "m ;; k" := (bind m (fun _ => k))
  (at level 61, right associativity).

Definition stuck {A : Type} : Parser A := fun _ => None.
Definition addIssue (toAdd : Issue) : Parser unit := fun t => Some (tt, t, [toAdd]).
Definition addIssueIf (b : bool) (toAdd : Issue) : Parser unit :=
  if b then addIssue toAdd else ret tt.
Definition tokenizerNext : Parser unit := fun t => let '(t', i) := next t in Some (tt, t', i).
Definition tokenizerCurrent : Parser (option Token) := fun t => Some (getCurrent t, t, []).

(** [skipWhitespace]: the whitespace tokens pushed onto [values]. *)
Fixpoint skipWhitespace (fuel : nat) : Parser (list Segment) :=
  cur <- tokenizerCurrent ;;
  match cur with
  | Some tok =>
      if TokenType.eqb (getType tok) TokenType.Whitespace then
        match fuel with
        | 0 => stuck
        | S n =>
            tokenizerNext ;;
            rest <- skipWhitespace n ;;
            ret (TokenSeg tok :: rest)
        end
      else ret []
  | None => ret []
  end.

Definition msgMissingColon := "Missing colon (" +++ dq +++ ":" +++ dq +++ ").".
Definition msgExpectedColon := "Expected colon (" +++ dq +++ ":" +++ dq +++ ").".
Definition msgMissingPropertyValue := "Missing property value.".
Definition msgExpectedPropertyValue := "Expected property value.".
Definition msgExpectedCommaOrRightCurly :=
  "Expected comma (" +++ dq +++ "," +++ dq +++ ") or closing right curly bracket (" +++ dq +++ "}" +++ dq +++ ").".
Definition msgExpectedPropertyName := "Expected property name.".
Definition msgExpectedPropertyNameOrRightCurly :=
  "Expected property name or closing right curly bracket (" +++ dq +++ "}" +++ dq +++ ").".
Definition msgMissingRightCurly :=
  "Missing closing right curly bracket (" +++ dq +++ "}" +++ dq +++ ").".
Definition msgExpectedCommaOrRightSquare :=
  "Expected comma (" +++ dq +++ "," +++ dq +++ ") or closing right square bracket (" +++ dq +++ "]" +++ dq +++ ").".
Definition msgExpectedArrayElement := "Expected array element.".
Definition msgExpectedArrayElementOrRightSquare :=
  "Expected array element or closing right square bracket (" +++ dq +++ "]" +++ dq +++ ").".
Definition msgMissingRightSquare :=
  "Missing closing right square bracket (" +++ dq +++ "]" +++ dq +++ ").".
Definition msgExpectedEndOfFile := "Expected end of file.".

(** The three recovery flags of [parseObject] and of [parseArray]:
    [nameAllowed] is [propertyNameAllowed] or [arrayElementAllowed],
    [closeAllowed] is [rightCurlyBracketAllowed] or
    [rightSquareBracketAllowed]. *)
Record Flags : Set := mkFlags {
  nameAllowed : bool;
  commaAllowed : bool;
  closeAllowed : bool }.

Definition initialFlags : Flags := mkFlags true false true.
Definition afterValue : Flags := mkFlags false true true.
Definition afterComma : Flags := mkFlags true false false.

Fixpoint parseProperty (fuel : nat) : Parser Segment :=
  match fuel with
  | 0 => stuck
  | S fuel' =>
      cur <- tokenizerCurrent ;;
      match cur with
      | None => stuck
      | Some propertyName =>
          tokenizerNext ;;
          ws1 <- skipWhitespace fuel' ;;
          let propertyValues := TokenSeg propertyName :: ws1 in
          cur <- tokenizerCurrent ;;
          match cur with
          | None =>
              addIssue (Error msgMissingColon (tokenSpan propertyName)) ;;
              ret (Property propertyValues)
          | Some colon =>
              if negb (TokenType.eqb (getType colon) TokenType.Colon) then
                addIssue (Error msgExpectedColon (tokenSpan colon)) ;;
                ret (Property propertyValues)
              else
                tokenizerNext ;;
                ws2 <- skipWhitespace fuel' ;;
                let propertyValues := propertyValues ++ TokenSeg colon :: ws2 in
                cur <- tokenizerCurrent ;;
                match cur with
                | None =>
                    addIssue (Error msgMissingPropertyValue (tokenSpan colon)) ;;
                    ret (Property propertyValues)
                | Some propertyValueFirstToken =>
                    match getType propertyValueFirstToken with
                    | TokenType.False | TokenType.True | TokenType.Null
                    | TokenType.QuotedString | TokenType.Number =>
                        tokenizerNext ;;
                        ret (Property (propertyValues ++ [TokenSeg propertyValueFirstToken]))
                    | TokenType.LeftCurlyBracket =>
                        object <- parseObject fuel' ;;
                        ret (Property (propertyValues ++ [object]))
                    | TokenType.LeftSquareBracket =>
                        array <- parseArray fuel' ;;
                        ret (Property (propertyValues ++ [array]))
                    | _ =>
                        addIssue (Error msgExpectedPropertyValue (tokenSpan propertyValueFirstToken)) ;;
                        ret (Property propertyValues)
                    end
                end
          end
      end
  end

with parseObject (fuel : nat) : Parser Segment :=
  match fuel with
  | 0 => stuck
  | S fuel' =>
      cur <- tokenizerCurrent ;;
      match cur with
      | None => stuck
      | Some leftCurlyBracket =>
          tokenizerNext ;;
          r <- parseObjectLoop fuel' initialFlags ;;
          let '(added, closed) := r in
          addIssueIf (negb closed) (Error msgMissingRightCurly (tokenSpan leftCurlyBracket)) ;;
          ret (ObjectSegment (TokenSeg leftCurlyBracket :: added))
      end
  end

(** The [while] loop of [parseObject]: the segments it adds to
    [objectSegments] and whether it met the right curly bracket. *)
with parseObjectLoop (fuel : nat) (flags : Flags) : Parser (list Segment * bool) :=
  cur <- tokenizerCurrent ;;
  match cur with
  | None => ret ([], false)
  | Some currentToken =>
      match fuel with
      | 0 => stuck
      | S fuel' =>
          match getType currentToken with
          | TokenType.QuotedString =>
              addIssueIf (negb (nameAllowed flags))
                (Error msgExpectedCommaOrRightCurly (tokenSpan currentToken)) ;;
              property <- parseProperty fuel' ;;
              r <- parseObjectLoop fuel' afterValue ;;
              ret (property :: fst r, snd r)
          | TokenType.RightCurlyBracket =>
              addIssueIf (negb (closeAllowed flags))
                (Error msgExpectedPropertyName (tokenSpan currentToken)) ;;
              tokenizerNext ;;
              ret ([TokenSeg currentToken], true)
          | TokenType.NewLine | TokenType.Whitespace
          | TokenType.LineComment | TokenType.BlockComment =>
              tokenizerNext ;;
              r <- parseObjectLoop fuel' flags ;;
              ret (TokenSeg currentToken :: fst r, snd r)
          | TokenType.Comma =>
              addIssueIf (negb (commaAllowed flags))
                (Error (if negb (closeAllowed flags) then msgExpectedPropertyName
                        else msgExpectedPropertyNameOrRightCurly) (tokenSpan currentToken)) ;;
              tokenizerNext ;;
              r <- parseObjectLoop fuel' afterComma ;;
              ret (TokenSeg currentToken :: fst r, snd r)
          | _ =>
              addIssue
                (Error (if nameAllowed flags then
                          if closeAllowed flags then msgExpectedPropertyNameOrRightCurly
                          else msgExpectedPropertyName
                        else msgExpectedCommaOrRightCurly) (tokenSpan currentToken)) ;;
              tokenizerNext ;;
              r <- parseObjectLoop fuel'
                     (if nameAllowed flags && negb (closeAllowed flags)
                      then mkFlags (nameAllowed flags) (commaAllowed flags) true
                      else flags) ;;
              ret (TokenSeg currentToken :: fst r, snd r)
          end
      end
  end

with parseArray (fuel : nat) : Parser Segment :=
  match fuel with
  | 0 => stuck
  | S fuel' =>
      cur <- tokenizerCurrent ;;
      match cur with
      | None => stuck
      | Some leftSquareBracket =>
          tokenizerNext ;;
          r <- parseArrayLoop fuel' initialFlags ;;
          let '(added, closed) := r in
          addIssueIf (negb closed) (Error msgMissingRightSquare (tokenSpan leftSquareBracket)) ;;
          ret (ArraySegment (TokenSeg leftSquareBracket :: added))
      end
  end

(** The [while] loop of [parseArray]. *)
with parseArrayLoop (fuel : nat) (flags : Flags) : Parser (list Segment * bool) :=
  cur <- tokenizerCurrent ;;
  match cur with
  | None => ret ([], false)
  | Some currentToken =>
      match fuel with
      | 0 => stuck
      | S fuel' =>
          match getType currentToken with
          | TokenType.Null | TokenType.True | TokenType.False
          | TokenType.QuotedString | TokenType.Number =>
              addIssueIf (negb (nameAllowed flags))
                (Error msgExpectedCommaOrRightSquare (tokenSpan currentToken)) ;;
              tokenizerNext ;;
              r <- parseArrayLoop fuel' afterValue ;;
              ret (TokenSeg currentToken :: fst r, snd r)
          | TokenType.LeftCurlyBracket =>
              addIssueIf (negb (nameAllowed flags))
                (Error msgExpectedCommaOrRightSquare (tokenSpan currentToken)) ;;
              object <- parseObject fuel' ;;
              r <- parseArrayLoop fuel' afterValue ;;
              ret (object :: fst r, snd r)
          | TokenType.LeftSquareBracket =>
              addIssueIf (negb (nameAllowed flags))
                (Error msgExpectedCommaOrRightSquare (tokenSpan currentToken)) ;;
              array <- parseArray fuel' ;;
              r <- parseArrayLoop fuel' afterValue ;;
              ret (array :: fst r, snd r)
          | TokenType.Comma =>
              addIssueIf (negb (commaAllowed flags))
                (Error (if closeAllowed flags then msgExpectedArrayElementOrRightSquare
                        else msgExpectedArrayElement) (tokenSpan currentToken)) ;;
              tokenizerNext ;;
              r <- parseArrayLoop fuel' afterComma ;;
              ret (TokenSeg currentToken :: fst r, snd r)
          | TokenType.RightSquareBracket =>
              addIssueIf (negb (closeAllowed flags))
                (Error msgExpectedArrayElement (tokenSpan currentToken)) ;;
              tokenizerNext ;;
              ret ([TokenSeg currentToken], true)
          | TokenType.NewLine | TokenType.Whitespace
          | TokenType.LineComment | TokenType.BlockComment =>
              tokenizerNext ;;
              r <- parseArrayLoop fuel' flags ;;
              ret (TokenSeg currentToken :: fst r, snd r)
          | _ =>
              addIssue
                (Error (if nameAllowed flags then
                          if closeAllowed flags then msgExpectedArrayElementOrRightSquare
                          else msgExpectedArrayElement
                        else msgExpectedCommaOrRightSquare) (tokenSpan currentToken)) ;;
              tokenizerNext ;;
              r <- parseArrayLoop fuel' afterValue ;;
              ret (TokenSeg currentToken :: fst r, snd r)
          end
      end
  end.

Definition parseSegment (fuel : nat) : Parser Segment :=
  cur <- tokenizerCurrent ;;
  match cur with
  | None => stuck
  | Some tok =>
      match getType tok with
      | TokenType.LeftCurlyBracket => parseObject fuel
      | TokenType.LeftSquareBracket => parseArray fuel
      | _ => tokenizerNext ;; ret (TokenSeg tok)
      end
  end.

(** The [while] loop of [parse]: the segments added to the document. *)
Fixpoint parseLoop (fuel : nat) (foundRootSegment : bool) : Parser (list Segment) :=
  cur <- tokenizerCurrent ;;
  match cur with
  | None => ret []
  | Some _ =>
      match fuel with
      | 0 => stuck
      | S fuel' =>
          segment <- parseSegment fuel' ;;
          let startsRoot :=
            match segment with
            | ObjectSegment _ | ArraySegment _ => true
            | TokenSeg token =>
                match getType token with
                | TokenType.NewLine | TokenType.Whitespace => false
                | _ => true
                end
            | Property _ => true
            end in
          addIssueIf (startsRoot && foundRootSegment)
            (Error msgExpectedEndOfFile (span segment)) ;;
          rest <- parseLoop fuel' (foundRootSegment || startsRoot) ;;
          ret (segment :: rest)
      end
  end.

(** The recursion bound used by [parse]: every call below the document loop
    is entered with a current token and every second call has consumed one. *)
Definition fuelFor (input : list Lex) : nat := 2 * length input + 4.

(** [parse(text, issues)] on the lexemes of [text]: the document and the
    issues appended to the sink. *)
Definition parseLexes (input : list Lex) : option (Document * list Issue) :=
  match (tokenizerNext ;; parseLoop (fuelFor input) false) (newTokenizer input 0) with
  | Some (segments, _, issues) => Some (mkDocument segments, issues)
  | None => None
  end.

Definition parse (text : string) : option (Document * list Issue) := parseLexes (lex text).

(** * Properties *)

(** ** The lexer *)

Definition allChars (p : ascii -> bool) : string -> bool :=
  fix go (s : string) : bool :=
    match s with
    | EmptyString => true
    | String c r => p c && go r
    end.

(** The text of a lexeme whose class holds one fixed character. *)
Definition canonicalText (ty : LexType.t) : option string :=
  match ty with
  | LexType.LeftCurlyBracket => Some "{"
  | LexType.RightCurlyBracket => Some "}"
  | LexType.LeftSquareBracket => Some "["
  | LexType.RightSquareBracket => Some "]"
  | LexType.Colon => Some ":"
  | LexType.Comma => Some ","
  | LexType.SingleQuote => Some sq
  | LexType.DoubleQuote => Some dq
  | LexType.Space => Some " "
  | LexType.Tab => Some tab
  | LexType.CarriageReturn => Some cr
  | LexType.Dash => Some "-"
  | LexType.Plus => Some "+"
  | LexType.Period => Some "."
  | LexType.ForwardSlash => Some "/"
  | LexType.Asterisk => Some "*"
  | LexType.Backslash => Some "\"
  | _ => None
  end.

(** The lexemes the lexer can produce. *)
Definition wfLex (l : Lex) : bool :=
  match lexType l with
  | LexType.Letters =>
      negb (String.eqb (lexText l) EmptyString) && allChars isLetter (lexText l)
  | LexType.Digits =>
      negb (String.eqb (lexText l) EmptyString) && allChars isDigit (lexText l)
  | LexType.NewLine => String.eqb (lexText l) lf || String.eqb (lexText l) (cr +++ lf)
  | LexType.Other =>
      match lexText l with
      | String c EmptyString =>
          negb (isLetter c) && negb (isDigit c)
          && LexType.eqb (singleType c) LexType.Other
      | _ => false
      end
  | ty =>
      match canonicalText ty with
      | Some t => String.eqb (lexText l) t
      | None => false
      end
  end.

Lemma lexType_eqb_eq (a b : LexType.t) : LexType.eqb a b = true <-> a = b.
Proof. split; [destruct a, b; simpl; congruence | intros ->; destruct b; reflexivity]. Qed.

Lemma tokenType_eqb_eq (a b : TokenType.t) : TokenType.eqb a b = true <-> a = b.
Proof. split; [destruct a, b; simpl; congruence | intros ->; destruct b; reflexivity]. Qed.

Lemma single_wf (c : ascii) :
  isLetter c = false -> isDigit c = false -> wfLex (mkLex (singleType c) (one c)) = true.
Proof.
  destruct c as [[] [] [] [] [] [] [] []]; vm_compute; congruence.
Qed.

Lemma lex_wf (s : string) : forallb wfLex (lex s) = true.
Proof.
  induction s as [|c s IH]; [reflexivity|].
  simpl. destruct (isLetter c) eqn:Hl.
  - destruct (lex s) as [|[ty t] r] eqn:E.
    + cbn [forallb]. unfold wfLex; simpl. rewrite Hl. reflexivity.
    + cbn [forallb] in IH. apply andb_true_iff in IH as [Hh Hr].
      assert (Hn : wfLex (mkLex LexType.Letters (one c)) = true)
        by (unfold wfLex; simpl; now rewrite Hl).
      destruct ty; cbn [forallb]; rewrite ?Hn, ?Hh, ?Hr; try reflexivity.
      unfold wfLex in Hh |- *; simpl in Hh |- *. apply andb_true_iff in Hh as [_ Hh].
      now rewrite Hl, Hh.
  - destruct (isDigit c) eqn:Hd.
    + destruct (lex s) as [|[ty t] r] eqn:E.
      * cbn [forallb]. unfold wfLex; simpl. rewrite Hd. reflexivity.
      * cbn [forallb] in IH. apply andb_true_iff in IH as [Hh Hr].
        assert (Hn : wfLex (mkLex LexType.Digits (one c)) = true)
          by (unfold wfLex; simpl; now rewrite Hd).
        destruct ty; cbn [forallb]; rewrite ?Hn, ?Hh, ?Hr; try reflexivity.
        unfold wfLex in Hh |- *; simpl in Hh |- *. apply andb_true_iff in Hh as [_ Hh].
        now rewrite Hd, Hh.
    + pose proof (single_wf c Hl Hd) as Hs.
      destruct (singleType c) eqn:Ety;
        try (cbn [forallb]; rewrite Hs, IH; reflexivity).
      destruct (lex s) as [|[ty t] r] eqn:E; [cbn [forallb]; now rewrite Hs|].
      cbn [forallb] in IH. apply andb_true_iff in IH as [Hh Hr].
      destruct ty; try (cbn [forallb]; rewrite Hs, Hh, Hr; reflexivity).
      destruct t as [|[[] [] [] [] [] [] [] []] [|]];
        try (cbn [forallb]; rewrite Hs, Hh, Hr; reflexivity).
      cbn [forallb]. rewrite Hr.
      assert (Hc : c = "013"%char).
      { clear - Ety. destruct c as [[] [] [] [] [] [] [] []]; vm_compute in Ety; congruence. }
      subst c. reflexivity.
Qed.

Lemma append_assoc (a b c : string) : (a +++ b) +++ c = a +++ (b +++ c).
Proof. induction a as [|x a IH]; simpl; [reflexivity | now rewrite IH]. Qed.

Lemma append_nil_r (a : string) : a +++ EmptyString = a.
Proof. induction a as [|x a IH]; simpl; [reflexivity | now rewrite IH]. Qed.

Lemma length_append (a b : string) :
  String.length (a +++ b) = String.length a + String.length b.
Proof. induction a as [|x a IH]; simpl; [reflexivity | now rewrite IH]. Qed.

Lemma combinedText_app (a b : list Lex) :
  getCombinedText (a ++ b) = getCombinedText a +++ getCombinedText b.
Proof.
  induction a as [|x a IH]; simpl; [reflexivity|].
  rewrite IH. now rewrite append_assoc.
Qed.

Lemma combinedLength_app (a b : list Lex) :
  getCombinedLength (a ++ b) = getCombinedLength a + getCombinedLength b.
Proof. induction a as [|x a IH]; simpl; lia. Qed.

(** The lexemes of a text spell the text. *)
Lemma lex_text (s : string) : getCombinedText (lex s) = s.
Proof.
  induction s as [|c s IH]; [reflexivity|].
  simpl. destruct (isLetter c).
  - destruct (lex s) as [|[ty t] r]; simpl in *; [now rewrite <- IH|].
    destruct ty; simpl; now rewrite <- IH.
  - destruct (isDigit c).
    + destruct (lex s) as [|[ty t] r]; simpl in *; [now rewrite <- IH|].
      destruct ty; simpl; now rewrite <- IH.
    + destruct (singleType c); try (simpl; now rewrite IH).
      destruct (lex s) as [|[ty t] r]; simpl in *; [now rewrite <- IH|].
      destruct ty; try (simpl; now rewrite <- IH).
      destruct t as [|[[] [] [] [] [] [] [] []] [|]]; simpl; now rewrite <- IH.
Qed.

Lemma combinedLength_text (ls : list Lex) :
  getCombinedLength ls = String.length (getCombinedText ls).
Proof.
  induction ls as [|l r IH]; simpl; [reflexivity|].
  rewrite IH. now rewrite length_append.
Qed.

(** ** The tokenizer *)

Lemma wf_canonical (l : Lex) (t : string) :
  wfLex l = true -> canonicalText (lexType l) = Some t -> lexText l = t.
Proof.
  unfold wfLex. destruct (lexType l); simpl; try discriminate;
    intros H E; injection E as <-; now apply String.eqb_eq in H.
Qed.

Lemma wf_length (l : Lex) : wfLex l = true -> 1 <= lexLength l.
Proof.
  unfold wfLex, lexLength.
  destruct (lexType l) eqn:E; simpl; intros H;
    try (apply String.eqb_eq in H; rewrite H; simpl; lia).
  - destruct (lexText l); simpl in *; [discriminate | lia].
  - apply orb_true_iff in H as [H | H]; apply String.eqb_eq in H; rewrite H; simpl; lia.
  - destruct (lexText l); simpl in *; [discriminate | lia].
  - destruct (lexText l) as [|c [|]]; simpl in *; try discriminate; lia.
Qed.

Lemma wf_single (l : Lex) (t : string) :
  wfLex l = true -> canonicalText (lexType l) = Some t -> l = mkLex (lexType l) t.
Proof.
  intros H E. destruct l as [ty tx]. simpl in *. f_equal. exact (wf_canonical _ _ H E).
Qed.

Lemma isType_eq (l : Lex) (ty : LexType.t) : isType l ty = true <-> lexType l = ty.
Proof. apply lexType_eqb_eq. Qed.

Lemma isType_neq (l : Lex) (ty : LexType.t) : isType l ty = false <-> lexType l <> ty.
Proof.
  unfold isType. split.
  - intros H E. apply lexType_eqb_eq in E. congruence.
  - intros H. destruct (LexType.eqb (lexType l) ty) eqn:E; [|reflexivity].
    apply lexType_eqb_eq in E. contradiction.
Qed.

Lemma quotedStringLoop_app (q : LexType.t) (ls : list Lex) :
  forall escaped a found rest,
    quotedStringLoop q escaped ls = (a, found, rest) ->
    ls = a ++ rest /\ (found = false -> rest = []).
Proof.
  induction ls as [|c r IH]; intros escaped a found rest H; simpl in H.
  - injection H as <- <- <-. auto.
  - destruct escaped.
    + destruct (quotedStringLoop q false r) as [[a' e'] r'] eqn:E.
      injection H as <- <- <-. destruct (IH _ _ _ _ E) as [-> Hf]. auto.
    + destruct (isType c LexType.Backslash).
      * destruct (quotedStringLoop q true r) as [[a' e'] r'] eqn:E.
        injection H as <- <- <-. destruct (IH _ _ _ _ E) as [-> Hf]. auto.
      * destruct (isType c q).
        -- injection H as <- <- <-. split; [reflexivity | discriminate].
        -- destruct (quotedStringLoop q false r) as [[a' e'] r'] eqn:E.
           injection H as <- <- <-. destruct (IH _ _ _ _ E) as [-> Hf]. auto.
Qed.

Lemma takeWhileLex_app (p : Lex -> bool) (ls : list Lex) :
  forall a rest, takeWhileLex p ls = (a, rest) -> ls = a ++ rest.
Proof.
  induction ls as [|c r IH]; intros a rest H; simpl in H.
  - now injection H as <- <-.
  - destruct (p c).
    + destruct (takeWhileLex p r) as [a' r'] eqn:E. injection H as <- <-.
      now rewrite (IH _ _ eq_refl) at 1.
    + now injection H as <- <-.
Qed.

Lemma blockCommentLoop_app_aux (n : nat) :
  forall ls a rest, length ls <= n -> blockCommentLoop ls = (a, rest) -> ls = a ++ rest.
Proof.
  induction n as [|n IH]; intros ls a rest Hn H.
  - destruct ls; [|simpl in Hn; lia]. simpl in H. now injection H as <- <-.
  - destruct ls as [|c r]; simpl in H; [now injection H as <- <-|].
    destruct (isType c LexType.Asterisk).
    + destruct r as [|d r']; [now injection H as <- <-|].
      destruct (isType d LexType.ForwardSlash); [now injection H as <- <-|].
      destruct (blockCommentLoop r') as [a' rest'] eqn:E. injection H as <- <-.
      simpl. do 2 f_equal. apply IH; [simpl in Hn; lia | exact E].
    + destruct (blockCommentLoop r) as [a' rest'] eqn:E. injection H as <- <-.
      simpl. f_equal. apply IH; [simpl in Hn; lia | exact E].
Qed.

Lemma blockCommentLoop_app (ls a rest : list Lex) :
  blockCommentLoop ls = (a, rest) -> ls = a ++ rest.
Proof. apply (blockCommentLoop_app_aux (length ls)). lia. Qed.

(** Non-decreasing lists of positions. *)
Fixpoint nondecreasing (l : list nat) : Prop :=
  match l with
  | [] => Logic.True
  | x :: r => match r with [] => Logic.True | y :: _ => x <= y end /\ nondecreasing r
  end.

Lemma nondecreasing_app (a b : list nat) :
  nondecreasing a -> nondecreasing b ->
  (forall x y, In x a -> In y b -> x <= y) ->
  nondecreasing (a ++ b).
Proof.
  induction a as [|x a IH]; simpl; intros Ha Hb Hab; [exact Hb|].
  destruct Ha as [Hx Ha]. split.
  - destruct a as [|y a]; simpl.
    + destruct b as [|y b]; [exact I | apply Hab; simpl; auto].
    + exact Hx.
  - apply IH; auto.
Qed.

Definition issueStart (i : Issue) : nat := spanStart (issueSpan i).
Definition issueAfterEnd (i : Issue) : nat := spanAfterEnd (issueSpan i).

(** What one [next()] may add to the sink when it reads the token starting
    at [from] and stops at [upto], in a text ending at [limit]: issues in
    source order, each starting inside the token or on the lexeme that ended
    it, none reaching past the text. *)
Definition issuesWithin (from upto limit : nat) (iss : list Issue) : Prop :=
  Forall (fun i => from <= issueStart i /\ issueStart i <= upto /\ issueAfterEnd i <= limit) iss
  /\ nondecreasing (map issueStart iss).

Definition readSpec (ts b : nat) (ls : list Lex) (tok : Token) (iss : list Issue) (c : Cursor)
  : Prop :=
  ls = _basicTokens tok ++ lexes c
  /\ _basicTokens tok <> []
  /\ tokenStartIndex tok = ts
  /\ basicStart c = b + tokenLength tok
  /\ (ts = b -> issuesWithin b (basicStart c) (b + getCombinedLength ls) iss).

Lemma issuesWithin_nil (a b c : nat) : issuesWithin a b c [].
Proof. split; [constructor | exact I]. Qed.

Lemma forallb_cons_inv {A : Type} (p : A -> bool) (x : A) (l : list A) :
  forallb p (x :: l) = true -> p x = true /\ forallb p l = true.
Proof. simpl. apply andb_true_iff. Qed.

Ltac wf_split H :=
  repeat match type of H with
    | forallb _ (_ :: _) = true =>
        let H1 := fresh "Hwf" in
        apply forallb_cons_inv in H as [H1 H]
    end.

Ltac type_facts :=
  repeat match goal with
    | H : isType _ _ = true |- _ => apply isType_eq in H
    | H : negb (isType _ _) = true |- _ => apply negb_true_iff in H
    | H : negb (isType _ _) = false |- _ => apply negb_false_iff in H; apply isType_eq in H
    | H : _ || _ = true |- _ => apply orb_true_iff in H
    | H : _ && _ = true |- _ => apply andb_true_iff in H as [? ?]
    end.

Lemma wf_len1 (l : Lex) (t : string) :
  wfLex l = true -> canonicalText (lexType l) = Some t -> lexLength l = String.length t.
Proof. intros H E. unfold lexLength. now rewrite (wf_canonical _ _ H E). Qed.

Lemma lower_e_length (s : string) : toLowerCase s = "e" -> String.length s = 1.
Proof. destruct s as [|c [|]]; simpl; intros H; try discriminate; reflexivity. Qed.



Definition partSpec (cin : Cursor) (part : list Lex) (iss : list Issue) (cout : Cursor)
           (lo limit : nat) : Prop :=
  lexes cin = part ++ lexes cout
  /\ basicStart cout = basicStart cin + getCombinedLength part
  /\ issuesWithin lo (basicStart cout) limit iss.

Ltac issues_within :=
  unfold issuesWithin, issueStart, issueAfterEnd, spanAfterEnd; simpl;
  unfold lexLength in *;
  split; [repeat (apply Forall_cons; [simpl; lia|]); apply Forall_nil
        | repeat (split; try lia); auto].

Ltac part_done :=
  split; [try reflexivity
         | split; [simpl; unfold lexLength in *; simpl; try lia
                  | first [apply issuesWithin_nil | unfold lexLength in *; issues_within]]].

Lemma readWhole_spec (ts : nat) (c c' : Cursor) part iss :
  forallb wfLex (lexes c) = true ->
  ts <= basicStart c ->
  (lexes c = [] -> ts + 1 <= basicStart c) ->
  readWhole ts c = (part, iss, c') ->
  partSpec c part iss c' ts (basicStart c + getCombinedLength (lexes c)).
Proof.
  destruct c as [ls b]. unfold readWhole, partSpec. simpl.
  intros Hwf Hts Hnil H. destruct ls as [|l ls]; simpl in H.
  - injection H as <- <- <-. simpl. specialize (Hnil eq_refl).
    part_done.
  - destruct (isType l LexType.Digits); simpl in H; injection H as <- <- <-; simpl.
    + part_done.
    + part_done.
Qed.

Lemma readFraction_spec (c c' : Cursor) part iss :
  forallb wfLex (lexes c) = true ->
  readFraction c = (part, iss, c') ->
  partSpec c part iss c' (basicStart c) (basicStart c + getCombinedLength (lexes c)).
Proof.
  destruct c as [ls b]. unfold readFraction, partSpec. simpl.
  intros Hwf H. destruct ls as [|l ls]; simpl in H.
  - injection H as <- <- <-. part_done.
  - wf_split Hwf. destruct (isType l LexType.Period) eqn:Ep.
    + apply isType_eq in Ep.
      assert (Hl : lexLength l = 1) by (apply (wf_len1 l "."); [assumption | now rewrite Ep]).
      destruct ls as [|d ls]; simpl in H.
      * injection H as <- <- <-. part_done.
      * destruct (isType d LexType.Digits); simpl in H; injection H as <- <- <-; part_done.
    + injection H as <- <- <-. part_done.
Qed.

Lemma readExponent_spec (c c' : Cursor) part iss :
  forallb wfLex (lexes c) = true ->
  readExponent c = (part, iss, c') ->
  partSpec c part iss c' (basicStart c) (basicStart c + getCombinedLength (lexes c)).
Proof.
  destruct c as [ls b]. unfold readExponent, partSpec. simpl.
  intros Hwf H. destruct ls as [|l ls]; simpl in H.
  - injection H as <- <- <-. part_done.
  - wf_split Hwf.
    destruct (isType l LexType.Letters && (toLowerCase (lexText l) =? "e")%string) eqn:Ee.
    2:{ injection H as <- <- <-. part_done. }
    apply andb_true_iff in Ee as [_ Ee]. apply String.eqb_eq in Ee.
    apply lower_e_length in Ee.
    destruct ls as [|s ls]; simpl in H.
    + injection H as <- <- <-. destruct (lexText l =? "E")%string; part_done.
    + wf_split Hwf. destruct (isType s LexType.Dash || isType s LexType.Plus) eqn:Es.
      * assert (Hs : lexLength s = 1).
        { apply orb_true_iff in Es as [Es | Es]; apply isType_eq in Es;
            [apply (wf_len1 s "-") | apply (wf_len1 s "+")]; try assumption; now rewrite Es. }
        simpl in H.
        destruct ls as [|d ls]; simpl in H.
        -- injection H as <- <- <-. destruct (lexText l =? "E")%string; part_done.
        -- destruct (isType d LexType.Digits); simpl in H; injection H as <- <- <-;
             destruct (lexText l =? "E")%string; part_done.
      * simpl in H.
        destruct (isType s LexType.Digits); simpl in H; injection H as <- <- <-;
          destruct (lexText l =? "E")%string; part_done.
Qed.

Lemma issuesWithin_weaken (lo up lim lo' up' lim' : nat) (iss : list Issue) :
  issuesWithin lo up lim iss -> lo' <= lo -> up <= up' -> lim <= lim' ->
  issuesWithin lo' up' lim' iss.
Proof.
  intros [HF HS] H1 H2 H3. split; [|exact HS].
  eapply Forall_impl; [|exact HF]. cbv beta. intros i Hi. lia.
Qed.

Lemma issuesWithin_app (lo1 up1 lo2 up2 lim : nat) (i1 i2 : list Issue) :
  issuesWithin lo1 up1 lim i1 -> issuesWithin lo2 up2 lim i2 ->
  up1 <= lo2 -> lo1 <= lo2 -> up1 <= up2 ->
  issuesWithin lo1 up2 lim (i1 ++ i2).
Proof.
  intros [HF1 HS1] [HF2 HS2] H1 H2 H3. split.
  - apply Forall_app. split.
    + eapply Forall_impl; [|exact HF1]. cbv beta. intros i Hi. lia.
    + eapply Forall_impl; [|exact HF2]. cbv beta. intros i Hi. lia.
  - rewrite map_app. apply nondecreasing_app; auto.
    intros x y Hx Hy. apply in_map_iff in Hx as [i [<- Hi]]. apply in_map_iff in Hy as [j [<- Hj]].
    rewrite Forall_forall in HF1, HF2. specialize (HF1 _ Hi). specialize (HF2 _ Hj). lia.
Qed.

Lemma forallb_app_inv {A : Type} (p : A -> bool) (a b : list A) :
  forallb p (a ++ b) = true -> forallb p a = true /\ forallb p b = true.
Proof. rewrite forallb_app. apply andb_true_iff. Qed.

Lemma readNumber_spec (ts b : nat) (l : Lex) (ls : list Lex) tok iss c :
  forallb wfLex (l :: ls) = true ->
  lexType l = LexType.Dash \/ lexType l = LexType.Digits \/ lexType l = LexType.Period ->
  readNumber ts (mkCursor (l :: ls) b) = (tok, iss, c) ->
  readSpec ts b (l :: ls) tok iss c /\ getType tok = TokenType.Number.
Proof.
  intros Hwf Hty H. unfold readNumber in H.
  set (limit := b + getCombinedLength (l :: ls)).
  (* sign *)
  destruct (readSign (mkCursor (l :: ls) b)) as [sign c1] eqn:E1.
  assert (S1 : l :: ls = sign ++ lexes c1
               /\ basicStart c1 = b + getCombinedLength sign
               /\ (lexes c1 = [] -> b + 1 <= basicStart c1)
               /\ (sign = [] -> lexType l <> LexType.Dash)).
  { unfold readSign in E1. simpl in E1. destruct (isType l LexType.Dash) eqn:Ed.
    - injection E1 as <- <-. simpl. split; [reflexivity|]. split; [unfold lexLength; lia|]. split.
      + intros _. apply forallb_cons_inv in Hwf as [Hl _]. apply wf_length in Hl.
        unfold lexLength in *. lia.
      + discriminate.
    - injection E1 as <- <-. simpl. split; [reflexivity|]. split; [lia|]. split.
      + discriminate.
      + intros _. now apply isType_neq. }
  destruct S1 as (L1 & B1 & N1 & D1).
  assert (W1 : forallb wfLex (lexes c1) = true)
    by (rewrite L1 in Hwf; now apply forallb_app_inv in Hwf).
  assert (Lim1 : basicStart c1 + getCombinedLength (lexes c1) = limit)
    by (unfold limit; rewrite L1, combinedLength_app; lia).
  (* whole *)
  destruct (readWhole ts c1) as [[whole wholeIssues] c2] eqn:E2.
  destruct (readFraction c2) as [[fraction fractionIssues] c3] eqn:E3.
  destruct (readExponent c3) as [[exponent exponentIssues] c4] eqn:E4.
  injection H as <- <- <-.
  assert (P2 : ts = b -> partSpec c1 whole wholeIssues c2 ts limit).
  { intros ->. rewrite <- Lim1. apply readWhole_spec; auto. lia. }
  assert (L2 : lexes c1 = whole ++ lexes c2 /\ basicStart c2 = basicStart c1 + getCombinedLength whole
               /\ (sign = [] -> whole = [] -> lexType l <> LexType.Digits)).
  { unfold readWhole in E2. destruct c1 as [ls1 b1]. simpl in *.
    destruct ls1 as [|d ls1]; simpl in E2.
    - injection E2 as <- <- <-. simpl. split; [reflexivity|]. split; [lia|].
      intros ->. discriminate.
    - destruct (isType d LexType.Digits) eqn:Ed; simpl in E2; injection E2 as <- <- <-; simpl.
      + split; [reflexivity|]. split; [unfold lexLength; lia|]. discriminate.
      + split; [reflexivity|]. split; [lia|]. intros -> _. simpl in L1. injection L1 as -> _.
        now apply isType_neq. }
  destruct L2 as (L2 & B2 & D2).
  assert (W2 : forallb wfLex (lexes c2) = true)
    by (rewrite L2 in W1; now apply forallb_app_inv in W1).
  assert (Lim2 : basicStart c2 + getCombinedLength (lexes c2) = limit)
    by (rewrite <- Lim1, L2, combinedLength_app; lia).
  pose proof (readFraction_spec _ _ _ _ W2 E3) as (L3 & B3 & I3). rewrite Lim2 in I3.
  assert (W3 : forallb wfLex (lexes c3) = true)
    by (rewrite L3 in W2; now apply forallb_app_inv in W2).
  assert (Lim3 : basicStart c3 + getCombinedLength (lexes c3) = limit)
    by (rewrite <- Lim2, L3, combinedLength_app; lia).
  pose proof (readExponent_spec _ _ _ _ W3 E4) as (L4 & B4 & I4). rewrite Lim3 in I4.
  split; [|reflexivity].
  unfold readSpec. simpl. unfold tokenLength. simpl.
  repeat rewrite combinedLength_app. repeat rewrite <- app_assoc.
  split; [now rewrite <- L4, <- L3, <- L2|].
  split.
  { destruct sign; [|discriminate]. destruct whole; [|discriminate].
    specialize (D1 eq_refl). specialize (D2 eq_refl eq_refl).
    destruct Hty as [Hty | [Hty | Hty]]; try contradiction.
    simpl in L1, L2. destruct c2 as [ls2 b2]. simpl in L2. rewrite <- L1 in L2. subst ls2.
    unfold readFraction in E3. simpl in E3.
    apply isType_eq in Hty. rewrite Hty in E3.
    destruct ls as [|d ls']; simpl in E3.
    - injection E3 as <- _ _. discriminate.
    - destruct (isType d LexType.Digits); simpl in E3; injection E3 as <- _ _; discriminate. }
  split; [reflexivity|].
  split; [lia|].
  intros ->. specialize (P2 eq_refl). destruct P2 as (_ & _ & I2).
  change (issuesWithin b (basicStart c4) limit (wholeIssues ++ fractionIssues ++ exponentIssues)).
  apply (issuesWithin_app b (basicStart c2) (basicStart c2) (basicStart c4) limit);
    [exact I2 | | lia | lia | lia].
  apply (issuesWithin_app _ (basicStart c3) (basicStart c3) _ limit);
    [exact I3 | exact I4 | lia | lia | lia].
Qed.

Ltac read_done :=
  unfold readSpec, tokenLength; cbn [_basicTokens tokenStartIndex lexes basicStart app];
  split; [try reflexivity
         | split; [try discriminate
                  | split; [reflexivity
                           | split; [cbn [getCombinedLength]; unfold lexLength in *; simpl; try lia
                                    | intros ->;
                                      first [apply issuesWithin_nil | issues_within]]]]].

Lemma readSlash_spec (ts b : nat) (l : Lex) (ls : list Lex) tok iss c :
  forallb wfLex (l :: ls) = true ->
  lexType l = LexType.ForwardSlash ->
  readSlash ts l (mkCursor (l :: ls) b) = (tok, iss, c) ->
  readSpec ts b (l :: ls) tok iss c.
Proof.
  intros Hwf Hty H. wf_split Hwf.
  assert (Hl : l = qub.ForwardSlash) by (rewrite (wf_single l "/") by (auto; now rewrite Hty); now rewrite Hty).
  subst l. unfold readSlash in H. cbn [nextBasicToken lexes basicStart] in H.
  destruct ls as [|second r].
  - injection H as <- <- <-. read_done.
  - wf_split Hwf. pose proof (wf_length _ Hwf1) as Hs.
    destruct (lexType second) eqn:E2;
      try (injection H as <- <- <-; read_done).
    + destruct (takeWhileLex (fun l => negb (isType l LexType.NewLine)) r) as [a rest] eqn:Et.
      injection H as <- <- <-. apply takeWhileLex_app in Et. subst r.
      read_done.
    + destruct (blockCommentLoop r) as [a rest] eqn:Et.
      injection H as <- <- <-. apply blockCommentLoop_app in Et. subst r.
      read_done.
Qed.

Lemma readToken_spec (ts b : nat) (l : Lex) (ls : list Lex) tok iss c :
  forallb wfLex (l :: ls) = true ->
  readToken ts l (mkCursor (l :: ls) b) = (tok, iss, c) ->
  readSpec ts b (l :: ls) tok iss c.
Proof.
  intros Hwf H. pose proof Hwf as Hwf'. wf_split Hwf'.
  unfold readToken in H.
  destruct (lexType l) eqn:Ety;
    try (cbn [nextBasicToken lexes basicStart] in H; injection H as <- <- <-;
         rewrite (wf_single l _ Hwf0 ltac:(rewrite Ety; reflexivity)), Ety;
         read_done; fail).
  - (* Letters *)
    cbn [nextBasicToken lexes basicStart] in H.
    assert (Hl : l = mkLex LexType.Letters (lexText l)) by (destruct l; simpl in *; now subst).
    destruct (lexText l =? "true")%string eqn:E1;
      [apply String.eqb_eq in E1; rewrite E1 in Hl; injection H as <- <- <-; rewrite Hl; read_done|].
    destruct (lexText l =? "false")%string eqn:E2;
      [apply String.eqb_eq in E2; rewrite E2 in Hl; injection H as <- <- <-; rewrite Hl; read_done|].
    destruct (lexText l =? "null")%string eqn:E3;
      [apply String.eqb_eq in E3; rewrite E3 in Hl; injection H as <- <- <-; rewrite Hl; read_done|].
    injection H as <- <- <-. read_done.
  - (* SingleQuote *)
    cbn [lexes tl] in H.
    destruct (quotedStringLoop LexType.SingleQuote false ls) as [[a e] rest] eqn:Eq.
    injection H as <- <- <-. apply quotedStringLoop_app in Eq as [-> Hrest].
    unfold readSpec, tokenLength, advance. cbn [_basicTokens tokenStartIndex lexes basicStart Tokens.QuotedString].
    split; [reflexivity|]. split; [discriminate|]. split; [reflexivity|]. split; [reflexivity|].
    intros ->. destruct e; [apply issuesWithin_nil|].
    rewrite (Hrest eq_refl), app_nil_r. issues_within.
  - (* DoubleQuote *)
    cbn [lexes tl] in H.
    destruct (quotedStringLoop LexType.DoubleQuote false ls) as [[a e] rest] eqn:Eq.
    injection H as <- <- <-. apply quotedStringLoop_app in Eq as [-> Hrest].
    unfold readSpec, tokenLength, advance. cbn [_basicTokens tokenStartIndex lexes basicStart Tokens.QuotedString].
    split; [reflexivity|]. split; [discriminate|]. split; [reflexivity|]. split; [reflexivity|].
    intros ->. destruct e; [apply issuesWithin_nil|].
    rewrite (Hrest eq_refl), app_nil_r. issues_within.
  - (* Space *)
    cbn [lexes tl] in H. destruct (takeWhileLex isWhitespaceLex ls) as [a rest] eqn:Et.
    injection H as <- <- <-. apply takeWhileLex_app in Et. subst ls. read_done.
  - cbn [lexes tl] in H. destruct (takeWhileLex isWhitespaceLex ls) as [a rest] eqn:Et.
    injection H as <- <- <-. apply takeWhileLex_app in Et. subst ls. read_done.
  - cbn [lexes tl] in H. destruct (takeWhileLex isWhitespaceLex ls) as [a rest] eqn:Et.
    injection H as <- <- <-. apply takeWhileLex_app in Et. subst ls. read_done.
  - (* NewLine *)
    cbn [nextBasicToken lexes basicStart] in H. injection H as <- <- <-. read_done.
  - apply readNumber_spec in H; auto. tauto.
  - apply readNumber_spec in H; auto. tauto.
  - apply readNumber_spec in H; auto. tauto.
  - apply readSlash_spec in H; auto.
  - cbn [nextBasicToken lexes basicStart] in H. injection H as <- <- <-. read_done.
Qed.

(** *** The tokenizer as a state machine *)

Definition here (t : Tokenizer) : nat := _currentTokenStartIndex t.

(** Where the lexer stands: just after the current token. *)
Definition frontier (t : Tokenizer) : nat :=
  match _currentToken t with
  | Some tok => _currentTokenStartIndex t + tokenLength tok
  | None => _currentTokenStartIndex t
  end.

Definition pendingLexes (t : Tokenizer) : list Lex := lexerInput (_tokenizer t).

(** The text not yet handed out: the current token and the lexemes after it. *)
Definition pendingText (t : Tokenizer) : string :=
  match _currentToken t with
  | Some tok => tokenToString tok
  | None => EmptyString
  end +++ getCombinedText (pendingLexes t).

(** The states of a tokenizer that was created at start index 0 over a text
    of [limit] characters and has been advanced at least once. *)
Definition Inv (limit : nat) (t : Tokenizer) : Prop :=
  hasStarted t = true
  /\ forallb wfLex (pendingLexes t) = true
  /\ frontier t + getCombinedLength (pendingLexes t) = limit
  /\ _currentBasicTokenStartIndex t = frontier t
  /\ match _currentToken t with
     | Some tok => tokenStartIndex tok = _currentTokenStartIndex t /\ _basicTokens tok <> []
     | None => pendingLexes t = []
     end.

(** What is left to tokenize, as a number: it goes down with every [next()]. *)
Definition remaining (t : Tokenizer) : nat :=
  match _currentToken t with
  | Some _ => S (length (pendingLexes t))
  | None => 0
  end.

Lemma readSpec_shorter ts b ls tok iss c :
  readSpec ts b ls tok iss c -> length (lexes c) < length ls.
Proof.
  intros (L & Hne & _). rewrite L, length_app.
  destruct (_basicTokens tok); [contradiction | simpl; lia].
Qed.

Lemma next_running (limit : nat) (t t' : Tokenizer) (iss : list Issue) :
  Inv limit t -> next t = (t', iss) ->
  Inv limit t'
  /\ here t' = frontier t
  /\ issuesWithin (frontier t) (frontier t') limit iss
  /\ pendingText t' = getCombinedText (pendingLexes t)
  /\ remaining t' <= length (pendingLexes t).
Proof.
  intros (Hs & Hwf & Hlim & Hb & Hc) H. unfold next in H. rewrite Hs in H. cbn [negb] in H.
  unfold pendingLexes in *. unfold frontier in Hlim, Hb.
  destruct (lexerInput (_tokenizer t)) as [|l ls] eqn:El.
  - injection H as <- <-. unfold Inv, here, frontier, pendingText, pendingLexes, remaining, hasStarted in *.
    cbn. rewrite El. cbn. unfold frontier.
    destruct (_currentToken t); cbn in *; repeat split; auto; try lia; try apply issuesWithin_nil.
  - destruct (readToken _ l _) as [[tok i] c] eqn:Er.
    injection H as <- <-.
    pose proof (readToken_spec _ _ _ _ _ _ _ Hwf Er) as Sp.
    pose proof (readSpec_shorter _ _ _ _ _ _ Sp) as Hlen.
    destruct Sp as (L & Hne & Hst & Hbs & Hi).
    unfold Inv, here, frontier, pendingText, pendingLexes, remaining, hasStarted. cbn.
    assert (Hts : match _currentToken t with
                  | Some tok0 => _currentTokenStartIndex t + tokenLength tok0
                  | None => _currentTokenStartIndex t
                  end = _currentBasicTokenStartIndex t) by (symmetry; exact Hb).
    rewrite Hts in *. specialize (Hi eq_refl).
    rewrite L in Hwf. apply forallb_app_inv in Hwf as [_ Hwf].
    split; [|split; [|split; [|split]]].
    + repeat split; auto;
        first [unfold tokenLength in *; lia
              | rewrite <- Hlim, L, combinedLength_app; unfold tokenLength; lia].
    + reflexivity.
    + replace (_currentBasicTokenStartIndex t + tokenLength tok) with (basicStart c) by lia.
      rewrite <- Hlim. exact Hi.
    + unfold tokenToString. rewrite <- combinedText_app, <- L. reflexivity.
    + simpl in Hlen. lia.
Qed.

(** The state after the first [next()] of a tokenizer created at index 0. *)
Lemma next_first (input : list Lex) (t' : Tokenizer) (iss : list Issue) :
  forallb wfLex input = true ->
  next (newTokenizer input 0) = (t', iss) ->
  let limit := getCombinedLength input in
  Inv limit t'
  /\ here t' = 0
  /\ issuesWithin 0 (frontier t') limit iss
  /\ pendingText t' = getCombinedText input
  /\ remaining t' <= length input.
Proof.
  intros Hwf H limit. unfold next, newTokenizer in H. cbn in H.
  destruct input as [|l ls].
  - injection H as <- <-. unfold Inv, here, frontier, pendingText, pendingLexes, remaining, hasStarted.
    cbn. repeat split; auto.
  - destruct (readToken 0 l _) as [[tok i] c] eqn:Er.
    injection H as <- <-.
    pose proof (readToken_spec _ _ _ _ _ _ _ Hwf Er) as Sp.
    pose proof (readSpec_shorter _ _ _ _ _ _ Sp) as Hlen.
    destruct Sp as (L & Hne & Hst & Hbs & Hi). specialize (Hi eq_refl).
    unfold Inv, here, frontier, pendingText, pendingLexes, remaining, hasStarted. cbn.
    pose proof Hwf as Hwf'. rewrite L in Hwf'. apply forallb_app_inv in Hwf' as [_ Hwf'].
    split; [|split; [|split; [|split]]].
    + assert (Hsum : getCombinedLength (l :: ls) = tokenLength tok + getCombinedLength (lexes c))
        by (rewrite L at 1; now rewrite combinedLength_app).
      repeat split; auto; subst limit; rewrite Hsum; lia.
    + reflexivity.
    + simpl in Hbs, Hi. rewrite Hbs in Hi. exact Hi.
    + unfold tokenToString. rewrite <- combinedText_app, <- L. reflexivity.
    + simpl in Hlen. lia.
Qed.

(** ** Segments in place *)

(** [Located s a b]: the segment [s] covers the characters from [a] up to
    [b] with its children side by side. *)
Inductive Located : Segment -> nat -> nat -> Prop :=
| LocatedToken (t : Token) :
    Located (TokenSeg t) (tokenStartIndex t) (tokenStartIndex t + tokenLength t)
| LocatedProperty (l : list Segment) (a b : nat) :
    l <> [] -> LocatedList l a b -> Located (Property l) a b
| LocatedObject (l : list Segment) (a b : nat) :
    l <> [] -> LocatedList l a b -> Located (ObjectSegment l) a b
| LocatedArray (l : list Segment) (a b : nat) :
    l <> [] -> LocatedList l a b -> Located (ArraySegment l) a b
with LocatedList : list Segment -> nat -> nat -> Prop :=
| LocatedNil (a : nat) : LocatedList [] a a
| LocatedCons (s : Segment) (l : list Segment) (a m b : nat) :
    Located s a m -> LocatedList l m b -> LocatedList (s :: l) a b.

Scheme Located_mut := Induction for Located Sort Prop
  with LocatedList_mut := Induction for LocatedList Sort Prop.
Combined Scheme Located_both from Located_mut, LocatedList_mut.

Lemma contiguous_cons (f : Segment -> nat) (x : Segment) (r : list Segment) :
  getContiguousLength f (x :: r) = lastAfterEndIndex f (x :: r) - startIndex x.
Proof. reflexivity. Qed.

Lemma located_facts :
  (forall s a b, Located s a b ->
     a <= b /\ startIndex s = a /\ getLength s = b - a)
  /\ (forall l a b, LocatedList l a b ->
        a <= b /\ (l <> [] ->
                   lastAfterEndIndex getLength l = b
                   /\ match l with first :: _ => startIndex first = a | [] => Logic.True end)).
Proof.
  apply Located_both.
  - intros t. simpl. repeat split; lia.
  - intros l a b Hne _ [Hab IH]. destruct (IH Hne) as [Hlast Hfirst].
    destruct l as [|first r]; [contradiction|].
    cbn [startIndex getLength]. rewrite contiguous_cons, Hlast, Hfirst. repeat split; lia.
  - intros l a b Hne _ [Hab IH]. destruct (IH Hne) as [Hlast Hfirst].
    destruct l as [|first r]; [contradiction|].
    cbn [startIndex getLength]. rewrite contiguous_cons, Hlast, Hfirst. repeat split; lia.
  - intros l a b Hne _ [Hab IH]. destruct (IH Hne) as [Hlast Hfirst].
    destruct l as [|first r]; [contradiction|].
    cbn [startIndex getLength]. rewrite contiguous_cons, Hlast, Hfirst. repeat split; lia.
  - intros a. split; [lia | intros H; contradiction].
  - intros s l a m b _ (Ham & Hs & Hlen) HL (Hmb & IH). split; [lia|]. intros _.
    split; [|exact Hs].
    destruct l as [|s' r].
    + simpl. inversion HL; subst. rewrite Hlen. lia.
    + destruct IH as [Hl _]; [discriminate|]. exact Hl.
Qed.

Lemma located_span (s : Segment) (a b : nat) :
  Located s a b -> span s = mkSpan a (b - a) /\ a <= b.
Proof.
  intros H. destruct (proj1 located_facts _ _ _ H) as (Hab & Hs & Hl).
  unfold span. now rewrite Hs, Hl.
Qed.

Lemma locatedList_le (l : list Segment) (a b : nat) : LocatedList l a b -> a <= b.
Proof. intros H. exact (proj1 (proj2 located_facts _ _ _ H)). Qed.

Lemma locatedList_app (l1 l2 : list Segment) (a m b : nat) :
  LocatedList l1 a m -> LocatedList l2 m b -> LocatedList (l1 ++ l2) a b.
Proof.
  intros H1. revert l2 b. induction H1 as [a | s l a m' m Hs Hl IH]; intros l2 b H2.
  - exact H2.
  - simpl. econstructor; [exact Hs | now apply IH].
Qed.

Lemma combinedText_segments_app (l1 l2 : list Segment) :
  combinedText toString (l1 ++ l2) = combinedText toString l1 +++ combinedText toString l2.
Proof.
  induction l1 as [|s l1 IH]; simpl; [reflexivity|]. now rewrite IH, append_assoc.
Qed.

(** For segments in place, the contiguous length of [qub.getContiguousLength]
    is the combined length of the children. *)
Lemma located_length_text :
  (forall s a b, Located s a b -> b - a = String.length (toString s))
  /\ (forall l a b, LocatedList l a b -> b - a = String.length (combinedText toString l)).
Proof.
  apply Located_both; simpl; auto.
  - intros t. unfold tokenLength, tokenToString. rewrite combinedLength_text. lia.
  - intros a. lia.
  - intros s l a m b Hs IHs Hl IHl. rewrite length_append, <- IHs, <- IHl.
    apply (proj1 located_facts) in Hs. apply locatedList_le in Hl. lia.
Qed.

(** ** Running the parser *)

(** [Triple m t Q]: from the tokenizer state [t] the computation [m] returns,
    and its result, final state and added issues satisfy [Q]. *)
Definition Triple {A : Type} (m : Parser A) (t : Tokenizer)
           (Q : A -> Tokenizer -> list Issue -> Prop) : Prop :=
  exists a t' iss, m t = Some (a, t', iss) /\ Q a t' iss.

Lemma triple_ret {A : Type} (a : A) t (Q : A -> Tokenizer -> list Issue -> Prop) :
  Q a t [] -> Triple (ret a) t Q.
Proof. intros H. exists a, t, []. split; [reflexivity | exact H]. Qed.

Lemma triple_bind {A B : Type} (m : Parser A) (f : A -> Parser B) t
      (Q1 : A -> Tokenizer -> list Issue -> Prop)
      (Q : B -> Tokenizer -> list Issue -> Prop) :
  Triple m t Q1 ->
  (forall a t1 i1, Q1 a t1 i1 -> Triple (f a) t1 (fun b t2 i2 => Q b t2 (i1 ++ i2))) ->
  Triple (bind m f) t Q.
Proof.
  intros (a & t1 & i1 & Hm & H1) Hf.
  destruct (Hf a t1 i1 H1) as (b & t2 & i2 & Hfa & H2).
  exists b, t2, (i1 ++ i2). split; [|exact H2].
  unfold bind. now rewrite Hm, Hfa.
Qed.

Lemma triple_current {A : Type} (k : option Token -> Parser A) t
      (Q : A -> Tokenizer -> list Issue -> Prop) :
  Triple (k (getCurrent t)) t Q -> Triple (cur <- tokenizerCurrent ;; k cur) t Q.
Proof.
  intros (a & t' & iss & Hk & H). exists a, t', iss. split; [|exact H].
  unfold bind, tokenizerCurrent. now rewrite Hk.
Qed.

Lemma triple_next {A : Type} (k : Parser A) t
      (Q : A -> Tokenizer -> list Issue -> Prop) :
  (forall t1 i1, next t = (t1, i1) -> Triple k t1 (fun b t2 i2 => Q b t2 (i1 ++ i2))) ->
  Triple (tokenizerNext ;; k) t Q.
Proof.
  intros H. destruct (next t) as [t1 i1] eqn:E.
  destruct (H t1 i1 eq_refl) as (b & t2 & i2 & Hk & HQ).
  exists b, t2, (i1 ++ i2). split; [|exact HQ].
  unfold bind, tokenizerNext. now rewrite E, Hk.
Qed.

Lemma triple_addIssue {A : Type} (x : Issue) (k : Parser A) t
      (Q : A -> Tokenizer -> list Issue -> Prop) :
  Triple k t (fun b t2 i2 => Q b t2 ([x] ++ i2)) -> Triple (addIssue x ;; k) t Q.
Proof.
  intros (b & t2 & i2 & Hk & HQ). exists b, t2, ([x] ++ i2). split; [|exact HQ].
  unfold bind, addIssue. now rewrite Hk.
Qed.

Lemma triple_addIssueIf {A : Type} (c : bool) (x : Issue) (k : Parser A) t
      (Q : A -> Tokenizer -> list Issue -> Prop) :
  Triple k t (fun b t2 i2 => Q b t2 ((if c then [x] else []) ++ i2)) ->
  Triple (addIssueIf c x ;; k) t Q.
Proof.
  intros (b & t2 & i2 & Hk & HQ). exists b, t2, ((if c then [x] else []) ++ i2).
  split; [|exact HQ]. unfold bind, addIssueIf, addIssue, ret. destruct c; now rewrite Hk.
Qed.

(** What a parser step does to the tokenizer and the sink: it hands out the
    segments [segs], which lie side by side from the old position to the new
    one and spell the text consumed; its issues start at or after the old
    position and stay inside the text. *)
Definition Post (limit : nat) (t : Tokenizer) (segs : list Segment) (t' : Tokenizer)
           (iss : list Issue) : Prop :=
  Inv limit t'
  /\ LocatedList segs (here t) (here t')
  /\ combinedText toString segs +++ pendingText t' = pendingText t
  /\ Forall (fun i => here t <= issueStart i /\ issueAfterEnd i <= limit) iss
  /\ remaining t' + length segs <= remaining t.

Lemma post_nil limit t : Inv limit t -> Post limit t [] t [].
Proof.
  intros H. unfold Post. split; [exact H|]. split; [constructor|].
  split; [reflexivity|]. split; [constructor | simpl; lia].
Qed.

Lemma frontier_le_limit limit t : Inv limit t -> frontier t <= limit.
Proof. intros (_ & _ & H & _). lia. Qed.

Lemma here_le_frontier t : here t <= frontier t.
Proof. unfold here, frontier. destruct (_currentToken t); lia. Qed.

Lemma current_token_facts limit t tok :
  Inv limit t -> getCurrent t = Some tok ->
  tokenStartIndex tok = here t
  /\ here t + tokenLength tok = frontier t
  /\ remaining t = S (length (pendingLexes t)).
Proof.
  unfold getCurrent, here, frontier, remaining. intros (_ & _ & _ & _ & H) E.
  rewrite E in *. destruct H as [H _]. auto.
Qed.

Lemma post_next limit t tok t' iss :
  Inv limit t -> getCurrent t = Some tok -> next t = (t', iss) ->
  Post limit t [TokenSeg tok] t' iss.
Proof.
  intros HI Hc Hn.
  destruct (next_running _ _ _ _ HI Hn) as (HI' & Hh & [HF _] & Ht & Hr).
  destruct (current_token_facts _ _ _ HI Hc) as (Hs & Hf & Hrem).
  unfold Post. split; [exact HI'|]. split; [|split; [|split]].
  - econstructor; [|rewrite Hh; constructor]. rewrite <- Hf, <- Hs. constructor.
  - simpl. rewrite append_nil_r, Ht. unfold pendingText. unfold getCurrent in Hc. now rewrite Hc.
  - eapply Forall_impl; [|exact HF]. cbv beta. intros i Hi.
    pose proof (here_le_frontier t). lia.
  - simpl. lia.
Qed.

Lemma post_trans limit t s1 t1 i1 s2 t2 i2 :
  Post limit t s1 t1 i1 -> Post limit t1 s2 t2 i2 ->
  Post limit t (s1 ++ s2) t2 (i1 ++ i2).
Proof.
  intros (HI1 & L1 & T1 & F1 & R1) (HI2 & L2 & T2 & F2 & R2).
  unfold Post. split; [exact HI2|]. split; [|split; [|split]].
  - eapply locatedList_app; eauto.
  - rewrite combinedText_segments_app, append_assoc, T2, T1. reflexivity.
  - apply Forall_app. split; [exact F1|].
    eapply Forall_impl; [|exact F2]. cbv beta. intros i Hi.
    apply locatedList_le in L1. lia.
  - rewrite length_app. lia.
Qed.

Lemma post_issue_r limit t s t' iss x :
  Post limit t s t' iss -> here t <= issueStart x -> issueAfterEnd x <= limit ->
  Post limit t s t' (iss ++ [x]).
Proof.
  intros (HI & L & T & F & R) H1 H2. unfold Post.
  split; [exact HI|]. split; [exact L|]. split; [exact T|]. split; [|exact R].
  apply Forall_app. split; [exact F|]. constructor; [split; assumption | constructor].
Qed.

Lemma post_issue_l limit t s t' iss x :
  Post limit t s t' iss -> here t <= issueStart x -> issueAfterEnd x <= limit ->
  Post limit t s t' ([x] ++ iss).
Proof.
  intros (HI & L & T & F & R) H1 H2. unfold Post.
  split; [exact HI|]. split; [exact L|]. split; [exact T|]. split; [|exact R].
  constructor; [split; assumption | exact F].
Qed.

Lemma post_issues_l limit t s t' iss (c : bool) x :
  Post limit t s t' iss -> here t <= issueStart x -> issueAfterEnd x <= limit ->
  Post limit t s t' ((if c then [x] else []) ++ iss).
Proof. destruct c; [apply post_issue_l | auto]. Qed.

Lemma post_issues_r limit t s t' iss (c : bool) x :
  Post limit t s t' iss -> here t <= issueStart x -> issueAfterEnd x <= limit ->
  Post limit t s t' (iss ++ (if c then [x] else [])).
Proof. destruct c; [apply post_issue_r | rewrite app_nil_r; auto]. Qed.

Lemma post_wrap limit t l t' iss (wrap : list Segment -> Segment) :
  wrap = Property \/ wrap = ObjectSegment \/ wrap = ArraySegment ->
  l <> [] -> Post limit t l t' iss -> Post limit t [wrap l] t' iss.
Proof.
  intros Hw Hne (HI & L & T & F & R). unfold Post.
  split; [exact HI|]. split; [|split; [|split; [exact F|]]].
  - econstructor; [|constructor].
    destruct Hw as [-> | [-> | ->]]; constructor; auto.
  - simpl. rewrite append_nil_r.
    destruct Hw as [-> | [-> | ->]]; exact T.
  - destruct l; [contradiction|]. simpl in *. lia.
Qed.

Lemma token_issue_bounds limit t tok (msg : string) :
  Inv limit t -> getCurrent t = Some tok ->
  issueStart (Error msg (tokenSpan tok)) = here t
  /\ issueAfterEnd (Error msg (tokenSpan tok)) <= limit.
Proof.
  intros HI Hc. destruct (current_token_facts _ _ _ HI Hc) as (Hs & Hf & _).
  pose proof (frontier_le_limit _ _ HI).
  unfold issueStart, issueAfterEnd, spanAfterEnd, tokenSpan. simpl. split; lia.
Qed.

Lemma post_here_le limit t s t' iss : Post limit t s t' iss -> here t <= here t'.
Proof. intros (_ & L & _). now apply locatedList_le in L. Qed.

Lemma skipWhitespace_spec (limit : nat) (fuel : nat) :
  forall t, Inv limit t -> remaining t <= fuel ->
  Triple (skipWhitespace fuel) t
    (fun ws t' iss =>
       Post limit t ws t' iss
       /\ Forall (fun s => isTokenOfType s TokenType.Whitespace = true) ws).
Proof.
  induction fuel as [|n IH]; intros t HI Hf.
  - cbn [skipWhitespace]. apply triple_current.
    destruct (getCurrent t) as [tok|] eqn:Hc.
    + unfold getCurrent in Hc. unfold remaining in Hf. rewrite Hc in Hf. lia.
    + apply triple_ret. split; [now apply post_nil | constructor].
  - cbn [skipWhitespace]. apply triple_current.
    destruct (getCurrent t) as [tok|] eqn:Hc.
    + destruct (TokenType.eqb (getType tok) TokenType.Whitespace) eqn:Ew.
      * apply triple_next. intros t1 i1 Hn.
        pose proof (post_next _ _ _ _ _ HI Hc Hn) as P1.
        eapply triple_bind.
        { apply IH; [apply P1|]. destruct P1 as (_ & _ & _ & _ & R). simpl in R. lia. }
        cbv beta. intros ws t2 i2 [P2 W2]. apply triple_ret.
        rewrite app_nil_r. split.
        -- exact (post_trans _ _ _ _ _ _ _ _ P1 P2).
        -- constructor; [exact Ew | exact W2].
      * apply triple_ret. split; [now apply post_nil | constructor].
    + apply triple_ret. split; [now apply post_nil | constructor].
Qed.

Fixpoint lastSegment (l : list Segment) : option Segment :=
  match l with
  | [] => None
  | s :: r => match r with [] => Some s | _ => lastSegment r end
  end.

(** An object or array is closed when its last segment is its right bracket. *)
Definition closedBy (ty : TokenType.t) (l : list Segment) : bool :=
  match lastSegment l with
  | Some s => isTokenOfType s ty
  | None => false
  end.

Lemma closedBy_cons (ty : TokenType.t) (s : Segment) (l : list Segment) :
  isTokenOfType s ty = false -> closedBy ty (s :: l) = closedBy ty l.
Proof.
  intros H. unfold closedBy. simpl. destruct l; [simpl; exact H | reflexivity].
Qed.

Definition PostProperty (limit : nat) (t : Tokenizer)
  : Segment -> Tokenizer -> list Issue -> Prop :=
  fun seg t' iss => Post limit t [seg] t' iss /\ exists l, seg = Property l.

(** The loops of [parseObject] and [parseArray] stop at the end of the text
    or right after the closing bracket. *)
Definition PostLoop (limit : nat) (close : TokenType.t) (t : Tokenizer)
  : list Segment * bool -> Tokenizer -> list Issue -> Prop :=
  fun r t' iss =>
    Post limit t (fst r) t' iss
    /\ (snd r = false -> getCurrent t' = None)
    /\ snd r = closedBy close (fst r).

(** A bracketed segment: its loop issues, then the missing-bracket issue
    when the loop ran to the end of the text. *)
Definition PostBracketed (limit : nat) (wrap : list Segment -> Segment)
           (close : TokenType.t) (missing : string) (t : Tokenizer)
  : Segment -> Tokenizer -> list Issue -> Prop :=
  fun seg t' iss =>
    Post limit t [seg] t' iss
    /\ exists open added inner,
        getCurrent t = Some open
        /\ seg = wrap (TokenSeg open :: added)
        /\ iss = inner ++ (if closedBy close added then [] else [Error missing (tokenSpan open)])
        /\ Forall (fun i => frontier t <= issueStart i) inner
        /\ (closedBy close added = false -> getCurrent t' = None).

Definition parserSpecs (limit fuel : nat) : Prop :=
  (forall t name, Inv limit t -> getCurrent t = Some name -> 2 * remaining t <= fuel ->
     Triple (parseProperty fuel) t (PostProperty limit t))
  /\ (forall t tok, Inv limit t -> getCurrent t = Some tok -> 2 * remaining t <= fuel ->
        Triple (parseObject fuel) t
          (PostBracketed limit ObjectSegment TokenType.RightCurlyBracket msgMissingRightCurly t))
  /\ (forall t flags, Inv limit t -> 2 * remaining t + 1 <= fuel ->
        Triple (parseObjectLoop fuel flags) t (PostLoop limit TokenType.RightCurlyBracket t))
  /\ (forall t tok, Inv limit t -> getCurrent t = Some tok -> 2 * remaining t <= fuel ->
        Triple (parseArray fuel) t
          (PostBracketed limit ArraySegment TokenType.RightSquareBracket msgMissingRightSquare t))
  /\ (forall t flags, Inv limit t -> 2 * remaining t + 1 <= fuel ->
        Triple (parseArrayLoop fuel flags) t (PostLoop limit TokenType.RightSquareBracket t)).

Lemma remaining_current t tok : getCurrent t = Some tok -> 1 <= remaining t.
Proof. unfold getCurrent, remaining. intros ->. lia. Qed.

Lemma remaining_none t : getCurrent t = None -> remaining t = 0.
Proof. unfold getCurrent, remaining. now intros ->. Qed.

Lemma post_remaining limit t s t' iss :
  Post limit t s t' iss -> remaining t' + length s <= remaining t.
Proof. intros (_ & _ & _ & _ & R). exact R. Qed.

Lemma post_inv limit t s t' iss : Post limit t s t' iss -> Inv limit t'.
Proof. intros (H & _). exact H. Qed.

Lemma bracketed_post limit wrap close missing t seg t' iss :
  PostBracketed limit wrap close missing t seg t' iss -> Post limit t [seg] t' iss.
Proof. intros [H _]. exact H. Qed.

Ltac wrap_as W :=
  apply (post_wrap _ _ _ _ _ W);
  [ tauto
  | first [discriminate | intros Habs; apply app_eq_nil in Habs as [Habs _]; discriminate
          | intros Habs; apply app_eq_nil in Habs as [_ Habs]; discriminate]
  | ].

Lemma property_step (limit n : nat) :
  parserSpecs limit n ->
  forall t name, Inv limit t -> getCurrent t = Some name -> 2 * remaining t <= S n ->
    Triple (parseProperty (S n)) t (PostProperty limit t).
Proof.
  intros (_ & IHobj & _ & IHarr & _) t name HI Hc Hf.
  cbn [parseProperty]. apply triple_current. rewrite Hc.
  apply triple_next. intros t1 i1 Hn1.
  pose proof (post_next _ _ _ _ _ HI Hc Hn1) as P1.
  pose proof (post_remaining _ _ _ _ _ P1) as R1. simpl in R1.
  pose proof (token_issue_bounds _ _ _ msgMissingColon HI Hc) as [Bs Be].
  eapply triple_bind.
  { apply (skipWhitespace_spec limit n t1); [exact (post_inv _ _ _ _ _ P1) | lia]. }
  cbv beta. intros ws1 t2 i2 [P2 _].
  pose proof (post_trans _ _ _ _ _ _ _ _ P1 P2) as P12.
  pose proof (post_remaining _ _ _ _ _ P12) as R12. rewrite length_app in R12. simpl in R12.
  pose proof (post_here_le _ _ _ _ _ P12) as H12.
  apply triple_current. destruct (getCurrent t2) as [colon|] eqn:Hc2.
  2:{ apply triple_addIssue. apply triple_ret. unfold PostProperty; split; [|eexists; reflexivity].
      rewrite ?app_nil_r, !app_assoc. wrap_as Property.
      apply post_issue_r; [exact P12 | lia | exact Be]. }
  pose proof (post_inv _ _ _ _ _ P12) as HI2.
  destruct (TokenType.eqb (getType colon) TokenType.Colon) eqn:Ecol; cbn [negb].
  2:{ apply triple_addIssue. apply triple_ret. unfold PostProperty; split; [|eexists; reflexivity].
      rewrite ?app_nil_r, !app_assoc. wrap_as Property.
      destruct (token_issue_bounds _ _ _ msgExpectedColon HI2 Hc2) as [Bs2 Be2].
      apply post_issue_r; [exact P12 | lia | exact Be2]. }
  apply triple_next. intros t3 i3 Hn3.
  pose proof (post_next _ _ _ _ _ HI2 Hc2 Hn3) as P3.
  pose proof (post_trans _ _ _ _ _ _ _ _ P12 P3) as P123.
  pose proof (post_remaining _ _ _ _ _ P3) as R3. simpl in R3.
  eapply triple_bind.
  { apply (skipWhitespace_spec limit n t3); [exact (post_inv _ _ _ _ _ P3) | lia]. }
  cbv beta. intros ws2 t4 i4 [P4 _].
  pose proof (post_trans _ _ _ _ _ _ _ _ P123 P4) as P1234.
  pose proof (post_remaining _ _ _ _ _ P4) as R4.
  pose proof (post_inv _ _ _ _ _ P4) as HI4.
  replace ((([TokenSeg name] ++ ws1) ++ [TokenSeg colon]) ++ ws2)
    with ((TokenSeg name :: ws1) ++ TokenSeg colon :: ws2) in P1234
    by (simpl; now rewrite <- app_assoc).
  pose proof (post_here_le _ _ _ _ _ P1234) as H1234.
  apply triple_current. destruct (getCurrent t4) as [v|] eqn:Hc4.
  2:{ apply triple_addIssue. apply triple_ret. unfold PostProperty; split; [|eexists; reflexivity].
      rewrite ?app_nil_r, !app_assoc. wrap_as Property.
      destruct (token_issue_bounds _ _ _ msgMissingPropertyValue HI2 Hc2) as [Bs2 Be2].
      apply post_issue_r; [exact P1234 | lia | exact Be2]. }
  destruct (token_issue_bounds _ _ _ msgExpectedPropertyValue HI4 Hc4) as [Bs4 Be4].
  assert (Hlit : Triple (tokenizerNext ;; ret (Property (((TokenSeg name :: ws1) ++ TokenSeg colon :: ws2) ++ [TokenSeg v]))) t4
            (fun b t5 i5 => PostProperty limit t b t5 (i1 ++ i2 ++ i3 ++ i4 ++ i5))).
  { apply triple_next. intros t5 i5 Hn5. apply triple_ret. unfold PostProperty; split; [|eexists; reflexivity].
    pose proof (post_next _ _ _ _ _ HI4 Hc4 Hn5) as P5.
    rewrite ?app_nil_r, !app_assoc. wrap_as Property.
    exact (post_trans _ _ _ _ _ _ _ _ P1234 P5). }
  assert (Hbad : Triple (addIssue (Error msgExpectedPropertyValue (tokenSpan v)) ;;
                         ret (Property ((TokenSeg name :: ws1) ++ TokenSeg colon :: ws2))) t4
            (fun b t5 i5 => PostProperty limit t b t5 (i1 ++ i2 ++ i3 ++ i4 ++ i5))).
  { apply triple_addIssue. apply triple_ret. unfold PostProperty; split; [|eexists; reflexivity].
    rewrite ?app_nil_r, !app_assoc. wrap_as Property.
    apply post_issue_r; [exact P1234 | lia | exact Be4]. }
  destruct (getType v) eqn:Ev; try exact Hlit; try exact Hbad.
  - (* object value *)
    eapply triple_bind.
    { apply (IHobj t4 v HI4 Hc4). lia. }
    cbv beta. intros object t5 i5 P5. apply bracketed_post in P5. apply triple_ret. unfold PostProperty; split; [|eexists; reflexivity].
    rewrite ?app_nil_r, !app_assoc. wrap_as Property.
    exact (post_trans _ _ _ _ _ _ _ _ P1234 P5).
  - (* array value *)
    eapply triple_bind.
    { apply (IHarr t4 v HI4 Hc4). lia. }
    cbv beta. intros array t5 i5 P5. apply bracketed_post in P5. apply triple_ret. unfold PostProperty; split; [|eexists; reflexivity].
    rewrite ?app_nil_r, !app_assoc. wrap_as Property.
    exact (post_trans _ _ _ _ _ _ _ _ P1234 P5).
Qed.

Lemma post_pre limit t s t' iss pre :
  Post limit t s t' iss ->
  Forall (fun i => here t <= issueStart i /\ issueAfterEnd i <= limit) pre ->
  Post limit t s t' (pre ++ iss).
Proof.
  intros (HI & L & T & F & R) Hp. unfold Post.
  split; [exact HI|]. split; [exact L|]. split; [exact T|]. split; [|exact R].
  apply Forall_app. split; assumption.
Qed.

Lemma pre_issue_if limit t tok (c : bool) (msg : string) :
  Inv limit t -> getCurrent t = Some tok ->
  Forall (fun i => here t <= issueStart i /\ issueAfterEnd i <= limit)
    (if c then [Error msg (tokenSpan tok)] else []).
Proof.
  intros HI Hc. destruct c; [|constructor].
  destruct (token_issue_bounds _ _ _ msg HI Hc) as [Bs Be].
  constructor; [split; [lia | exact Be] | constructor].
Qed.

(** A loop iteration that appends the current token and goes on. *)
Lemma loop_continue limit close t tok (loop : Parser (list Segment * bool)) pre :
  Inv limit t -> getCurrent t = Some tok ->
  TokenType.eqb (getType tok) close = false ->
  Forall (fun i => here t <= issueStart i /\ issueAfterEnd i <= limit) pre ->
  (forall t1, Inv limit t1 -> remaining t1 + 1 <= remaining t ->
     Triple loop t1 (PostLoop limit close t1)) ->
  Triple (tokenizerNext ;; r <- loop ;; ret (TokenSeg tok :: fst r, snd r)) t
    (fun r t' iss => PostLoop limit close t r t' (pre ++ iss)).
Proof.
  intros HI Hc Hty Hpre Hloop.
  apply triple_next. intros t1 i1 Hn1.
  pose proof (post_next _ _ _ _ _ HI Hc Hn1) as P1.
  pose proof (post_remaining _ _ _ _ _ P1) as R1. simpl in R1.
  eapply triple_bind.
  { apply Hloop; [exact (post_inv _ _ _ _ _ P1) | lia]. }
  cbv beta. intros [added closed] t2 i2 (P2 & Hnone & Hclosed). simpl in *.
  apply triple_ret. unfold PostLoop. simpl. rewrite app_nil_r.
  split; [|split].
  - apply post_pre; [|exact Hpre]. exact (post_trans _ _ _ _ _ _ _ _ P1 P2).
  - exact Hnone.
  - rewrite closedBy_cons; [exact Hclosed | exact Hty].
Qed.

(** A loop iteration that appends a parsed property, object or array and
    goes on. *)
Lemma loop_continue_seg limit close t (sub : Parser Segment)
      (loop : Parser (list Segment * bool)) pre :
  Forall (fun i => here t <= issueStart i /\ issueAfterEnd i <= limit) pre ->
  Triple sub t (fun seg t1 i1 =>
                  Post limit t [seg] t1 i1 /\ isTokenOfType seg close = false) ->
  (forall t1, Inv limit t1 -> remaining t1 + 1 <= remaining t ->
     Triple loop t1 (PostLoop limit close t1)) ->
  Triple (seg <- sub ;; r <- loop ;; ret (seg :: fst r, snd r)) t
    (fun r t' iss => PostLoop limit close t r t' (pre ++ iss)).
Proof.
  intros Hpre Hsub Hloop.
  eapply triple_bind; [exact Hsub|].
  cbv beta. intros seg t1 i1 [P1 Hty].
  pose proof (post_remaining _ _ _ _ _ P1) as R1. simpl in R1.
  eapply triple_bind.
  { apply Hloop; [exact (post_inv _ _ _ _ _ P1) | lia]. }
  cbv beta. intros [added closed] t2 i2 (P2 & Hnone & Hclosed). simpl in *.
  apply triple_ret. unfold PostLoop. simpl. rewrite app_nil_r.
  split; [|split].
  - apply post_pre; [|exact Hpre]. exact (post_trans _ _ _ _ _ _ _ _ P1 P2).
  - exact Hnone.
  - rewrite closedBy_cons; [exact Hclosed | exact Hty].
Qed.

(** The iteration that appends the closing bracket and stops. *)
Lemma loop_close limit close t tok pre :
  Inv limit t -> getCurrent t = Some tok -> getType tok = close ->
  Forall (fun i => here t <= issueStart i /\ issueAfterEnd i <= limit) pre ->
  Triple (tokenizerNext ;; ret ([TokenSeg tok], true)) t
    (fun r t' iss => PostLoop limit close t r t' (pre ++ iss)).
Proof.
  intros HI Hc Hty Hpre.
  apply triple_next. intros t1 i1 Hn1.
  pose proof (post_next _ _ _ _ _ HI Hc Hn1) as P1.
  apply triple_ret. unfold PostLoop. simpl. rewrite app_nil_r.
  split; [|split].
  - apply post_pre; [exact P1 | exact Hpre].
  - discriminate.
  - unfold closedBy. simpl. symmetry. now apply tokenType_eqb_eq.
Qed.

Lemma triple_weaken {A : Type} (m : Parser A) t (Q Q' : A -> Tokenizer -> list Issue -> Prop) :
  Triple m t Q -> (forall a t' iss, Q a t' iss -> Q' a t' iss) -> Triple m t Q'.
Proof. intros (a & t' & iss & H & HQ) Himp. exists a, t', iss. auto. Qed.

Lemma pre_nil (t : Tokenizer) (limit : nat) :
  Forall (fun i => here t <= issueStart i /\ issueAfterEnd i <= limit) [].
Proof. constructor. Qed.

Lemma triple_no_pre {A : Type} (m : Parser A) t (Q : A -> Tokenizer -> list Issue -> Prop) :
  Triple m t (fun a t' iss => Q a t' ([] ++ iss)) -> Triple m t Q.
Proof. exact (fun H => H). Qed.

Lemma objectLoop_step (limit n : nat) :
  parserSpecs limit n ->
  forall t flags, Inv limit t -> 2 * remaining t + 1 <= S n ->
    Triple (parseObjectLoop (S n) flags) t (PostLoop limit TokenType.RightCurlyBracket t).
Proof.
  intros (IHprop & _ & IHloop & _) t flags HI Hf.
  cbn [parseObjectLoop]. apply triple_current.
  destruct (getCurrent t) as [tok|] eqn:Hc.
  2:{ apply triple_ret. split; [now apply post_nil|]. split; [intros _; exact Hc | reflexivity]. }
  assert (Hrec : forall fl t1, Inv limit t1 -> remaining t1 + 1 <= remaining t ->
            Triple (parseObjectLoop n fl) t1 (PostLoop limit TokenType.RightCurlyBracket t1)).
  { intros fl t1 HI1 R1. apply IHloop; [exact HI1 | lia]. }
  destruct (getType tok) eqn:Ety.
  all: try (apply triple_addIssueIf; apply loop_continue;
            [exact HI | exact Hc | rewrite Ety; reflexivity
            | now apply pre_issue_if | apply Hrec]).
  all: try (apply triple_no_pre; apply loop_continue;
            [exact HI | exact Hc | rewrite Ety; reflexivity | apply pre_nil | apply Hrec]).
  all: try (apply triple_addIssue; apply loop_continue;
            [exact HI | exact Hc | rewrite Ety; reflexivity
            | apply (pre_issue_if _ _ _ true); assumption | apply Hrec]).
  - (* right curly bracket *)
    apply triple_addIssueIf. apply loop_close; auto. now apply pre_issue_if.
  - (* quoted string: a property *)
    apply triple_addIssueIf. apply loop_continue_seg.
    + now apply pre_issue_if.
    + eapply triple_weaken.
      * apply (IHprop t tok HI Hc). lia.
      * cbv beta. intros seg t1 i1 [P1 [l ->]]. split; [exact P1 | reflexivity].
    + apply Hrec.
Qed.

Lemma arrayLoop_step (limit n : nat) :
  parserSpecs limit n ->
  forall t flags, Inv limit t -> 2 * remaining t + 1 <= S n ->
    Triple (parseArrayLoop (S n) flags) t (PostLoop limit TokenType.RightSquareBracket t).
Proof.
  intros (_ & IHobj & _ & IHarr & IHloop) t flags HI Hf.
  cbn [parseArrayLoop]. apply triple_current.
  destruct (getCurrent t) as [tok|] eqn:Hc.
  2:{ apply triple_ret. split; [now apply post_nil|]. split; [intros _; exact Hc | reflexivity]. }
  assert (Hrec : forall fl t1, Inv limit t1 -> remaining t1 + 1 <= remaining t ->
            Triple (parseArrayLoop n fl) t1 (PostLoop limit TokenType.RightSquareBracket t1)).
  { intros fl t1 HI1 R1. apply IHloop; [exact HI1 | lia]. }
  destruct (getType tok) eqn:Ety.
  all: try (apply triple_addIssueIf; apply loop_continue;
            [exact HI | exact Hc | rewrite Ety; reflexivity
            | now apply pre_issue_if | apply Hrec]).
  all: try (apply triple_no_pre; apply loop_continue;
            [exact HI | exact Hc | rewrite Ety; reflexivity | apply pre_nil | apply Hrec]).
  all: try (apply triple_addIssue; apply loop_continue;
            [exact HI | exact Hc | rewrite Ety; reflexivity
            | apply (pre_issue_if _ _ _ true); assumption | apply Hrec]).
  - (* left curly bracket: an object *)
    apply triple_addIssueIf. apply loop_continue_seg.
    + now apply pre_issue_if.
    + eapply triple_weaken.
      * apply (IHobj t tok HI Hc). lia.
      * cbv beta. intros seg t1 i1 [P1 (op & added & inner & _ & -> & _)].
        split; [exact P1 | reflexivity].
    + apply Hrec.
  - (* left square bracket: an array *)
    apply triple_addIssueIf. apply loop_continue_seg.
    + now apply pre_issue_if.
    + eapply triple_weaken.
      * apply (IHarr t tok HI Hc). lia.
      * cbv beta. intros seg t1 i1 [P1 (op & added & inner & _ & -> & _)].
        split; [exact P1 | reflexivity].
    + apply Hrec.
  - (* right square bracket *)
    apply triple_addIssueIf. apply loop_close; auto. now apply pre_issue_if.
Qed.

Lemma bracketed_step limit wrap close missing t tok (loop : Parser (list Segment * bool)) :
  wrap = ObjectSegment \/ wrap = ArraySegment ->
  Inv limit t -> getCurrent t = Some tok ->
  (forall t1, Inv limit t1 -> remaining t1 + 1 <= remaining t ->
     Triple loop t1 (PostLoop limit close t1)) ->
  Triple (tokenizerNext ;;
          r <- loop ;;
          let '(added, closed) := r in
          addIssueIf (negb closed) (Error missing (tokenSpan tok)) ;;
          ret (wrap (TokenSeg tok :: added))) t
    (PostBracketed limit wrap close missing t).
Proof.
  intros Hw HI Hc Hloop.
  apply triple_next. intros t1 i1 Hn1.
  pose proof (post_next _ _ _ _ _ HI Hc Hn1) as P1.
  pose proof (post_remaining _ _ _ _ _ P1) as R1. simpl in R1.
  destruct (next_running _ _ _ _ HI Hn1) as (_ & Hh1 & [HF1 _] & _).
  eapply triple_bind.
  { apply Hloop; [exact (post_inv _ _ _ _ _ P1) | lia]. }
  cbv beta. intros [added closed] t2 i2 (P2 & Hnone & Hclosed). simpl in *.
  apply triple_addIssueIf. apply triple_ret. rewrite app_nil_r.
  pose proof (post_trans _ _ _ _ _ _ _ _ P1 P2) as P12.
  destruct (token_issue_bounds _ _ _ missing HI Hc) as [Bs Be].
  split.
  - rewrite app_assoc. apply (post_wrap _ _ _ _ _ wrap); [tauto | discriminate |].
    apply post_issues_r; [exact P12 | lia | exact Be].
  - exists tok, added, (i1 ++ i2). split; [exact Hc|]. split; [reflexivity|].
    rewrite <- Hclosed. split; [|split].
    + rewrite app_assoc. now destruct closed.
    + apply Forall_app. split.
      * eapply Forall_impl; [|exact HF1]. cbv beta. intros i Hi. lia.
      * destruct P2 as (_ & _ & _ & F2 & _).
        eapply Forall_impl; [|exact F2]. cbv beta. intros i Hi. lia.
    + exact Hnone.
Qed.

Lemma parser_specs (limit : nat) : forall fuel, parserSpecs limit fuel.
Proof.
  induction fuel as [|n IH].
  - unfold parserSpecs. repeat split; intros.
    all: try (match goal with H : getCurrent _ = Some _ |- _ => apply remaining_current in H end; lia).
    all: lia.
  - pose proof IH as (IHprop & IHobj & IHoloop & IHarr & IHaloop).
    split; [|split; [|split; [|split]]].
    + now apply property_step.
    + intros t tok HI Hc Hf. cbn [parseObject]. apply triple_current. rewrite Hc.
      apply bracketed_step; auto.
      intros t1 HI1 R1. apply IHoloop; [exact HI1 | lia].
    + now apply objectLoop_step.
    + intros t tok HI Hc Hf. cbn [parseArray]. apply triple_current. rewrite Hc.
      apply bracketed_step; auto.
      intros t1 HI1 R1. apply IHaloop; [exact HI1 | lia].
    + now apply arrayLoop_step.
Qed.

(** What [parseSegment] returns, by the type of the current token [tok]. *)
Definition PostSegment (limit : nat) (t : Tokenizer) (tok : Token)
  : Segment -> Tokenizer -> list Issue -> Prop :=
  fun seg t' iss =>
    Post limit t [seg] t' iss
    /\ match getType tok with
       | TokenType.LeftCurlyBracket =>
           PostBracketed limit ObjectSegment TokenType.RightCurlyBracket
             msgMissingRightCurly t seg t' iss
       | TokenType.LeftSquareBracket =>
           PostBracketed limit ArraySegment TokenType.RightSquareBracket
             msgMissingRightSquare t seg t' iss
       | _ => seg = TokenSeg tok /\ next t = (t', iss)
       end.

Lemma parseSegment_spec (limit fuel : nat) t tok :
  Inv limit t -> getCurrent t = Some tok -> 2 * remaining t <= fuel ->
  Triple (parseSegment fuel) t (PostSegment limit t tok).
Proof.
  intros HI Hc Hf. destruct (parser_specs limit fuel) as (_ & Hobj & _ & Harr & _).
  unfold parseSegment. apply triple_current. rewrite Hc.
  assert (Htok : Triple (tokenizerNext ;; ret (TokenSeg tok)) t
                   (fun seg t' iss => Post limit t [seg] t' iss
                                      /\ seg = TokenSeg tok /\ next t = (t', iss))).
  { apply triple_next. intros t1 i1 Hn1. apply triple_ret. rewrite app_nil_r.
    split; [exact (post_next _ _ _ _ _ HI Hc Hn1) | auto]. }
  unfold PostSegment.
  destruct (getType tok) eqn:Ety; try exact Htok.
  - eapply triple_weaken; [exact (Hobj t tok HI Hc Hf)|].
    cbv beta. intros seg t' iss H. split; [exact (bracketed_post _ _ _ _ _ _ _ _ H) | exact H].
  - eapply triple_weaken; [exact (Harr t tok HI Hc Hf)|].
    cbv beta. intros seg t' iss H. split; [exact (bracketed_post _ _ _ _ _ _ _ _ H) | exact H].
Qed.

Lemma post_single_located limit t seg t' iss :
  Post limit t [seg] t' iss -> Located seg (here t) (here t').
Proof.
  intros (_ & L & _). inversion L as [|s l a m b Hs Hl]; subst.
  inversion Hl; subst. exact Hs.
Qed.

Lemma segment_issue_bounds limit t seg t' iss (msg : string) :
  Post limit t [seg] t' iss ->
  issueStart (Error msg (span seg)) = here t
  /\ issueAfterEnd (Error msg (span seg)) <= limit.
Proof.
  intros P. pose proof (post_single_located _ _ _ _ _ P) as L.
  destruct (located_span _ _ _ L) as [Hs Hab].
  pose proof (frontier_le_limit _ _ (post_inv _ _ _ _ _ P)).
  pose proof (here_le_frontier t').
  unfold issueStart, issueAfterEnd, spanAfterEnd. cbn [issueSpan]. rewrite Hs. simpl. split; lia.
Qed.

Lemma parseLoop_spec (limit : nat) :
  forall fuel t found, Inv limit t -> 2 * remaining t + 1 <= fuel ->
    Triple (parseLoop fuel found) t
      (fun segs t' iss => Post limit t segs t' iss /\ getCurrent t' = None).
Proof.
  induction fuel as [|n IH]; intros t found HI Hf; [lia|].
  cbn [parseLoop]. apply triple_current.
  destruct (getCurrent t) as [tok|] eqn:Hc.
  2:{ apply triple_ret. split; [now apply post_nil | exact Hc]. }
  eapply triple_bind.
  { apply (parseSegment_spec limit n t tok HI Hc). lia. }
  cbv beta. intros seg t1 i1 [P1 _].
  pose proof (post_remaining _ _ _ _ _ P1) as R1. simpl in R1.
  apply triple_addIssueIf.
  eapply triple_bind.
  { apply IH; [exact (post_inv _ _ _ _ _ P1) | lia]. }
  cbv beta. intros rest t2 i2 [P2 Hnone]. apply triple_ret. rewrite app_nil_r.
  split; [|exact Hnone].
  destruct (segment_issue_bounds _ _ _ _ _ msgExpectedEndOfFile P1) as [Bs Be].
  pose proof (post_here_le _ _ _ _ _ P1) as Hle.
  change (seg :: rest) with ([seg] ++ rest). rewrite app_assoc.
  apply (post_trans _ _ _ _ _ _ _ _ (post_issues_r _ _ _ _ _ _ _ P1 (eq_ind_r (fun x => here t <= x) (le_n _) Bs) Be) P2).
Qed.

(** [parse] returns for every text; its segments lie side by side over the
    whole text and spell it, and every issue stays inside the text. *)
Lemma parseLexes_spec (input : list Lex) :
  forallb wfLex input = true ->
  exists segs iss,
    parseLexes input = Some (mkDocument segs, iss)
    /\ LocatedList segs 0 (getCombinedLength input)
    /\ combinedText toString segs = getCombinedText input
    /\ Forall (fun i => issueAfterEnd i <= getCombinedLength input) iss.
Proof.
  intros Hwf. unfold parseLexes.
  assert (T : Triple (tokenizerNext ;; parseLoop (fuelFor input) false) (newTokenizer input 0)
            (fun segs t' iss =>
               LocatedList segs 0 (getCombinedLength input)
               /\ combinedText toString segs = getCombinedText input
               /\ Forall (fun i => issueAfterEnd i <= getCombinedLength input) iss)).
  { apply triple_next. intros t1 i1 Hn1.
    destruct (next_first _ _ _ Hwf Hn1) as (HI1 & Hh1 & [HF1 _] & Ht1 & Hr1).
    eapply triple_weaken.
    { apply (parseLoop_spec (getCombinedLength input)); [exact HI1|]. unfold fuelFor. lia. }
    cbv beta. intros segs t' iss [(HI' & L & T & F & _) Hnone].
    rewrite Hh1 in L.
    destruct HI' as (_ & _ & Hlim & _ & Hcur).
    unfold getCurrent in Hnone. unfold frontier in Hlim. rewrite Hnone in Hlim, Hcur.
    rewrite Hcur in Hlim. simpl in Hlim.
    unfold pendingText in T at 1. rewrite Hnone, Hcur in T. simpl in T.
    rewrite append_nil_r in T.
    split; [|split].
    - unfold here in L at 1. rewrite <- Hlim. replace (_currentTokenStartIndex t' + 0) with (here t') by (unfold here; lia). exact L.
    - now rewrite T, Ht1.
    - apply Forall_app. split.
      + eapply Forall_impl; [|exact HF1]. cbv beta. intros i Hi. lia.
      + eapply Forall_impl; [|exact F]. cbv beta. intros i Hi. lia. }
  destruct T as (segs & t' & iss & Hrun & HQ).
  exists segs, iss. rewrite Hrun. split; [reflexivity | exact HQ].
Qed.

(** C1. For every input text [s], [parse] returns a document whose
    [toString()] is [s] itself: the text of the top-level segments, in
    order, spells the input. *)
Theorem C1_parse_toString_roundtrip (s : string) :
  exists d iss, parse s = Some (d, iss) /\ documentToString d = s.
Proof.
  destruct (parseLexes_spec (lex s) (lex_wf s)) as (segs & iss & Hp & _ & Ht & _).
  exists (mkDocument segs), iss. split; [exact Hp|].
  unfold documentToString. simpl. now rewrite Ht, lex_text.
Qed.

(** ** The tokenizer on its own *)

(** [Tokenizer.toArrayList()]: [next()] until it returns false; the tokens
    met and the issues added to the sink.  [None] is a run cut short by the
    recursion bound. *)
Fixpoint tokenizeLoop (fuel : nat) (t : Tokenizer) : option (list Token * list Issue) :=
  let '(t', issues) := next t in
  match getCurrent t' with
  | None => Some ([], issues)
  | Some tok =>
      match fuel with
      | 0 => None
      | S n =>
          match tokenizeLoop n t' with
          | Some (tokens, more) => Some (tok :: tokens, issues ++ more)
          | None => None
          end
      end
  end.

Definition toArrayList (input : list Lex) (startIndex : nat) : option (list Token * list Issue) :=
  tokenizeLoop (length input) (newTokenizer input startIndex).

Definition tokenize (text : string) : option (list Token * list Issue) :=
  toArrayList (lex text) 0.

(** ** Worked inputs *)

Definition quoted (s : string) : string := dq +++ s +++ dq.

(** C3. [next()] on the text of a block comment that closes with two
    asterisks and a slash, followed by a letter: the tokenizer returns one
    block-comment token that runs to the end of the text, so the letter is
    inside the comment and no second token follows.  The comment does not end
    at the first asterisk-slash pair. *)
Theorem C3_block_comment_runs_past_close :
  tokenize "/* **/x" = Some ([Tokens.BlockComment (lex "/* **/x") 0], [])
  /\ tokenToString (Tokens.BlockComment (lex "/* **/x") 0) = "/* **/x"
  /\ tokenize "/* */x"
     = Some ([Tokens.BlockComment (lex "/* */") 0;
              Tokens.Unrecognized (mkLex LexType.Letters "x") 5], []).
Proof. repeat split; vm_compute; reflexivity. Qed.

Definition ageObjectText : string := "{" +++ quoted "age" +++ ":20,}".

Definition ageProperty : Segment :=
  Property [TokenSeg (Tokens.QuotedString (lex (quoted "age")) 1);
            TokenSeg (Tokens.Colon 6);
            TokenSeg (Tokens.Number (lex "20") 7)].

(** C5. Parsing the text of an object with the one property age:20
    followed by a comma and the closing bracket gives an object segment whose
    property list is exactly that property, and exactly one issue, Expected
    property name, whose span is the closing bracket at index 10 (the comma
    is at index 9). *)
Theorem C5_trailing_comma_in_object :
  parse ageObjectText
  = Some (mkDocument
            [ObjectSegment [TokenSeg (Tokens.LeftCurlyBracket 0);
                            ageProperty;
                            TokenSeg (Tokens.Comma 9);
                            TokenSeg (Tokens.RightCurlyBracket 10)]],
          [Error msgExpectedPropertyName (tokenSpan (Tokens.RightCurlyBracket 10))])
  /\ getProperties (ObjectSegment [TokenSeg (Tokens.LeftCurlyBracket 0);
                                   ageProperty;
                                   TokenSeg (Tokens.Comma 9);
                                   TokenSeg (Tokens.RightCurlyBracket 10)])
     = [ageProperty]
  /\ toString ageProperty = quoted "age" +++ ":20"
  /\ tokenSpan (Tokens.RightCurlyBracket 10) = mkSpan 10 1
  /\ msgExpectedPropertyName = "Expected property name.".
Proof. repeat split; vm_compute; reflexivity. Qed.

Definition isElementSegment (s : Segment) : bool :=
  match s with
  | ObjectSegment _ | ArraySegment _ => true
  | TokenSeg t =>
      match getType t with
      | TokenType.False | TokenType.Null | TokenType.Number
      | TokenType.QuotedString | TokenType.True => true
      | _ => false
      end
  | Property _ => false
  end.





(** C10. For the text of an array holding a single comma, the walk of
    [getElements] adds one empty slot for the comma and ends with
    [expectingComma] false; the elements list is then not empty, so a second
    slot is appended: the view is two empty slots. *)
Theorem C10_lone_comma_two_slots :
  parse "[,]"
  = Some (mkDocument
            [ArraySegment [TokenSeg (Tokens.LeftSquareBracket 0);
                           TokenSeg (Tokens.Comma 1);
                           TokenSeg (Tokens.RightSquareBracket 2)]],
          [Error msgExpectedArrayElementOrRightSquare (tokenSpan (Tokens.Comma 1));
           Error msgExpectedArrayElement (tokenSpan (Tokens.RightSquareBracket 2))])
  /\ elementsWalk false [TokenSeg (Tokens.LeftSquareBracket 0);
                         TokenSeg (Tokens.Comma 1);
                         TokenSeg (Tokens.RightSquareBracket 2)]
     = ([None], false)
  /\ getElements (ArraySegment [TokenSeg (Tokens.LeftSquareBracket 0);
                                TokenSeg (Tokens.Comma 1);
                                TokenSeg (Tokens.RightSquareBracket 2)])
     = [None; None].
Proof. repeat split; vm_compute; reflexivity. Qed.


Definition commentThenObject : string := "// c" +++ lf +++ "{}".

(** C7. A document made of a line comment, a new line and an empty object:
    [parse] takes the comment for the root, so the object gets the issue
    Expected end of file, anchored at the object, and [getRoot] returns the
    comment token.  Only new-line and whitespace tokens are passed over when
    the root is looked for. *)
Theorem C7_comment_taken_as_root :
  parse commentThenObject
  = Some (mkDocument
            [TokenSeg (Tokens.LineComment (lex "// c") 0);
             TokenSeg (Tokens.NewLine (mkLex LexType.NewLine lf) 4);
             ObjectSegment [TokenSeg (Tokens.LeftCurlyBracket 5);
                            TokenSeg (Tokens.RightCurlyBracket 6)]],
          [Error msgExpectedEndOfFile (mkSpan 5 2)])
  /\ getRoot (mkDocument
                [TokenSeg (Tokens.LineComment (lex "// c") 0);
                 TokenSeg (Tokens.NewLine (mkLex LexType.NewLine lf) 4);
                 ObjectSegment [TokenSeg (Tokens.LeftCurlyBracket 5);
                                TokenSeg (Tokens.RightCurlyBracket 6)]])
     = Some (TokenSeg (Tokens.LineComment (lex "// c") 0))
  /\ span (ObjectSegment [TokenSeg (Tokens.LeftCurlyBracket 5);
                          TokenSeg (Tokens.RightCurlyBracket 6)]) = mkSpan 5 2.
Proof. repeat split; vm_compute; reflexivity. Qed.

(** C8, as stated, fails: for an array that opens and then an object that
    opens, the issue of the inner bracket (at index 1) is added before the
    issue of the outer bracket (at index 0). *)
Lemma C8_counterexample :
  parse "[{"
  = Some (mkDocument
            [ArraySegment [TokenSeg (Tokens.LeftSquareBracket 0);
                           ObjectSegment [TokenSeg (Tokens.LeftCurlyBracket 1)]]],
          [Error msgMissingRightCurly (mkSpan 1 1);
           Error msgMissingRightSquare (mkSpan 0 1)])
  /\ ~ nondecreasing (map issueStart [Error msgMissingRightCurly (mkSpan 1 1);
                                      Error msgMissingRightSquare (mkSpan 0 1)]).
Proof.
  split; [vm_compute; reflexivity|].
  simpl. unfold issueStart. simpl. intros [H _]. lia.
Qed.

Lemma next_ready (limit : nat) (t t' : Tokenizer) (iss : list Issue) :
  Inv limit t
  \/ (exists input, t = newTokenizer input 0 /\ forallb wfLex input = true
                    /\ limit = getCombinedLength input) ->
  next t = (t', iss) ->
  Inv limit t'
  /\ issuesWithin (frontier t) (frontier t') limit iss
  /\ remaining t' <= length (pendingLexes t)
  /\ frontier t <= frontier t'.
Proof.
  intros [HI | (input & -> & Hwf & ->)] Hn.
  - destruct (next_running _ _ _ _ HI Hn) as (H1 & H0 & H2 & _ & H3).
    pose proof (here_le_frontier t'). repeat split; auto; try apply H1; try apply H2. lia.
  - destruct (next_first _ _ _ Hwf Hn) as (H1 & H0 & H2 & _ & H3).
    repeat split; auto; try apply H1; try apply H2. unfold frontier at 1. simpl. lia.
Qed.

Lemma tokenizeLoop_sorted (limit : nat) :
  forall fuel t,
    Inv limit t
    \/ (exists input, t = newTokenizer input 0 /\ forallb wfLex input = true
                      /\ limit = getCombinedLength input) ->
    length (pendingLexes t) <= fuel ->
    exists tokens iss,
      tokenizeLoop fuel t = Some (tokens, iss)
      /\ issuesWithin (frontier t) limit limit iss.
Proof.
  induction fuel as [|n IH]; intros t Hr Hf.
  - simpl. destruct (next t) as [t' i] eqn:Hn.
    destruct (next_ready _ _ _ _ Hr Hn) as (HI' & Hi & Hrem & Hlo).
    pose proof (frontier_le_limit _ _ HI') as Hle.
    destruct (getCurrent t') eqn:Hc.
    + apply remaining_current in Hc. lia.
    + exists [], i. split; [reflexivity|].
      apply (issuesWithin_weaken (frontier t) (frontier t') limit); [exact Hi | lia | lia | lia].
  - cbn [tokenizeLoop]. destruct (next t) as [t' i] eqn:Hn.
    destruct (next_ready _ _ _ _ Hr Hn) as (HI' & Hi & Hrem & Hlo).
    pose proof (frontier_le_limit _ _ HI') as Hle.
    destruct (getCurrent t') as [tok|] eqn:Hc.
    + destruct (IH t' (or_introl HI')) as (tokens & more & Hrun & Hmore).
      { unfold remaining in Hrem. unfold getCurrent in Hc. rewrite Hc in Hrem. lia. }
      rewrite Hrun. exists (tok :: tokens), (i ++ more). split; [reflexivity|].
      apply (issuesWithin_app (frontier t) (frontier t') (frontier t') limit limit);
        [exact Hi | exact Hmore | lia | exact Hlo | exact Hle].
    + exists [], i. split; [reflexivity|].
      apply (issuesWithin_weaken (frontier t) (frontier t') limit); [exact Hi | lia | lia | lia].
Qed.

(** C8, amended. The issues the tokenizer adds on its own, over a whole
    text, are in source order: their start positions never decrease.  (The
    parser adds its own issues when it detects them, after the issues of
    everything it has read so far.) *)
Theorem C8_tokenizer_issues_in_source_order (s : string) :
  exists tokens iss,
    tokenize s = Some (tokens, iss) /\ nondecreasing (map issueStart iss).
Proof.
  destruct (tokenizeLoop_sorted (getCombinedLength (lex s)) (length (lex s))
              (newTokenizer (lex s) 0)) as (tokens & iss & Hrun & _ & Hs).
  - right. exists (lex s). split; [reflexivity|]. split; [apply lex_wf | reflexivity].
  - apply Nat.le_refl.
  - exists tokens, iss. split; [exact Hrun | exact Hs].
Qed.

(** Every issue of a parse lies inside the text parsed. *)
Lemma parse_issues_within_text (s : string) :
  exists d iss,
    parse s = Some (d, iss)
    /\ Forall (fun i => 0 <= issueStart i /\ issueAfterEnd i <= String.length s) iss.
Proof.
  destruct (parseLexes_spec (lex s) (lex_wf s)) as (segs & iss & Hp & _ & _ & Hb).
  exists (mkDocument segs), iss. split; [exact Hp|].
  rewrite combinedLength_text, lex_text in Hb.
  eapply Forall_impl; [|exact Hb]. cbv beta. intros i Hi. lia.
Qed.

(** C9. A tokenizer created over the two characters dash and letter a
    with start index 5: its first token is the number token of the dash at
    index 5, so the text covers the indexes 5 and 6, but the issue it adds
    has the span starting at 1 of length 1, which lies before the text.
    [_currentBasicTokenStartIndex] is counted from 0 while
    [_currentTokenStartIndex] is counted from the start index. *)
Theorem C9_issue_span_ignores_start_index :
  next (newTokenizer (lex "-a") 5)
  = (mkTokenizer (mkLexer true (lex "a")) 1 (Some (Tokens.Number (lex "-") 5)) 5,
     [Error "Expected whole number digits." (mkSpan 1 1)])
  /\ tokenSpan (Tokens.Number (lex "-") 5) = mkSpan 5 1
  /\ issueAfterEnd (Error "Expected whole number digits." (mkSpan 1 1)) <= 5.
Proof. repeat split; vm_compute; try reflexivity. lia. Qed.

(** ** Unterminated constructs *)

(** Whether the scan of a quoted string that started with a quote of type
    [quote] meets an unescaped quote of the same type. *)
Fixpoint hasEndQuote (quote : LexType.t) (escaped : bool) (body : list Lex) : bool :=
  match body with
  | [] => false
  | c :: r =>
      if escaped then hasEndQuote quote false r
      else if isType c LexType.Backslash then hasEndQuote quote true r
      else if isType c quote then true
      else hasEndQuote quote false r
  end.

(** Whether an asterisk is directly followed by a forward slash. *)
Fixpoint hasStarSlash (body : list Lex) : bool :=
  match body with
  | [] => false
  | c :: r =>
      match r with
      | d :: _ => (isType c LexType.Asterisk && isType d LexType.ForwardSlash) || hasStarSlash r
      | [] => false
      end
  end.

Lemma quotedStringLoop_found (q : LexType.t) (body : list Lex) :
  forall escaped a found rest,
    quotedStringLoop q escaped body = (a, found, rest) -> found = hasEndQuote q escaped body.
Proof.
  induction body as [|c r IH]; intros escaped a found rest H; simpl in *.
  - now injection H as _ <- _.
  - destruct escaped.
    + destruct (quotedStringLoop q false r) as [[a' e'] r'] eqn:E.
      injection H as _ <- _. exact (IH _ _ _ _ E).
    + destruct (isType c LexType.Backslash).
      * destruct (quotedStringLoop q true r) as [[a' e'] r'] eqn:E.
        injection H as _ <- _. exact (IH _ _ _ _ E).
      * destruct (isType c q); [now injection H as _ <- _|].
        destruct (quotedStringLoop q false r) as [[a' e'] r'] eqn:E.
        injection H as _ <- _. exact (IH _ _ _ _ E).
Qed.

Lemma blockCommentLoop_open_aux (n : nat) :
  forall body, length body <= n -> hasStarSlash body = false -> blockCommentLoop body = (body, []).
Proof.
  induction n as [|n IH]; intros body Hn H.
  - destruct body; [reflexivity | simpl in Hn; lia].
  - destruct body as [|c r]; [reflexivity|]. simpl in Hn.
    cbn [blockCommentLoop]. destruct r as [|d r'].
    + now destruct (isType c LexType.Asterisk).
    + cbn [hasStarSlash] in H. fold (hasStarSlash (d :: r')) in H.
      apply orb_false_iff in H as [Hcd Hr].
      destruct (isType c LexType.Asterisk) eqn:Ec.
      * simpl in Hcd. rewrite Hcd.
        assert (Hr' : hasStarSlash r' = false).
        { destruct r' as [|e r'']; [reflexivity|]. cbn [hasStarSlash] in Hr.
          fold (hasStarSlash (e :: r'')) in Hr. now apply orb_false_iff in Hr as [_ Hr]. }
        rewrite (IH r'); [reflexivity | simpl in Hn; lia | exact Hr'].
      * rewrite (IH (d :: r')); [reflexivity | simpl in *; lia | exact Hr].
Qed.

Lemma blockCommentLoop_open (body : list Lex) :
  hasStarSlash body = false -> blockCommentLoop body = (body, []).
Proof. apply (blockCommentLoop_open_aux (length body)). lia. Qed.

Lemma parseLoop_done (fuel : nat) (found : bool) (t : Tokenizer) :
  getCurrent t = None -> parseLoop fuel found t = Some ([], t, []).
Proof.
  intros H. destruct fuel; cbn [parseLoop]; unfold bind, tokenizerCurrent, ret; now rewrite H.
Qed.

(** A text that is one token which is not an opening bracket parses to the
    document of that token, with the issues of the tokenizer alone. *)
Lemma parse_single_token (l0 : Lex) (body : list Lex) (tok : Token) (iss : list Issue) (b : nat) :
  readToken 0 l0 (mkCursor (l0 :: body) 0) = (tok, iss, mkCursor [] b) ->
  getType tok <> TokenType.LeftCurlyBracket ->
  getType tok <> TokenType.LeftSquareBracket ->
  parseLexes (l0 :: body) = Some (mkDocument [TokenSeg tok], iss).
Proof.
  intros Hr H1 H2. unfold parseLexes, fuelFor.
  replace (2 * length (l0 :: body) + 4) with (S (2 * length (l0 :: body) + 3)) by lia.
  unfold bind at 1. unfold tokenizerNext at 1. unfold next at 1.
  cbn [newTokenizer hasStarted _tokenizer lexerStarted negb lexerNext lexerInput
       _currentTokenStartIndex].
  rewrite Hr. cbn [lexes basicStart].
  cbn [parseLoop]. unfold bind at 1. unfold tokenizerCurrent at 1. unfold getCurrent at 1.
  cbn [_currentToken].
  set (t1 := mkTokenizer (mkLexer true []) b (Some tok) 0).
  assert (Hn : next t1 = (mkTokenizer (mkLexer true []) b None (0 + tokenLength tok), [])) by reflexivity.
  assert (Hseg : parseSegment (2 * length (l0 :: body) + 3) t1
                 = Some (TokenSeg tok, mkTokenizer (mkLexer true []) b None (0 + tokenLength tok), [])).
  { unfold parseSegment, bind, tokenizerCurrent, tokenizerNext, ret. cbn [getCurrent t1 _currentToken].
    destruct (getType tok); try contradiction; now rewrite Hn. }
  unfold bind. rewrite Hseg.
  assert (Hif : forall c x, addIssueIf (c && false) x
                              (mkTokenizer (mkLexer true []) b None (0 + tokenLength tok))
                            = Some (tt, mkTokenizer (mkLexer true []) b None (0 + tokenLength tok), [])).
  { intros c x. now rewrite andb_false_r. }
  rewrite Hif. rewrite parseLoop_done by reflexivity.
  unfold ret. rewrite !app_nil_r. reflexivity.
Qed.

Lemma triple_parseLoop_done (fuel : nat) (found : bool) (t : Tokenizer)
      (Q : list Segment -> Tokenizer -> list Issue -> Prop) :
  getCurrent t = None -> Q [] t [] -> Triple (parseLoop fuel found) t Q.
Proof.
  intros H HQ. exists [], t, []. split; [now apply parseLoop_done | exact HQ].
Qed.

(** What [parse] does on a text that starts with an opening bracket: that
    bracket opens the first segment of the document; when the segment is not
    closed it is the whole document, it spans the whole text, and the issue of
    the missing bracket comes last, after issues that all start behind the
    opening bracket. *)
Definition BracketDocument (limit : nat) (wrap : list Segment -> Segment)
           (close : TokenType.t) (missing : string) (open : Token)
  : list Segment -> Tokenizer -> list Issue -> Prop :=
  fun segs _ iss =>
    exists added rest,
      segs = wrap (TokenSeg open :: added) :: rest
      /\ (closedBy close added = false ->
          rest = []
          /\ span (wrap (TokenSeg open :: added)) = mkSpan 0 limit
          /\ exists inner,
              iss = inner ++ [Error missing (mkSpan 0 1)]
              /\ Forall (fun i => 1 <= issueStart i) inner).

Lemma first_token_single (input : list Lex) (l0 : Lex) (body : list Lex) (tok : Token)
      (t1 : Tokenizer) (i1 : list Issue) :
  input = l0 :: body ->
  readToken 0 l0 (mkCursor input 0) = (tok, [], mkCursor body (lexLength l0)) ->
  tokenLength tok = 1 ->
  next (newTokenizer input 0) = (t1, i1) ->
  getCurrent t1 = Some tok /\ i1 = [] /\ frontier t1 = 1 /\ here t1 = 0.
Proof.
  intros -> Hr Hl Hn. unfold next in Hn.
  cbn [newTokenizer hasStarted _tokenizer lexerStarted negb lexerNext lexerInput
       _currentTokenStartIndex] in Hn.
  rewrite Hr in Hn. injection Hn as <- <-.
  unfold getCurrent, frontier, here. simpl. rewrite Hl. auto.
Qed.

Section BracketDocuments.
Variable wrap : list Segment -> Segment.
Variable close : TokenType.t.
Variable missing : string.
Variable openToken : Token.
Variable openLex : LexType.t.

Hypothesis open_read :
  forall l0 body, lexType l0 = openLex ->
    readToken 0 l0 (mkCursor (l0 :: body) 0) = (openToken, [], mkCursor body (lexLength l0)).
Hypothesis open_length : tokenLength openToken = 1.
Hypothesis open_segment :
  forall limit fuel t,
    Inv limit t -> getCurrent t = Some openToken -> 2 * remaining t <= fuel ->
    Triple (parseSegment fuel) t
      (fun seg t' iss =>
         Post limit t [seg] t' iss /\ PostBracketed limit wrap close missing t seg t' iss).

Lemma bracket_document (l0 : Lex) (body : list Lex) :
  forallb wfLex (l0 :: body) = true ->
  lexType l0 = openLex ->
  Triple (tokenizerNext ;; parseLoop (fuelFor (l0 :: body)) false)
    (newTokenizer (l0 :: body) 0)
    (BracketDocument (getCombinedLength (l0 :: body)) wrap close missing openToken).
Proof.
  intros Hwf Hty.
  apply triple_next. intros t1 i1 Hn1.
  destruct (next_first _ _ _ Hwf Hn1) as (HI1 & Hh1 & _ & _ & Hr1).
  destruct (first_token_single (l0 :: body) l0 body _ t1 i1 eq_refl
              (open_read l0 body Hty) open_length Hn1) as (Hc1 & -> & Hfr1 & _).
  unfold fuelFor.
  replace (2 * length (l0 :: body) + 4) with (S (2 * length (l0 :: body) + 3)) by lia.
  cbn [parseLoop]. apply triple_current. rewrite Hc1.
  eapply triple_bind.
  { apply (open_segment _ (2 * length (l0 :: body) + 3) _ HI1 Hc1). lia. }
  cbv beta. intros seg t2 i2 [P2 HB].
  destruct HB as (_ & op & added & inner & Hop & -> & -> & Hinner & Hnone).
  rewrite Hc1 in Hop. injection Hop as <-.
  apply triple_addIssueIf. rewrite andb_false_r.
  destruct (closedBy close added) eqn:Hcl.
  - eapply triple_bind.
    { apply (parseLoop_spec _ _ _ _ (post_inv _ _ _ _ _ P2)).
      pose proof (post_remaining _ _ _ _ _ P2) as R2. simpl in R2. lia. }
    cbv beta. intros rest t3 i3 _. apply triple_ret.
    exists added, rest. split; [reflexivity | intros Habs; congruence].
  - specialize (Hnone eq_refl).
    apply triple_bind with (Q1 := fun segs t' iss => segs = [] /\ t' = t2 /\ iss = []).
    { apply triple_parseLoop_done; auto. }
    intros rest t3 i3 (-> & -> & ->). apply triple_ret.
    exists added, []. split; [reflexivity|]. intros _.
    split; [reflexivity|]. split.
    + pose proof (post_single_located _ _ _ _ _ P2) as L2.
      destruct (located_span _ _ _ L2) as [Hsp _].
      rewrite Hsp, Hh1.
      destruct (post_inv _ _ _ _ _ P2) as (_ & _ & Hlim & _ & Hcur).
      unfold getCurrent in Hnone. unfold frontier in Hlim.
      rewrite Hnone in Hlim, Hcur. rewrite Hcur in Hlim. simpl in Hlim.
      unfold here. f_equal. simpl. lia.
    + exists inner. split.
      * simpl. rewrite !app_nil_r.
        destruct (token_issue_bounds _ _ _ missing HI1 Hc1) as [Bs _].
        unfold issueStart in Bs. simpl in Bs.
        unfold tokenSpan. rewrite open_length, Bs, Hh1. reflexivity.
      * rewrite Hfr1 in Hinner. exact Hinner.
Qed.
End BracketDocuments.

Lemma object_document (l0 : Lex) (body : list Lex) :
  forallb wfLex (l0 :: body) = true ->
  lexType l0 = LexType.LeftCurlyBracket ->
  Triple (tokenizerNext ;; parseLoop (fuelFor (l0 :: body)) false) (newTokenizer (l0 :: body) 0)
    (BracketDocument (getCombinedLength (l0 :: body)) ObjectSegment
       TokenType.RightCurlyBracket msgMissingRightCurly (Tokens.LeftCurlyBracket 0)).
Proof.
  apply (bracket_document _ _ _ _ LexType.LeftCurlyBracket).
  - intros l body' Hty. unfold readToken. now rewrite Hty.
  - reflexivity.
  - intros limit fuel t HI Hc Hf.
    eapply triple_weaken; [exact (parseSegment_spec _ _ _ _ HI Hc Hf)|].
    cbv beta. intros seg t' iss [P H]. split; [exact P | exact H].
Qed.

Lemma array_document (l0 : Lex) (body : list Lex) :
  forallb wfLex (l0 :: body) = true ->
  lexType l0 = LexType.LeftSquareBracket ->
  Triple (tokenizerNext ;; parseLoop (fuelFor (l0 :: body)) false) (newTokenizer (l0 :: body) 0)
    (BracketDocument (getCombinedLength (l0 :: body)) ArraySegment
       TokenType.RightSquareBracket msgMissingRightSquare (Tokens.LeftSquareBracket 0)).
Proof.
  apply (bracket_document _ _ _ _ LexType.LeftSquareBracket).
  - intros l body' Hty. unfold readToken. now rewrite Hty.
  - reflexivity.
  - intros limit fuel t HI Hc Hf.
    eapply triple_weaken; [exact (parseSegment_spec _ _ _ _ HI Hc Hf)|].
    cbv beta. intros seg t' iss [P H]. split; [exact P | exact H].
Qed.

Definition isMissingIssue (i : Issue) : bool := String.prefix "Missing" (message i).

Definition openAgeText : string := "{" +++ quoted "age".

(** C4, as stated, fails for an unterminated object: the text of an opening
    curly bracket and the quoted name age has two Missing issues, and the
    first one, Missing colon, is anchored at the name, not at the bracket. *)
Lemma C4_counterexample :
  parse openAgeText
  = Some (mkDocument
            [ObjectSegment [TokenSeg (Tokens.LeftCurlyBracket 0);
                            Property [TokenSeg (Tokens.QuotedString (lex (quoted "age")) 1)]]],
          [Error msgMissingColon (mkSpan 1 5);
           Error msgMissingRightCurly (mkSpan 0 1)])
  /\ length (filter isMissingIssue [Error msgMissingColon (mkSpan 1 5);
                                    Error msgMissingRightCurly (mkSpan 0 1)]) <> 1.
Proof. split; [vm_compute; reflexivity | vm_compute; discriminate]. Qed.

(** C4, amended. For every text [s]:
    - if [s] starts with a quote and the scan meets no unescaped quote of the
      same kind, [parse] returns the one quoted-string token over the whole
      text and exactly one issue, Missing end quote, whose span is the whole
      token;
    - if [s] starts with an opening curly bracket, the first segment of the
      document is the object of that bracket; when the object is not closed
      it is the whole document and spans the whole text, and exactly one
      issue is anchored at the opening bracket: Missing closing right curly
      bracket, added last (the issues before it, which the contents of the
      object may raise, all start behind the bracket);
    - the same for an opening square bracket and an array;
    - if [s] starts with slash and asterisk and no asterisk is directly
      followed by a slash afterwards, [parse] returns the one block-comment
      token over the whole text and no issue. *)
Theorem C4_unterminated_constructs (s : string) :
  (forall q body,
      lex s = q :: body ->
      lexType q = LexType.SingleQuote \/ lexType q = LexType.DoubleQuote ->
      hasEndQuote (lexType q) false body = false ->
      parse s = Some (mkDocument [TokenSeg (Tokens.QuotedString (lex s) 0)],
                      [Error ("Missing end quote (" +++ lexText q +++ ").")
                         (tokenSpan (Tokens.QuotedString (lex s) 0))])
      /\ tokenSpan (Tokens.QuotedString (lex s) 0) = mkSpan 0 (String.length s))
  /\ (forall open body,
         lex s = open :: body ->
         lexType open = LexType.LeftCurlyBracket ->
         exists added rest iss,
           parse s = Some (mkDocument
                             (ObjectSegment (TokenSeg (Tokens.LeftCurlyBracket 0) :: added) :: rest),
                           iss)
           /\ (closedBy TokenType.RightCurlyBracket added = false ->
               rest = []
               /\ span (ObjectSegment (TokenSeg (Tokens.LeftCurlyBracket 0) :: added))
                  = mkSpan 0 (String.length s)
               /\ exists inner,
                   iss = inner ++ [Error msgMissingRightCurly
                                     (tokenSpan (Tokens.LeftCurlyBracket 0))]
                   /\ Forall (fun i => 1 <= issueStart i) inner))
  /\ (forall open body,
         lex s = open :: body ->
         lexType open = LexType.LeftSquareBracket ->
         exists added rest iss,
           parse s = Some (mkDocument
                             (ArraySegment (TokenSeg (Tokens.LeftSquareBracket 0) :: added) :: rest),
                           iss)
           /\ (closedBy TokenType.RightSquareBracket added = false ->
               rest = []
               /\ span (ArraySegment (TokenSeg (Tokens.LeftSquareBracket 0) :: added))
                  = mkSpan 0 (String.length s)
               /\ exists inner,
                   iss = inner ++ [Error msgMissingRightSquare
                                     (tokenSpan (Tokens.LeftSquareBracket 0))]
                   /\ Forall (fun i => 1 <= issueStart i) inner))
  /\ (forall slash star body,
         lex s = slash :: star :: body ->
         lexType slash = LexType.ForwardSlash ->
         lexType star = LexType.Asterisk ->
         hasStarSlash body = false ->
         parse s = Some (mkDocument [TokenSeg (Tokens.BlockComment (lex s) 0)], [])
         /\ tokenSpan (Tokens.BlockComment (lex s) 0) = mkSpan 0 (String.length s)).
Proof.
  assert (Hlen : getCombinedLength (lex s) = String.length s)
    by (now rewrite combinedLength_text, lex_text).
  pose proof (lex_wf s) as Hwf.
  split; [|split; [|split]].
  - intros q body Hs Hq Hend. unfold parse. split.
    2:{ unfold tokenSpan, tokenLength. simpl. now rewrite Hlen. }
    rewrite Hs at 1.
    apply (parse_single_token q body _ _ (0 + getCombinedLength (q :: body))); try discriminate.
    unfold readToken.
    destruct (quotedStringLoop (lexType q) false body) as [[a e] rest] eqn:Eq.
    pose proof (quotedStringLoop_found _ _ _ _ _ _ Eq) as He. rewrite Hend in He. subst e.
    destruct (quotedStringLoop_app _ _ _ _ _ _ Eq) as [Hb Hrest].
    rewrite (Hrest eq_refl), app_nil_r in Hb. subst a. rewrite (Hrest eq_refl) in Eq.
    rewrite Hs.
    destruct Hq as [Hq | Hq]; rewrite Hq in *; cbn [lexes tl]; rewrite Eq; reflexivity.
  - intros open body Hs Hty. unfold parse, parseLexes. rewrite Hs in Hwf |- *.
    destruct (object_document open body Hwf Hty)
      as (segs & t' & iss & Hrun & added & rest & -> & H).
    rewrite Hrun. exists added, rest, iss. split; [reflexivity|].
    rewrite <- Hlen, Hs. exact H.
  - intros open body Hs Hty. unfold parse, parseLexes. rewrite Hs in Hwf |- *.
    destruct (array_document open body Hwf Hty)
      as (segs & t' & iss & Hrun & added & rest & -> & H).
    rewrite Hrun. exists added, rest, iss. split; [reflexivity|].
    rewrite <- Hlen, Hs. exact H.
  - intros slash star body Hs Hsl Hst Hopen. unfold parse. split.
    2:{ unfold tokenSpan, tokenLength. simpl. now rewrite Hlen. }
    rewrite Hs at 1.
    apply (parse_single_token slash (star :: body) _ _
             (0 + lexLength slash + getCombinedLength (star :: body))); try discriminate.
    unfold readToken. rewrite Hsl. unfold readSlash.
    cbn [nextBasicToken lexes basicStart]. rewrite Hst.
    rewrite (blockCommentLoop_open _ Hopen). rewrite Hs.
    rewrite Hs in Hwf. apply forallb_cons_inv in Hwf as [Hw _].
    rewrite (wf_single slash "/" Hw) by (now rewrite Hsl). rewrite Hsl. reflexivity.
Qed.

(** The witness of C4: an open quoted string, an open object holding a name,
    an open array holding an open object, and an open block comment that
    ends with an asterisk. *)
Lemma C4_witness :
  (parse (dq +++ "ab")
   = Some (mkDocument [TokenSeg (Tokens.QuotedString (lex (dq +++ "ab")) 0)],
           [Error ("Missing end quote (" +++ dq +++ ").") (mkSpan 0 3)]))
  /\ (exists added iss inner,
         parse openAgeText
         = Some (mkDocument [ObjectSegment (TokenSeg (Tokens.LeftCurlyBracket 0) :: added)], iss)
         /\ iss = inner ++ [Error msgMissingRightCurly (mkSpan 0 1)]
         /\ Forall (fun i => 1 <= issueStart i) inner)
  /\ (exists added iss inner,
         parse "[{"
         = Some (mkDocument [ArraySegment (TokenSeg (Tokens.LeftSquareBracket 0) :: added)], iss)
         /\ iss = inner ++ [Error msgMissingRightSquare (mkSpan 0 1)]
         /\ Forall (fun i => 1 <= issueStart i) inner)
  /\ parse "/* a *" = Some (mkDocument [TokenSeg (Tokens.BlockComment (lex "/* a *") 0)], []).
Proof.
  split; [|split; [|split]].
  - apply (proj1 (C4_unterminated_constructs (dq +++ "ab")) (mkLex LexType.DoubleQuote dq)
             [mkLex LexType.Letters "ab"]); [reflexivity | right; reflexivity | reflexivity].
  - destruct (proj1 (proj2 (C4_unterminated_constructs openAgeText))
                (mkLex LexType.LeftCurlyBracket "{") (lex (quoted "age")) eq_refl eq_refl)
      as (added & rest & iss & Hp & H).
    assert (Hadd : added = [Property [TokenSeg (Tokens.QuotedString (lex (quoted "age")) 1)]]).
    { vm_compute in Hp. injection Hp as Ha _ _. rewrite <- Ha. reflexivity. }
    destruct H as (-> & _ & inner & Hi & Hf); [now rewrite Hadd|].
    exists added, iss, inner. auto.
  - destruct (proj1 (proj2 (proj2 (C4_unterminated_constructs "[{")))
                (mkLex LexType.LeftSquareBracket "[") (lex "{") eq_refl eq_refl)
      as (added & rest & iss & Hp & H).
    assert (Hadd : added = [ObjectSegment [TokenSeg (Tokens.LeftCurlyBracket 1)]]).
    { vm_compute in Hp. injection Hp as Ha _ _. rewrite <- Ha. reflexivity. }
    destruct H as (-> & _ & inner & Hi & Hf); [now rewrite Hadd|].
    exists added, iss, inner. auto.
  - apply (proj2 (proj2 (proj2 (C4_unterminated_constructs "/* a *")))
             (mkLex LexType.ForwardSlash "/") (mkLex LexType.Asterisk "*") (lex " a *"));
      reflexivity.
Defined.

(** * Formatting the formatted text

    [format] after [parse] is followed through a second [parse] and
    [format].  The formatted text is a list of lexemes that the lexer reads
    back unchanged; each of its tokens is read as it was in the first text;
    and parser and formatter, fused into one pass over the tokens, give one
    result only. *)

(** ** Re-reading formatted text *)

(** Two neighbouring lexemes the lexer would have read as one. *)
Definition merges (a b : Lex) : bool :=
  match lexType a, lexType b with
  | LexType.Letters, LexType.Letters => true
  | LexType.Digits, LexType.Digits => true
  | LexType.CarriageReturn, LexType.NewLine => String.eqb (lexText b) lf
  | _, _ => false
  end.

Definition mergesNext (a : Lex) (r : list Lex) : bool :=
  match r with
  | [] => false
  | b :: _ => merges a b
  end.

(** Lexeme lists the lexer reads back unchanged from their text. *)
Fixpoint stable (ls : list Lex) : bool :=
  match ls with
  | [] => true
  | a :: r => wfLex a && negb (mergesNext a r) && stable r
  end.

Lemma stable_cons (a : Lex) (r : list Lex) :
  stable (a :: r) = true <-> wfLex a = true /\ mergesNext a r = false /\ stable r = true.
Proof.
  simpl. rewrite !andb_true_iff, negb_true_iff. tauto.
Qed.

Lemma isDigit_not_letter (c : ascii) : isDigit c = true -> isLetter c = false.
Proof. destruct c as [[] [] [] [] [] [] [] []]; vm_compute; congruence. Qed.

Lemma lex_letters (t : string) (T : string) :
  t <> EmptyString -> allChars isLetter t = true ->
  (forall u r, lex T <> mkLex LexType.Letters u :: r) ->
  lex (t +++ T) = mkLex LexType.Letters t :: lex T.
Proof.
  induction t as [|c t IH]; intros Hne Hall Hhd; [congruence|].
  simpl in Hall. apply andb_true_iff in Hall as [Hc Hall].
  simpl. rewrite Hc. destruct t as [|d t].
  - simpl. destruct (lex T) as [|[[] u] r] eqn:E; try reflexivity.
    exfalso. exact (Hhd _ _ eq_refl).
  - rewrite IH; [reflexivity | discriminate | exact Hall | exact Hhd].
Qed.

Lemma lex_digits (t : string) (T : string) :
  t <> EmptyString -> allChars isDigit t = true ->
  (forall u r, lex T <> mkLex LexType.Digits u :: r) ->
  lex (t +++ T) = mkLex LexType.Digits t :: lex T.
Proof.
  induction t as [|c t IH]; intros Hne Hall Hhd; [congruence|].
  simpl in Hall. apply andb_true_iff in Hall as [Hc Hall].
  simpl. rewrite (isDigit_not_letter _ Hc), Hc. destruct t as [|d t].
  - simpl. destruct (lex T) as [|[[] u] r] eqn:E; try reflexivity.
    exfalso. exact (Hhd _ _ eq_refl).
  - rewrite IH; [reflexivity | discriminate | exact Hall | exact Hhd].
Qed.

Lemma lex_single (c : ascii) (T : string) :
  isLetter c = false -> isDigit c = false ->
  mergesNext (mkLex (singleType c) (one c)) (lex T) = false ->
  lex (String c T) = mkLex (singleType c) (one c) :: lex T.
Proof.
  intros Hl Hd Hm. simpl. rewrite Hl, Hd.
  destruct (singleType c) eqn:Ety; try reflexivity.
  destruct (lex T) as [|[ty u] r]; [reflexivity|].
  destruct ty; try reflexivity.
  unfold mergesNext, merges in Hm; simpl in Hm.
  destruct u as [|[[] [] [] [] [] [] [] []] [|]]; try reflexivity.
  vm_compute in Hm. discriminate.
Qed.

Lemma single_char_lex (l : Lex) :
  wfLex l = true ->
  lexType l <> LexType.Letters -> lexType l <> LexType.Digits ->
  lexType l <> LexType.NewLine ->
  exists c, lexText l = one c /\ singleType c = lexType l
            /\ isLetter c = false /\ isDigit c = false.
Proof.
  destruct l as [ty t]; unfold wfLex; simpl. intros H H1 H2 H3.
  destruct ty; try congruence;
    try (apply String.eqb_eq in H; subst t; eexists; repeat split; reflexivity).
  destruct t as [|c [|]]; try discriminate.
  apply andb_true_iff in H as [H Hs]. apply andb_true_iff in H as [Ha Hb].
  apply negb_true_iff in Ha, Hb. apply lexType_eqb_eq in Hs.
  exists c. auto.
Qed.

Lemma lex_crlf (T : string) :
  lex (String "013"%char (String "010"%char T)) = mkLex LexType.NewLine (cr +++ lf) :: lex T.
Proof.
  change (lex (String "013"%char (String "010"%char T)))
    with (match lex (String "010"%char T) with
          | mkLex LexType.NewLine (String "010"%char EmptyString) :: r =>
              mkLex LexType.NewLine (String "013"%char lf) :: r
          | rest => mkLex LexType.CarriageReturn (one "013"%char) :: rest
          end).
  change (lex (String "010"%char T)) with (mkLex LexType.NewLine (one "010"%char) :: lex T).
  reflexivity.
Qed.

(** The lexer reads a stable lexeme list back from its text. *)
Lemma lex_stable (ls : list Lex) : stable ls = true -> lex (getCombinedText ls) = ls.
Proof.
  induction ls as [|a r IH]; intros H; [reflexivity|].
  apply stable_cons in H as (Hwf & Hm & Hr). specialize (IH Hr).
  cbn [getCombinedText].
  destruct a as [ty t]. cbn [lexText].
  destruct ty eqn:Ety.
  all: try (destruct (single_char_lex (mkLex ty t)) as (c & Hc & Hs & Hl & Hd);
            [subst ty; exact Hwf | subst ty; simpl; congruence ..
            | simpl in Hc, Hs; subst t; cbn [String.append one];
              rewrite lex_single; rewrite ?IH; subst ty; rewrite ?Hs; auto ]).
  - unfold wfLex in Hwf; simpl in Hwf. apply andb_true_iff in Hwf as [Hne Hall].
    rewrite lex_letters; rewrite ?IH; auto.
    + apply negb_true_iff in Hne. intros ->. discriminate.
    + intros u r' ->. simpl in Hm. discriminate.
  - unfold wfLex in Hwf; simpl in Hwf. apply orb_true_iff in Hwf as [E | E];
      apply String.eqb_eq in E; subst t.
    + match goal with |- lex _ = ?y =>
        change (lex (String "010"%char (getCombinedText r)) = y) end.
      rewrite lex_single; rewrite ?IH; auto.
    + match goal with |- lex _ = ?y =>
        change (lex (String "013"%char (String "010"%char (getCombinedText r))) = y) end.
      rewrite lex_crlf, IH. reflexivity.
  - unfold wfLex in Hwf; simpl in Hwf. apply andb_true_iff in Hwf as [Hne Hall].
    rewrite lex_digits; rewrite ?IH; auto.
    + apply negb_true_iff in Hne. intros ->. discriminate.
    + intros u r' ->. simpl in Hm. discriminate.
Qed.

Lemma stable_retext (ty : LexType.t) (t u : string) (r : list Lex) :
  wfLex (mkLex ty u) = true -> stable (mkLex ty t :: r) = true ->
  stable (mkLex ty u :: r) = true.
Proof.
  intros Hw H. apply stable_cons in H as (_ & H2 & H3).
  apply stable_cons. repeat split; auto.
Qed.

Lemma stable_push (a : Lex) (r : list Lex) :
  wfLex a = true -> mergesNext a r = false -> stable r = true -> stable (a :: r) = true.
Proof. intros. apply stable_cons. auto. Qed.

Lemma singleType_not_run (c : ascii) :
  singleType c <> LexType.Letters /\ singleType c <> LexType.Digits.
Proof. destruct c as [[] [] [] [] [] [] [] []]; vm_compute; split; discriminate. Qed.

Lemma stable_lex (s : string) : stable (lex s) = true.
Proof.
  induction s as [|c s IH]; [reflexivity|].
  pose proof (lex_wf (String c s)) as Hwf.
  simpl in Hwf |- *. destruct (isLetter c) eqn:Hl.
  - destruct (lex s) as [|[ty t] r] eqn:E.
    + simpl in *. now rewrite Hwf.
    + destruct ty; apply forallb_cons_inv in Hwf as [Hw _];
        try (apply stable_push; [exact Hw | reflexivity | exact IH]).
      exact (stable_retext _ _ _ _ Hw IH).
  - destruct (isDigit c) eqn:Hd.
    + destruct (lex s) as [|[ty t] r] eqn:E.
      * simpl in *. now rewrite Hwf.
      * destruct ty; apply forallb_cons_inv in Hwf as [Hw _];
          try (apply stable_push; [exact Hw | reflexivity | exact IH]).
        exact (stable_retext _ _ _ _ Hw IH).
    + destruct (singleType c) eqn:Ety.
      all: try (exfalso; destruct (singleType_not_run c); congruence).
      all: try (apply forallb_cons_inv in Hwf as [Hw _];
                apply stable_push; [exact Hw | destruct (lex s) as [|[[] ?] ?]; reflexivity
                                   | exact IH]).
      destruct (lex s) as [|[ty t] r] eqn:E.
      * simpl in *. now rewrite Hwf.
      * destruct ty;
          try (apply forallb_cons_inv in Hwf as [Hw _];
               apply stable_push; [exact Hw | reflexivity | exact IH]).
        destruct t as [|[[] [] [] [] [] [] [] []] [|]];
          try (apply forallb_cons_inv in Hwf as [Hw _];
               apply stable_push; [exact Hw | reflexivity | exact IH]).
        apply forallb_cons_inv in Hwf as [Hw _].
        apply stable_cons in IH as (H1 & H2 & H3).
        apply stable_push; auto.
Qed.

(** *** Tokens without their position *)

(** A token as [format] sees it: its lexemes and its type. *)
Definition eraseToken (t : Token) : Token := mkToken (_basicTokens t) 0 (getType t).

(** The token [Tokenizer.next] builds from the head of a lexeme list, and the
    lexemes it leaves. *)
Definition readShape (ls : list Lex) : option (Token * list Lex) :=
  match ls with
  | [] => None
  | l :: _ => let '(tok, _, c) := readToken 0 l (mkCursor ls 0) in Some (tok, lexes c)
  end.

Fixpoint tokensFuel (fuel : nat) (ls : list Lex) : list Token :=
  match fuel with
  | 0 => []
  | S n =>
      match readShape ls with
      | None => []
      | Some (tok, rest) => tok :: tokensFuel n rest
      end
  end.

(** All the tokens of a lexeme list. *)
Definition tokensOf (ls : list Lex) : list Token := tokensFuel (length ls) ls.

Lemma readSign_lexes (c c' : Cursor) :
  lexes c = lexes c' ->
  fst (readSign c) = fst (readSign c') /\ lexes (snd (readSign c)) = lexes (snd (readSign c')).
Proof.
  destruct c as [ls b], c' as [ls' b']; simpl; intros <-.
  unfold readSign, currentBasicToken, nextBasicToken; simpl.
  destruct ls as [|l r]; simpl; auto. destruct (isType l LexType.Dash); simpl; auto.
Qed.

Lemma readWhole_lexes (ts ts' : nat) (c c' : Cursor) :
  lexes c = lexes c' ->
  fst (fst (readWhole ts c)) = fst (fst (readWhole ts' c'))
  /\ lexes (snd (readWhole ts c)) = lexes (snd (readWhole ts' c')).
Proof.
  destruct c as [ls b], c' as [ls' b']; simpl; intros <-.
  unfold readWhole, currentBasicToken, nextBasicToken; simpl.
  destruct ls as [|l r]; simpl; auto. destruct (isType l LexType.Digits); simpl; auto.
Qed.

Lemma readFraction_lexes (c c' : Cursor) :
  lexes c = lexes c' ->
  fst (fst (readFraction c)) = fst (fst (readFraction c'))
  /\ lexes (snd (readFraction c)) = lexes (snd (readFraction c')).
Proof.
  destruct c as [ls b], c' as [ls' b']; simpl; intros <-.
  unfold readFraction, currentBasicToken, nextBasicToken; simpl.
  destruct ls as [|l r]; simpl; auto. destruct (isType l LexType.Period); simpl; auto.
  destruct r as [|d r]; simpl; auto. destruct (isType d LexType.Digits); simpl; auto.
Qed.

Lemma readExponent_lexes (c c' : Cursor) :
  lexes c = lexes c' ->
  fst (fst (readExponent c)) = fst (fst (readExponent c'))
  /\ lexes (snd (readExponent c)) = lexes (snd (readExponent c')).
Proof.
  destruct c as [ls b], c' as [ls' b']; simpl; intros <-.
  unfold readExponent, currentBasicToken, nextBasicToken; simpl.
  destruct ls as [|l r]; simpl; auto.
  destruct (isType l LexType.Letters && (toLowerCase (lexText l) =? "e")%string); simpl; auto.
  destruct r as [|s r]; simpl; auto.
  destruct (isType s LexType.Dash || isType s LexType.Plus); simpl.
  - destruct r as [|d r]; simpl; auto. destruct (isType d LexType.Digits); simpl; auto.
  - destruct (isType s LexType.Digits); simpl; auto.
Qed.

Lemma readNumber_lexes (ts ts' : nat) (c c' : Cursor) :
  lexes c = lexes c' ->
  eraseToken (fst (fst (readNumber ts c))) = eraseToken (fst (fst (readNumber ts' c')))
  /\ lexes (snd (readNumber ts c)) = lexes (snd (readNumber ts' c')).
Proof.
  intros E. unfold readNumber.
  destruct (readSign_lexes c c' E) as [S1 S2].
  destruct (readSign c) as [sign c1], (readSign c') as [sign' c1']. simpl in S1, S2.
  destruct (readWhole_lexes ts ts' c1 c1' S2) as [W1 W2].
  destruct (readWhole ts c1) as [[whole wi] c2], (readWhole ts' c1') as [[whole' wi'] c2'].
  simpl in W1, W2.
  destruct (readFraction_lexes c2 c2' W2) as [F1 F2].
  destruct (readFraction c2) as [[fraction fi] c3], (readFraction c2') as [[fraction' fi'] c3'].
  simpl in F1, F2.
  destruct (readExponent_lexes c3 c3' F2) as [X1 X2].
  destruct (readExponent c3) as [[exponent xi] c4], (readExponent c3') as [[exponent' xi'] c4'].
  simpl in X1, X2. simpl. subst. auto.
Qed.

Lemma readSlash_lexes (ts ts' : nat) (l : Lex) (c c' : Cursor) :
  lexes c = lexes c' ->
  eraseToken (fst (fst (readSlash ts l c))) = eraseToken (fst (fst (readSlash ts' l c')))
  /\ lexes (snd (readSlash ts l c)) = lexes (snd (readSlash ts' l c')).
Proof.
  destruct c as [ls b], c' as [ls' b']; simpl; intros <-.
  unfold readSlash, nextBasicToken; simpl.
  destruct ls as [|x [|second r]]; simpl; auto.
  destruct (lexType second); simpl; auto.
  - destruct (takeWhileLex _ r); simpl; auto.
  - destruct (blockCommentLoop r); simpl; auto.
Qed.

(** Positions decide neither the token read nor where the reading stops. *)
Lemma readToken_lexes (ts ts' : nat) (l : Lex) (c c' : Cursor) :
  lexes c = lexes c' ->
  eraseToken (fst (fst (readToken ts l c))) = eraseToken (fst (fst (readToken ts' l c')))
  /\ lexes (snd (readToken ts l c)) = lexes (snd (readToken ts' l c')).
Proof.
  intros E. unfold readToken.
  destruct (lexType l);
    try (destruct c as [ls b], c' as [ls' b']; simpl in E; subst ls';
         unfold nextBasicToken; simpl; destruct ls; simpl; auto; fail).
  - destruct c as [ls b], c' as [ls' b']; simpl in E; subst ls'.
    unfold nextBasicToken; simpl.
    destruct (lexText l =? "true")%string; [destruct ls; simpl; auto|].
    destruct (lexText l =? "false")%string; [destruct ls; simpl; auto|].
    destruct (lexText l =? "null")%string; destruct ls; simpl; auto.
  - rewrite E. destruct (quotedStringLoop _ false (tl (lexes c'))) as [[a e] rest]. simpl. auto.
  - rewrite E. destruct (quotedStringLoop _ false (tl (lexes c'))) as [[a e] rest]. simpl. auto.
  - rewrite E. destruct (takeWhileLex _ (tl (lexes c'))) as [a rest]. simpl. auto.
  - rewrite E. destruct (takeWhileLex _ (tl (lexes c'))) as [a rest]. simpl. auto.
  - rewrite E. destruct (takeWhileLex _ (tl (lexes c'))) as [a rest]. simpl. auto.
  - apply readNumber_lexes, E.
  - apply readNumber_lexes, E.
  - apply readNumber_lexes, E.
  - apply readSlash_lexes, E.
Qed.

Lemma readToken_start (ts : nat) (l : Lex) (c : Cursor) :
  tokenStartIndex (fst (fst (readToken ts l c))) = ts.
Proof.
  unfold readToken, readNumber, readSlash.
  destruct (lexType l); simpl; auto.
  - destruct (lexText l =? "true")%string; [reflexivity|].
    destruct (lexText l =? "false")%string; [reflexivity|].
    destruct (lexText l =? "null")%string; reflexivity.
  - destruct (quotedStringLoop _ _ _) as [[? ?] ?]; reflexivity.
  - destruct (quotedStringLoop _ _ _) as [[? ?] ?]; reflexivity.
  - destruct (takeWhileLex _ _); reflexivity.
  - destruct (takeWhileLex _ _); reflexivity.
  - destruct (takeWhileLex _ _); reflexivity.
  - destruct (readSign c), (readWhole _ _) as [[? ?] ?], (readFraction _) as [[? ?] ?],
      (readExponent _) as [[? ?] ?]; reflexivity.
  - destruct (readSign c), (readWhole _ _) as [[? ?] ?], (readFraction _) as [[? ?] ?],
      (readExponent _) as [[? ?] ?]; reflexivity.
  - destruct (readSign c), (readWhole _ _) as [[? ?] ?], (readFraction _) as [[? ?] ?],
      (readExponent _) as [[? ?] ?]; reflexivity.
  - destruct (lexes (nextBasicToken c)) as [|second r]; [reflexivity|].
    destruct (lexType second); try reflexivity.
    + destruct (takeWhileLex _ _); reflexivity.
    + destruct (blockCommentLoop _); reflexivity.
Qed.

Lemma erase_start0 (t : Token) : tokenStartIndex t = 0 -> eraseToken t = t.
Proof. destruct t; simpl; intros ->; reflexivity. Qed.

Lemma readToken_shape (ts b : nat) (l : Lex) (ls : list Lex) tok iss c :
  readToken ts l (mkCursor (l :: ls) b) = (tok, iss, c) ->
  readShape (l :: ls) = Some (eraseToken tok, lexes c).
Proof.
  intros H. unfold readShape.
  destruct (readToken_lexes 0 ts l (mkCursor (l :: ls) 0) (mkCursor (l :: ls) b) eq_refl)
    as [E1 E2].
  pose proof (readToken_start 0 l (mkCursor (l :: ls) 0)) as E0.
  destruct (readToken 0 l _) as [[tok0 iss0] c0]. rewrite H in E1, E2. simpl in *.
  rewrite <- E1, E2. now rewrite erase_start0.
Qed.

Lemma readShape_spec (ls : list Lex) (tok : Token) (rest : list Lex) :
  forallb wfLex ls = true -> readShape ls = Some (tok, rest) ->
  ls = _basicTokens tok ++ rest /\ _basicTokens tok <> [] /\ tokenStartIndex tok = 0.
Proof.
  intros Hwf H. destruct ls as [|l r]; [discriminate|]. unfold readShape in H.
  destruct (readToken 0 l _) as [[tok0 iss0] c0] eqn:E. injection H as <- <-.
  destruct (readToken_spec _ _ _ _ _ _ _ Hwf E) as (L & Hne & Hs & _). auto.
Qed.

Lemma readShape_shorter (ls : list Lex) (tok : Token) (rest : list Lex) :
  forallb wfLex ls = true -> readShape ls = Some (tok, rest) ->
  length rest < length ls /\ forallb wfLex rest = true.
Proof.
  intros Hwf H. destruct (readShape_spec _ _ _ Hwf H) as (L & Hne & _).
  split.
  - rewrite L, length_app. destruct (_basicTokens tok); [contradiction | simpl; lia].
  - rewrite L in Hwf. now apply forallb_app_inv in Hwf as [_ Hwf].
Qed.

Lemma tokensFuel_enough (n : nat) :
  forall m ls, forallb wfLex ls = true -> length ls <= n -> length ls <= m ->
               tokensFuel n ls = tokensFuel m ls.
Proof.
  induction n as [|n IH]; intros m ls Hwf Hn Hm.
  - destruct ls; [|simpl in Hn; lia]. destruct m; reflexivity.
  - destruct m as [|m].
    + destruct ls; [reflexivity | simpl in Hm; lia].
    + simpl. destruct (readShape ls) as [[tok rest]|] eqn:E; [|reflexivity].
      destruct (readShape_shorter _ _ _ Hwf E) as [Hlen Hwf'].
      f_equal. apply IH; auto; lia.
Qed.

Lemma tokensOf_unfold (ls : list Lex) :
  forallb wfLex ls = true ->
  tokensOf ls =
  match readShape ls with
  | None => []
  | Some (tok, rest) => tok :: tokensOf rest
  end.
Proof.
  intros Hwf. unfold tokensOf. destruct ls as [|l r]; [reflexivity|].
  cbn [length tokensFuel].
  destruct (readShape (l :: r)) as [[tok rest]|] eqn:E; [|reflexivity].
  destruct (readShape_shorter _ _ _ Hwf E) as [Hlen Hwf'].
  f_equal. apply tokensFuel_enough; auto. simpl in Hlen. lia.
Qed.

Lemma tokensOf_nil : tokensOf [] = [].
Proof. reflexivity. Qed.

(** The tokens a started tokenizer will still hand out, the current one
    first. *)
Definition stream (t : Tokenizer) : list Token :=
  match getCurrent t with
  | Some tok => eraseToken tok :: tokensOf (pendingLexes t)
  | None => []
  end.

Lemma stream_next (limit : nat) (t t' : Tokenizer) (iss : list Issue) :
  Inv limit t -> next t = (t', iss) -> stream t' = tokensOf (pendingLexes t).
Proof.
  intros (Hs & Hwf & _) H. unfold next in H. rewrite Hs in H. cbn [negb] in H.
  unfold pendingLexes in *.
  destruct (lexerInput (_tokenizer t)) as [|l ls] eqn:El.
  - injection H as <- <-. unfold stream; simpl. reflexivity.
  - destruct (readToken _ l _) as [[tok i] c] eqn:Er.
    injection H as <- <-. unfold stream, pendingLexes; simpl.
    rewrite (tokensOf_unfold (l :: ls)) by exact Hwf.
    now rewrite (readToken_shape _ _ _ _ _ _ _ Er).
Qed.

Lemma stream_first (input : list Lex) (t' : Tokenizer) (iss : list Issue) :
  forallb wfLex input = true ->
  next (newTokenizer input 0) = (t', iss) -> stream t' = tokensOf input.
Proof.
  intros Hwf H. unfold next, newTokenizer in H. cbn in H.
  destruct input as [|l ls].
  - injection H as <- <-. reflexivity.
  - destruct (readToken 0 l _) as [[tok i] c] eqn:Er.
    injection H as <- <-. unfold stream, pendingLexes; simpl.
    rewrite (tokensOf_unfold (l :: ls)) by exact Hwf.
    now rewrite (readToken_shape _ _ _ _ _ _ _ Er).
Qed.

Lemma stream_current (t : Tokenizer) (tok : Token) :
  getCurrent t = Some tok -> stream t = eraseToken tok :: tokensOf (pendingLexes t).
Proof. unfold stream. now intros ->. Qed.

Lemma stream_none (t : Tokenizer) : getCurrent t = None -> stream t = [].
Proof. unfold stream. now intros ->. Qed.

(** *** What a token's reading depends on *)

(** Lexemes that never continue the token before them: the space that
    [format] inserts and the first lexemes of the tokens it writes without a
    space before them. *)
Definition neutralLex (l : Lex) : bool :=
  match lexType l with
  | LexType.Space | LexType.NewLine
  | LexType.LeftCurlyBracket | LexType.RightCurlyBracket
  | LexType.LeftSquareBracket | LexType.RightSquareBracket
  | LexType.Comma | LexType.Colon
  | LexType.SingleQuote | LexType.DoubleQuote => true
  | _ => false
  end.

Definition quietHead (r : list Lex) : bool :=
  match r with
  | [] => true
  | y :: _ => neutralLex y
  end.

(** The lexemes after a token in two texts: the first one is the same, or the
    second text goes on with a neutral lexeme or ends. *)
Definition Agree (r1 r2 : list Lex) : Prop :=
  hd_error r2 = hd_error r1 \/ quietHead r2 = true.

Lemma agree_app (p r1 r2 : list Lex) : Agree r1 r2 -> Agree (p ++ r1) (p ++ r2).
Proof. destruct p; [auto | left; reflexivity]. Qed.

Lemma neutral_tests (y : Lex) :
  neutralLex y = true ->
  isType y LexType.Digits = false /\ isType y LexType.Period = false
  /\ isType y LexType.Letters = false /\ isType y LexType.Dash = false
  /\ isType y LexType.Plus = false /\ isType y LexType.ForwardSlash = false
  /\ isType y LexType.Asterisk = false.
Proof.
  unfold neutralLex, isType. destruct (lexType y); simpl; intros H;
    try discriminate; repeat split.
Qed.

Ltac use_agree Ag :=
  let E := fresh "E" in
  let Q := fresh "Q" in
  destruct Ag as [E | Q];
  [ simpl in E; try discriminate; try (injection E as ->)
  | simpl in Q; try (apply neutral_tests in Q; destruct Q as (? & ? & ? & ? & ? & ? & ?)) ].

Ltac reread_done :=
  simpl in *; try congruence;
  repeat (match goal with
          | H : isType ?x ?T = _ |- context [isType ?x ?T] => rewrite H
          | H : _ && _ = _ |- _ => rewrite H
          | H : _ || _ = _ |- _ => rewrite H
          end; simpl);
  try congruence; try reflexivity.

Lemma readSign_app (c : Cursor) : lexes c = fst (readSign c) ++ lexes (snd (readSign c)).
Proof.
  destruct c as [ls b]. unfold readSign, currentBasicToken, nextBasicToken; simpl.
  destruct ls as [|l r]; simpl; auto. destruct (isType l LexType.Dash); reflexivity.
Qed.

Lemma readWhole_app (ts : nat) (c : Cursor) :
  lexes c = fst (fst (readWhole ts c)) ++ lexes (snd (readWhole ts c)).
Proof.
  destruct c as [ls b]. unfold readWhole, currentBasicToken, nextBasicToken; simpl.
  destruct ls as [|l r]; simpl; auto. destruct (isType l LexType.Digits); reflexivity.
Qed.

Lemma readFraction_app (c : Cursor) :
  lexes c = fst (fst (readFraction c)) ++ lexes (snd (readFraction c)).
Proof.
  destruct c as [ls b]. unfold readFraction, currentBasicToken, nextBasicToken; simpl.
  destruct ls as [|l r]; simpl; auto. destruct (isType l LexType.Period); simpl; auto.
  destruct r as [|d r]; simpl; auto. destruct (isType d LexType.Digits); reflexivity.
Qed.

Lemma readExponent_app (c : Cursor) :
  lexes c = fst (fst (readExponent c)) ++ lexes (snd (readExponent c)).
Proof.
  destruct c as [ls b]. unfold readExponent, currentBasicToken, nextBasicToken; simpl.
  destruct ls as [|l r]; simpl; auto.
  destruct (isType l LexType.Letters && (toLowerCase (lexText l) =? "e")%string); simpl; auto.
  destruct r as [|s r]; simpl; auto.
  destruct (isType s LexType.Dash || isType s LexType.Plus); simpl.
  - destruct r as [|d r]; simpl; auto. destruct (isType d LexType.Digits); simpl; auto.
  - destruct (isType s LexType.Digits); simpl; auto.
Qed.

Lemma readSign_agree (b b' : nat) (p r1 r2 : list Lex) :
  fst (readSign (mkCursor (p ++ r1) b)) = p -> Agree r1 r2 ->
  fst (readSign (mkCursor (p ++ r2) b')) = p.
Proof.
  unfold readSign, currentBasicToken, nextBasicToken; simpl.
  intros H Ag. destruct p as [|l p]; simpl in *.
  - destruct r1 as [|y r1]; simpl in H.
    + destruct r2 as [|y2 r2]; simpl; [reflexivity|]. use_agree Ag. reread_done.
    + destruct (isType y LexType.Dash) eqn:Ey; simpl in H; [discriminate|].
      destruct r2 as [|y2 r2]; simpl; [reflexivity|]. use_agree Ag; reread_done.
  - destruct (isType l LexType.Dash); simpl in *; congruence.
Qed.

Lemma readWhole_agree (ts ts' b b' : nat) (p r1 r2 : list Lex) :
  fst (fst (readWhole ts (mkCursor (p ++ r1) b))) = p -> Agree r1 r2 ->
  fst (fst (readWhole ts' (mkCursor (p ++ r2) b'))) = p.
Proof.
  unfold readWhole, currentBasicToken, nextBasicToken; simpl.
  intros H Ag. destruct p as [|l p]; simpl in *.
  - destruct r1 as [|y r1]; simpl in H.
    + destruct r2 as [|y2 r2]; simpl; [reflexivity|]. use_agree Ag. reread_done.
    + destruct (isType y LexType.Digits) eqn:Ey; simpl in H; [discriminate|].
      destruct r2 as [|y2 r2]; simpl; [reflexivity|]. use_agree Ag; reread_done.
  - destruct (isType l LexType.Digits); simpl in *; congruence.
Qed.

Lemma readFraction_agree (b b' : nat) (p r1 r2 : list Lex) :
  fst (fst (readFraction (mkCursor (p ++ r1) b))) = p -> Agree r1 r2 ->
  fst (fst (readFraction (mkCursor (p ++ r2) b'))) = p.
Proof.
  unfold readFraction, currentBasicToken, nextBasicToken; simpl.
  intros H Ag. destruct p as [|l [|d p]]; simpl in *.
  - destruct r1 as [|y r1]; simpl in H.
    + destruct r2 as [|y2 r2]; simpl; [reflexivity|]. use_agree Ag. reread_done.
    + destruct (isType y LexType.Period) eqn:Ey; simpl in H.
      * destruct r1 as [|d r1]; simpl in H; [discriminate|].
        destruct (isType d LexType.Digits); discriminate.
      * destruct r2 as [|y2 r2]; simpl; [reflexivity|]. use_agree Ag; reread_done.
  - destruct (isType l LexType.Period) eqn:El; simpl in *; [|discriminate].
    destruct r1 as [|y r1]; simpl in H.
    + destruct r2 as [|y2 r2]; simpl; [reflexivity|]. use_agree Ag. reread_done.
    + destruct (isType y LexType.Digits) eqn:Ey; simpl in H; [discriminate|].
      destruct r2 as [|y2 r2]; simpl; [reflexivity|]. use_agree Ag; reread_done.
  - destruct (isType l LexType.Period) eqn:El; simpl in *; [|discriminate].
    destruct (isType d LexType.Digits) eqn:Ed; simpl in *; congruence.
Qed.

Lemma readExponent_agree (b b' : nat) (p r1 r2 : list Lex) :
  fst (fst (readExponent (mkCursor (p ++ r1) b))) = p -> Agree r1 r2 ->
  fst (fst (readExponent (mkCursor (p ++ r2) b'))) = p.
Proof.
  unfold readExponent, currentBasicToken, nextBasicToken; simpl.
  intros H Ag. destruct p as [|l p]; simpl in *.
  - (* nothing read: the head of the rest is no exponent letter *)
    assert (Hr1 : match r1 with
                  | [] => Logic.True
                  | y :: _ => isType y LexType.Letters && (toLowerCase (lexText y) =? "e")%string = false
                  end).
    { destruct r1 as [|y r1]; [exact I|]. simpl in H.
      destruct (isType y LexType.Letters && (toLowerCase (lexText y) =? "e")%string); [|reflexivity].
      exfalso. destruct r1 as [|s r1]; simpl in H; [discriminate|].
      destruct (isType s LexType.Dash || isType s LexType.Plus); simpl in H.
      - destruct r1 as [|d r1]; simpl in H; [discriminate|].
        destruct (isType d LexType.Digits); discriminate.
      - destruct (isType s LexType.Digits); discriminate. }
    destruct r2 as [|y2 r2]; simpl; [reflexivity|].
    destruct Ag as [E | Q].
    + destruct r1 as [|y r1]; simpl in E; [discriminate|]. injection E as ->.
      now rewrite Hr1.
    + simpl in Q. apply neutral_tests in Q. destruct Q as (_ & _ & -> & _). reflexivity.
  - destruct (isType l LexType.Letters && (toLowerCase (lexText l) =? "e")%string) eqn:El;
      simpl in *; [|discriminate].
    destruct p as [|s p]; simpl in *.
    + (* the letter alone *)
      destruct r1 as [|y r1]; simpl in H.
      * destruct r2 as [|y2 r2]; simpl; [reflexivity|].
        use_agree Ag. reread_done.
      * destruct (isType y LexType.Dash || isType y LexType.Plus) eqn:Es; simpl in H.
        { destruct r1 as [|d r1]; simpl in H; [discriminate|].
          destruct (isType d LexType.Digits); discriminate. }
        destruct (isType y LexType.Digits) eqn:Ed; simpl in H; [discriminate|].
        destruct r2 as [|y2 r2]; simpl; [reflexivity|].
        use_agree Ag; reread_done.
    + destruct (isType s LexType.Dash || isType s LexType.Plus) eqn:Es; simpl in *.
      * destruct p as [|d p]; simpl in *.
        -- destruct r1 as [|y r1]; simpl in H.
           ++ destruct r2 as [|y2 r2]; simpl; [reflexivity|].
              use_agree Ag. reread_done.
           ++ destruct (isType y LexType.Digits) eqn:Ed; simpl in H; [discriminate|].
              destruct r2 as [|y2 r2]; simpl; [reflexivity|].
              use_agree Ag; reread_done.
        -- destruct (isType d LexType.Digits) eqn:Ed; simpl in *; [|discriminate].
           exact H.
      * destruct (isType s LexType.Digits) eqn:Ed; simpl in *; [|discriminate].
        exact H.
Qed.

(** One block of the number case, as the lexemes it adds and the position it
    leaves. *)
Definition Block : Type := Cursor -> list Lex * Cursor.

Definition signBlock : Block := readSign.
Definition wholeBlock (ts : nat) : Block :=
  fun c => let '(p, _, c') := readWhole ts c in (p, c').
Definition fractionBlock : Block :=
  fun c => let '(p, _, c') := readFraction c in (p, c').
Definition exponentBlock : Block :=
  fun c => let '(p, _, c') := readExponent c in (p, c').

Definition thenBlock (B1 B2 : Block) : Block :=
  fun c => let '(p1, c1) := B1 c in let '(p2, c2) := B2 c1 in (p1 ++ p2, c2).

(** A block reads a prefix of the lexemes, and which prefix it reads depends
    on the lexemes read and the one after them only. *)
Definition blockOK (B : Block) : Prop :=
  (forall c, lexes c = fst (B c) ++ lexes (snd (B c)))
  /\ (forall b b' p r1 r2,
         fst (B (mkCursor (p ++ r1) b)) = p -> Agree r1 r2 ->
         fst (B (mkCursor (p ++ r2) b')) = p).

Lemma signBlock_ok : blockOK signBlock.
Proof. split; [exact readSign_app | exact readSign_agree]. Qed.

Lemma wholeBlock_ok (ts : nat) : blockOK (wholeBlock ts).
Proof.
  split.
  - intros c. pose proof (readWhole_app ts c) as H. unfold wholeBlock.
    destruct (readWhole ts c) as [[p i] c']. exact H.
  - intros b b' p r1 r2 H Ag. pose proof (readWhole_agree ts ts b b' p r1 r2) as G.
    unfold wholeBlock in *.
    destruct (readWhole ts (mkCursor (p ++ r1) b)) as [[p1 i1] c1].
    destruct (readWhole ts (mkCursor (p ++ r2) b')) as [[p2 i2] c2]. auto.
Qed.

Lemma fractionBlock_ok : blockOK fractionBlock.
Proof.
  split.
  - intros c. pose proof (readFraction_app c) as H. unfold fractionBlock.
    destruct (readFraction c) as [[p i] c']. exact H.
  - intros b b' p r1 r2 H Ag. pose proof (readFraction_agree b b' p r1 r2) as G.
    unfold fractionBlock in *.
    destruct (readFraction (mkCursor (p ++ r1) b)) as [[p1 i1] c1].
    destruct (readFraction (mkCursor (p ++ r2) b')) as [[p2 i2] c2]. auto.
Qed.

Lemma exponentBlock_ok : blockOK exponentBlock.
Proof.
  split.
  - intros c. pose proof (readExponent_app c) as H. unfold exponentBlock.
    destruct (readExponent c) as [[p i] c']. exact H.
  - intros b b' p r1 r2 H Ag. pose proof (readExponent_agree b b' p r1 r2) as G.
    unfold exponentBlock in *.
    destruct (readExponent (mkCursor (p ++ r1) b)) as [[p1 i1] c1].
    destruct (readExponent (mkCursor (p ++ r2) b')) as [[p2 i2] c2]. auto.
Qed.

Lemma thenBlock_ok (B1 B2 : Block) : blockOK B1 -> blockOK B2 -> blockOK (thenBlock B1 B2).
Proof.
  intros [A1 G1] [A2 G2]. split.
  - intros c. unfold thenBlock. pose proof (A1 c) as H1.
    destruct (B1 c) as [p1 c1]. pose proof (A2 c1) as H2.
    destruct (B2 c1) as [p2 c2]. simpl in *. now rewrite H1, H2, app_assoc.
  - intros b b' p r1 r2 H Ag. unfold thenBlock in *.
    pose proof (A1 (mkCursor (p ++ r1) b)) as H1.
    pose proof (G1 b b') as G1'.
    destruct (B1 (mkCursor (p ++ r1) b)) as [p1 [L1 b1]] eqn:E1.
    pose proof (A2 (mkCursor L1 b1)) as H2.
    pose proof (G2 b1) as G2'.
    destruct (B2 (mkCursor L1 b1)) as [p2 c2] eqn:E2.
    simpl in H, H1, H2. subst p.
    rewrite <- app_assoc in H1. apply app_inv_head in H1. subst L1.
    specialize (G1' p1 (p2 ++ r1) (p2 ++ r2)).
    rewrite <- !app_assoc in *. rewrite E1 in G1'.
    specialize (G1' eq_refl (agree_app _ _ _ Ag)).
    pose proof (A1 (mkCursor (p1 ++ p2 ++ r2) b')) as H1'.
    destruct (B1 (mkCursor (p1 ++ p2 ++ r2) b')) as [p1' [L1' b1']].
    simpl in G1', H1'. subst p1'. apply app_inv_head in H1'. subst L1'.
    specialize (G2' b1' p2 r1 r2). rewrite E2 in G2'.
    assert (Hl : lexes c2 = r1) by (apply app_inv_head in H2; congruence).
    specialize (G2' eq_refl Ag).
    destruct (B2 (mkCursor (p2 ++ r2) b1')) as [p2' c2']. simpl in *. now subst p2'.
Qed.

Definition numberBlock (ts : nat) : Block :=
  thenBlock signBlock (thenBlock (wholeBlock ts) (thenBlock fractionBlock exponentBlock)).

Lemma numberBlock_ok (ts : nat) : blockOK (numberBlock ts).
Proof.
  repeat apply thenBlock_ok;
    auto using signBlock_ok, wholeBlock_ok, fractionBlock_ok, exponentBlock_ok.
Qed.

Lemma readNumber_block (ts : nat) (c : Cursor) :
  fst (fst (readNumber ts c)) = Tokens.Number (fst (numberBlock ts c)) ts
  /\ snd (readNumber ts c) = snd (numberBlock ts c).
Proof.
  unfold readNumber, numberBlock, thenBlock, signBlock, wholeBlock, fractionBlock, exponentBlock.
  destruct (readSign c) as [s c1].
  destruct (readWhole ts c1) as [[w wi] c2].
  destruct (readFraction c2) as [[f fi] c3].
  destruct (readExponent c3) as [[e ei] c4]. simpl. auto.
Qed.

(** The lexeme classes a number token is made of. *)
Definition numberLex (l : Lex) : bool :=
  match lexType l with
  | LexType.Dash | LexType.Plus | LexType.Digits | LexType.Period | LexType.Letters => true
  | _ => false
  end.

Lemma numberBlock_lexes (ts : nat) (c : Cursor) :
  forallb numberLex (fst (numberBlock ts c)) = true.
Proof.
  assert (T : forall l ty, isType l ty = true -> lexType l = ty) by (intros; now apply isType_eq).
  assert (S : forall c, forallb numberLex (fst (signBlock c)) = true).
  { intros [ls b]. unfold signBlock, readSign, currentBasicToken, nextBasicToken; simpl.
    destruct ls as [|l r]; simpl; auto. destruct (isType l LexType.Dash) eqn:E; simpl; auto.
    unfold numberLex. now rewrite (T _ _ E). }
  assert (W : forall c, forallb numberLex (fst (wholeBlock ts c)) = true).
  { intros [ls b]. unfold wholeBlock, readWhole, currentBasicToken, nextBasicToken; simpl.
    destruct ls as [|l r]; simpl; auto. destruct (isType l LexType.Digits) eqn:E; simpl; auto.
    unfold numberLex. now rewrite (T _ _ E). }
  assert (F : forall c, forallb numberLex (fst (fractionBlock c)) = true).
  { intros [ls b]. unfold fractionBlock, readFraction, currentBasicToken, nextBasicToken; simpl.
    destruct ls as [|l r]; simpl; auto. destruct (isType l LexType.Period) eqn:E; simpl; auto.
    destruct r as [|d r]; simpl; [unfold numberLex; now rewrite (T _ _ E)|].
    destruct (isType d LexType.Digits) eqn:E2; simpl; unfold numberLex;
      rewrite ?(T _ _ E), ?(T _ _ E2); reflexivity. }
  assert (X : forall c, forallb numberLex (fst (exponentBlock c)) = true).
  { intros [ls b]. unfold exponentBlock, readExponent, currentBasicToken, nextBasicToken; simpl.
    destruct ls as [|l r]; simpl; auto.
    destruct (isType l LexType.Letters && (toLowerCase (lexText l) =? "e")%string) eqn:E;
      simpl; auto.
    apply andb_true_iff in E as [E _].
    assert (Hl : numberLex l = true) by (unfold numberLex; now rewrite (T _ _ E)).
    destruct r as [|s r]; simpl; [now rewrite Hl|].
    destruct (isType s LexType.Dash || isType s LexType.Plus) eqn:Es; simpl.
    - assert (Hs : numberLex s = true).
      { apply orb_true_iff in Es as [Es | Es]; unfold numberLex; now rewrite (T _ _ Es). }
      destruct r as [|d r]; simpl; [now rewrite Hl, Hs|].
      destruct (isType d LexType.Digits) eqn:Ed; simpl; rewrite ?Hl, ?Hs; auto.
      unfold numberLex. now rewrite (T _ _ Ed).
    - destruct (isType s LexType.Digits) eqn:Ed; simpl; rewrite ?Hl; auto.
      unfold numberLex. now rewrite (T _ _ Ed). }
  unfold numberBlock, thenBlock.
  specialize (S c). destruct (signBlock c) as [s c1].
  specialize (W c1). destruct (wholeBlock ts c1) as [w c2].
  specialize (F c2). destruct (fractionBlock c2) as [f c3].
  specialize (X c3). destruct (exponentBlock c3) as [e c4].
  simpl in *. rewrite !forallb_app. now rewrite S, W, F, X.
Qed.

(** The loops of the quoted-string, whitespace and comment cases. *)
Lemma quotedStringLoop_closed (q : LexType.t) (x r1 : list Lex) :
  forall escaped,
    quotedStringLoop q escaped (x ++ r1) = (x, true, r1) ->
    (forall r2, quotedStringLoop q escaped (x ++ r2) = (x, true, r2))
    /\ exists x' c, x = x' ++ [c] /\ isType c q = true.
Proof.
  induction x as [|c x IH]; intros escaped H.
  - exfalso. simpl in H. destruct r1 as [|c r]; simpl in H; [discriminate|].
    destruct escaped.
    + destruct (quotedStringLoop q false r) as [[a e] r']. discriminate.
    + destruct (isType c LexType.Backslash).
      * destruct (quotedStringLoop q true r) as [[a e] r']. discriminate.
      * destruct (isType c q); [discriminate|].
        destruct (quotedStringLoop q false r) as [[a e] r']. discriminate.
  - simpl in H |- *.
    assert (Rec : forall e0,
               (let '(a, e, r') := quotedStringLoop q e0 (x ++ r1) in (c :: a, e, r'))
               = (c :: x, true, r1) ->
               (forall r2, (let '(a, e, r') := quotedStringLoop q e0 (x ++ r2) in (c :: a, e, r'))
                           = (c :: x, true, r2))
               /\ exists x' c0, c :: x = x' ++ [c0] /\ isType c0 q = true).
    { intros e0 H0. destruct (quotedStringLoop q e0 (x ++ r1)) as [[a e] r'] eqn:E.
      injection H0 as -> -> ->. destruct (IH _ E) as [G (x' & c0 & -> & Hc)]. split.
      - intros r2. now rewrite G.
      - exists (c :: x'), c0. auto. }
    destruct escaped; [exact (Rec _ H)|].
    destruct (isType c LexType.Backslash); [exact (Rec _ H)|].
    destruct (isType c q) eqn:Ec; [|exact (Rec _ H)].
    injection H as Hx Hr. assert (x = []).
    { destruct x as [|d x]; [reflexivity | discriminate]. }
    subst x. split; [reflexivity|]. exists [], c. auto.
Qed.

Lemma takeWhileLex_agree (p : Lex -> bool) (x r1 r2 : list Lex) :
  takeWhileLex p (x ++ r1) = (x, r1) -> hd_error r2 = hd_error r1 ->
  takeWhileLex p (x ++ r2) = (x, r2).
Proof.
  induction x as [|c x IH]; intros H E; simpl in *.
  - destruct r1 as [|y r1], r2 as [|y2 r2]; simpl in *; try discriminate; auto.
    injection E as ->. destruct (p y); [|reflexivity].
    destruct (takeWhileLex p r1); discriminate.
  - destruct (p c); [|discriminate].
    destruct (takeWhileLex p (x ++ r1)) as [a r'] eqn:E1. injection H as -> ->.
    now rewrite (IH eq_refl E).
Qed.

Lemma takeWhileLex_all (p : Lex -> bool) (x r1 : list Lex) :
  takeWhileLex p (x ++ r1) = (x, r1) ->
  forallb p x = true /\ match r1 with [] => Logic.True | y :: _ => p y = false end.
Proof.
  induction x as [|c x IH]; intros H; simpl in *.
  - split; [reflexivity|]. destruct r1 as [|y r1]; [exact I|]. simpl in H.
    destruct (p y); [|reflexivity]. destruct (takeWhileLex p r1); discriminate.
  - destruct (p c); [|discriminate].
    destruct (takeWhileLex p (x ++ r1)) as [a r'] eqn:E1. injection H as -> ->.
    exact (IH eq_refl).
Qed.

Lemma blockCommentLoop_closed_aux (n : nat) :
  forall x r1, length x <= n -> r1 <> [] ->
    blockCommentLoop (x ++ r1) = (x, r1) ->
    (forall r2, blockCommentLoop (x ++ r2) = (x, r2))
    /\ exists x' c, x = x' ++ [c] /\ isType c LexType.ForwardSlash = true.
Proof.
  assert (Nil : forall r1, r1 <> [] -> blockCommentLoop r1 <> ([], r1)).
  { intros [|c r] Hne H; [congruence|]. simpl in H.
    destruct (isType c LexType.Asterisk).
    - destruct r as [|d r']; [discriminate|].
      destruct (isType d LexType.ForwardSlash); [discriminate|].
      destruct (blockCommentLoop r'); discriminate.
    - destruct (blockCommentLoop r); discriminate. }
  induction n as [|n IH]; intros x r1 Hn Hne H.
  - destruct x; [|simpl in Hn; lia]. exfalso. exact (Nil _ Hne H).
  - destruct x as [|c x]; [exfalso; exact (Nil _ Hne H)|].
    simpl in H |- *. destruct (isType c LexType.Asterisk) eqn:Ec.
    + destruct x as [|d x].
      * exfalso. simpl in H. destruct r1 as [|d r']; [congruence|].
        destruct (isType d LexType.ForwardSlash); [discriminate|].
        destruct (blockCommentLoop r'); discriminate.
      * simpl in H |- *. destruct (isType d LexType.ForwardSlash) eqn:Ed.
        -- injection H as Hx Hr. assert (x = []) by (destruct x; [reflexivity | discriminate]).
           subst x. split; [reflexivity|]. exists [c], d. auto.
        -- destruct (blockCommentLoop (x ++ r1)) as [a rest] eqn:E. injection H as -> ->.
           destruct (IH x r1 ltac:(simpl in Hn; lia) Hne E) as [G (x' & c0 & -> & Hc)]. split.
           ++ intros r2. now rewrite G.
           ++ exists (c :: d :: x'), c0. auto.
    + destruct (blockCommentLoop (x ++ r1)) as [a rest] eqn:E. injection H as -> ->.
      destruct (IH x r1 ltac:(simpl in Hn; lia) Hne E) as [G (x' & c0 & -> & Hc)]. split.
      * intros r2. now rewrite G.
      * exists (c :: x'), c0. auto.
Qed.

Lemma blockCommentLoop_closed (x r1 : list Lex) :
  r1 <> [] -> blockCommentLoop (x ++ r1) = (x, r1) ->
  (forall r2, blockCommentLoop (x ++ r2) = (x, r2))
  /\ exists x' c, x = x' ++ [c] /\ isType c LexType.ForwardSlash = true.
Proof. apply (blockCommentLoop_closed_aux (length x)). lia. Qed.

(** Token types whose reading never runs on over a neutral lexeme. *)
Definition robust (ty : TokenType.t) : bool :=
  negb (TokenType.eqb ty TokenType.LineComment)
  && negb (TokenType.eqb ty TokenType.Whitespace).

(** What may follow the token [A] in a second text, given what followed it in
    the first: the same first lexeme, or, after a token that was followed by
    something, a neutral lexeme or the end. *)
Definition Follows (A : Token) (r1 r2 : list Lex) : Prop :=
  hd_error r2 = hd_error r1
  \/ (r1 <> [] /\ robust (getType A) = true /\ quietHead r2 = true).

Lemma app_self_nil {X : Type} (a r : list X) : a ++ r = r -> a = [].
Proof.
  intros H. apply (f_equal (@length _)) in H. rewrite length_app in H.
  destruct a; [reflexivity | simpl in H; lia].
Qed.

Lemma follows_agree (A : Token) (r1 r2 : list Lex) : Follows A r1 r2 -> Agree r1 r2.
Proof. intros [E | (_ & _ & Q)]; [left | right]; assumption. Qed.

Lemma follows_closed (A : Token) (r1 r2 : list Lex) :
  Follows A r1 r2 -> r1 = [] -> r2 = [].
Proof.
  intros [E | (N & _)] ->; [|congruence]. destruct r2; [reflexivity | discriminate].
Qed.

Lemma readNumber_reread (p r1 r2 : list Lex) (A : Token) (iss : list Issue) (c : Cursor) :
  readNumber 0 (mkCursor (p ++ r1) 0) = (A, iss, c) -> _basicTokens A = p -> Agree r1 r2 ->
  exists iss' c', readNumber 0 (mkCursor (p ++ r2) 0) = (A, iss', c') /\ lexes c' = r2.
Proof.
  intros E L Ag.
  destruct (readNumber_block 0 (mkCursor (p ++ r1) 0)) as [B1 _]. rewrite E in B1. simpl in B1.
  destruct (numberBlock_ok 0) as [App G].
  assert (Hp : fst (numberBlock 0 (mkCursor (p ++ r1) 0)) = p) by (rewrite B1 in L; exact L).
  pose proof (G 0 0 p r1 r2 Hp Ag) as Hp2.
  destruct (readNumber_block 0 (mkCursor (p ++ r2) 0)) as [B2 C2].
  pose proof (App (mkCursor (p ++ r2) 0)) as H2. rewrite Hp2 in H2. simpl in H2.
  apply app_inv_head in H2.
  destruct (readNumber 0 (mkCursor (p ++ r2) 0)) as [[A' iss'] c']. simpl in B2, C2.
  exists iss', c'. split; [|now rewrite C2]. rewrite B2, Hp2, B1, Hp. reflexivity.
Qed.

Definition endsClean (a : list Lex) : Prop :=
  exists a' x, a = a' ++ [x] /\ lexType x <> LexType.CarriageReturn.

Lemma forallb_last {X : Type} (P : X -> bool) (a : list X) :
  a <> [] -> forallb P a = true -> exists a' x, a = a' ++ [x] /\ P x = true.
Proof.
  intros Hne H. destruct (exists_last Hne) as (a' & x & ->).
  rewrite forallb_app in H. apply andb_true_iff in H as [_ H]. simpl in H.
  exists a', x. split; [reflexivity|]. now destruct (P x).
Qed.

Ltac single_token E Hc l :=
  cbn [nextBasicToken lexes basicStart] in E; injection E as <- _ <-;
  cbn [lexes] in Hc; apply app_self_nil in Hc; subst;
  split; [reflexivity | intros _ _; exists [], l; split; [reflexivity | congruence]].

(** A token is read again as it was when what follows it is acceptable; and
    a robust token that was followed by something does not end in a carriage
    return. *)
Lemma reread_full (a r1 r2 : list Lex) (A : Token) :
  forallb wfLex (a ++ r1) = true ->
  readShape (a ++ r1) = Some (A, r1) ->
  Follows A r1 r2 ->
  readShape (a ++ r2) = Some (A, r2)
  /\ (r1 <> [] -> robust (getType A) = true -> endsClean a).
Proof.
  intros Hwf H F. destruct (readShape_spec _ _ _ Hwf H) as (L & Hne & _).
  apply app_inv_tail in L. destruct a as [|l a]; [congruence|].
  unfold readShape in H |- *. cbn [app] in H |- *.
  destruct (readToken 0 l (mkCursor (l :: a ++ r1) 0)) as [[tok iss] c] eqn:E.
  injection H as -> Hc.
  unfold readToken in E |- *.
  destruct (lexType l) eqn:Ety; try (single_token E Hc l).
  - (* SingleQuote *)
    cbn [lexes tl] in E |- *.
    destruct (quotedStringLoop LexType.SingleQuote false (a ++ r1)) as [[x e] rest] eqn:Eq.
    injection E as <- _ <-. cbn [lexes advance] in Hc. subst rest.
    cbn [_basicTokens Tokens.QuotedString] in L. injection L as ->.
    destruct e.
    + destruct (quotedStringLoop_closed _ _ _ _ Eq) as [G (x' & c0 & -> & Hc0)].
      rewrite G. split; [reflexivity|]. intros _ _. exists (l :: x'), c0.
      split; [reflexivity|]. apply isType_eq in Hc0. congruence.
    + destruct (quotedStringLoop_app _ _ _ _ _ _ Eq) as [_ Hr]. specialize (Hr eq_refl).
      subst r1. rewrite (follows_closed _ _ _ F eq_refl), Eq. split; [reflexivity | congruence].
  - (* DoubleQuote *)
    cbn [lexes tl] in E |- *.
    destruct (quotedStringLoop LexType.DoubleQuote false (a ++ r1)) as [[x e] rest] eqn:Eq.
    injection E as <- _ <-. cbn [lexes advance] in Hc. subst rest.
    cbn [_basicTokens Tokens.QuotedString] in L. injection L as ->.
    destruct e.
    + destruct (quotedStringLoop_closed _ _ _ _ Eq) as [G (x' & c0 & -> & Hc0)].
      rewrite G. split; [reflexivity|]. intros _ _. exists (l :: x'), c0.
      split; [reflexivity|]. apply isType_eq in Hc0. congruence.
    + destruct (quotedStringLoop_app _ _ _ _ _ _ Eq) as [_ Hr]. specialize (Hr eq_refl).
      subst r1. rewrite (follows_closed _ _ _ F eq_refl), Eq. split; [reflexivity | congruence].
  - (* Space *)
    cbn [lexes tl] in E |- *.
    destruct (takeWhileLex isWhitespaceLex (a ++ r1)) as [x rest] eqn:Et.
    injection E as <- _ <-. cbn [lexes advance] in Hc. subst rest.
    cbn [_basicTokens Tokens.Whitespace] in L. injection L as ->.
    split; [|intros _ R; discriminate R].
    destruct F as [F | (_ & F & _)]; [|discriminate].
    now rewrite (takeWhileLex_agree _ _ _ _ Et F).
  - (* Tab *)
    cbn [lexes tl] in E |- *.
    destruct (takeWhileLex isWhitespaceLex (a ++ r1)) as [x rest] eqn:Et.
    injection E as <- _ <-. cbn [lexes advance] in Hc. subst rest.
    cbn [_basicTokens Tokens.Whitespace] in L. injection L as ->.
    split; [|intros _ R; discriminate R].
    destruct F as [F | (_ & F & _)]; [|discriminate].
    now rewrite (takeWhileLex_agree _ _ _ _ Et F).
  - (* CarriageReturn *)
    cbn [lexes tl] in E |- *.
    destruct (takeWhileLex isWhitespaceLex (a ++ r1)) as [x rest] eqn:Et.
    injection E as <- _ <-. cbn [lexes advance] in Hc. subst rest.
    cbn [_basicTokens Tokens.Whitespace] in L. injection L as ->.
    split; [|intros _ R; discriminate R].
    destruct F as [F | (_ & F & _)]; [|discriminate].
    now rewrite (takeWhileLex_agree _ _ _ _ Et F).
  - (* Dash *)
    rewrite app_comm_cons in E |- *.
    destruct (readNumber_reread _ _ r2 _ _ _ E (eq_sym L) (follows_agree _ _ _ F))
      as (iss' & c' & E2 & <-).
    destruct (readNumber_block 0 (mkCursor ((l :: a) ++ r1) 0)) as [B1 _].
    rewrite E in B1. cbn [fst] in B1.
    pose proof (numberBlock_lexes 0 (mkCursor ((l :: a) ++ r1) 0)) as Hn.
    rewrite B1 in L. cbn [_basicTokens Tokens.Number] in L. rewrite <- L in Hn.
    rewrite E2. split; [reflexivity|]. intros _ _.
    assert (Nl : l :: a <> []) by discriminate.
    destruct (forallb_last _ _ Nl Hn) as (a' & x & Ea & Hx).
    exists a', x. split; [exact Ea|]. unfold numberLex in Hx.
    destruct (lexType x); congruence.
  - (* Digits *)
    rewrite app_comm_cons in E |- *.
    destruct (readNumber_reread _ _ r2 _ _ _ E (eq_sym L) (follows_agree _ _ _ F))
      as (iss' & c' & E2 & <-).
    destruct (readNumber_block 0 (mkCursor ((l :: a) ++ r1) 0)) as [B1 _].
    rewrite E in B1. cbn [fst] in B1.
    pose proof (numberBlock_lexes 0 (mkCursor ((l :: a) ++ r1) 0)) as Hn.
    rewrite B1 in L. cbn [_basicTokens Tokens.Number] in L. rewrite <- L in Hn.
    rewrite E2. split; [reflexivity|]. intros _ _.
    assert (Nl : l :: a <> []) by discriminate.
    destruct (forallb_last _ _ Nl Hn) as (a' & x & Ea & Hx).
    exists a', x. split; [exact Ea|]. unfold numberLex in Hx.
    destruct (lexType x); congruence.
  - (* Period *)
    rewrite app_comm_cons in E |- *.
    destruct (readNumber_reread _ _ r2 _ _ _ E (eq_sym L) (follows_agree _ _ _ F))
      as (iss' & c' & E2 & <-).
    destruct (readNumber_block 0 (mkCursor ((l :: a) ++ r1) 0)) as [B1 _].
    rewrite E in B1. cbn [fst] in B1.
    pose proof (numberBlock_lexes 0 (mkCursor ((l :: a) ++ r1) 0)) as Hn.
    rewrite B1 in L. cbn [_basicTokens Tokens.Number] in L. rewrite <- L in Hn.
    rewrite E2. split; [reflexivity|]. intros _ _.
    assert (Nl : l :: a <> []) by discriminate.
    destruct (forallb_last _ _ Nl Hn) as (a' & x & Ea & Hx).
    exists a', x. split; [exact Ea|]. unfold numberLex in Hx.
    destruct (lexType x); congruence.
  - (* ForwardSlash *)
    unfold readSlash in E |- *. cbn [nextBasicToken lexes basicStart] in E |- *.
    destruct a as [|second a]; cbn [app] in E |- *.
    + (* the slash alone *)
      assert (Hu : (A, lexes c) = (Tokens.Unrecognized qub.ForwardSlash 0, r1)).
      { destruct r1 as [|y r]; [injection E as <- _ <-; reflexivity|].
        destruct (lexType y);
          try (injection E as <- _ <-; reflexivity);
          [destruct (takeWhileLex _ r) | destruct (blockCommentLoop r)];
          injection E as <- _ <-; discriminate. }
      injection Hu as -> _.
      split; [|intros _ _; exists [], l; split; [reflexivity | congruence]].
      destruct r2 as [|y2 r2]; [reflexivity|].
      destruct F as [F | (N & _ & Q)].
      * destruct r1 as [|y r]; [discriminate|]. simpl in F. injection F as ->.
        destruct (lexType y); try reflexivity;
          [destruct (takeWhileLex _ r) | destruct (blockCommentLoop r)];
          inversion E.
      * simpl in Q. unfold neutralLex in Q. destruct (lexType y2); try discriminate; reflexivity.
    + destruct (lexType second) eqn:Es;
        try (injection E as <- _ _; discriminate).
      * destruct (takeWhileLex _ (a ++ r1)) as [x rest] eqn:Et.
        injection E as <- _ <-. cbn [lexes advance] in Hc. subst rest.
        cbn [_basicTokens Tokens.LineComment] in L. injection L as ->.
        split; [|intros _ R; discriminate R].
        destruct F as [F | (_ & F & _)]; [|discriminate].
        now rewrite (takeWhileLex_agree _ _ _ _ Et F).
      * destruct (blockCommentLoop (a ++ r1)) as [x rest] eqn:Et.
        injection E as <- _ <-. cbn [lexes advance] in Hc. subst rest.
        cbn [_basicTokens Tokens.BlockComment] in L. injection L as ->.
        destruct r1 as [|y r].
        -- rewrite (follows_closed _ _ _ F eq_refl), Et. split; [reflexivity | congruence].
        -- assert (Ny : y :: r <> []) by discriminate.
           destruct (blockCommentLoop_closed _ _ Ny Et) as [G (x' & c0 & -> & Hc0)].
           rewrite G. split; [reflexivity|]. intros _ _. exists (l :: second :: x'), c0.
           split; [reflexivity|]. apply isType_eq in Hc0. congruence.
Qed.

Lemma reread (a r1 r2 : list Lex) (A : Token) :
  forallb wfLex (a ++ r1) = true ->
  readShape (a ++ r1) = Some (A, r1) ->
  Follows A r1 r2 ->
  readShape (a ++ r2) = Some (A, r2).
Proof. intros Hwf H F. exact (proj1 (reread_full _ _ _ _ Hwf H F)). Qed.

Lemma robust_clean (a r1 : list Lex) (A : Token) :
  forallb wfLex (a ++ r1) = true ->
  readShape (a ++ r1) = Some (A, r1) ->
  r1 <> [] -> robust (getType A) = true -> endsClean a.
Proof.
  intros Hwf H. apply (reread_full a r1 r1 A Hwf H). left. reflexivity.
Qed.

(** The token type of a token as far as the parser and [format] tell types
    apart: comments and unrecognized tokens are treated alike. *)
Definition coarse (ty : TokenType.t) : TokenType.t :=
  match ty with
  | TokenType.LineComment | TokenType.BlockComment => TokenType.Unrecognized
  | _ => ty
  end.

(** [coarse] of the type of the token that starts with the lexeme [l]. *)
Definition headType (l : Lex) : TokenType.t :=
  match lexType l with
  | LexType.LeftCurlyBracket => TokenType.LeftCurlyBracket
  | LexType.RightCurlyBracket => TokenType.RightCurlyBracket
  | LexType.LeftSquareBracket => TokenType.LeftSquareBracket
  | LexType.RightSquareBracket => TokenType.RightSquareBracket
  | LexType.Colon => TokenType.Colon
  | LexType.Comma => TokenType.Comma
  | LexType.Letters =>
      if String.eqb (lexText l) "true" then TokenType.True
      else if String.eqb (lexText l) "false" then TokenType.False
      else if String.eqb (lexText l) "null" then TokenType.Null
      else TokenType.Unrecognized
  | LexType.SingleQuote | LexType.DoubleQuote => TokenType.QuotedString
  | LexType.Space | LexType.Tab | LexType.CarriageReturn => TokenType.Whitespace
  | LexType.NewLine => TokenType.NewLine
  | LexType.Dash | LexType.Digits | LexType.Period => TokenType.Number
  | _ => TokenType.Unrecognized
  end.

Lemma readShape_headType (l : Lex) (r : list Lex) (B : Token) (rest : list Lex) :
  readShape (l :: r) = Some (B, rest) -> coarse (getType B) = headType l.
Proof.
  unfold readShape, readToken, headType. intros H.
  destruct (lexType l) eqn:Ety;
    try (cbn in H; injection H as <- _; reflexivity).
  - destruct (lexText l =? "true")%string; [injection H as <- _; reflexivity|].
    destruct (lexText l =? "false")%string; [injection H as <- _; reflexivity|].
    destruct (lexText l =? "null")%string; injection H as <- _; reflexivity.
  - destruct (quotedStringLoop _ _ _) as [[a e] x]. injection H as <- _. reflexivity.
  - destruct (quotedStringLoop _ _ _) as [[a e] x]. injection H as <- _. reflexivity.
  - destruct (takeWhileLex _ _) as [a x]. injection H as <- _. reflexivity.
  - destruct (takeWhileLex _ _) as [a x]. injection H as <- _. reflexivity.
  - destruct (takeWhileLex _ _) as [a x]. injection H as <- _. reflexivity.
  - destruct (readNumber_block 0 (mkCursor (l :: r) 0)) as [B1 _].
    destruct (readNumber 0 _) as [[A i] c]. injection H as <- _. simpl in B1. now rewrite B1.
  - destruct (readNumber_block 0 (mkCursor (l :: r) 0)) as [B1 _].
    destruct (readNumber 0 _) as [[A i] c]. injection H as <- _. simpl in B1. now rewrite B1.
  - destruct (readNumber_block 0 (mkCursor (l :: r) 0)) as [B1 _].
    destruct (readNumber 0 _) as [[A i] c]. injection H as <- _. simpl in B1. now rewrite B1.
  - unfold readSlash in H. cbn [nextBasicToken lexes basicStart] in H.
    destruct r as [|second r]; [injection H as <- _; reflexivity|].
    destruct (lexType second); try (injection H as <- _; reflexivity).
    + destruct (takeWhileLex _ _) as [a x]. injection H as <- _. reflexivity.
    + destruct (blockCommentLoop _) as [a x]. injection H as <- _. reflexivity.
Qed.

(** After a line comment comes a new-line lexeme or nothing. *)
Lemma lineComment_next (a r1 : list Lex) (A : Token) :
  forallb wfLex (a ++ r1) = true ->
  readShape (a ++ r1) = Some (A, r1) ->
  getType A = TokenType.LineComment ->
  match r1 with [] => Logic.True | y :: _ => lexType y = LexType.NewLine end.
Proof.
  intros Hwf H Ht. destruct (readShape_spec _ _ _ Hwf H) as (L & Hne & _).
  apply app_inv_tail in L. destruct a as [|l a]; [congruence|].
  unfold readShape in H. cbn [app] in H.
  destruct (readToken 0 l (mkCursor (l :: a ++ r1) 0)) as [[tok iss] c] eqn:E.
  injection H as -> Hc. unfold readToken in E.
  destruct (lexType l) eqn:Ety;
    try (cbn in E; injection E as <- _ _; discriminate).
  - destruct (lexText l =? "true")%string; [injection E as <- _ _; discriminate|].
    destruct (lexText l =? "false")%string; [injection E as <- _ _; discriminate|].
    destruct (lexText l =? "null")%string; injection E as <- _ _; discriminate.
  - destruct (quotedStringLoop _ _ _) as [[x e] y]. injection E as <- _ _. discriminate.
  - destruct (quotedStringLoop _ _ _) as [[x e] y]. injection E as <- _ _. discriminate.
  - destruct (takeWhileLex _ _) as [x y]. injection E as <- _ _. discriminate.
  - destruct (takeWhileLex _ _) as [x y]. injection E as <- _ _. discriminate.
  - destruct (takeWhileLex _ _) as [x y]. injection E as <- _ _. discriminate.
  - destruct (readNumber_block 0 (mkCursor (l :: a ++ r1) 0)) as [B1 _].
    rewrite E in B1. simpl in B1. rewrite B1 in Ht. discriminate.
  - destruct (readNumber_block 0 (mkCursor (l :: a ++ r1) 0)) as [B1 _].
    rewrite E in B1. simpl in B1. rewrite B1 in Ht. discriminate.
  - destruct (readNumber_block 0 (mkCursor (l :: a ++ r1) 0)) as [B1 _].
    rewrite E in B1. simpl in B1. rewrite B1 in Ht. discriminate.
  - unfold readSlash in E. cbn [nextBasicToken lexes basicStart] in E.
    destruct (a ++ r1) as [|second r] eqn:Ea; [injection E as <- _ _; discriminate|].
    destruct (lexType second) eqn:Es; try (injection E as <- _ _; discriminate).
    + destruct (takeWhileLex _ r) as [x rest] eqn:Et.
      injection E as <- _ <-. cbn [lexes advance] in Hc. subst rest.
      cbn [_basicTokens Tokens.LineComment] in L. injection L as L.
      assert (Er : r = x ++ r1) by (apply takeWhileLex_app in Et; exact Et).
      rewrite Er in Et. destruct (takeWhileLex_all _ _ _ Et) as [_ Hy].
      destruct r1 as [|y r1]; [exact I|]. apply negb_false_iff in Hy. now apply isType_eq.
    + destruct (blockCommentLoop r) as [x rest]. injection E as <- _ _. discriminate.
Qed.

(** The space [format] inserts. *)
Definition spaceLex : Lex := mkLex LexType.Space " ".

Definition isSpace (l : Lex) : bool :=
  LexType.eqb (lexType l) LexType.Space && String.eqb (lexText l) " ".

Lemma isSpace_eq (l : Lex) : isSpace l = true <-> l = spaceLex.
Proof.
  unfold isSpace. destruct l as [ty tx]. simpl. rewrite andb_true_iff, lexType_eqb_eq.
  rewrite String.eqb_eq. split; [intros [-> ->]; reflexivity | intros E; now inversion E].
Qed.

(** A lexeme list without the spaces it starts with. *)
Fixpoint dropSpaces (ls : list Lex) : list Lex :=
  match ls with
  | l :: r => if isSpace l then dropSpaces r else ls
  | [] => []
  end.

Lemma dropSpaces_repeat (j : nat) (body : list Lex) :
  dropSpaces (repeat spaceLex j ++ body) = dropSpaces body.
Proof. induction j as [|j IH]; [reflexivity | exact IH]. Qed.

Lemma dropSpaces_split (ls : list Lex) :
  exists j, ls = repeat spaceLex j ++ dropSpaces ls.
Proof.
  induction ls as [|l r IH]; [exists 0; reflexivity|]. simpl.
  destruct (isSpace l) eqn:E; [|exists 0; reflexivity].
  destruct IH as [j Hj]. exists (S j). simpl. rewrite <- Hj. f_equal.
  now apply isSpace_eq.
Qed.

Lemma dropSpaces_id (ls : list Lex) :
  match ls with [] => Logic.True | y :: _ => isSpace y = false end -> dropSpaces ls = ls.
Proof. destruct ls as [|y r]; [reflexivity|]. simpl. now intros ->. Qed.

(** A run of inserted spaces is read as one whitespace token when no
    whitespace lexeme follows it. *)
Lemma readShape_spaces (j : nat) (body : list Lex) :
  match body with [] => Logic.True | y :: _ => isWhitespaceLex y = false end ->
  readShape (repeat spaceLex (S j) ++ body)
  = Some (Tokens.Whitespace (repeat spaceLex (S j)) 0, body).
Proof.
  intros Hb. unfold readShape, readToken. cbn [repeat app lexType spaceLex lexes tl].
  assert (T : takeWhileLex isWhitespaceLex (repeat spaceLex j ++ body)
              = (repeat spaceLex j, body)).
  { induction j as [|j IH]; simpl.
    - destruct body as [|y r]; [reflexivity|]. simpl. now rewrite Hb.
    - now rewrite IH. }
  rewrite T. reflexivity.
Qed.

(** ** Parsing and formatting in one pass *)

(** What [formatBracketed] knows about the segment before the current one. *)
Inductive Kind : Set := KNewLine | KLeft | KOther.

(** What the loop of [parseObject] or [parseArray] and then the loop of
    [format] do with a token, by its type. *)
Inductive Action : Set :=
| AClose | ASkip | AVerbatim | ADefault | AProperty | ANested (object : bool).

Definition objectAction (ty : TokenType.t) : Action :=
  match ty with
  | TokenType.QuotedString => AProperty
  | TokenType.RightCurlyBracket => AClose
  | TokenType.Whitespace => ASkip
  | TokenType.NewLine | TokenType.LeftCurlyBracket | TokenType.Comma => AVerbatim
  | _ => ADefault
  end.

Definition arrayAction (ty : TokenType.t) : Action :=
  match ty with
  | TokenType.LeftCurlyBracket => ANested true
  | TokenType.LeftSquareBracket => ANested false
  | TokenType.RightSquareBracket => AClose
  | TokenType.Whitespace => ASkip
  | TokenType.NewLine | TokenType.Comma => AVerbatim
  | _ => ADefault
  end.

Definition actionOf (object : bool) : TokenType.t -> Action :=
  if object then objectAction else arrayAction.

Definition leftOf (object : bool) : TokenType.t :=
  if object then TokenType.LeftCurlyBracket else TokenType.LeftSquareBracket.

Definition rightOf (object : bool) : TokenType.t :=
  if object then TokenType.RightCurlyBracket else TokenType.RightSquareBracket.

Definition kindAfter (object : bool) (ty : TokenType.t) : Kind :=
  if TokenType.eqb ty TokenType.NewLine then KNewLine
  else if TokenType.eqb ty (leftOf object) then KLeft
  else KOther.

Definition indentFor (k : Kind) : list Lex :=
  match k with
  | KNewLine => [spaceLex; spaceLex]
  | _ => []
  end.

Definition prefixFor (k : Kind) : list Lex :=
  match k with
  | KNewLine => [spaceLex; spaceLex]
  | KLeft => []
  | KOther => [spaceLex]
  end.

Definition isWs (A : Token) : bool := TokenType.eqb (getType A) TokenType.Whitespace.

(** The tokens left by [skipWhitespace]. *)
Fixpoint dropWs (ts : list Token) : list Token :=
  match ts with
  | A :: r => if isWs A then dropWs r else ts
  | [] => []
  end.

Definition startsWs (ts : list Token) : bool :=
  match ts with
  | A :: _ => isWs A
  | [] => false
  end.

Definition colonNext (ts : list Token) : bool :=
  match ts with
  | C :: _ => TokenType.eqb (getType C) TokenType.Colon
  | [] => false
  end.

(** How [parseProperty] takes the token after the colon. *)
Inductive ValueClass : Set := VNone | VLiteral | VNested (object : bool).

Definition valueClass (ty : TokenType.t) : ValueClass :=
  match ty with
  | TokenType.False | TokenType.True | TokenType.Null
  | TokenType.QuotedString | TokenType.Number => VLiteral
  | TokenType.LeftCurlyBracket => VNested true
  | TokenType.LeftSquareBracket => VNested false
  | _ => VNone
  end.

Definition valueNext (ts : list Token) : ValueClass :=
  match ts with
  | V :: _ => valueClass (getType V)
  | [] => VNone
  end.

(** The next token is one the object loop of [format] puts a space before. *)
Definition defaultNext (object : bool) (ts : list Token) : bool :=
  match ts with
  | B :: _ => match actionOf object (getType B) with ADefault => true | _ => false end
  | [] => false
  end.

(** [FProp strict ts out colonLast rest]: [parseProperty] on the tokens [ts]
    builds a property that [format] writes as the lexemes [out], and leaves
    the tokens [rest]; [colonLast] tells that the property ends with its
    colon.  [FLoop] is the loop of [parseObject] ([object] true) or of
    [parseArray], entered after a segment of kind [k]; its [closed] tells that
    it met the closing bracket.  With [strict], no property that ends with
    its colon is followed by a token that [format] puts a space before. *)
Inductive FProp (strict : bool) : list Token -> list Lex -> bool -> list Token -> Prop :=
| FPName (N : Token) (ts0 : list Token) :
    colonNext (dropWs ts0) = false ->
    FProp strict (N :: ts0) (_basicTokens N) false (dropWs ts0)
| FPColon (N : Token) (ts0 : list Token) (C : Token) (ts1 : list Token) :
    dropWs ts0 = C :: ts1 -> getType C = TokenType.Colon ->
    valueNext (dropWs ts1) = VNone ->
    FProp strict (N :: ts0)
      (_basicTokens N ++ _basicTokens C ++ (if startsWs ts1 then [spaceLex] else []))
      (negb (startsWs ts1)) (dropWs ts1)
| FPLiteral (N : Token) (ts0 : list Token) (C : Token) (ts1 : list Token)
            (V : Token) (ts2 : list Token) :
    dropWs ts0 = C :: ts1 -> getType C = TokenType.Colon ->
    dropWs ts1 = V :: ts2 -> valueClass (getType V) = VLiteral ->
    FProp strict (N :: ts0)
      (_basicTokens N ++ _basicTokens C ++ spaceLex :: _basicTokens V) false ts2
| FPNested (N : Token) (ts0 : list Token) (C : Token) (ts1 : list Token)
           (V : Token) (ts2 : list Token) (inner : bool)
           (out : list Lex) (closed : bool) (rest : list Token) :
    dropWs ts0 = C :: ts1 -> getType C = TokenType.Colon ->
    dropWs ts1 = V :: ts2 -> valueClass (getType V) = VNested inner ->
    FBracket strict inner (V :: ts2) out closed rest ->
    FProp strict (N :: ts0)
      (_basicTokens N ++ _basicTokens C ++ spaceLex :: out) false rest

with FLoop (strict : bool) : bool -> Kind -> list Token -> list Lex -> bool -> list Token -> Prop :=
| FLNil (object : bool) (k : Kind) : FLoop strict object k [] [] false []
| FLClose (object : bool) (k : Kind) (A : Token) (ts : list Token) :
    actionOf object (getType A) = AClose ->
    FLoop strict object k (A :: ts) (_basicTokens A) true ts
| FLSkip (object : bool) (k : Kind) (A : Token) (ts : list Token)
         (out : list Lex) (closed : bool) (rest : list Token) :
    actionOf object (getType A) = ASkip ->
    FLoop strict object k ts out closed rest ->
    FLoop strict object k (A :: ts) out closed rest
| FLVerbatim (object : bool) (k : Kind) (A : Token) (ts : list Token)
             (out : list Lex) (closed : bool) (rest : list Token) :
    actionOf object (getType A) = AVerbatim ->
    FLoop strict object (kindAfter object (getType A)) ts out closed rest ->
    FLoop strict object k (A :: ts) (_basicTokens A ++ out) closed rest
| FLDefault (object : bool) (k : Kind) (A : Token) (ts : list Token)
            (out : list Lex) (closed : bool) (rest : list Token) :
    actionOf object (getType A) = ADefault ->
    FLoop strict object KOther ts out closed rest ->
    FLoop strict object k (A :: ts) (prefixFor k ++ _basicTokens A ++ out) closed rest
| FLProperty (object : bool) (k : Kind) (A : Token) (ts : list Token)
             (po : list Lex) (colonLast : bool) (ts1 : list Token)
             (out : list Lex) (closed : bool) (rest : list Token) :
    actionOf object (getType A) = AProperty ->
    FProp strict (A :: ts) po colonLast ts1 ->
    (strict = true -> colonLast = true -> defaultNext object ts1 = false) ->
    FLoop strict object KOther ts1 out closed rest ->
    FLoop strict object k (A :: ts) (indentFor k ++ po ++ out) closed rest
| FLNested (object : bool) (k : Kind) (A : Token) (ts : list Token) (inner : bool)
           (o : list Lex) (innerClosed : bool) (ts1 : list Token)
           (out : list Lex) (closed : bool) (rest : list Token) :
    actionOf object (getType A) = ANested inner ->
    FBracket strict inner (A :: ts) o innerClosed ts1 ->
    FLoop strict object KOther ts1 out closed rest ->
    FLoop strict object k (A :: ts) (indentFor k ++ o ++ out) closed rest

with FBracket (strict : bool) : bool -> list Token -> list Lex -> bool -> list Token -> Prop :=
| FBr (object : bool) (A : Token) (ts : list Token)
      (out : list Lex) (closed : bool) (rest : list Token) :
    FLoop strict object KLeft ts out closed rest ->
    FBracket strict object (A :: ts) (_basicTokens A ++ out) closed rest.

Scheme FProp_min := Minimality for FProp Sort Prop
  with FLoop_min := Minimality for FLoop Sort Prop
  with FBracket_min := Minimality for FBracket Sort Prop.
Combined Scheme F_mutind from FProp_min, FLoop_min, FBracket_min.

(** Whether a token opens a nested segment at the top of a document. *)
Definition rootClass (ty : TokenType.t) : option bool :=
  match ty with
  | TokenType.LeftCurlyBracket => Some true
  | TokenType.LeftSquareBracket => Some false
  | _ => None
  end.

(** The loop of [parse] followed by [Document.format]. *)
Inductive FDoc (strict : bool) : list Token -> list Lex -> Prop :=
| FDNil : FDoc strict [] []
| FDToken (A : Token) (ts : list Token) (out : list Lex) :
    rootClass (getType A) = None -> FDoc strict ts out ->
    FDoc strict (A :: ts) (_basicTokens A ++ out)
| FDNested (A : Token) (ts : list Token) (object : bool)
           (o : list Lex) (closed : bool) (rest : list Token) (out : list Lex) :
    rootClass (getType A) = Some object ->
    FBracket strict object (A :: ts) o closed rest -> FDoc strict rest out ->
    FDoc strict (A :: ts) (o ++ out).

(** *** The pass gives one result *)

Ltac f_norm :=
  repeat match goal with
    | E1 : dropWs ?t = _, E2 : dropWs ?t = _ |- _ =>
        rewrite E1 in E2; inversion E2; clear E2; subst
    | E1 : dropWs ?t = _, E2 : context [dropWs ?t] |- _ => rewrite E1 in E2; simpl in E2
    | G : getType ?C = _, E2 : context [getType ?C] |- _ => rewrite G in E2; simpl in E2
    | G : actionOf ?o ?x = _, E2 : actionOf ?o ?x = _ |- _ =>
        rewrite G in E2; inversion E2; clear E2; subst
    | G : valueClass ?x = _, E2 : valueClass ?x = _ |- _ =>
        rewrite G in E2; inversion E2; clear E2; subst
    | E : VNested _ = VNested _ |- _ => inversion E; clear E; subst
    | E : _ :: _ = _ :: _ |- _ => inversion E; clear E; subst
    end.

Ltac f_ih :=
  repeat match goal with
    | IH : (forall out' c' rest', FLoop _ ?o ?k ?ts out' c' rest' -> out' = ?out /\ _),
      H : FLoop _ ?o ?k ?ts ?out0 _ _ |- _ =>
        tryif constr_eq out0 out then fail
        else (destruct (IH _ _ _ H) as (? & ? & ?); clear IH; subst)
    | IH : (forall out' c' rest', FBracket _ ?o ?ts out' c' rest' -> out' = ?out /\ _),
      H : FBracket _ ?o ?ts ?out0 _ _ |- _ =>
        tryif constr_eq out0 out then fail
        else (destruct (IH _ _ _ H) as (? & ? & ?); clear IH; subst)
    | IH : (forall out' c' rest', FProp _ ?ts out' c' rest' -> out' = ?out /\ _),
      H : FProp _ ?ts ?out0 _ _ |- _ =>
        tryif constr_eq out0 out then fail
        else (destruct (IH _ _ _ H) as (? & ? & ?); clear IH; subst)
    end.

Ltac f_invert :=
  match goal with
  | H : FProp _ _ ?o _ _ |- ?o = _ /\ _ => inversion H; clear H; subst
  | H : FLoop _ _ _ _ ?o _ _ |- ?o = _ /\ _ => inversion H; clear H; subst
  | H : FBracket _ _ _ ?o _ _ |- ?o = _ /\ _ => inversion H; clear H; subst
  end.

Lemma F_deterministic (strict : bool) :
  (forall ts out cl rest, FProp strict ts out cl rest ->
     forall out' cl' rest', FProp strict ts out' cl' rest' ->
       out' = out /\ cl' = cl /\ rest' = rest)
  /\ (forall object k ts out c rest, FLoop strict object k ts out c rest ->
        forall out' c' rest', FLoop strict object k ts out' c' rest' ->
          out' = out /\ c' = c /\ rest' = rest)
  /\ (forall object ts out c rest, FBracket strict object ts out c rest ->
        forall out' c' rest', FBracket strict object ts out' c' rest' ->
          out' = out /\ c' = c /\ rest' = rest).
Proof.
  apply F_mutind; intros; f_invert; f_norm; try congruence; f_ih; auto.
Qed.

(** *** The pass weakened and unfolded *)

Lemma F_relax :
  (forall ts out cl rest, FProp true ts out cl rest -> FProp false ts out cl rest)
  /\ (forall object k ts out c rest,
        FLoop true object k ts out c rest -> FLoop false object k ts out c rest)
  /\ (forall object ts out c rest,
        FBracket true object ts out c rest -> FBracket false object ts out c rest).
Proof.
  apply F_mutind; intros; solve [econstructor; eauto].
Qed.

Lemma FDoc_relax (ts : list Token) (out : list Lex) :
  FDoc true ts out -> FDoc false ts out.
Proof.
  induction 1; [constructor | constructor; assumption |].
  eapply FDNested; [eassumption | apply (proj2 (proj2 F_relax)); eassumption | assumption].
Qed.

Lemma FDoc_deterministic (strict : bool) (ts : list Token) (out : list Lex) :
  FDoc strict ts out -> forall out', FDoc strict ts out' -> out' = out.
Proof.
  induction 1; intros out' H'; inversion H'; subst; try congruence.
  - f_equal. auto.
  - assert (object0 = object) by congruence. subst object0.
    destruct (proj2 (proj2 (F_deterministic strict)) _ _ _ _ _ H0 _ _ _ H5) as (-> & -> & ->).
    f_equal. auto.
Qed.

(** A loop that did not meet its closing bracket used up the tokens. *)
Lemma F_open (strict : bool) :
  (forall ts out cl rest, FProp strict ts out cl rest -> Logic.True)
  /\ (forall object k ts out c rest,
        FLoop strict object k ts out c rest -> c = false -> rest = [])
  /\ (forall object ts out c rest,
        FBracket strict object ts out c rest -> c = false -> rest = []).
Proof.
  apply F_mutind; intros; auto; discriminate.
Qed.

(** ** The segment tree and the pass *)

(** A segment [format] puts a space before in a bracketed list: the last
    branch of its token case. *)
Definition takesSpace (left right : TokenType.t) (s : Segment) : bool :=
  match s with
  | TokenSeg t =>
      negb (TokenType.eqb (getType t) TokenType.NewLine
            || TokenType.eqb (getType t) left
            || TokenType.eqb (getType t) right
            || TokenType.eqb (getType t) TokenType.Comma)
      && negb (TokenType.eqb (getType t) TokenType.Whitespace)
  | _ => false
  end.

(** A property whose last segment is its colon. *)
Definition endsWithColon (s : Segment) : bool :=
  match s with
  | Property l =>
      match lastSegment l with
      | Some c => isTokenOfType c TokenType.Colon
      | None => false
      end
  | _ => false
  end.

Section ColonGap.
Variable colonGap : Segment -> bool.

(** Among the segments [l] of an object or array, a property that ends with
    its colon comes directly before a segment that takes a space;
    [afterColon] tells that the segment before [l] is such a property. *)
Fixpoint gapAmong (left right : TokenType.t) (afterColon : bool) (l : list Segment) : bool :=
  match l with
  | [] => false
  | s :: r =>
      (afterColon && takesSpace left right s)
      || colonGap s
      || gapAmong left right (endsWithColon s) r
  end.
End ColonGap.

(** Somewhere in the segment, [format] writes a space right after a colon
    that no value follows. *)
Fixpoint colonGap (s : Segment) : bool :=
  match s with
  | TokenSeg _ => false
  | Property l => existsb colonGap l
  | ObjectSegment l =>
      gapAmong colonGap TokenType.LeftCurlyBracket TokenType.RightCurlyBracket false l
  | ArraySegment l =>
      gapAmong colonGap TokenType.LeftSquareBracket TokenType.RightSquareBracket false l
  end.

Definition wrapOf (object : bool) : list Segment -> Segment :=
  if object then ObjectSegment else ArraySegment.

Definition kindOf (object : bool) (previousSegment : option Segment) : Kind :=
  if previousIs previousSegment TokenType.NewLine then KNewLine
  else if previousIs previousSegment (leftOf object) then KLeft
  else KOther.

Lemma gapAmong_false (left right : TokenType.t) (b : bool) (l : list Segment) :
  gapAmong colonGap left right b l = false -> gapAmong colonGap left right false l = false.
Proof.
  destruct l as [|s r]; [reflexivity|]. simpl.
  intros H. apply orb_false_iff in H as [H1 H2]. apply orb_false_iff in H1 as [_ H1].
  now rewrite H1, H2.
Qed.

Lemma colonGap_wrap (object : bool) (l : list Segment) :
  colonGap (wrapOf object l)
  = gapAmong colonGap (leftOf object) (rightOf object) false l.
Proof. destruct object; reflexivity. Qed.

Lemma format_wrap (object : bool) (l : list Segment) :
  format (wrapOf object l)
  = formatBracketed format (leftOf object) (rightOf object) None l.
Proof. destruct object; reflexivity. Qed.

Definition isWsSegment (s : Segment) : bool := isTokenOfType s TokenType.Whitespace.

Lemma formatProperty_ws (ws r : list Segment) :
  forallb isWsSegment ws = true ->
  formatProperty format (ws ++ r) = formatProperty format r.
Proof.
  induction ws as [|w ws IH]; intros H; [reflexivity|].
  apply forallb_cons_inv in H as [Hw H]. simpl.
  unfold isWsSegment in Hw. rewrite Hw. simpl. auto.
Qed.

Lemma formatProperty_token (tok : Token) (r : list Segment) :
  TokenType.eqb (getType tok) TokenType.Whitespace = false ->
  formatProperty format (TokenSeg tok :: r)
  = tokenToString tok
    +++ (if TokenType.eqb (getType tok) TokenType.Colon
            && negb (match r with [] => true | _ => false end)
         then " " else EmptyString)
    +++ formatProperty format r.
Proof. intros H. simpl. now rewrite H. Qed.

Lemma lastSegment_app (l : list Segment) (x : Segment) : lastSegment (l ++ [x]) = Some x.
Proof.
  induction l as [|s l IH]; [reflexivity|]. simpl.
  destruct (l ++ [x]) eqn:E; [destruct l; discriminate | exact IH].
Qed.

Lemma lastSegment_ws (s : Segment) (ws : list Segment) (ty : TokenType.t) :
  forallb isWsSegment ws = true -> ty <> TokenType.Whitespace ->
  match lastSegment (s :: ws) with
  | Some c => isTokenOfType c ty
  | None => false
  end = match ws with [] => isTokenOfType s ty | _ => false end.
Proof.
  intros H Hty. revert s. induction ws as [|w ws IH]; intros s; [reflexivity|].
  apply forallb_cons_inv in H as [Hw H].
  change (lastSegment (s :: w :: ws)) with (lastSegment (w :: ws)).
  rewrite (IH H w). destruct ws; [|reflexivity].
  unfold isWsSegment, isTokenOfType in *. destruct w; try discriminate.
  apply tokenType_eqb_eq in Hw. rewrite Hw.
  destruct ty; try reflexivity. congruence.
Qed.

Lemma lastSegment_cons_app (l r : list Segment) (x : Segment) :
  lastSegment (l ++ x :: r) = lastSegment (x :: r).
Proof.
  induction l as [|s l IH]; [reflexivity|].
  change ((s :: l) ++ x :: r) with (s :: (l ++ x :: r)).
  destruct (l ++ x :: r) eqn:E; [destruct l; discriminate|].
  change (lastSegment (s :: s0 :: l0)) with (lastSegment (s0 :: l0)). exact IH.
Qed.

Lemma existsb_ws (ws : list Segment) :
  forallb isWsSegment ws = true -> existsb colonGap ws = false.
Proof.
  induction ws as [|w ws IH]; intros H; [reflexivity|].
  apply forallb_cons_inv in H as [Hw H]. simpl. rewrite (IH H).
  destruct w; try discriminate. reflexivity.
Qed.

(** The cases of [formatBracketed] by the action of the token. *)
Lemma action_cases (object : bool) (ty : TokenType.t) :
  let verbatim := TokenType.eqb ty TokenType.NewLine
                  || TokenType.eqb ty (leftOf object)
                  || TokenType.eqb ty (rightOf object)
                  || TokenType.eqb ty TokenType.Comma in
  match actionOf object ty with
  | AClose => verbatim = true /\ ty = rightOf object
  | AVerbatim => verbatim = true
  | ASkip => verbatim = false /\ ty = TokenType.Whitespace
  | ADefault => verbatim = false /\ TokenType.eqb ty TokenType.Whitespace = false
  | AProperty => object = true /\ ty = TokenType.QuotedString
  | ANested inner => object = false /\ ty = leftOf inner
  end.
Proof. destruct object, ty; simpl; auto. Qed.

Lemma space_text : getCombinedText [spaceLex] = " ".
Proof. reflexivity. Qed.

Lemma prefix_text (object : bool) (prev : option Segment) :
  getCombinedText (prefixFor (kindOf object prev))
  = if previousIs prev TokenType.NewLine then "  "
    else if negb (previousIs prev (leftOf object)) then " " else EmptyString.
Proof.
  unfold kindOf. destruct (previousIs prev TokenType.NewLine); [reflexivity|].
  destruct (previousIs prev (leftOf object)); reflexivity.
Qed.

Lemma indent_text (object : bool) (prev : option Segment) :
  getCombinedText (indentFor (kindOf object prev))
  = if previousIs prev TokenType.NewLine then "  " else EmptyString.
Proof.
  unfold kindOf. destruct (previousIs prev TokenType.NewLine); [reflexivity|].
  destruct (previousIs prev (leftOf object)); reflexivity.
Qed.

Lemma kindOf_token (object : bool) (tok : Token) :
  kindOf object (Some (TokenSeg tok)) = kindAfter object (getType tok).
Proof. reflexivity. Qed.

Lemma erase_type (tok : Token) : getType (eraseToken tok) = getType tok.
Proof. reflexivity. Qed.

Lemma erase_lexemes (tok : Token) : _basicTokens (eraseToken tok) = _basicTokens tok.
Proof. reflexivity. Qed.

(** *** Runs that return *)

(** [Partial m t Q]: if the computation [m] returns from the state [t], its
    result and final state satisfy [Q]. *)
Definition Partial {A : Type} (m : Parser A) (t : Tokenizer)
           (Q : A -> Tokenizer -> Prop) : Prop :=
  forall a t' iss, m t = Some (a, t', iss) -> Q a t'.

Lemma partial_ret {A : Type} (a : A) t (Q : A -> Tokenizer -> Prop) :
  Q a t -> Partial (ret a) t Q.
Proof. intros H a' t' iss E. injection E as <- <- _. exact H. Qed.

Lemma partial_stuck {A : Type} t (Q : A -> Tokenizer -> Prop) : Partial stuck t Q.
Proof. intros a t' iss E. discriminate. Qed.

Lemma partial_bind {A B : Type} (m : Parser A) (f : A -> Parser B) t
      (Q1 : A -> Tokenizer -> Prop) (Q : B -> Tokenizer -> Prop) :
  Partial m t Q1 -> (forall a t1, Q1 a t1 -> Partial (f a) t1 Q) -> Partial (bind m f) t Q.
Proof.
  intros Hm Hf b t2 iss E. unfold bind in E.
  destruct (m t) as [[[a t1] i1]|] eqn:Em; [|discriminate].
  destruct (f a t1) as [[[b' t2'] i2]|] eqn:Ef; [|discriminate].
  injection E as <- <- _. exact (Hf a t1 (Hm _ _ _ Em) _ _ _ Ef).
Qed.

Lemma partial_current {A : Type} (k : option Token -> Parser A) t
      (Q : A -> Tokenizer -> Prop) :
  Partial (k (getCurrent t)) t Q -> Partial (cur <- tokenizerCurrent ;; k cur) t Q.
Proof.
  intros H a t' iss E. unfold bind, tokenizerCurrent in E.
  destruct (k (getCurrent t) t) as [[[b t2] i2]|] eqn:Ek; [|discriminate].
  injection E as <- <- _. exact (H _ _ _ Ek).
Qed.

Lemma partial_next {A : Type} (k : Parser A) t (Q : A -> Tokenizer -> Prop) :
  (forall t1 i1, next t = (t1, i1) -> Partial k t1 Q) -> Partial (tokenizerNext ;; k) t Q.
Proof.
  intros H a t' iss E. unfold bind, tokenizerNext in E.
  destruct (next t) as [t1 i1] eqn:En.
  destruct (k t1) as [[[b t2] i2]|] eqn:Ek; [|discriminate].
  injection E as <- <- _. exact (H t1 i1 eq_refl _ _ _ Ek).
Qed.

Lemma partial_addIssue {A : Type} (x : Issue) (k : Parser A) t (Q : A -> Tokenizer -> Prop) :
  Partial k t Q -> Partial (addIssue x ;; k) t Q.
Proof.
  intros H a t' iss E. unfold bind, addIssue in E.
  destruct (k t) as [[[b t2] i2]|] eqn:Ek; [|discriminate].
  injection E as <- <- _. exact (H _ _ _ Ek).
Qed.

Lemma partial_addIssueIf {A : Type} (c : bool) (x : Issue) (k : Parser A) t
      (Q : A -> Tokenizer -> Prop) :
  Partial k t Q -> Partial (addIssueIf c x ;; k) t Q.
Proof.
  intros H. destruct c; [apply partial_addIssue, H|].
  intros a t' iss E. unfold bind, addIssueIf, ret in E.
  destruct (k t) as [[[b t2] i2]|] eqn:Ek; [|discriminate].
  injection E as <- <- _. exact (H _ _ _ Ek).
Qed.

Lemma inv_next (limit : nat) (t t1 : Tokenizer) (i1 : list Issue) :
  Inv limit t -> next t = (t1, i1) -> Inv limit t1.
Proof. intros HI Hn. exact (proj1 (next_running _ _ _ _ HI Hn)). Qed.

Lemma stream_step (limit : nat) (t t1 : Tokenizer) (i1 : list Issue) (tok : Token) :
  Inv limit t -> getCurrent t = Some tok -> next t = (t1, i1) ->
  stream t = eraseToken tok :: stream t1.
Proof.
  intros HI Hc Hn. rewrite (stream_current _ _ Hc). f_equal.
  symmetry. exact (stream_next _ _ _ _ HI Hn).
Qed.

Definition noSegments (l : list Segment) : bool :=
  match l with [] => true | _ => false end.

Lemma skipWhitespace_link (limit : nat) (fuel : nat) :
  forall t, Inv limit t ->
  Partial (skipWhitespace fuel) t
    (fun ws t' =>
       Inv limit t' /\ stream t' = dropWs (stream t)
       /\ forallb isWsSegment ws = true
       /\ startsWs (stream t) = negb (noSegments ws)).
Proof.
  induction fuel as [|n IH]; intros t HI.
  - cbn [skipWhitespace]. apply partial_current.
    destruct (getCurrent t) as [tok|] eqn:Hc.
    + destruct (TokenType.eqb (getType tok) TokenType.Whitespace) eqn:Ew;
        [apply partial_stuck|].
      apply partial_ret. rewrite (stream_current _ _ Hc). simpl. unfold isWs. simpl.
      rewrite Ew. auto.
    + apply partial_ret. rewrite (stream_none _ Hc). auto.
  - cbn [skipWhitespace]. apply partial_current.
    destruct (getCurrent t) as [tok|] eqn:Hc.
    + destruct (TokenType.eqb (getType tok) TokenType.Whitespace) eqn:Ew.
      * apply partial_next. intros t1 i1 Hn.
        eapply partial_bind; [apply IH; exact (inv_next _ _ _ _ HI Hn)|].
        cbv beta. intros ws t2 (HI2 & Hs & Hw & _). apply partial_ret.
        rewrite (stream_step _ _ _ _ _ HI Hc Hn). simpl. unfold isWs. simpl. rewrite Ew.
        split; [exact HI2|]. split; [exact Hs|]. split; [|reflexivity].
        exact Hw.
      * apply partial_ret. rewrite (stream_current _ _ Hc). simpl. unfold isWs. simpl.
        rewrite Ew. auto.
    + apply partial_ret. rewrite (stream_none _ Hc). auto.
Qed.

(** *** What the parser builds is what the pass reads *)

Definition LinkProperty (limit : nat) (t : Tokenizer) (seg : Segment) (t' : Tokenizer) : Prop :=
  Inv limit t'
  /\ (exists l, seg = Property l)
  /\ forall strict, (strict = true -> colonGap seg = false) ->
       exists po, FProp strict (stream t) po (endsWithColon seg) (stream t')
                  /\ getCombinedText po = format seg.

Definition LinkBracket (limit : nat) (object : bool) (t : Tokenizer) (seg : Segment)
           (t' : Tokenizer) : Prop :=
  Inv limit t'
  /\ (exists l, seg = wrapOf object l)
  /\ forall strict, (strict = true -> colonGap seg = false) ->
       exists o c, FBracket strict object (stream t) o c (stream t')
                   /\ getCombinedText o = format seg.

Definition LinkLoop (limit : nat) (object : bool) (t : Tokenizer)
           (r : list Segment * bool) (t' : Tokenizer) : Prop :=
  Inv limit t'
  /\ (defaultNext object (stream t) = true ->
      exists s r', fst r = s :: r' /\ takesSpace (leftOf object) (rightOf object) s = true)
  /\ forall strict prev,
       (strict = true ->
        gapAmong colonGap (leftOf object) (rightOf object) false (fst r) = false) ->
       exists out,
         FLoop strict object (kindOf object prev) (stream t) out (snd r) (stream t')
         /\ getCombinedText out
            = formatBracketed format (leftOf object) (rightOf object) prev (fst r).

Definition links (limit fuel : nat) : Prop :=
  (forall t name, Inv limit t -> getCurrent t = Some name ->
     getType name = TokenType.QuotedString ->
     Partial (parseProperty fuel) t (LinkProperty limit t))
  /\ (forall t tok, Inv limit t -> getCurrent t = Some tok ->
        getType tok = TokenType.LeftCurlyBracket ->
        Partial (parseObject fuel) t (LinkBracket limit true t))
  /\ (forall t flags, Inv limit t ->
        Partial (parseObjectLoop fuel flags) t (LinkLoop limit true t))
  /\ (forall t tok, Inv limit t -> getCurrent t = Some tok ->
        getType tok = TokenType.LeftSquareBracket ->
        Partial (parseArray fuel) t (LinkBracket limit false t))
  /\ (forall t flags, Inv limit t ->
        Partial (parseArrayLoop fuel flags) t (LinkLoop limit false t)).

Lemma token_text (tok : Token) : getCombinedText (_basicTokens tok) = tokenToString tok.
Proof. reflexivity. Qed.

Lemma property_link (limit n : nat) :
  links limit n ->
  forall t name, Inv limit t -> getCurrent t = Some name ->
    getType name = TokenType.QuotedString ->
    Partial (parseProperty (S n)) t (LinkProperty limit t).
Proof.
  intros (_ & IHobj & _ & IHarr & _) t name HI Hc Hq.
  cbn [parseProperty]. apply partial_current. rewrite Hc.
  apply partial_next. intros t1 i1 Hn1.
  pose proof (inv_next _ _ _ _ HI Hn1) as HI1.
  pose proof (stream_step _ _ _ _ _ HI Hc Hn1) as S1.
  eapply partial_bind; [apply (skipWhitespace_link limit n t1 HI1)|].
  cbv beta. intros ws1 t2 (HI2 & S2 & W1 & _).
  assert (Hname : TokenType.eqb (getType name) TokenType.Whitespace = false)
    by (rewrite Hq; reflexivity).
  assert (Tname : forall r, forallb isWsSegment r = true ->
            formatProperty format (TokenSeg name :: ws1 ++ r) = tokenToString name).
  { intros r Hr. rewrite formatProperty_token by exact Hname. rewrite Hq. simpl.
    rewrite formatProperty_ws by exact W1.
    rewrite <- (app_nil_r r), formatProperty_ws by exact Hr. simpl. apply append_nil_r. }
  assert (Cname : match lastSegment (TokenSeg name :: ws1) with
                  | Some c => isTokenOfType c TokenType.Colon
                  | None => false
                  end = false).
  { rewrite lastSegment_ws; [|exact W1|discriminate].
    destruct ws1; [simpl; now rewrite Hq | reflexivity]. }
  (* the property made of the name alone *)
  assert (NameOnly : colonNext (stream t2) = false ->
            LinkProperty limit t (Property (TokenSeg name :: ws1)) t2).
  { intros Hcn. split; [exact HI2|]. split; [eexists; reflexivity|].
    intros strict _. exists (_basicTokens name). split.
    - rewrite S1, S2. cbn [endsWithColon]. rewrite Cname.
      apply (FPName strict (eraseToken name)). now rewrite <- S2.
    - rewrite token_text. cbn [format]. rewrite <- (app_nil_r ws1).
      now rewrite (Tname [] eq_refl). }
  apply partial_current. destruct (getCurrent t2) as [colon|] eqn:Hc2.
  2:{ apply partial_addIssue, partial_ret, NameOnly. now rewrite (stream_none _ Hc2). }
  destruct (TokenType.eqb (getType colon) TokenType.Colon) eqn:Ecol; cbn [negb].
  2:{ apply partial_addIssue, partial_ret, NameOnly.
      rewrite (stream_current _ _ Hc2). simpl. exact Ecol. }
  apply tokenType_eqb_eq in Ecol.
  apply partial_next. intros t3 i3 Hn3.
  pose proof (inv_next _ _ _ _ HI2 Hn3) as HI3.
  pose proof (stream_step _ _ _ _ _ HI2 Hc2 Hn3) as S3.
  eapply partial_bind; [apply (skipWhitespace_link limit n t3 HI3)|].
  cbv beta. intros ws2 t4 (HI4 & S4 & W2 & B2).
  assert (Hcolon : TokenType.eqb (getType colon) TokenType.Whitespace = false)
    by (rewrite Ecol; reflexivity).
  assert (D0 : dropWs (stream t1) = eraseToken colon :: stream t3) by (now rewrite <- S2).
  (* the property that stops after the colon *)
  assert (ColonOnly : valueNext (stream t4) = VNone ->
            LinkProperty limit t (Property ((TokenSeg name :: ws1) ++ TokenSeg colon :: ws2)) t4).
  { intros Hv. split; [exact HI4|]. split; [eexists; reflexivity|].
    intros strict _.
    exists (_basicTokens name ++ _basicTokens colon
            ++ (if startsWs (stream t3) then [spaceLex] else [])). split.
    - rewrite S1, S4.
      replace (endsWithColon (Property ((TokenSeg name :: ws1) ++ TokenSeg colon :: ws2)))
        with (negb (startsWs (stream t3))).
      + apply (FPColon strict (eraseToken name) _ (eraseToken colon) _ D0 Ecol).
        now rewrite <- S4.
      + cbn [endsWithColon]. rewrite lastSegment_cons_app.
        rewrite lastSegment_ws; [|exact W2|discriminate].
        rewrite B2. destruct ws2; [simpl; now rewrite Ecol | reflexivity].
    - rewrite !combinedText_app, !token_text. cbn [format app].
      rewrite formatProperty_token by exact Hname. rewrite Hq. cbn [TokenType.eqb andb].
      rewrite formatProperty_ws by exact W1.
      rewrite formatProperty_token by exact Hcolon. rewrite Ecol. cbn [TokenType.eqb andb].
      rewrite <- (app_nil_r ws2), formatProperty_ws by exact W2. rewrite app_nil_r.
      rewrite B2. destruct ws2; reflexivity. }
  (* the property with a value [v] *)
  assert (WithValue : forall (v : Segment) (t5 : Tokenizer),
            Inv limit t5 -> isWsSegment v = false -> isTokenOfType v TokenType.Colon = false ->
            (forall strict,
                (strict = true -> colonGap v = false) ->
                exists vo,
                  getCombinedText vo = format v
                  /\ FProp strict (stream t)
                       (_basicTokens name ++ _basicTokens colon ++ spaceLex :: vo) false
                       (stream t5)) ->
            LinkProperty limit t
              (Property (((TokenSeg name :: ws1) ++ TokenSeg colon :: ws2) ++ [v])) t5).
  { intros v t5 HI5 Hvw Hvc HF. split; [exact HI5|]. split; [eexists; reflexivity|].
    intros strict Hg.
    destruct (HF strict) as (vo & Hvt & HP).
    { intros Hs. specialize (Hg Hs). cbn [colonGap] in Hg.
      rewrite existsb_app in Hg. apply orb_false_iff in Hg as [_ Hg].
      simpl in Hg. now rewrite orb_false_r in Hg. }
    exists (_basicTokens name ++ _basicTokens colon ++ spaceLex :: vo). split.
    - cbn [endsWithColon]. rewrite lastSegment_app, Hvc. exact HP.
    - rewrite !combinedText_app, !token_text. cbn [getCombinedText]. rewrite Hvt.
      cbn [format app]. rewrite <- !app_assoc. cbn [app].
      rewrite formatProperty_token by exact Hname. rewrite Hq. cbn [TokenType.eqb andb].
      rewrite formatProperty_ws by exact W1.
      rewrite formatProperty_token by exact Hcolon. rewrite Ecol. cbn [TokenType.eqb andb].
      replace (negb match ws2 ++ [v] with [] => true | _ :: _ => false end) with true
        by (destruct ws2; reflexivity).
      rewrite formatProperty_ws by exact W2.
      cbn [formatProperty]. unfold isWsSegment in Hvw. rewrite Hvw, Hvc. simpl.
      now rewrite !append_nil_r. }
  apply partial_current. destruct (getCurrent t4) as [v|] eqn:Hc4.
  2:{ apply partial_addIssue, partial_ret, ColonOnly. now rewrite (stream_none _ Hc4). }
  assert (D1 : dropWs (stream t3) = eraseToken v :: tokensOf (pendingLexes t4))
    by (now rewrite <- S4, (stream_current _ _ Hc4)).
  assert (Hlit : valueClass (getType v) = VLiteral ->
            Partial
              (tokenizerNext ;;
               ret (Property (((TokenSeg name :: ws1) ++ TokenSeg colon :: ws2) ++ [TokenSeg v])))
              t4 (LinkProperty limit t)).
  { intros Hv. apply partial_next. intros t5 i5 Hn5. apply partial_ret.
    apply (WithValue (TokenSeg v) t5).
    - exact (inv_next _ _ _ _ HI4 Hn5).
    - unfold isWsSegment. simpl. destruct (getType v); try discriminate; reflexivity.
    - simpl. destruct (getType v); try discriminate; reflexivity.
    - intros strict _. exists (_basicTokens v). split; [reflexivity|]. rewrite S1.
      rewrite (stream_next _ _ _ _ HI4 Hn5).
      exact (FPLiteral strict (eraseToken name) _ (eraseToken colon) _ (eraseToken v) _
               D0 Ecol D1 Hv). }
  assert (Hbad : valueClass (getType v) = VNone ->
            Partial
              (addIssue (Error msgExpectedPropertyValue (tokenSpan v)) ;;
               ret (Property ((TokenSeg name :: ws1) ++ TokenSeg colon :: ws2)))
              t4 (LinkProperty limit t)).
  { intros Hv. apply partial_addIssue, partial_ret, ColonOnly.
    rewrite (stream_current _ _ Hc4). exact Hv. }
  assert (Hnest : forall (inner : bool) (seg : Segment) (t5 : Tokenizer),
            valueClass (getType v) = VNested inner ->
            LinkBracket limit inner t4 seg t5 ->
            LinkProperty limit t
              (Property (((TokenSeg name :: ws1) ++ TokenSeg colon :: ws2) ++ [seg])) t5).
  { intros inner seg t5 Hv (HI5 & (l & ->) & HF).
    apply (WithValue (wrapOf inner l) t5); auto; try (destruct inner; reflexivity).
    intros strict Hg. destruct (HF strict Hg) as (vo & c & HB & Hvt).
    exists vo. split; [exact Hvt|]. rewrite S1.
    rewrite (stream_current _ _ Hc4) in HB.
    exact (FPNested strict (eraseToken name) _ (eraseToken colon) _ (eraseToken v) _
             inner vo c _ D0 Ecol D1 Hv HB). }
  destruct (getType v) eqn:Ev; try (apply Hlit; reflexivity); try (apply Hbad; reflexivity).
  - (* object value *)
    eapply partial_bind; [exact (IHobj t4 v HI4 Hc4 Ev)|].
    cbv beta. intros object t5 HL. apply partial_ret. exact (Hnest true _ _ eq_refl HL).
  - (* array value *)
    eapply partial_bind; [exact (IHarr t4 v HI4 Hc4 Ev)|].
    cbv beta. intros array t5 HL. apply partial_ret. exact (Hnest false _ _ eq_refl HL).
Qed.

Lemma bracketed_token (left right : TokenType.t) (prev : option Segment)
      (tok : Token) (r : list Segment) :
  formatBracketed format left right prev (TokenSeg tok :: r)
  = if TokenType.eqb (getType tok) TokenType.NewLine
       || TokenType.eqb (getType tok) left
       || TokenType.eqb (getType tok) right
       || TokenType.eqb (getType tok) TokenType.Comma
    then tokenToString tok +++ formatBracketed format left right (Some (TokenSeg tok)) r
    else if TokenType.eqb (getType tok) TokenType.Whitespace
    then formatBracketed format left right prev r
    else
      (if previousIs prev TokenType.NewLine then "  "
       else if negb (previousIs prev left) then " " else EmptyString)
      +++ tokenToString tok +++ formatBracketed format left right (Some (TokenSeg tok)) r.
Proof. reflexivity. Qed.

(** The loop takes the current token as a segment of its own and goes on. *)
Lemma loop_token_link (limit : nat) (object : bool) (t t1 t2 : Tokenizer)
      (tok : Token) (i1 : list Issue) (r : list Segment * bool) :
  Inv limit t -> getCurrent t = Some tok -> next t = (t1, i1) ->
  match actionOf object (getType tok) with
  | ASkip | AVerbatim | ADefault => Logic.True
  | _ => Logic.False
  end ->
  LinkLoop limit object t1 r t2 ->
  LinkLoop limit object t (TokenSeg tok :: fst r, snd r) t2.
Proof.
  intros HI Hc Hn Ha (HI2 & _ & HF).
  pose proof (stream_step _ _ _ _ _ HI Hc Hn) as S1.
  pose proof (action_cases object (getType tok)) as Hcases. cbv zeta in Hcases.
  split; [exact HI2|]. split.
  - intros Hd. rewrite S1 in Hd. simpl in Hd. exists (TokenSeg tok), (fst r).
    split; [reflexivity|]. simpl.
    destruct (actionOf object (getType tok)); try discriminate.
    destruct Hcases as [-> ->]. reflexivity.
  - intros strict prev Hg. cbn [fst snd]. rewrite S1.
    destruct (actionOf object (getType tok)) eqn:Eact; try contradiction.
    + (* whitespace *)
      destruct Hcases as [Hv Hw].
      destruct (HF strict prev) as (out & HL & Ht).
      { intros Hs. specialize (Hg Hs). simpl in Hg. exact Hg. }
      exists out. split; [apply FLSkip; assumption|].
      rewrite bracketed_token, Hv, Hw. exact Ht.
    + (* written as it is *)
      destruct (HF strict (Some (TokenSeg tok))) as (out & HL & Ht).
      { intros Hs. specialize (Hg Hs). simpl in Hg. exact Hg. }
      exists (_basicTokens tok ++ out). split.
      * apply (FLVerbatim strict object _ (eraseToken tok)); [exact Eact|].
        rewrite kindOf_token in HL. exact HL.
      * rewrite bracketed_token, Hcases, combinedText_app, token_text, Ht. reflexivity.
    + (* written after a space *)
      destruct Hcases as [Hv Hw].
      destruct (HF strict (Some (TokenSeg tok))) as (out & HL & Ht).
      { intros Hs. specialize (Hg Hs). simpl in Hg. exact Hg. }
      exists (prefixFor (kindOf object prev) ++ _basicTokens tok ++ out). split.
      * apply (FLDefault strict object _ (eraseToken tok)); [exact Eact|].
        rewrite kindOf_token in HL.
        replace (kindAfter object (getType tok)) with KOther in HL; [exact HL|].
        unfold kindAfter. rewrite !orb_false_iff in Hv. destruct Hv as [[[-> ->] _] _].
        reflexivity.
      * rewrite bracketed_token, Hv, Hw, !combinedText_app, token_text, Ht, prefix_text.
        reflexivity.
Qed.

(** The loop ends at the closing bracket. *)
Lemma loop_close_link (limit : nat) (object : bool) (t t1 : Tokenizer)
      (tok : Token) (i1 : list Issue) :
  Inv limit t -> getCurrent t = Some tok -> next t = (t1, i1) ->
  actionOf object (getType tok) = AClose ->
  LinkLoop limit object t ([TokenSeg tok], true) t1.
Proof.
  intros HI Hc Hn Ha.
  pose proof (stream_step _ _ _ _ _ HI Hc Hn) as S1.
  pose proof (action_cases object (getType tok)) as Hcases. cbv zeta in Hcases.
  rewrite Ha in Hcases. destruct Hcases as [Hv _].
  split; [exact (inv_next _ _ _ _ HI Hn)|]. split.
  - intros Hd. rewrite S1 in Hd. simpl in Hd. rewrite Ha in Hd. discriminate.
  - intros strict prev _. exists (_basicTokens tok). cbn [fst snd]. rewrite S1. split.
    + apply (FLClose strict object _ (eraseToken tok)). exact Ha.
    + rewrite bracketed_token, Hv, token_text. simpl. now rewrite append_nil_r.
Qed.

(** The loop at the end of the text. *)
Lemma loop_end_link (limit : nat) (object : bool) (t : Tokenizer) :
  Inv limit t -> getCurrent t = None -> LinkLoop limit object t ([], false) t.
Proof.
  intros HI Hc. split; [exact HI|]. rewrite (stream_none _ Hc). split; [discriminate|].
  intros strict prev _. exists []. split; [constructor | reflexivity].
Qed.

Lemma bracketed_segment (left right : TokenType.t) (prev : option Segment)
      (s : Segment) (r : list Segment) :
  match s with TokenSeg _ => Logic.False | _ => Logic.True end ->
  formatBracketed format left right prev (s :: r)
  = (if previousIs prev TokenType.NewLine then "  " else EmptyString)
    +++ format s +++ formatBracketed format left right (Some s) r.
Proof. destruct s; [contradiction | reflexivity ..]. Qed.

(** The object loop parses a property and goes on. *)
Lemma loop_property_link (limit : nat) (t t1 t2 : Tokenizer) (name : Token)
      (property : Segment) (r : list Segment * bool) :
  getCurrent t = Some name -> getType name = TokenType.QuotedString ->
  LinkProperty limit t property t1 ->
  LinkLoop limit true t1 r t2 ->
  LinkLoop limit true t (property :: fst r, snd r) t2.
Proof.
  intros Hc Hq (HI1 & (l & ->) & HP) (HI2 & HD & HF).
  split; [exact HI2|]. split.
  - intros Hd. rewrite (stream_current _ _ Hc) in Hd. simpl in Hd. rewrite Hq in Hd. discriminate.
  - intros strict prev Hg. cbn [fst snd].
    assert (Hg' : strict = true ->
                  colonGap (Property l) = false
                  /\ gapAmong colonGap TokenType.LeftCurlyBracket TokenType.RightCurlyBracket
                       (endsWithColon (Property l)) (fst r) = false).
    { intros Hs. specialize (Hg Hs). cbn [gapAmong leftOf rightOf] in Hg.
      apply orb_false_iff in Hg as [Hg1 Hg2]. apply orb_false_iff in Hg1 as [_ Hg1]. auto. }
    destruct (HP strict) as (po & HFP & Hpt); [intros Hs; apply (Hg' Hs)|].
    destruct (HF strict (Some (Property l))) as (out & HL & Ht).
    { intros Hs. destruct (Hg' Hs) as [_ G]. exact (gapAmong_false _ _ _ _ G). }
    exists (indentFor (kindOf true prev) ++ po ++ out). split.
    + rewrite (stream_current _ _ Hc) in HFP |- *.
      eapply FLProperty; [simpl; now rewrite Hq | exact HFP | | exact HL].
      intros Hs Hcl. destruct (Hg' Hs) as [_ G]. rewrite Hcl in G.
      destruct (defaultNext true (stream t1)) eqn:Ed; [|reflexivity].
      destruct (HD eq_refl) as (s & r' & Er & Hts). rewrite Er in G. simpl in G.
      cbn [leftOf rightOf] in Hts. rewrite Hts in G. discriminate.
    + rewrite bracketed_segment by exact I.
      rewrite !combinedText_app, Hpt, Ht, indent_text. reflexivity.
Qed.

(** The array loop parses a nested object or array and goes on. *)
Lemma loop_nested_link (limit : nat) (inner : bool) (t t1 t2 : Tokenizer) (tok : Token)
      (seg : Segment) (r : list Segment * bool) :
  getCurrent t = Some tok -> getType tok = leftOf inner ->
  LinkBracket limit inner t seg t1 ->
  LinkLoop limit false t1 r t2 ->
  LinkLoop limit false t (seg :: fst r, snd r) t2.
Proof.
  intros Hc Hq (HI1 & (l & ->) & HB) (HI2 & HD & HF).
  split; [exact HI2|]. split.
  - intros Hd. rewrite (stream_current _ _ Hc) in Hd. simpl in Hd. rewrite Hq in Hd.
    destruct inner; discriminate.
  - intros strict prev Hg. cbn [fst snd].
    assert (Hg' : strict = true ->
                  colonGap (wrapOf inner l) = false
                  /\ gapAmong colonGap TokenType.LeftSquareBracket TokenType.RightSquareBracket
                       false (fst r) = false).
    { intros Hs. specialize (Hg Hs). cbn [gapAmong leftOf rightOf] in Hg.
      apply orb_false_iff in Hg as [Hg1 Hg2]. apply orb_false_iff in Hg1 as [_ Hg1].
      split; [exact Hg1|]. replace (endsWithColon (wrapOf inner l)) with false in Hg2
        by (destruct inner; reflexivity). exact Hg2. }
    destruct (HB strict) as (o & c & HFB & Hot); [intros Hs; apply (Hg' Hs)|].
    destruct (HF strict (Some (wrapOf inner l))) as (out & HL & Ht).
    { intros Hs. apply (Hg' Hs). }
    exists (indentFor (kindOf false prev) ++ o ++ out). split.
    + rewrite (stream_current _ _ Hc) in HFB |- *.
      eapply FLNested; [simpl; rewrite Hq; destruct inner; reflexivity | exact HFB |].
      replace (kindOf false (Some (wrapOf inner l))) with KOther in HL
        by (destruct inner; reflexivity).
      exact HL.
    + rewrite bracketed_segment by (destruct inner; exact I).
      rewrite !combinedText_app, Hot, Ht, indent_text. reflexivity.
Qed.

(** [parseObject] and [parseArray] around their loop. *)
Lemma bracket_link (limit : nat) (object : bool) (t t1 t2 : Tokenizer) (tok : Token)
      (i1 : list Issue) (r : list Segment * bool) :
  Inv limit t -> getCurrent t = Some tok -> getType tok = leftOf object ->
  next t = (t1, i1) ->
  LinkLoop limit object t1 r t2 ->
  LinkBracket limit object t (wrapOf object (TokenSeg tok :: fst r)) t2.
Proof.
  intros HI Hc Hq Hn (HI2 & _ & HF).
  pose proof (stream_step _ _ _ _ _ HI Hc Hn) as S1.
  split; [exact HI2|]. split; [eexists; reflexivity|].
  intros strict Hg.
  destruct (HF strict (Some (TokenSeg tok))) as (out & HL & Ht).
  { intros Hs. specialize (Hg Hs). rewrite colonGap_wrap in Hg. simpl in Hg. exact Hg. }
  exists (_basicTokens tok ++ out), (snd r). split.
  - rewrite S1. apply (FBr strict object (eraseToken tok)). rewrite kindOf_token in HL.
    replace (kindAfter object (getType tok)) with KLeft in HL; [exact HL|].
    unfold kindAfter. rewrite Hq. destruct object; reflexivity.
  - rewrite format_wrap, bracketed_token, Hq, combinedText_app, token_text, Ht.
    destruct object; reflexivity.
Qed.

Lemma objectLoop_link (limit n : nat) :
  links limit n ->
  (forall t flags, Inv limit t ->
     Partial (parseObjectLoop n flags) t (LinkLoop limit true t)) ->
  forall t flags, Inv limit t ->
    Partial (parseObjectLoop (S n) flags) t (LinkLoop limit true t).
Proof.
  intros (IHprop & _) IHloop t flags HI.
  cbn [parseObjectLoop]. apply partial_current.
  destruct (getCurrent t) as [tok|] eqn:Hc.
  2:{ apply partial_ret. now apply loop_end_link. }
  assert (Token : forall flags',
            match actionOf true (getType tok) with
            | ASkip | AVerbatim | ADefault => Logic.True
            | _ => Logic.False
            end ->
            Partial (tokenizerNext ;; r <- parseObjectLoop n flags' ;;
                     ret (TokenSeg tok :: fst r, snd r)) t (LinkLoop limit true t)).
  { intros flags' Ha. apply partial_next. intros t1 i1 Hn.
    eapply partial_bind; [exact (IHloop t1 flags' (inv_next _ _ _ _ HI Hn))|].
    cbv beta. intros r t2 HL. apply partial_ret.
    exact (loop_token_link _ _ _ _ _ _ _ _ HI Hc Hn Ha HL). }
  destruct (getType tok) eqn:Ety;
    try (apply partial_addIssue; apply Token; exact I);
    try (apply partial_addIssueIf; apply Token; exact I);
    try (apply Token; exact I).
  - (* right curly bracket *)
    apply partial_addIssueIf. apply partial_next. intros t1 i1 Hn. apply partial_ret.
    apply (loop_close_link _ _ _ _ _ _ HI Hc Hn). now rewrite Ety.
  - (* property *)
    apply partial_addIssueIf.
    eapply partial_bind; [exact (IHprop t tok HI Hc Ety)|].
    cbv beta. intros property t1 HP.
    eapply partial_bind; [exact (IHloop t1 afterValue (proj1 HP))|].
    cbv beta. intros r t2 HL. apply partial_ret.
    exact (loop_property_link _ _ _ _ _ _ _ Hc Ety HP HL).
Qed.

Lemma arrayLoop_link (limit n : nat) :
  links limit n ->
  (forall t flags, Inv limit t ->
     Partial (parseArrayLoop n flags) t (LinkLoop limit false t)) ->
  forall t flags, Inv limit t ->
    Partial (parseArrayLoop (S n) flags) t (LinkLoop limit false t).
Proof.
  intros (_ & IHobj & _ & IHarr & _) IHloop t flags HI.
  cbn [parseArrayLoop]. apply partial_current.
  destruct (getCurrent t) as [tok|] eqn:Hc.
  2:{ apply partial_ret. now apply loop_end_link. }
  assert (Token : forall flags',
            match actionOf false (getType tok) with
            | ASkip | AVerbatim | ADefault => Logic.True
            | _ => Logic.False
            end ->
            Partial (tokenizerNext ;; r <- parseArrayLoop n flags' ;;
                     ret (TokenSeg tok :: fst r, snd r)) t (LinkLoop limit false t)).
  { intros flags' Ha. apply partial_next. intros t1 i1 Hn.
    eapply partial_bind; [exact (IHloop t1 flags' (inv_next _ _ _ _ HI Hn))|].
    cbv beta. intros r t2 HL. apply partial_ret.
    exact (loop_token_link _ _ _ _ _ _ _ _ HI Hc Hn Ha HL). }
  destruct (getType tok) eqn:Ety;
    try (apply partial_addIssue; apply Token; exact I);
    try (apply partial_addIssueIf; apply Token; exact I);
    try (apply Token; exact I).
  - (* nested object *)
    apply partial_addIssueIf.
    eapply partial_bind; [exact (IHobj t tok HI Hc Ety)|].
    cbv beta. intros object t1 HB.
    eapply partial_bind; [exact (IHloop t1 afterValue (proj1 HB))|].
    cbv beta. intros r t2 HL. apply partial_ret.
    exact (loop_nested_link _ true _ _ _ _ _ _ Hc Ety HB HL).
  - (* nested array *)
    apply partial_addIssueIf.
    eapply partial_bind; [exact (IHarr t tok HI Hc Ety)|].
    cbv beta. intros array t1 HB.
    eapply partial_bind; [exact (IHloop t1 afterValue (proj1 HB))|].
    cbv beta. intros r t2 HL. apply partial_ret.
    exact (loop_nested_link _ false _ _ _ _ _ _ Hc Ety HB HL).
  - (* right square bracket *)
    apply partial_addIssueIf. apply partial_next. intros t1 i1 Hn. apply partial_ret.
    apply (loop_close_link _ _ _ _ _ _ HI Hc Hn). now rewrite Ety.
Qed.

Lemma object_link (limit n : nat) :
  (forall t flags, Inv limit t ->
     Partial (parseObjectLoop n flags) t (LinkLoop limit true t)) ->
  forall t tok, Inv limit t -> getCurrent t = Some tok ->
    getType tok = TokenType.LeftCurlyBracket ->
    Partial (parseObject (S n)) t (LinkBracket limit true t).
Proof.
  intros IHloop t tok HI Hc Hq. cbn [parseObject]. apply partial_current. rewrite Hc.
  apply partial_next. intros t1 i1 Hn.
  eapply partial_bind; [exact (IHloop t1 initialFlags (inv_next _ _ _ _ HI Hn))|].
  cbv beta. intros [added closed] t2 HL.
  apply partial_addIssueIf, partial_ret.
  exact (bracket_link _ true _ _ _ _ _ _ HI Hc Hq Hn HL).
Qed.

Lemma array_link (limit n : nat) :
  (forall t flags, Inv limit t ->
     Partial (parseArrayLoop n flags) t (LinkLoop limit false t)) ->
  forall t tok, Inv limit t -> getCurrent t = Some tok ->
    getType tok = TokenType.LeftSquareBracket ->
    Partial (parseArray (S n)) t (LinkBracket limit false t).
Proof.
  intros IHloop t tok HI Hc Hq. cbn [parseArray]. apply partial_current. rewrite Hc.
  apply partial_next. intros t1 i1 Hn.
  eapply partial_bind; [exact (IHloop t1 initialFlags (inv_next _ _ _ _ HI Hn))|].
  cbv beta. intros [added closed] t2 HL.
  apply partial_addIssueIf, partial_ret.
  exact (bracket_link _ false _ _ _ _ _ _ HI Hc Hq Hn HL).
Qed.

Lemma loop_zero_link (limit : nat) (object : bool) (t : Tokenizer)
      (m : Parser (list Segment * bool)) :
  Inv limit t ->
  m = (cur <- tokenizerCurrent ;;
       match cur with
       | None => ret ([], false)
       | Some _ => stuck
       end) ->
  Partial m t (LinkLoop limit object t).
Proof.
  intros HI ->. apply partial_current. destruct (getCurrent t) eqn:Hc.
  - apply partial_stuck.
  - apply partial_ret. now apply loop_end_link.
Qed.

Lemma parser_links (limit : nat) : forall fuel, links limit fuel.
Proof.
  induction fuel as [|n IH].
  - unfold links. split; [|split; [|split; [|split]]].
    + intros t name _ _ _. cbn [parseProperty]. apply partial_stuck.
    + intros t tok _ _ _. cbn [parseObject]. apply partial_stuck.
    + intros t flags HI. apply loop_zero_link; [exact HI | reflexivity].
    + intros t tok _ _ _. cbn [parseArray]. apply partial_stuck.
    + intros t flags HI. apply loop_zero_link; [exact HI | reflexivity].
  - pose proof IH as (IHprop & IHobj & IHol & IHarr & IHal).
    unfold links. split; [|split; [|split; [|split]]].
    + exact (property_link limit n IH).
    + exact (object_link limit n IHol).
    + exact (objectLoop_link limit n IH IHol).
    + exact (array_link limit n IHal).
    + exact (arrayLoop_link limit n IH IHal).
Qed.

Lemma partial_same {A : Type} (m m' : Parser A) t (Q : A -> Tokenizer -> Prop) :
  m t = m' t -> Partial m' t Q -> Partial m t Q.
Proof. intros E H a t' iss Hm. rewrite E in Hm. exact (H _ _ _ Hm). Qed.

Lemma bind_same {A B : Type} (m m' : Parser A) (f : A -> Parser B) t :
  m t = m' t -> bind m f t = bind m' f t.
Proof. intros E. unfold bind. now rewrite E. Qed.

Lemma parseSegment_at (n : nat) (t : Tokenizer) (tok : Token) :
  getCurrent t = Some tok ->
  parseSegment n t
  = match getType tok with
    | TokenType.LeftCurlyBracket => parseObject n
    | TokenType.LeftSquareBracket => parseArray n
    | _ => tokenizerNext ;; ret (TokenSeg tok)
    end t.
Proof.
  intros Hc. unfold parseSegment. unfold bind at 1. unfold tokenizerCurrent. rewrite Hc.
  destruct (match getType tok with
            | TokenType.LeftCurlyBracket => parseObject n
            | TokenType.LeftSquareBracket => parseArray n
            | _ => tokenizerNext ;; ret (TokenSeg tok)
            end t) as [[[b t2] i2]|]; reflexivity.
Qed.

(** The loop of [parse] and [Document.format]. *)
Lemma parseLoop_link (limit : nat) (fuel : nat) :
  forall t found, Inv limit t ->
    Partial (parseLoop fuel found) t
      (fun segs _ =>
         forall strict, (strict = true -> existsb colonGap segs = false) ->
           exists out, FDoc strict (stream t) out
                       /\ getCombinedText out = documentFormatLoop segs).
Proof.
  induction fuel as [|n IH]; intros t found HI.
  - cbn [parseLoop]. apply partial_current. destruct (getCurrent t) eqn:Hc.
    + apply partial_stuck.
    + apply partial_ret. intros strict _. exists []. rewrite (stream_none _ Hc).
      split; [constructor | reflexivity].
  - cbn [parseLoop]. apply partial_current. destruct (getCurrent t) as [tok|] eqn:Hc.
    2:{ apply partial_ret. intros strict _. exists []. rewrite (stream_none _ Hc).
        split; [constructor | reflexivity]. }
    destruct (parser_links limit n) as (_ & IHobj & _ & IHarr & _).
    assert (Nested : forall (object : bool) (m : Parser Segment),
              rootClass (getType tok) = Some object ->
              Partial m t (LinkBracket limit object t) ->
              Partial
                (segment <- m ;;
                 addIssueIf
                   (match segment with
                    | TokenSeg token =>
                        match getType token with
                        | TokenType.NewLine | TokenType.Whitespace => false
                        | _ => true
                        end
                    | _ => true
                    end && found) (Error msgExpectedEndOfFile (span segment)) ;;
                 rest <- parseLoop n
                   (found || match segment with
                             | TokenSeg token =>
                                 match getType token with
                                 | TokenType.NewLine | TokenType.Whitespace => false
                                 | _ => true
                                 end
                             | _ => true
                             end) ;;
                 ret (segment :: rest)) t
                (fun segs _ =>
                   forall strict, (strict = true -> existsb colonGap segs = false) ->
                     exists out, FDoc strict (stream t) out
                                 /\ getCombinedText out = documentFormatLoop segs)).
    { intros object m Hr Hm. eapply partial_bind; [exact Hm|].
      cbv beta. intros seg t1 (HI1 & (l & ->) & HB).
      apply partial_addIssueIf.
      eapply partial_bind; [exact (IH t1 _ HI1)|].
      cbv beta. intros rest t2 HR. apply partial_ret.
      intros strict Hg.
      assert (Hg' : strict = true ->
                    colonGap (wrapOf object l) = false /\ existsb colonGap rest = false).
      { intros Hs. specialize (Hg Hs). simpl in Hg. now apply orb_false_iff in Hg. }
      destruct (HB strict) as (o & c & HFB & Hot); [intros Hs; apply (Hg' Hs)|].
      destruct (HR strict) as (out & HFD & Ht); [intros Hs; apply (Hg' Hs)|].
      exists (o ++ out). split.
      - rewrite (stream_current _ _ Hc) in HFB |- *.
        eapply (FDNested strict (eraseToken tok)); [exact Hr | exact HFB | exact HFD].
      - cbn [documentFormatLoop]. now rewrite combinedText_app, Hot, Ht. }
    assert (Tok : rootClass (getType tok) = None ->
              Partial
                (segment <- (tokenizerNext ;; ret (TokenSeg tok)) ;;
                 addIssueIf
                   (match segment with
                    | TokenSeg token =>
                        match getType token with
                        | TokenType.NewLine | TokenType.Whitespace => false
                        | _ => true
                        end
                    | _ => true
                    end && found) (Error msgExpectedEndOfFile (span segment)) ;;
                 rest <- parseLoop n
                   (found || match segment with
                             | TokenSeg token =>
                                 match getType token with
                                 | TokenType.NewLine | TokenType.Whitespace => false
                                 | _ => true
                                 end
                             | _ => true
                             end) ;;
                 ret (segment :: rest)) t
                (fun segs _ =>
                   forall strict, (strict = true -> existsb colonGap segs = false) ->
                     exists out, FDoc strict (stream t) out
                                 /\ getCombinedText out = documentFormatLoop segs)).
    { intros Hr.
      eapply partial_bind with
        (Q1 := fun seg t1 => seg = TokenSeg tok /\ Inv limit t1 /\ stream t = eraseToken tok :: stream t1).
      { apply partial_next. intros t1 i1 Hn.
        apply partial_ret. split; [reflexivity|]. split; [exact (inv_next _ _ _ _ HI Hn)|].
        exact (stream_step _ _ _ _ _ HI Hc Hn). }
      cbv beta. intros seg t1 (-> & HI1 & S1).
      apply partial_addIssueIf.
      eapply partial_bind; [exact (IH t1 _ HI1)|].
      cbv beta. intros rest t2 HR. apply partial_ret.
      intros strict Hg.
      destruct (HR strict) as (out & HFD & Ht).
      { intros Hs. specialize (Hg Hs). simpl in Hg. exact Hg. }
      exists (_basicTokens tok ++ out). split.
      - rewrite S1. apply (FDToken strict (eraseToken tok)); [exact Hr | exact HFD].
      - cbn [documentFormatLoop format]. now rewrite combinedText_app, token_text, Ht. }
    eapply partial_same; [apply bind_same, (parseSegment_at n t tok Hc)|].
    destruct (getType tok) eqn:Ety; try (apply Tok; reflexivity).
    + apply (Nested true); [reflexivity|]. exact (IHobj t tok HI Hc Ety).
    + apply (Nested false); [reflexivity|]. exact (IHarr t tok HI Hc Ety).
Qed.

(** What [parse] returns, [format] writes as the lexemes the pass gives. *)
Lemma parse_link (s : string) (d : Document) (iss : list Issue) :
  parse s = Some (d, iss) ->
  forall strict, (strict = true -> existsb colonGap (documentSegments d) = false) ->
    exists out, FDoc strict (tokensOf (lex s)) out
                /\ getCombinedText out = documentFormat d.
Proof.
  unfold parse, parseLexes. intros H.
  destruct ((tokenizerNext ;; parseLoop (fuelFor (lex s)) false) (newTokenizer (lex s) 0))
    as [[[segs t'] i]|] eqn:E; [|discriminate].
  injection H as <- <-. cbn [documentSegments]. unfold documentFormat. cbn [documentSegments].
  unfold bind, tokenizerNext in E.
  destruct (next (newTokenizer (lex s) 0)) as [t1 i1] eqn:En.
  destruct (parseLoop (fuelFor (lex s)) false t1) as [[[segs' t2] i2]|] eqn:El; [|discriminate].
  injection E as <- <- <-.
  destruct (next_first _ _ _ (lex_wf s) En) as (HI & _).
  pose proof (parseLoop_link _ _ t1 false HI _ _ _ El) as HL. cbv beta in HL.
  rewrite (stream_first _ _ _ (lex_wf s) En) in HL. exact HL.
Qed.

(** ** Reading the formatted text *)

(** *** Token lists that come from a text *)

Lemma stable_wf (ls : list Lex) : stable ls = true -> forallb wfLex ls = true.
Proof.
  induction ls as [|a r IH]; [reflexivity|]. intros H.
  apply stable_cons in H as (Hw & _ & Hr). simpl. now rewrite Hw, IH.
Qed.

Lemma stable_app_inv (a b : list Lex) :
  stable (a ++ b) = true -> stable a = true /\ stable b = true.
Proof.
  induction a as [|x a IH]; intros H; [auto|].
  simpl app in H. apply stable_cons in H as (Hw & Hm & Hr). destruct (IH Hr) as [Ha Hb].
  split; [|exact Hb]. apply stable_push; auto. destruct a; [reflexivity | exact Hm].
Qed.

(** Joining two stable lists whose facing lexemes do not merge. *)
Lemma stable_glue (a b : list Lex) (x : Lex) :
  stable (a ++ [x]) = true -> stable b = true -> mergesNext x b = false ->
  stable ((a ++ [x]) ++ b) = true.
Proof.
  induction a as [|y a IH]; intros Ha Hb Hm.
  - simpl in *. apply andb_true_iff in Ha as [Ha _]. apply andb_true_iff in Ha as [Hw _].
    now rewrite Hw, Hm, Hb.
  - simpl app in *. apply stable_cons in Ha as (Hw & Hy & Hr).
    apply stable_push; [exact Hw | | exact (IH Hr Hb Hm)].
    destruct a; exact Hy.
Qed.

Lemma stable_spaces (j : nat) (body : list Lex) :
  stable body = true -> stable (repeat spaceLex j ++ body) = true.
Proof.
  intros H. induction j as [|j IH]; [exact H|].
  simpl. rewrite IH. destruct (repeat spaceLex j ++ body); reflexivity.
Qed.

(** The token lists of the texts. *)
Definition Orig (ts : list Token) : Prop :=
  exists ls, stable ls = true /\ ts = tokensOf ls.

Lemma tokensOf_cons (ls : list Lex) (A : Token) (ts : list Token) :
  forallb wfLex ls = true -> tokensOf ls = A :: ts ->
  exists ls', ls = _basicTokens A ++ ls' /\ readShape ls = Some (A, ls')
              /\ ts = tokensOf ls' /\ _basicTokens A <> [].
Proof.
  intros Hwf H. rewrite tokensOf_unfold in H by exact Hwf.
  destruct (readShape ls) as [[tok rest]|] eqn:E; [|discriminate].
  injection H as -> <-. destruct (readShape_spec _ _ _ Hwf E) as (L & Hne & _).
  exists rest. auto.
Qed.

Lemma tokensOf_empty (ls : list Lex) :
  forallb wfLex ls = true -> tokensOf ls = [] -> ls = [].
Proof.
  intros Hwf H. rewrite tokensOf_unfold in H by exact Hwf.
  destruct ls as [|l r]; [reflexivity|]. exfalso.
  unfold readShape in H. destruct (readToken 0 l _) as [[tok i] c]. discriminate.
Qed.

Lemma orig_cons (A : Token) (ts : list Token) :
  Orig (A :: ts) ->
  exists ls', stable (_basicTokens A ++ ls') = true
              /\ readShape (_basicTokens A ++ ls') = Some (A, ls')
              /\ ts = tokensOf ls' /\ _basicTokens A <> [].
Proof.
  intros (ls & Hs & H). symmetry in H.
  destruct (tokensOf_cons _ _ _ (stable_wf _ Hs) H) as (ls' & -> & Hr & Ht & Hne).
  exists ls'. auto.
Qed.

Lemma orig_tail (A : Token) (ts : list Token) : Orig (A :: ts) -> Orig ts.
Proof.
  intros H. destruct (orig_cons _ _ H) as (ls' & Hs & _ & Ht & _).
  exists ls'. split; [exact (proj2 (stable_app_inv _ _ Hs)) | exact Ht].
Qed.

Lemma orig_dropWs (ts : list Token) : Orig ts -> Orig (dropWs ts).
Proof.
  induction ts as [|A ts IH]; intros H; [exact H|]. simpl.
  destruct (isWs A); [exact (IH (orig_tail _ _ H)) | exact H].
Qed.

(** The first lexeme of a token list. *)
Definition firstLex (ts : list Token) : option Lex :=
  match ts with
  | B :: _ => hd_error (_basicTokens B)
  | [] => None
  end.

Lemma firstLex_tokens (ls : list Lex) :
  stable ls = true -> firstLex (tokensOf ls) = hd_error ls.
Proof.
  intros Hs. destruct (tokensOf ls) as [|B ts] eqn:E.
  - now rewrite (tokensOf_empty _ (stable_wf _ Hs) E).
  - destruct (tokensOf_cons _ _ _ (stable_wf _ Hs) E) as (ls' & -> & _ & _ & Hne).
    simpl. destruct (_basicTokens B); [contradiction | reflexivity].
Qed.

Lemma orig_first (B : Token) (ts : list Token) :
  Orig (B :: ts) ->
  exists l r, _basicTokens B = l :: r /\ headType l = coarse (getType B).
Proof.
  intros H. destruct (orig_cons _ _ H) as (ls' & _ & Hr & _ & Hne).
  destruct (_basicTokens B) as [|l r] eqn:E; [contradiction|].
  exists l, r. split; [reflexivity|]. symmetry. exact (readShape_headType _ _ _ _ Hr).
Qed.

(** Token types that start with a neutral lexeme. *)
Definition plainStart (ty : TokenType.t) : bool :=
  match ty with
  | TokenType.LeftCurlyBracket | TokenType.RightCurlyBracket
  | TokenType.LeftSquareBracket | TokenType.RightSquareBracket
  | TokenType.Colon | TokenType.Comma | TokenType.NewLine
  | TokenType.QuotedString => true
  | _ => false
  end.

Lemma headType_plain (l : Lex) : plainStart (headType l) = true -> neutralLex l = true.
Proof.
  unfold headType, neutralLex. destruct (lexType l); simpl; try discriminate; auto.
  destruct (lexText l =? "true")%string; [discriminate|].
  destruct (lexText l =? "false")%string; [discriminate|].
  destruct (lexText l =? "null")%string; discriminate.
Qed.

Lemma headType_ws (l : Lex) :
  headType l = TokenType.Whitespace <-> isWhitespaceLex l = true.
Proof.
  unfold headType, isWhitespaceLex, isType. destruct (lexType l); simpl;
    try (split; [discriminate | discriminate]); try (split; reflexivity).
  destruct (lexText l =? "true")%string; [split; discriminate|].
  destruct (lexText l =? "false")%string; [split; discriminate|].
  destruct (lexText l =? "null")%string; split; discriminate.
Qed.

Lemma coarse_ws (ty : TokenType.t) :
  coarse ty = TokenType.Whitespace <-> ty = TokenType.Whitespace.
Proof. destruct ty; simpl; split; congruence. Qed.

Lemma action_coarse (object : bool) (ty : TokenType.t) :
  actionOf object (coarse ty) = actionOf object ty.
Proof. destruct object, ty; reflexivity. Qed.

Lemma valueClass_coarse (ty : TokenType.t) : valueClass (coarse ty) = valueClass ty.
Proof. destruct ty; reflexivity. Qed.

Lemma colon_coarse (ty : TokenType.t) :
  TokenType.eqb (coarse ty) TokenType.Colon = TokenType.eqb ty TokenType.Colon.
Proof. destruct ty; reflexivity. Qed.

Lemma ws_coarse (ty : TokenType.t) :
  TokenType.eqb (coarse ty) TokenType.Whitespace = TokenType.eqb ty TokenType.Whitespace.
Proof. destruct ty; reflexivity. Qed.

Lemma root_coarse (ty : TokenType.t) : rootClass (coarse ty) = rootClass ty.
Proof. destruct ty; reflexivity. Qed.

(** The first lexeme of a token that is no whitespace token is no whitespace
    lexeme. *)
Lemma orig_first_solid (B : Token) (ts : list Token) :
  Orig (B :: ts) -> isWs B = false ->
  exists l r, _basicTokens B = l :: r /\ headType l = coarse (getType B)
              /\ isWhitespaceLex l = false /\ isSpace l = false.
Proof.
  intros H Hw. destruct (orig_first _ _ H) as (l & r & E & Hh).
  exists l, r. split; [exact E|]. split; [exact Hh|].
  assert (Hl : isWhitespaceLex l = false).
  { destruct (isWhitespaceLex l) eqn:El; [|reflexivity].
    apply (proj2 (headType_ws _)) in El. rewrite Hh in El. apply (proj1 (coarse_ws _)) in El.
    unfold isWs in Hw. rewrite El in Hw. discriminate. }
  split; [exact Hl|].
  destruct (isSpace l) eqn:Es; [|reflexivity].
  apply isSpace_eq in Es. subst l. discriminate.
Qed.

(** Token types of one lexeme that is never read together with the next. *)
Definition selfDelimited (ty : TokenType.t) : bool :=
  match ty with
  | TokenType.LeftCurlyBracket | TokenType.RightCurlyBracket
  | TokenType.LeftSquareBracket | TokenType.RightSquareBracket
  | TokenType.Colon | TokenType.Comma | TokenType.NewLine => true
  | _ => false
  end.

Lemma reread_self (a r1 r2 : list Lex) (A : Token) :
  forallb wfLex (a ++ r1) = true ->
  readShape (a ++ r1) = Some (A, r1) ->
  selfDelimited (getType A) = true ->
  readShape (a ++ r2) = Some (A, r2)
  /\ exists l, a = [l] /\ forall y, merges l y = false.
Proof.
  intros Hwf H Hs. destruct (readShape_spec _ _ _ Hwf H) as (L & Hne & _).
  apply app_inv_tail in L. destruct a as [|l a]; [congruence|].
  pose proof (readShape_headType _ _ _ _ H) as Hh.
  unfold readShape in H |- *. cbn [app] in H |- *.
  destruct (readToken 0 l (mkCursor (l :: a ++ r1) 0)) as [[tok iss] c] eqn:E.
  injection H as -> Hc.
  unfold readToken in E |- *. unfold headType in Hh.
  destruct (lexType l) eqn:Ety;
    try (exfalso; clear - Hh Hs; destruct (getType A); simpl in *; congruence);
    try (cbn [nextBasicToken lexes basicStart] in E; injection E as <- _ <-;
         cbn [lexes] in Hc; apply app_self_nil in Hc; subst;
         split; [reflexivity | exists l; split; [reflexivity|];
                               intros y; unfold merges; now rewrite Ety]).
  exfalso. clear - Hh Hs.
  destruct (lexText l =? "true")%string;
    [|destruct (lexText l =? "false")%string;
      [|destruct (lexText l =? "null")%string]];
    destruct (getType A); simpl in *; congruence.
Qed.

(** What may follow the token [A] in the formatted text, when the tokens
    [ts] followed it in the text parsed. *)
Definition After (A : Token) (ts : list Token) (more : list Lex) : Prop :=
  hd_error more = firstLex ts
  \/ (ts <> [] /\ robust (getType A) = true /\ quietHead more = true)
  \/ selfDelimited (getType A) = true.

Lemma merges_neutral (x y : Lex) :
  lexType x <> LexType.CarriageReturn -> neutralLex y = true -> merges x y = false.
Proof.
  unfold merges, neutralLex. intros Hx Hy.
  destruct (lexType x); try reflexivity; try congruence;
    destruct (lexType y); try reflexivity; discriminate.
Qed.

(** A token of the parsed text is read again in the formatted text. *)
Lemma token_again (A : Token) (ts : list Token) (more : list Lex) :
  Orig (A :: ts) -> After A ts more -> stable more = true ->
  stable (_basicTokens A ++ more) = true
  /\ tokensOf (_basicTokens A ++ more) = A :: tokensOf more.
Proof.
  intros HO HA Hm. destruct (orig_cons _ _ HO) as (ls' & Hs & Hr & Ht & Hne).
  pose proof (stable_wf _ Hs) as Hwf.
  destruct (stable_app_inv _ _ Hs) as [Hsa Hsl].
  assert (Hfl : firstLex ts = hd_error ls') by (rewrite Ht; now apply firstLex_tokens).
  assert (Both : readShape (_basicTokens A ++ more) = Some (A, more)
                 /\ stable (_basicTokens A ++ more) = true).
  { destruct (exists_last Hne) as (a' & x & Ea).
    destruct HA as [HA | [(Hts & Hrob & Hq) | Hself]].
    - split.
      + apply (reread _ ls' _ _ Hwf Hr). left. now rewrite HA.
      + rewrite Ea in Hs |- *. apply stable_glue; [now rewrite <- Ea | exact Hm|].
        rewrite <- app_assoc in Hs. apply stable_app_inv in Hs as [_ Hs].
        simpl in Hs. apply andb_true_iff in Hs as [Hs _]. apply andb_true_iff in Hs as [_ Hs].
        apply negb_true_iff in Hs.
        destruct more as [|y more], ls' as [|y' ls']; simpl in *; try reflexivity;
          rewrite Hfl in HA; try discriminate. injection HA as ->. exact Hs.
    - assert (Hl : ls' <> []).
      { intros ->. apply Hts. rewrite Ht. reflexivity. }
      split.
      + apply (reread _ ls' _ _ Hwf Hr). right. auto.
      + destruct (robust_clean _ _ _ Hwf Hr Hl Hrob) as (a2 & x2 & Ea2 & Hx2).
        rewrite Ea2. apply stable_glue; [now rewrite <- Ea2 | exact Hm|].
        destruct more as [|y more]; [reflexivity|]. simpl in *.
        now apply merges_neutral.
    - destruct (reread_self _ _ more _ Hwf Hr Hself) as (Hr2 & l & El & Hl).
      split; [exact Hr2|]. rewrite El in *.
      change ([l] ++ more) with (([] ++ [l]) ++ more).
      apply stable_glue; [exact Hsa | exact Hm|].
      destruct more; [reflexivity | apply Hl]. }
  destruct Both as [Hr2 Hs2]. split; [exact Hs2|].
  rewrite tokensOf_unfold by exact (stable_wf _ Hs2). now rewrite Hr2.
Qed.

(** The spaces before a token that is no whitespace token make one
    whitespace token. *)
Lemma tokensOf_spaces (j : nat) (body : list Lex) :
  stable body = true ->
  match body with [] => Logic.True | y :: _ => isWhitespaceLex y = false end ->
  tokensOf (repeat spaceLex (S j) ++ body)
  = Tokens.Whitespace (repeat spaceLex (S j)) 0 :: tokensOf body.
Proof.
  intros Hs Hb. rewrite tokensOf_unfold.
  - now rewrite readShape_spaces.
  - apply stable_wf. now apply stable_spaces.
Qed.

(** *** The shape of what the pass writes *)

Lemma F_orig (strict : bool) :
  (forall ts out cl rest, FProp strict ts out cl rest -> Orig ts -> Orig rest)
  /\ (forall object k ts out c rest, FLoop strict object k ts out c rest -> Orig ts -> Orig rest)
  /\ (forall object ts out c rest, FBracket strict object ts out c rest -> Orig ts -> Orig rest).
Proof.
  apply F_mutind; intros;
    repeat match goal with
      | H : Orig (_ :: ?ts), E : dropWs ?ts = _ |- _ =>
          let H' := fresh "HO" in
          pose proof (orig_dropWs _ (orig_tail _ _ H)) as H'; rewrite E in H'; clear E
      end;
    eauto using orig_tail, orig_dropWs.
Qed.

Lemma dropWs_head (ts : list Token) : startsWs (dropWs ts) = false.
Proof.
  induction ts as [|A ts IH]; [reflexivity|]. simpl.
  destruct (isWs A) eqn:E; [exact IH | simpl; exact E].
Qed.

Lemma dropWs_solid (ts : list Token) : startsWs ts = false -> dropWs ts = ts.
Proof. destruct ts as [|A ts]; [reflexivity|]. simpl. now intros ->. Qed.

Lemma action_skip (object : bool) (A : Token) :
  actionOf object (getType A) = ASkip <-> isWs A = true.
Proof.
  unfold isWs. destruct object; destruct (getType A); simpl; split; congruence.
Qed.

Lemma FProp_head (strict : bool) (N : Token) (ts : list Token) (po : list Lex)
      (cl : bool) (rest : list Token) :
  FProp strict (N :: ts) po cl rest -> exists x, po = _basicTokens N ++ x.
Proof.
  intros H. inversion H; subst.
  - exists []. now rewrite app_nil_r.
  - eexists. reflexivity.
  - eexists. reflexivity.
  - eexists. reflexivity.
Qed.

Lemma FBracket_head (strict object : bool) (A : Token) (ts : list Token) (o : list Lex)
      (c : bool) (rest : list Token) :
  FBracket strict object (A :: ts) o c rest -> exists x, o = _basicTokens A ++ x.
Proof. intros H. inversion H; subst. eexists. reflexivity. Qed.

(** A property that ends with its colon was followed by a token that is
    neither whitespace nor a value. *)
Lemma FProp_colonLast (strict : bool) (ts : list Token) (po : list Lex) (rest : list Token) :
  FProp strict ts po true rest -> startsWs rest = false /\ valueNext rest = VNone.
Proof.
  intros H. inversion H; subst.
  split; [apply dropWs_head | assumption].
Qed.

(** The spaces the loop writes before the next token it keeps. *)
Definition leadFor (object : bool) (k : Kind) (B : Token) : list Lex :=
  match actionOf object (getType B) with
  | ADefault => prefixFor k
  | AProperty | ANested _ => indentFor k
  | _ => []
  end.

Lemma loop_head (strict object : bool) (k : Kind) (ts : list Token) (out : list Lex)
      (c : bool) (rest : list Token) :
  FLoop strict object k ts out c rest ->
  match dropWs ts with
  | [] => out = [] /\ c = false
  | B :: _ => exists x, out = leadFor object k B ++ _basicTokens B ++ x
  end.
Proof.
  induction 1.
  - simpl. auto.
  - simpl. destruct (isWs A) eqn:Ew.
    + apply (proj2 (action_skip object A)) in Ew. congruence.
    + exists []. unfold leadFor. rewrite H. now rewrite app_nil_r.
  - simpl. rewrite (proj1 (action_skip _ _) H). exact IHFLoop.
  - simpl. destruct (isWs A) eqn:Ew.
    + apply (proj2 (action_skip object A)) in Ew. congruence.
    + exists out. unfold leadFor. now rewrite H.
  - simpl. destruct (isWs A) eqn:Ew.
    + apply (proj2 (action_skip object A)) in Ew. congruence.
    + exists out. unfold leadFor. now rewrite H.
  - simpl. destruct (isWs A) eqn:Ew.
    + apply (proj2 (action_skip object A)) in Ew. congruence.
    + destruct (FProp_head _ _ _ _ _ _ H0) as [x ->].
      exists (x ++ out). unfold leadFor. rewrite H. now rewrite <- app_assoc.
  - simpl. destruct (isWs A) eqn:Ew.
    + apply (proj2 (action_skip object A)) in Ew. congruence.
    + destruct (FBracket_head _ _ _ _ _ _ _ H0) as [x ->].
      exists (x ++ out). unfold leadFor. rewrite H. now rewrite <- app_assoc.
Qed.

Lemma lead_spaces (object : bool) (k : Kind) (B : Token) :
  exists j, leadFor object k B = repeat spaceLex j.
Proof.
  unfold leadFor, prefixFor, indentFor.
  destruct (actionOf object (getType B)), k;
    first [exists 0; reflexivity | exists 1; reflexivity | exists 2; reflexivity].
Qed.

Lemma action_plain (object : bool) (ty : TokenType.t) :
  match actionOf object ty with
  | AClose | AVerbatim | AProperty | ANested _ => plainStart (coarse ty) = true
  | _ => Logic.True
  end.
Proof. destruct object, ty; simpl; auto. Qed.

(** After a segment that is no left bracket the loop goes on with a neutral
    lexeme. *)
Lemma quiet_after (strict object : bool) (k : Kind) (ts : list Token) (out : list Lex)
      (c : bool) (rest : list Token) (cont : list Lex) :
  FLoop strict object k ts out c rest -> Orig ts -> k <> KLeft ->
  (c = false -> cont = []) ->
  quietHead (out ++ cont) = true.
Proof.
  intros HF HO Hk Hc. pose proof (loop_head _ _ _ _ _ _ _ HF) as HH.
  pose proof (orig_dropWs _ HO) as HO'. pose proof (dropWs_head ts) as Hw.
  destruct (dropWs ts) as [|B r].
  - destruct HH as [-> ->]. now rewrite (Hc eq_refl).
  - destruct HH as [x ->]. simpl in Hw.
    destruct (orig_first_solid _ _ HO' Hw) as (l & r' & El & Hh & _ & _).
    pose proof (action_plain object (getType B)) as Hp.
    pose proof (proj1 (action_skip object B)) as Hs.
    unfold leadFor. rewrite El.
    destruct (actionOf object (getType B)) eqn:Ea.
    + simpl. apply headType_plain. now rewrite Hh.
    + rewrite (Hs eq_refl) in Hw. discriminate.
    + simpl. apply headType_plain. now rewrite Hh.
    + destruct k; [reflexivity | contradiction | reflexivity].
    + destruct k; simpl; try reflexivity; apply headType_plain; now rewrite Hh.
    + destruct k; simpl; try reflexivity; apply headType_plain; now rewrite Hh.
Qed.

Lemma nothing_after (strict object : bool) (k : Kind) (out : list Lex)
      (c : bool) (rest : list Token) (cont : list Lex) :
  FLoop strict object k [] out c rest -> (c = false -> cont = []) -> out ++ cont = [].
Proof.
  intros HF Hc. destruct (loop_head _ _ _ _ _ _ _ HF) as [-> ->]. now rewrite (Hc eq_refl).
Qed.

(** A token written as it is comes first in what the loop writes. *)
Lemma verbatim_after (strict object : bool) (k : Kind) (N : Token) (ts : list Token)
      (out : list Lex) (c : bool) (rest : list Token) (cont : list Lex) :
  FLoop strict object k (N :: ts) out c rest -> Orig (N :: ts) ->
  match actionOf object (getType N) with
  | AVerbatim | AClose => Logic.True
  | _ => Logic.False
  end ->
  hd_error (out ++ cont) = firstLex (N :: ts).
Proof.
  intros HF HO Ha. pose proof (loop_head _ _ _ _ _ _ _ HF) as HH.
  destruct (orig_first _ _ HO) as (l & r' & El & _).
  simpl in HH. destruct (isWs N) eqn:Ew.
  - apply (proj2 (action_skip object N)) in Ew. rewrite Ew in Ha. contradiction.
  - destruct HH as [x ->]. unfold leadFor. simpl. rewrite El.
    destruct (actionOf object (getType N)); try contradiction; reflexivity.
Qed.

(** Past the spaces, what the loop writes starts with the next token. *)
Lemma solid_after (strict object : bool) (k : Kind) (ts : list Token)
      (out : list Lex) (c : bool) (rest : list Token) (cont : list Lex) :
  FLoop strict object k ts out c rest -> Orig ts -> (c = false -> cont = []) ->
  startsWs ts = false ->
  hd_error (dropSpaces (out ++ cont)) = firstLex ts.
Proof.
  intros HF HO Hc Hw. pose proof (loop_head _ _ _ _ _ _ _ HF) as HH.
  rewrite (dropWs_solid _ Hw) in HH. destruct ts as [|B r].
  - destruct HH as [-> ->]. now rewrite (Hc eq_refl).
  - destruct HH as [x ->]. simpl in Hw.
    destruct (orig_first_solid _ _ HO Hw) as (l & r' & El & _ & _ & Hs).
    destruct (lead_spaces object k B) as [j ->].
    rewrite <- app_assoc, dropSpaces_repeat. simpl. rewrite El. simpl. now rewrite Hs.
Qed.

Lemma coarse_newline (ty : TokenType.t) :
  coarse ty = TokenType.NewLine -> ty = TokenType.NewLine.
Proof. destruct ty; simpl; congruence. Qed.

(** After a line comment comes a new-line token or nothing. *)
Lemma orig_lineComment (A : Token) (ts : list Token) :
  Orig (A :: ts) -> getType A = TokenType.LineComment ->
  match ts with
  | [] => Logic.True
  | N :: _ => getType N = TokenType.NewLine
  end.
Proof.
  intros HO Ht. destruct (orig_cons _ _ HO) as (ls' & Hs & Hr & Hts & _).
  pose proof (lineComment_next _ _ _ (stable_wf _ Hs) Hr Ht) as Hn.
  destruct ts as [|N r]; [exact I|].
  apply stable_app_inv in Hs as [_ Hs]. symmetry in Hts.
  destruct (tokensOf_cons _ _ _ (stable_wf _ Hs) Hts) as (ls2 & -> & Hr2 & _ & Hne).
  destruct (_basicTokens N) as [|y r2] eqn:E; [contradiction|].
  simpl in Hn, Hr2. apply coarse_newline.
  rewrite (readShape_headType _ _ _ _ Hr2). unfold headType. now rewrite Hn.
Qed.

(** Whitespace tokens at the head of the tokens of a text. *)
Lemma tokens_solid (body : list Lex) :
  stable body = true ->
  match body with [] => Logic.True | y :: _ => isWhitespaceLex y = false end ->
  startsWs (tokensOf body) = false.
Proof.
  intros Hs Hb. destruct (tokensOf body) as [|B ts] eqn:E; [reflexivity|].
  destruct (tokensOf_cons _ _ _ (stable_wf _ Hs) E) as (ls' & -> & Hr & _ & Hne).
  destruct (_basicTokens B) as [|y r] eqn:Ey; [contradiction|].
  simpl in Hb, Hr. pose proof (readShape_headType _ _ _ _ Hr) as Hh.
  simpl. unfold isWs. destruct (TokenType.eqb (getType B) TokenType.Whitespace) eqn:Ew;
    [|reflexivity].
  apply tokenType_eqb_eq in Ew. rewrite Ew in Hh. simpl in Hh. symmetry in Hh.
  apply headType_ws in Hh. congruence.
Qed.

Lemma tokens_dropSpaces (cont : list Lex) :
  stable cont = true ->
  match dropSpaces cont with [] => Logic.True | y :: _ => isWhitespaceLex y = false end ->
  dropWs (tokensOf cont) = tokensOf (dropSpaces cont).
Proof.
  intros Hs Hb. destruct (dropSpaces_split cont) as [j Hj].
  assert (Hsb : stable (dropSpaces cont) = true).
  { rewrite Hj in Hs. exact (proj2 (stable_app_inv _ _ Hs)). }
  pose proof (tokens_solid _ Hsb Hb) as Hd.
  destruct j as [|j].
  - simpl in Hj. rewrite <- Hj in *. now apply dropWs_solid.
  - rewrite Hj at 1. rewrite tokensOf_spaces by assumption.
    simpl. now apply dropWs_solid.
Qed.

(** The type of the first token, up to [coarse]. *)
Definition headCoarse (ts : list Token) : option TokenType.t :=
  match ts with
  | B :: _ => Some (coarse (getType B))
  | [] => None
  end.

Lemma headCoarse_tokens (body : list Lex) (rest : list Token) :
  stable body = true -> Orig rest -> hd_error body = firstLex rest ->
  headCoarse (tokensOf body) = headCoarse rest.
Proof.
  intros Hs HO Hh. destruct rest as [|B r].
  - destruct body; [reflexivity | discriminate].
  - destruct (orig_first _ _ HO) as (l & r' & El & Hc).
    simpl in Hh. rewrite El in Hh. destruct body as [|y b]; [discriminate|].
    injection Hh as ->. destruct (tokensOf (l :: b)) as [|B2 ts2] eqn:E.
    + apply tokensOf_empty in E; [discriminate | now apply stable_wf].
    + destruct (tokensOf_cons _ _ _ (stable_wf _ Hs) E) as (ls' & _ & Hr & _).
      simpl. f_equal. rewrite (readShape_headType _ _ _ _ Hr). exact Hc.
Qed.

Lemma colonNext_coarse (ts : list Token) :
  colonNext ts = match headCoarse ts with
                 | Some ty => TokenType.eqb ty TokenType.Colon
                 | None => false
                 end.
Proof. destruct ts; [reflexivity|]. simpl. now rewrite colon_coarse. Qed.

Lemma valueNext_coarse (ts : list Token) :
  valueNext ts = match headCoarse ts with
                 | Some ty => valueClass ty
                 | None => VNone
                 end.
Proof. destruct ts; [reflexivity|]. simpl. now rewrite valueClass_coarse. Qed.

Lemma loop_skip_spaces (strict object : bool) (k : Kind) (body : list Lex)
      (out : list Lex) (c : bool) (rest : list Token) (j : nat) :
  stable body = true ->
  match body with [] => Logic.True | y :: _ => isWhitespaceLex y = false end ->
  FLoop strict object k (tokensOf body) out c rest ->
  FLoop strict object k (tokensOf (repeat spaceLex j ++ body)) out c rest.
Proof.
  intros Hs Hb HF. destruct j as [|j]; [exact HF|].
  rewrite tokensOf_spaces by assumption.
  apply FLSkip; [destruct object; reflexivity | exact HF].
Qed.

(** *** The pass over the formatted text *)

Definition named (ts : list Token) : Prop :=
  match ts with
  | N :: _ => getType N = TokenType.QuotedString
  | [] => Logic.False
  end.

Definition opens (object : bool) (ts : list Token) : Prop :=
  match ts with
  | A :: _ => getType A = leftOf object
  | [] => Logic.False
  end.

Definition solidHead (body : list Lex) : Prop :=
  match body with
  | [] => Logic.True
  | y :: _ => isWhitespaceLex y = false
  end.

(** The loop reads what it wrote, whatever spaces come first, and writes the
    same again. *)
Definition AgainLoop (object : bool) (k : Kind) (ts : list Token) (out : list Lex)
           (c : bool) (rest : list Token) : Prop :=
  Orig ts ->
  forall cont, stable cont = true -> (c = false -> cont = []) ->
    stable (dropSpaces (out ++ cont)) = true
    /\ solidHead (dropSpaces (out ++ cont))
    /\ forall j,
         FLoop false object k (tokensOf (repeat spaceLex j ++ dropSpaces (out ++ cont)))
           out c (tokensOf cont).

Definition AgainBracket (object : bool) (ts : list Token) (o : list Lex)
           (c : bool) (rest : list Token) : Prop :=
  Orig ts -> opens object ts ->
  forall cont, stable cont = true -> (c = false -> cont = []) ->
    stable (o ++ cont) = true
    /\ solidHead (o ++ cont)
    /\ exists A ts', tokensOf (o ++ cont) = A :: ts' /\ getType A = leftOf object
                     /\ FBracket false object (A :: ts') o c (tokensOf cont).

Definition AgainProp (ts : list Token) (po : list Lex) (cl : bool) (rest : list Token) : Prop :=
  Orig ts -> named ts ->
  forall cont, stable cont = true -> quietHead cont = true ->
    (rest = [] -> cont = []) ->
    (startsWs rest = false -> hd_error (dropSpaces cont) = firstLex rest) ->
    (cl = true -> hd_error cont = firstLex rest) ->
    stable (po ++ cont) = true
    /\ solidHead (po ++ cont)
    /\ exists N ts' j,
         tokensOf (po ++ cont) = N :: ts' /\ getType N = TokenType.QuotedString
         /\ FProp false (N :: ts') po cl (tokensOf (repeat spaceLex j ++ dropSpaces cont)).

Lemma againLoop_use (object : bool) (k : Kind) (ts : list Token) (out : list Lex)
      (c : bool) (rest : list Token) (cont : list Lex) :
  AgainLoop object k ts out c rest -> Orig ts -> stable cont = true ->
  (c = false -> cont = []) ->
  stable (out ++ cont) = true
  /\ FLoop false object k (tokensOf (out ++ cont)) out c (tokensOf cont).
Proof.
  intros IH HO Hs Hc. destruct (IH HO cont Hs Hc) as (Hsb & _ & HF).
  destruct (dropSpaces_split (out ++ cont)) as [j Hj]. split.
  - rewrite Hj. now apply stable_spaces.
  - specialize (HF j). now rewrite <- Hj in HF.
Qed.

(** What follows a token the loop keeps is acceptable after it. *)
Lemma after_loop (strict object : bool) (A : Token) (ts : list Token) (out : list Lex)
      (c : bool) (rest : list Token) (cont : list Lex) :
  FLoop strict object KOther ts out c rest -> Orig (A :: ts) -> isWs A = false ->
  (c = false -> cont = []) ->
  After A ts (out ++ cont).
Proof.
  intros HF HO Hw Hc. pose proof (orig_tail _ _ HO) as HO'.
  destruct ts as [|N r].
  - left. now rewrite (nothing_after _ _ _ _ _ _ _ HF Hc).
  - destruct (TokenType.eqb (getType A) TokenType.LineComment) eqn:El.
    + left. apply tokenType_eqb_eq in El.
      pose proof (orig_lineComment _ _ HO El) as Hn. simpl in Hn.
      apply (verbatim_after _ _ _ _ _ _ _ _ _ HF HO').
      rewrite Hn. destruct object; exact I.
    + right. left. split; [discriminate|]. split.
      * unfold robust. unfold isWs in Hw. now rewrite El, Hw.
      * apply (quiet_after _ _ _ _ _ _ _ _ HF HO'); [discriminate | exact Hc].
Qed.

(** A token the pass keeps, in the formatted text: past the spaces written
    before it, it is read as it was. *)
Lemma emit_token (A : Token) (ts : list Token) (more : list Lex) (i : nat) :
  Orig (A :: ts) -> isWs A = false -> After A ts more -> stable more = true ->
  dropSpaces (repeat spaceLex i ++ _basicTokens A ++ more) = _basicTokens A ++ more
  /\ stable (_basicTokens A ++ more) = true
  /\ solidHead (_basicTokens A ++ more)
  /\ tokensOf (_basicTokens A ++ more) = A :: tokensOf more.
Proof.
  intros HO Hw HA Hs.
  destruct (orig_first_solid _ _ HO Hw) as (l & r & El & _ & Hl & Hsp).
  destruct (token_again _ _ _ HO HA Hs) as [Hst Ht].
  split; [|split; [exact Hst | split; [|exact Ht]]].
  - rewrite dropSpaces_repeat, El. simpl. now rewrite Hsp.
  - rewrite El. exact Hl.
Qed.

Lemma prefix_spaces (k : Kind) : exists i, prefixFor k = repeat spaceLex i.
Proof. destruct k; [exists 2 | exists 0 | exists 1]; reflexivity. Qed.

Lemma indent_spaces (k : Kind) : exists i, indentFor k = repeat spaceLex i.
Proof. destruct k; [exists 2 | exists 0 | exists 0]; reflexivity. Qed.

Lemma again_nil (object : bool) (k : Kind) : AgainLoop object k [] [] false [].
Proof.
  intros _ cont Hs Hc. rewrite (Hc eq_refl). simpl.
  split; [reflexivity|]. split; [exact I|]. intros j.
  apply loop_skip_spaces; [reflexivity | exact I | constructor].
Qed.

Lemma selfDelimited_action (object : bool) (ty : TokenType.t) :
  match actionOf object ty with
  | AClose | AVerbatim | ANested _ => selfDelimited ty = true
  | _ => Logic.True
  end.
Proof. destruct object, ty; simpl; auto. Qed.

Lemma again_close (object : bool) (k : Kind) (A : Token) (ts : list Token) :
  actionOf object (getType A) = AClose ->
  AgainLoop object k (A :: ts) (_basicTokens A) true ts.
Proof.
  intros Ha HO cont Hs _.
  assert (Hw : isWs A = false).
  { destruct (isWs A) eqn:E; [|reflexivity].
    apply (proj2 (action_skip object A)) in E. congruence. }
  assert (HA : After A ts cont).
  { right. right. pose proof (selfDelimited_action object (getType A)) as H.
    now rewrite Ha in H. }
  destruct (emit_token A ts cont 0 HO Hw HA Hs) as (Hd & Hst & Hsh & Ht).
  simpl in Hd. rewrite Hd. split; [exact Hst|]. split; [exact Hsh|]. intros j.
  apply loop_skip_spaces; [exact Hst | exact Hsh|].
  rewrite Ht. now apply FLClose.
Qed.

Lemma again_skip (object : bool) (k : Kind) (A : Token) (ts : list Token)
      (out : list Lex) (c : bool) (rest : list Token) :
  AgainLoop object k ts out c rest -> AgainLoop object k (A :: ts) out c rest.
Proof. intros IH HO. exact (IH (orig_tail _ _ HO)). Qed.

Lemma again_verbatim (object : bool) (k : Kind) (A : Token) (ts : list Token)
      (out : list Lex) (c : bool) (rest : list Token) :
  actionOf object (getType A) = AVerbatim ->
  AgainLoop object (kindAfter object (getType A)) ts out c rest ->
  AgainLoop object k (A :: ts) (_basicTokens A ++ out) c rest.
Proof.
  intros Ha IH HO cont Hs Hc.
  destruct (againLoop_use _ _ _ _ _ _ _ IH (orig_tail _ _ HO) Hs Hc) as [Hsm HF].
  assert (Hw : isWs A = false).
  { destruct (isWs A) eqn:E; [|reflexivity].
    apply (proj2 (action_skip object A)) in E. congruence. }
  assert (HA : After A ts (out ++ cont)).
  { right. right. pose proof (selfDelimited_action object (getType A)) as H.
    now rewrite Ha in H. }
  destruct (emit_token A ts (out ++ cont) 0 HO Hw HA Hsm) as (Hd & Hst & Hsh & Ht).
  simpl in Hd. rewrite <- app_assoc, Hd.
  split; [exact Hst|]. split; [exact Hsh|]. intros j.
  apply loop_skip_spaces; [exact Hst | exact Hsh|].
  rewrite Ht. now apply FLVerbatim.
Qed.

Lemma again_default (object : bool) (k : Kind) (A : Token) (ts : list Token)
      (out : list Lex) (c : bool) (rest : list Token) :
  actionOf object (getType A) = ADefault ->
  FLoop true object KOther ts out c rest ->
  AgainLoop object KOther ts out c rest ->
  AgainLoop object k (A :: ts) (prefixFor k ++ _basicTokens A ++ out) c rest.
Proof.
  intros Ha HD IH HO cont Hs Hc.
  destruct (againLoop_use _ _ _ _ _ _ _ IH (orig_tail _ _ HO) Hs Hc) as [Hsm HF].
  assert (Hw : isWs A = false).
  { destruct (isWs A) eqn:E; [|reflexivity].
    apply (proj2 (action_skip object A)) in E. congruence. }
  pose proof (after_loop _ _ _ _ _ _ _ _ HD HO Hw Hc) as HA.
  destruct (prefix_spaces k) as [i Hi].
  destruct (emit_token A ts (out ++ cont) i HO Hw HA Hsm) as (Hd & Hst & Hsh & Ht).
  rewrite <- !app_assoc, Hi, Hd.
  split; [exact Hst|]. split; [exact Hsh|]. intros j.
  apply loop_skip_spaces; [exact Hst | exact Hsh|].
  rewrite Ht, <- Hi. now apply FLDefault.
Qed.

Lemma again_bracket (object : bool) (A : Token) (ts : list Token)
      (out : list Lex) (c : bool) (rest : list Token) :
  AgainLoop object KLeft ts out c rest ->
  AgainBracket object (A :: ts) (_basicTokens A ++ out) c rest.
Proof.
  intros IH HO Hop cont Hs Hc. simpl in Hop.
  destruct (againLoop_use _ _ _ _ _ _ _ IH (orig_tail _ _ HO) Hs Hc) as [Hsm HF].
  assert (Hw : isWs A = false).
  { unfold isWs. rewrite Hop. destruct object; reflexivity. }
  assert (HA : After A ts (out ++ cont)).
  { right. right. rewrite Hop. destruct object; reflexivity. }
  destruct (emit_token A ts (out ++ cont) 0 HO Hw HA Hsm) as (_ & Hst & Hsh & Ht).
  rewrite <- app_assoc. split; [exact Hst|]. split; [exact Hsh|].
  exists A, (tokensOf (out ++ cont)). split; [exact Ht|]. split; [exact Hop|].
  now apply FBr.
Qed.

Lemma solid_noSpace (y : Lex) : isWhitespaceLex y = false -> isSpace y = false.
Proof.
  unfold isWhitespaceLex, isSpace, isType. intros H.
  destruct (LexType.eqb (lexType y) LexType.Space); [discriminate H | reflexivity].
Qed.

Lemma dropSpaces_solidHead (body : list Lex) : solidHead body -> dropSpaces body = body.
Proof.
  intros H. apply dropSpaces_id. destruct body as [|y r]; [exact I|].
  now apply solid_noSpace.
Qed.

Lemma stable_dropSpaces (cont : list Lex) :
  stable cont = true -> stable (dropSpaces cont) = true.
Proof.
  intros H. destruct (dropSpaces_split cont) as [j Hj]. rewrite Hj in H.
  now apply stable_app_inv in H.
Qed.

Lemma firstLex_solid (rest : list Token) (body : list Lex) :
  Orig rest -> startsWs rest = false -> hd_error body = firstLex rest -> solidHead body.
Proof.
  intros HO Hw Hh. destruct body as [|y r]; [exact I|]. simpl.
  destruct rest as [|B rs]; [discriminate Hh|].
  destruct (orig_first_solid _ _ HO Hw) as (l & r' & El & _ & Hl & _).
  simpl in Hh. rewrite El in Hh. simpl in Hh. now injection Hh as ->.
Qed.

Lemma action_property (object : bool) (ty : TokenType.t) :
  actionOf object ty = AProperty -> object = true /\ ty = TokenType.QuotedString.
Proof. destruct object, ty; simpl; intros H; try discriminate H; auto. Qed.

Lemma action_nested (object inner : bool) (ty : TokenType.t) :
  actionOf object ty = ANested inner -> ty = leftOf inner.
Proof.
  destruct object, ty; simpl; intros H; try discriminate H;
    injection H as <-; reflexivity.
Qed.

Lemma valueClass_nested (inner : bool) (ty : TokenType.t) :
  valueClass ty = VNested inner -> ty = leftOf inner.
Proof. destruct ty; simpl; intros H; try discriminate H; injection H as <-; reflexivity. Qed.

Lemma again_nested (object : bool) (k : Kind) (A : Token) (ts : list Token) (inner : bool)
      (o : list Lex) (ic : bool) (ts1 : list Token)
      (out : list Lex) (c : bool) (rest : list Token) :
  actionOf object (getType A) = ANested inner ->
  FBracket true inner (A :: ts) o ic ts1 ->
  AgainBracket inner (A :: ts) o ic ts1 ->
  FLoop true object KOther ts1 out c rest ->
  AgainLoop object KOther ts1 out c rest ->
  AgainLoop object k (A :: ts) (indentFor k ++ o ++ out) c rest.
Proof.
  intros Ha HB IHB HD IH HO cont Hs Hc.
  pose proof (proj2 (proj2 (F_orig true)) _ _ _ _ _ HB HO) as HO1.
  destruct (againLoop_use _ _ _ _ _ _ _ IH HO1 Hs Hc) as [Hsm HF].
  pose proof (action_nested _ _ _ Ha) as Hty.
  assert (Hic : ic = false -> out ++ cont = []).
  { intros E. pose proof (proj2 (proj2 (F_open true)) _ _ _ _ _ HB E) as E1. subst ts1.
    exact (nothing_after _ _ _ _ _ _ _ HD Hc). }
  destruct (IHB HO Hty (out ++ cont) Hsm Hic) as (Hst & Hsh & A' & ts' & Ht & Hty' & HB').
  destruct (indent_spaces k) as [i Hi].
  rewrite <- !app_assoc, Hi, dropSpaces_repeat, (dropSpaces_solidHead _ Hsh).
  split; [exact Hst|]. split; [exact Hsh|]. intros j.
  apply loop_skip_spaces; [exact Hst | exact Hsh|].
  rewrite Ht, <- Hi. apply (FLNested false object k A' ts' inner o ic (tokensOf (out ++ cont))).
  - now rewrite Hty', <- Hty.
  - exact HB'.
  - exact HF.
Qed.

Lemma again_property (object : bool) (k : Kind) (A : Token) (ts : list Token)
      (po : list Lex) (cl : bool) (ts1 : list Token)
      (out : list Lex) (c : bool) (rest : list Token) :
  actionOf object (getType A) = AProperty ->
  FProp true (A :: ts) po cl ts1 ->
  AgainProp (A :: ts) po cl ts1 ->
  (cl = true -> defaultNext object ts1 = false) ->
  FLoop true object KOther ts1 out c rest ->
  AgainLoop object KOther ts1 out c rest ->
  AgainLoop object k (A :: ts) (indentFor k ++ po ++ out) c rest.
Proof.
  intros Ha HP IHP Hg HD IH HO cont Hs Hc.
  pose proof (proj1 (F_orig true) _ _ _ _ HP HO) as HO1.
  destruct (againLoop_use _ _ _ _ _ _ _ IH HO1 Hs Hc) as [Hsm _].
  destruct (IH HO1 cont Hs Hc) as (_ & _ & HF).
  destruct (action_property _ _ Ha) as [-> Hty].
  assert (Hq : quietHead (out ++ cont) = true).
  { apply (quiet_after _ _ _ _ _ _ _ _ HD HO1); [discriminate | exact Hc]. }
  assert (Hn : ts1 = [] -> out ++ cont = []).
  { intros E. subst ts1. exact (nothing_after _ _ _ _ _ _ _ HD Hc). }
  assert (Hd : startsWs ts1 = false -> hd_error (dropSpaces (out ++ cont)) = firstLex ts1).
  { intros E. exact (solid_after _ _ _ _ _ _ _ _ HD HO1 Hc E). }
  assert (Hl : cl = true -> hd_error (out ++ cont) = firstLex ts1).
  { intros E. specialize (Hg E). subst cl.
    destruct (FProp_colonLast _ _ _ _ HP) as [Hw Hv].
    destruct ts1 as [|B r].
    - now rewrite (Hn eq_refl).
    - apply (verbatim_after _ _ _ _ _ _ _ _ _ HD HO1).
      simpl in Hg, Hw, Hv. unfold isWs in Hw.
      destruct (getType B); simpl in *; try discriminate; exact I. }
  destruct (IHP HO Hty (out ++ cont) Hsm Hq Hn Hd Hl)
    as (Hst & Hsh & N & ts' & j0 & Ht & Hty' & HP').
  destruct (indent_spaces k) as [i Hi].
  rewrite <- !app_assoc, Hi, dropSpaces_repeat, (dropSpaces_solidHead _ Hsh).
  split; [exact Hst|]. split; [exact Hsh|]. intros j.
  apply loop_skip_spaces; [exact Hst | exact Hsh|].
  rewrite Ht, <- Hi.
  apply (FLProperty false true k N ts' po cl
           (tokensOf (repeat spaceLex j0 ++ dropSpaces (out ++ cont)))).
  - now rewrite Hty'.
  - exact HP'.
  - discriminate.
  - apply HF.
Qed.

(** What the loop wrote after a property, as the tokens of the second pass. *)
Lemma after_property (rest : list Token) (cont : list Lex) :
  Orig rest -> stable cont = true -> startsWs rest = false ->
  hd_error (dropSpaces cont) = firstLex rest ->
  dropWs (tokensOf cont) = tokensOf (dropSpaces cont)
  /\ headCoarse (tokensOf (dropSpaces cont)) = headCoarse rest.
Proof.
  intros HO Hs Hw Hh. pose proof (firstLex_solid _ _ HO Hw Hh) as Hsh. split.
  - now apply tokens_dropSpaces.
  - apply headCoarse_tokens; [now apply stable_dropSpaces | exact HO | exact Hh].
Qed.

Lemma after_name (N : Token) (ts0 : list Token) (more : list Lex) :
  getType N = TokenType.QuotedString -> (ts0 = [] -> more = []) ->
  quietHead more = true -> After N ts0 more.
Proof.
  intros Hty Hn Hq. destruct ts0 as [|B r].
  - left. now rewrite (Hn eq_refl).
  - right. left. split; [discriminate|]. split; [now rewrite Hty | exact Hq].
Qed.

Lemma name_solid (N : Token) : getType N = TokenType.QuotedString -> isWs N = false.
Proof. unfold isWs. now intros ->. Qed.

Lemma colon_solid (C : Token) : getType C = TokenType.Colon -> isWs C = false.
Proof. unfold isWs. now intros ->. Qed.

Lemma colon_quiet (C : Token) (ts : list Token) (more : list Lex) :
  Orig (C :: ts) -> getType C = TokenType.Colon ->
  quietHead (_basicTokens C ++ more) = true.
Proof.
  intros HO Hty. destruct (orig_first _ _ HO) as (l & r & El & Hl).
  rewrite El. simpl. apply headType_plain. now rewrite Hl, Hty.
Qed.

Lemma again_name (N : Token) (ts0 : list Token) :
  colonNext (dropWs ts0) = false ->
  AgainProp (N :: ts0) (_basicTokens N) false (dropWs ts0).
Proof.
  intros Hc HO Hty cont Hs Hq Hn Hd _. simpl in Hty.
  pose proof (orig_dropWs _ (orig_tail _ _ HO)) as HO1.
  assert (HA : After N ts0 cont).
  { apply after_name; [exact Hty | | exact Hq].
    intros ->. now apply Hn. }
  destruct (emit_token N ts0 cont 0 HO (name_solid _ Hty) HA Hs) as (_ & Hst & Hsh & Ht).
  destruct (after_property _ _ HO1 Hs (dropWs_head ts0) (Hd (dropWs_head ts0))) as [Hdw Hhc].
  split; [exact Hst|]. split; [exact Hsh|].
  exists N, (tokensOf cont), 0. split; [exact Ht|]. split; [exact Hty|].
  simpl. rewrite <- Hdw. apply FPName.
  rewrite Hdw, colonNext_coarse, Hhc, <- colonNext_coarse. exact Hc.
Qed.

Lemma again_colon (N : Token) (ts0 : list Token) (C : Token) (ts1 : list Token) :
  dropWs ts0 = C :: ts1 -> getType C = TokenType.Colon ->
  valueNext (dropWs ts1) = VNone ->
  AgainProp (N :: ts0)
    (_basicTokens N ++ _basicTokens C ++ (if startsWs ts1 then [spaceLex] else []))
    (negb (startsWs ts1)) (dropWs ts1).
Proof.
  intros E0 HC Hv HO Hty cont Hs Hq Hn Hd Hl. simpl in Hty.
  pose proof (orig_dropWs _ (orig_tail _ _ HO)) as HOC. rewrite E0 in HOC.
  pose proof (orig_dropWs _ (orig_tail _ _ HOC)) as HO1.
  destruct (after_property _ _ HO1 Hs (dropWs_head ts1) (Hd (dropWs_head ts1))) as [Hdw Hhc].
  pose proof (firstLex_solid _ _ HO1 (dropWs_head ts1) (Hd (dropWs_head ts1))) as Hsb.
  set (sp := if startsWs ts1 then [spaceLex] else []).
  assert (Hsp : stable (sp ++ cont) = true).
  { unfold sp. destruct (startsWs ts1); [|exact Hs].
    exact (stable_spaces 1 cont Hs). }
  assert (Hws : startsWs (tokensOf (sp ++ cont)) = startsWs ts1
                /\ dropWs (tokensOf (sp ++ cont)) = tokensOf (dropSpaces cont)).
  { unfold sp. destruct (startsWs ts1) eqn:Ew.
    - destruct (dropSpaces_split cont) as [j0 Hj]. rewrite Hj at 1 2.
      change ([spaceLex] ++ repeat spaceLex j0 ++ dropSpaces cont)
        with (repeat spaceLex (S j0) ++ dropSpaces cont).
      rewrite (tokensOf_spaces j0 _ (stable_dropSpaces _ Hs) Hsb).
      split; [reflexivity|]. cbn [dropWs isWs getType].
      change (TokenType.eqb TokenType.Whitespace TokenType.Whitespace) with true.
      cbv iota. apply dropWs_solid.
      apply tokens_solid; [now apply stable_dropSpaces | exact Hsb].
    - simpl. split; [|exact Hdw].
      apply tokens_solid; [exact Hs|].
      apply (firstLex_solid (dropWs ts1)); [exact HO1 | apply dropWs_head|].
      now apply Hl. }
  destruct Hws as [Hws Hdw'].
  assert (HAC : After C ts1 (sp ++ cont)).
  { right. right. now rewrite HC. }
  destruct (emit_token C ts1 (sp ++ cont) 0 HOC (colon_solid _ HC) HAC Hsp)
    as (_ & HstC & _ & HtC).
  assert (HA : After N ts0 (_basicTokens C ++ sp ++ cont)).
  { apply after_name; [exact Hty | | apply (colon_quiet C ts1 _ HOC HC)].
    intros ->. discriminate E0. }
  destruct (emit_token N ts0 _ 0 HO (name_solid _ Hty) HA HstC) as (_ & Hst & Hsh & Ht).
  rewrite <- !app_assoc.
  split; [exact Hst|]. split; [exact Hsh|].
  exists N, (tokensOf (_basicTokens C ++ sp ++ cont)), 0.
  split; [exact Ht|]. split; [exact Hty|].
  rewrite HtC.
  assert (G : FProp false (N :: C :: tokensOf (sp ++ cont))
                (_basicTokens N ++ _basicTokens C
                 ++ (if startsWs (tokensOf (sp ++ cont)) then [spaceLex] else []))
                (negb (startsWs (tokensOf (sp ++ cont))))
                (dropWs (tokensOf (sp ++ cont)))).
  { apply (FPColon false N (C :: tokensOf (sp ++ cont)) C (tokensOf (sp ++ cont))).
    - simpl. now rewrite (colon_solid _ HC).
    - exact HC.
    - rewrite Hdw', valueNext_coarse, Hhc, <- valueNext_coarse. exact Hv. }
  rewrite Hws, Hdw' in G. exact G.
Qed.

(** The space [format] writes after the colon is read as one whitespace
    token, and [skipWhitespace] passes it. *)
Lemma value_space (V : Token) (body : list Lex) (ts : list Token) :
  stable body = true -> solidHead body -> tokensOf body = V :: ts -> isWs V = false ->
  stable (spaceLex :: body) = true
  /\ exists W, tokensOf (spaceLex :: body) = W :: V :: ts /\ dropWs (W :: V :: ts) = V :: ts.
Proof.
  intros Hs Hsh Ht Hw. split; [exact (stable_spaces 1 body Hs)|].
  exists (Tokens.Whitespace (repeat spaceLex 1) 0). split.
  - change (spaceLex :: body) with (repeat spaceLex 1 ++ body).
    rewrite (tokensOf_spaces 0 body Hs Hsh). now rewrite Ht.
  - cbn [dropWs isWs getType].
    change (TokenType.eqb TokenType.Whitespace TokenType.Whitespace) with true.
    cbv iota. fold (isWs V). now rewrite Hw.
Qed.

Lemma literal_robust (ty : TokenType.t) :
  valueClass ty = VLiteral ->
  robust ty = true /\ TokenType.eqb ty TokenType.Whitespace = false.
Proof. destruct ty; simpl; intros H; try discriminate H; auto. Qed.

Lemma again_literal (N : Token) (ts0 : list Token) (C : Token) (ts1 : list Token)
      (V : Token) (ts2 : list Token) :
  dropWs ts0 = C :: ts1 -> getType C = TokenType.Colon ->
  dropWs ts1 = V :: ts2 -> valueClass (getType V) = VLiteral ->
  AgainProp (N :: ts0)
    (_basicTokens N ++ _basicTokens C ++ spaceLex :: _basicTokens V) false ts2.
Proof.
  intros E0 HC E1 HV HO Hty cont Hs Hq Hn _ _. simpl in Hty.
  pose proof (orig_dropWs _ (orig_tail _ _ HO)) as HOC. rewrite E0 in HOC.
  pose proof (orig_dropWs _ (orig_tail _ _ HOC)) as HOV. rewrite E1 in HOV.
  destruct (literal_robust _ HV) as [Hr Hw].
  assert (HAV : After V ts2 cont).
  { destruct ts2 as [|B r].
    - left. now rewrite (Hn eq_refl).
    - right. left. split; [discriminate|]. split; [exact Hr | exact Hq]. }
  destruct (emit_token V ts2 cont 0 HOV Hw HAV Hs) as (_ & HstV & HshV & HtV).
  destruct (value_space V _ _ HstV HshV HtV Hw) as (HstS & W & HtS & HdS).
  assert (HAC : After C ts1 (spaceLex :: _basicTokens V ++ cont)).
  { right. right. now rewrite HC. }
  destruct (emit_token C ts1 _ 0 HOC (colon_solid _ HC) HAC HstS) as (_ & HstC & _ & HtC).
  assert (HA : After N ts0 (_basicTokens C ++ spaceLex :: _basicTokens V ++ cont)).
  { apply after_name; [exact Hty | | apply (colon_quiet C ts1 _ HOC HC)].
    intros ->. discriminate E0. }
  destruct (emit_token N ts0 _ 0 HO (name_solid _ Hty) HA HstC) as (_ & Hst & Hsh & Ht).
  replace ((_basicTokens N ++ _basicTokens C ++ spaceLex :: _basicTokens V) ++ cont)
    with (_basicTokens N ++ _basicTokens C ++ spaceLex :: _basicTokens V ++ cont)
    by (now rewrite <- !app_assoc).
  split; [exact Hst|]. split; [exact Hsh|].
  destruct (dropSpaces_split cont) as [j0 Hj].
  exists N, (tokensOf (_basicTokens C ++ spaceLex :: _basicTokens V ++ cont)), j0.
  split; [exact Ht|]. split; [exact Hty|].
  rewrite <- Hj, HtC, HtS.
  apply (FPLiteral false N (C :: W :: V :: tokensOf cont) C (W :: V :: tokensOf cont)
           V (tokensOf cont)).
  - simpl. now rewrite (colon_solid _ HC).
  - exact HC.
  - exact HdS.
  - exact HV.
Qed.

Lemma again_value (N : Token) (ts0 : list Token) (C : Token) (ts1 : list Token)
      (V : Token) (ts2 : list Token) (inner : bool)
      (out : list Lex) (closed : bool) (rest : list Token) :
  dropWs ts0 = C :: ts1 -> getType C = TokenType.Colon ->
  dropWs ts1 = V :: ts2 -> valueClass (getType V) = VNested inner ->
  FBracket true inner (V :: ts2) out closed rest ->
  AgainBracket inner (V :: ts2) out closed rest ->
  AgainProp (N :: ts0) (_basicTokens N ++ _basicTokens C ++ spaceLex :: out) false rest.
Proof.
  intros E0 HC E1 HV HB IHB HO Hty cont Hs Hq Hn _ _. simpl in Hty.
  pose proof (orig_dropWs _ (orig_tail _ _ HO)) as HOC. rewrite E0 in HOC.
  pose proof (orig_dropWs _ (orig_tail _ _ HOC)) as HOV. rewrite E1 in HOV.
  pose proof (valueClass_nested _ _ HV) as HtyV.
  assert (Hc : closed = false -> cont = []).
  { intros E. apply Hn. exact (proj2 (proj2 (F_open true)) _ _ _ _ _ HB E). }
  destruct (IHB HOV HtyV cont Hs Hc) as (HstV & HshV & A & ts' & HtV & HtyA & HB').
  assert (Hw : isWs A = false).
  { unfold isWs. rewrite HtyA. destruct inner; reflexivity. }
  destruct (value_space A _ _ HstV HshV HtV Hw) as (HstS & W & HtS & HdS).
  assert (HAC : After C ts1 (spaceLex :: out ++ cont)).
  { right. right. now rewrite HC. }
  destruct (emit_token C ts1 _ 0 HOC (colon_solid _ HC) HAC HstS) as (_ & HstC & _ & HtC).
  assert (HA : After N ts0 (_basicTokens C ++ spaceLex :: out ++ cont)).
  { apply after_name; [exact Hty | | apply (colon_quiet C ts1 _ HOC HC)].
    intros ->. discriminate E0. }
  destruct (emit_token N ts0 _ 0 HO (name_solid _ Hty) HA HstC) as (_ & Hst & Hsh & Ht).
  replace ((_basicTokens N ++ _basicTokens C ++ spaceLex :: out) ++ cont)
    with (_basicTokens N ++ _basicTokens C ++ spaceLex :: out ++ cont)
    by (now rewrite <- !app_assoc).
  split; [exact Hst|]. split; [exact Hsh|].
  destruct (dropSpaces_split cont) as [j0 Hj].
  exists N, (tokensOf (_basicTokens C ++ spaceLex :: out ++ cont)), j0.
  split; [exact Ht|]. split; [exact Hty|].
  rewrite <- Hj, HtC, HtS.
  apply (FPNested false N (C :: W :: A :: ts') C (W :: A :: ts') A ts' inner out closed).
  - simpl. now rewrite (colon_solid _ HC).
  - exact HC.
  - exact HdS.
  - now rewrite HtyA; destruct inner.
  - exact HB'.
Qed.

(** The formatted text of a pass without colon gaps is stable, and the pass
    over its tokens writes it again. *)
Lemma F_again :
  (forall ts po cl rest, FProp true ts po cl rest -> AgainProp ts po cl rest)
  /\ (forall object k ts out c rest,
        FLoop true object k ts out c rest -> AgainLoop object k ts out c rest)
  /\ (forall object ts o c rest,
        FBracket true object ts o c rest -> AgainBracket object ts o c rest).
Proof.
  apply F_mutind; intros.
  - now apply again_name.
  - now apply again_colon.
  - eapply again_literal; eauto.
  - eapply again_value; eauto.
  - apply again_nil.
  - now apply again_close.
  - now apply again_skip.
  - now apply again_verbatim.
  - now apply again_default.
  - eapply again_property; eauto.
  - eapply again_nested; eauto.
  - now apply again_bracket.
Qed.

Lemma FDoc_head (strict : bool) (ts : list Token) (out : list Lex) :
  FDoc strict ts out -> Orig ts -> hd_error out = firstLex ts.
Proof.
  intros H HO. destruct H as [|A ts out Hr H|A ts object o c rest out Hr HB H].
  - reflexivity.
  - destruct (orig_first _ _ HO) as (l & r & El & _). simpl. now rewrite El.
  - destruct (FBracket_head _ _ _ _ _ _ _ HB) as [x ->].
    destruct (orig_first _ _ HO) as (l & r & El & _). simpl. now rewrite El.
Qed.

Lemma root_opens (object : bool) (ty : TokenType.t) :
  rootClass ty = Some object <-> ty = leftOf object.
Proof.
  split.
  - destruct ty; simpl; intros H; try discriminate H; injection H as <-; reflexivity.
  - intros ->. destruct object; reflexivity.
Qed.

(** The formatted text of a document without colon gaps is stable, and the
    pass over its tokens writes it again. *)
Lemma FDoc_again (ts : list Token) (out : list Lex) :
  FDoc true ts out -> Orig ts -> stable out = true /\ FDoc false (tokensOf out) out.
Proof.
  induction 1 as [|A ts out Hr H IH|A ts object o c rest out Hr HB H IH]; intros HO.
  - split; [reflexivity | constructor].
  - destruct (IH (orig_tail _ _ HO)) as [Hs HF].
    assert (HA : After A ts out).
    { left. exact (FDoc_head _ _ _ H (orig_tail _ _ HO)). }
    destruct (token_again _ _ _ HO HA Hs) as [Hst Ht].
    split; [exact Hst|]. rewrite Ht. now apply FDToken.
  - pose proof (proj2 (proj2 (F_orig true)) _ _ _ _ _ HB HO) as HO1.
    destruct (IH HO1) as [Hs HF].
    assert (Hc : c = false -> out = []).
    { intros E. pose proof (proj2 (proj2 (F_open true)) _ _ _ _ _ HB E) as E1.
      subst rest. now inversion H. }
    destruct (proj2 (proj2 F_again) _ _ _ _ _ HB HO (proj1 (root_opens _ _) Hr) out Hs Hc)
      as (Hst & _ & A' & ts' & Ht & Hty & HB').
    split; [exact Hst|]. rewrite Ht.
    apply (FDNested false A' ts' object o c (tokensOf out)).
    + now apply root_opens.
    + exact HB'.
    + exact HF.
Qed.

(** ** Formatting twice *)

Definition gapText : string := "{" +++ quoted "a" +++ ":x}".

(** C2, as stated, fails: in the object of [gapText] the property a ends
    with its colon and the token x follows it directly.  [format] puts a
    space before x.  In the formatted text that space is whitespace inside
    the property, [format] keeps one space for it and puts another one
    before x: the second formatted text has two spaces where the first has
    one. *)
Lemma C2_counterexample :
  exists d iss d' iss',
    parse gapText = Some (d, iss)
    /\ parse (documentFormat d) = Some (d', iss')
    /\ documentFormat d = "{" +++ quoted "a" +++ ": x}"
    /\ documentFormat d' = "{" +++ quoted "a" +++ ":  x}"
    /\ documentFormat d' <> documentFormat d.
Proof.
  do 4 eexists.
  split; [vm_compute; reflexivity|]. split; [vm_compute; reflexivity|].
  split; [vm_compute; reflexivity|]. split; [vm_compute; reflexivity|].
  vm_compute. discriminate.
Qed.

(** C2, amended. For every text [s] whose document has no colon gap (no
    property that ends with its colon and is directly followed, among the
    segments of its object, by a segment that [format] puts a space
    before), formatting is idempotent under re-parsing: the formatted text
    parses, and [format] of its document is the formatted text again. *)
Theorem C2_format_idempotent_without_colon_gap
        (s : string) (d : Document) (iss : list Issue) :
  parse s = Some (d, iss) ->
  existsb colonGap (documentSegments d) = false ->
  exists d' iss',
    parse (documentFormat d) = Some (d', iss')
    /\ documentFormat d' = documentFormat d.
Proof.
  intros Hp Hg.
  destruct (parse_link s d iss Hp true (fun _ => Hg)) as (out & HF & Ht).
  assert (HO : Orig (tokensOf (lex s))).
  { exists (lex s). split; [apply stable_lex | reflexivity]. }
  destruct (FDoc_again _ _ HF HO) as [Hs HF'].
  pose proof (lex_stable _ Hs) as Hl. rewrite Ht in Hl.
  destruct (parseLexes_spec (lex (documentFormat d)) (lex_wf _)) as (segs & iss' & Hp' & _).
  exists (mkDocument segs), iss'. split; [exact Hp'|].
  destruct (parse_link _ _ _ Hp' false) as (out' & HF2 & Ht'); [discriminate|].
  rewrite Hl in HF2.
  rewrite <- Ht', <- Ht. f_equal.
  exact (FDoc_deterministic _ _ _ HF' _ HF2).
Qed.

Definition nestedText : string :=
  "{ " +++ quoted "a" +++ " :[1,{" +++ quoted "b" +++ ":null,}] ,x" +++ lf +++ "}".

(** The witness of C2: an object with a nested array and object, a trailing
    comma, an unrecognized token and a line break; it parses with issues and
    has no colon gap. *)
Lemma C2_witness :
  exists d iss,
    parse nestedText = Some (d, iss)
    /\ existsb colonGap (documentSegments d) = false
    /\ exists d' iss',
         parse (documentFormat d) = Some (d', iss')
         /\ documentFormat d' = documentFormat d.
Proof.
  do 2 eexists.
  split; [vm_compute; reflexivity|]. split; [vm_compute; reflexivity|].
  eapply (C2_format_idempotent_without_colon_gap nestedText); vm_compute; reflexivity.
Defined.

(** * Further properties of the parser, the tokenizer and the formatter *)

(** ** Positions in the parsed document *)

(** X1. [Document.getLength()] of a parsed text is the length of the text. *)
Theorem X1_document_length_is_text_length (s : string) :
  exists d iss, parse s = Some (d, iss) /\ documentLength d = String.length s.
Proof.
  destruct (parseLexes_spec (lex s) (lex_wf s)) as (segs & iss & Hp & Hl & _ & _).
  exists (mkDocument segs), iss. split; [exact Hp|].
  rewrite combinedLength_text, lex_text in Hl.
  unfold documentLength. cbn [documentSegments].
  destruct segs as [|first r].
  - inversion Hl. reflexivity.
  - destruct (proj2 located_facts _ _ _ Hl) as [_ H].
    destruct H as [Hlast Hfirst]; [discriminate|].
    rewrite contiguous_cons, Hlast, Hfirst. lia.
Qed.

(** A segment and everything below it. *)
Fixpoint subsegments (s : Segment) : list Segment :=
  s :: match s with
       | TokenSeg _ => []
       | Property l | ObjectSegment l | ArraySegment l => flat_map subsegments l
       end.

Lemma substring_all (s : string) : substring 0 (String.length s) s = s.
Proof. induction s as [|c s IH]; simpl; [reflexivity | now rewrite IH]. Qed.

Lemma substring_length (T : string) :
  forall a n, a + n <= String.length T -> String.length (substring a n T) = n.
Proof.
  induction T as [|c T IH]; intros a n H; simpl in H.
  - assert (a = 0) by lia. assert (n = 0) by lia. subst. reflexivity.
  - destruct a as [|a].
    + destruct n as [|n]; simpl; [reflexivity|]. rewrite (IH 0 n); [reflexivity | simpl; lia].
    + simpl. apply IH. lia.
Qed.

Lemma substring_split (T : string) :
  forall a n1 n2, a + n1 + n2 <= String.length T ->
    substring a (n1 + n2) T = substring a n1 T +++ substring (a + n1) n2 T.
Proof.
  induction T as [|c T IH]; intros a n1 n2 H; simpl in H.
  - assert (a = 0) by lia. assert (n1 = 0) by lia. assert (n2 = 0) by lia. subst. reflexivity.
  - destruct a as [|a].
    + destruct n1 as [|n1]; [reflexivity|].
      cbn [Nat.add substring]. cbn [String.append]. f_equal.
      apply (IH 0 n1 n2). simpl. lia.
    + cbn [Nat.add substring]. apply IH. lia.
Qed.

Lemma append_same_length (x x' y y' : string) :
  String.length x = String.length x' -> x +++ y = x' +++ y' -> x = x' /\ y = y'.
Proof.
  revert x'. induction x as [|c x IH]; intros [|c' x'] Hl H; simpl in *; try discriminate.
  - auto.
  - injection H as -> H. injection Hl as Hl. destruct (IH _ Hl H) as [-> ->]. auto.
Qed.

(** Segments in place in a text spell the part of the text they cover, and
    so does every segment below them. *)
Lemma located_substring (T : string) :
  (forall s a b, Located s a b ->
     b <= String.length T -> toString s = substring a (b - a) T ->
     Forall (fun n => toString n = substring (startIndex n) (getLength n) T
                      /\ afterEndIndex n <= String.length T) (subsegments s))
  /\ (forall l a b, LocatedList l a b ->
        b <= String.length T -> combinedText toString l = substring a (b - a) T ->
        Forall (fun n => toString n = substring (startIndex n) (getLength n) T
                         /\ afterEndIndex n <= String.length T) (flat_map subsegments l)).
Proof.
  assert (Hnode : forall s a b, Located s a b -> b <= String.length T ->
                    toString s = substring a (b - a) T ->
                    toString s = substring (startIndex s) (getLength s) T
                    /\ afterEndIndex s <= String.length T).
  { intros s a b H Hb Ht. destruct (proj1 located_facts _ _ _ H) as (Hab & Hs & Hl).
    unfold afterEndIndex. rewrite Hs, Hl. split; [exact Ht | lia]. }
  apply Located_both.
  - intros t Hb Ht. constructor; [|constructor].
    exact (Hnode _ _ _ (LocatedToken t) Hb Ht).
  - intros l a b Hne HL IH Hb Ht. constructor; [|exact (IH Hb Ht)].
    exact (Hnode _ _ _ (LocatedProperty l a b Hne HL) Hb Ht).
  - intros l a b Hne HL IH Hb Ht. constructor; [|exact (IH Hb Ht)].
    exact (Hnode _ _ _ (LocatedObject l a b Hne HL) Hb Ht).
  - intros l a b Hne HL IH Hb Ht. constructor; [|exact (IH Hb Ht)].
    exact (Hnode _ _ _ (LocatedArray l a b Hne HL) Hb Ht).
  - intros a _ _. constructor.
  - intros s l a m b Hs IHs Hl IHl Hb Ht.
    pose proof (proj1 located_facts _ _ _ Hs) as (Ham & _ & _).
    pose proof (locatedList_le _ _ _ Hl) as Hmb.
    cbn [combinedText] in Ht.
    replace (b - a) with ((m - a) + (b - m)) in Ht by lia.
    rewrite substring_split in Ht by lia.
    apply append_same_length in Ht as [Ht1 Ht2].
    + cbn [flat_map]. apply Forall_app. split.
      * apply IHs; [lia | exact Ht1].
      * apply IHl; [exact Hb|]. rewrite Ht2. f_equal. lia.
    + rewrite substring_length by lia.
      symmetry. exact (proj1 located_length_text _ _ _ Hs).
Qed.

(** X2. For every segment of a parsed document, at any depth: [toString()] is the
    part of the text from [startIndex] of length [getLength()], and
    [afterEndIndex] does not pass the end of the text. *)
Theorem X2_segments_spell_their_span (s : string) :
  exists d iss,
    parse s = Some (d, iss)
    /\ Forall (fun n => toString n = substring (startIndex n) (getLength n) s
                        /\ afterEndIndex n <= String.length s)
         (flat_map subsegments (documentSegments d)).
Proof.
  destruct (parseLexes_spec (lex s) (lex_wf s)) as (segs & iss & Hp & Hl & Ht & _).
  exists (mkDocument segs), iss. split; [exact Hp|]. cbn [documentSegments].
  rewrite combinedLength_text, lex_text in Hl. rewrite lex_text in Ht.
  apply (proj2 (located_substring s) _ _ _ Hl); [lia|].
  rewrite Nat.sub_0_r, substring_all. exact Ht.
Qed.

(** Segments that lie side by side from [from] to [upto]: the first starts
    at [from], each one starts where the one before ends, and the last ends
    at [upto]. *)
Fixpoint sideBySide (from : nat) (l : list Segment) (upto : nat) : Prop :=
  match l with
  | [] => from = upto
  | x :: r => startIndex x = from /\ sideBySide (afterEndIndex x) r upto
  end.

Lemma located_sideBySide (l : list Segment) (a b : nat) :
  LocatedList l a b -> sideBySide a l b.
Proof.
  induction 1 as [a | x l a m b Hx Hl IH]; simpl; [reflexivity|].
  destruct (proj1 located_facts _ _ _ Hx) as (Ham & Hs & Hlen).
  split; [exact Hs|]. unfold afterEndIndex. rewrite Hs, Hlen.
  replace (a + (m - a)) with m by lia. exact IH.
Qed.

(** X3. Every issue of a parse has its span inside the text. *)
Theorem X3_issue_spans_inside_text (s : string) :
  exists d iss,
    parse s = Some (d, iss)
    /\ Forall (fun i => spanStart (issueSpan i) + spanLength (issueSpan i) <= String.length s) iss.
Proof.
  destruct (parseLexes_spec (lex s) (lex_wf s)) as (segs & iss & Hp & _ & _ & Hb).
  exists (mkDocument segs), iss. split; [exact Hp|].
  rewrite combinedLength_text, lex_text in Hb. exact Hb.
Qed.

(** ** The tokens of a text *)

(** The states of a tokenizer that has been advanced at least once, whatever
    its start index. *)
Definition Started (t : Tokenizer) : Prop :=
  hasStarted t = true
  /\ forallb wfLex (pendingLexes t) = true
  /\ match _currentToken t with
     | Some tok => tokenStartIndex tok = _currentTokenStartIndex t
                   /\ _basicTokens tok <> []
                   /\ forallb wfLex (_basicTokens tok) = true
     | None => pendingLexes t = []
     end.

(** Where [next()] starts reading: at the lexemes of a new tokenizer, or
    after the current token of a started one. *)
Definition Ready (t : Tokenizer) : Prop :=
  Started t
  \/ exists input startIndex, t = newTokenizer input startIndex /\ forallb wfLex input = true.

Lemma next_started (t t' : Tokenizer) (iss : list Issue) :
  Ready t -> next t = (t', iss) ->
  Started t'
  /\ here t' = frontier t
  /\ stream t' = tokensOf (pendingLexes t)
  /\ remaining t' <= length (pendingLexes t).
Proof.
  assert (Hread : forall ts b l ls tok i c,
             forallb wfLex (l :: ls) = true ->
             readToken ts l (mkCursor (l :: ls) b) = (tok, i, c) ->
             let t1 := mkTokenizer (mkLexer true (lexes c)) (basicStart c) (Some tok) ts in
             Started t1 /\ here t1 = ts /\ stream t1 = tokensOf (l :: ls)
             /\ remaining t1 <= length (l :: ls)).
  { intros ts b l ls tok i c Hwf Er t1. subst t1.
    pose proof (readToken_spec _ _ _ _ _ _ _ Hwf Er) as Sp.
    pose proof (readSpec_shorter _ _ _ _ _ _ Sp) as Hlen.
    destruct Sp as (L & Hne & Hst & _).
    pose proof Hwf as Hwf'. rewrite L in Hwf'. apply forallb_app_inv in Hwf' as [Hwt Hwr].
    split; [|split; [|split]].
    - unfold Started, hasStarted, pendingLexes. cbn. auto.
    - reflexivity.
    - unfold stream, pendingLexes; simpl.
      rewrite (tokensOf_unfold (l :: ls)) by exact Hwf.
      now rewrite (readToken_shape _ _ _ _ _ _ _ Er).
    - unfold remaining, pendingLexes. cbn. simpl in Hlen. lia. }
  intros [(Hs & Hwf & Hc) | (input & k & -> & Hwf)] H.
  - unfold next in H. rewrite Hs in H. cbn [negb] in H. unfold pendingLexes in *.
    destruct (lexerInput (_tokenizer t)) as [|l ls] eqn:El.
    + injection H as <- <-.
      unfold Started, here, frontier, stream, remaining, hasStarted, pendingLexes in *.
      cbn. rewrite El. cbn. auto.
    + destruct (readToken _ l _) as [[tok i] c] eqn:Er. injection H as <- <-.
      exact (Hread _ _ _ _ _ _ _ Hwf Er).
  - unfold next, newTokenizer in H. cbn in H. destruct input as [|l ls].
    + injection H as <- <-.
      unfold Started, here, frontier, stream, remaining, hasStarted, pendingLexes. cbn. auto.
    + destruct (readToken k l _) as [[tok i] c] eqn:Er. injection H as <- <-.
      exact (Hread _ _ _ _ _ _ _ Hwf Er).
Qed.

(** [tiles from tokens upto]: the tokens lie side by side from index [from]
    to index [upto], and none is empty. *)
Fixpoint tiles (from : nat) (tokens : list Token) (upto : nat) : Prop :=
  match tokens with
  | [] => from = upto
  | tok :: r =>
      tokenStartIndex tok = from /\ 1 <= tokenLength tok
      /\ tiles (from + tokenLength tok) r upto
  end.

Lemma combinedLength_positive (ls : list Lex) :
  ls <> [] -> forallb wfLex ls = true -> 1 <= getCombinedLength ls.
Proof.
  destruct ls as [|l r]; [contradiction|]. intros _ H.
  apply forallb_cons_inv in H as [H _]. apply wf_length in H.
  unfold lexLength in H. simpl. lia.
Qed.

Lemma tokensOf_lexemes (n : nat) :
  forall ls, length ls <= n -> forallb wfLex ls = true ->
             concat (map _basicTokens (tokensOf ls)) = ls.
Proof.
  induction n as [|n IH]; intros ls Hn Hwf.
  - destruct ls; [reflexivity | simpl in Hn; lia].
  - rewrite tokensOf_unfold by exact Hwf.
    destruct (readShape ls) as [[tok rest]|] eqn:E.
    + destruct (readShape_spec _ _ _ Hwf E) as (L & _).
      destruct (readShape_shorter _ _ _ Hwf E) as [Hlen Hwf'].
      cbn [map concat]. rewrite IH; [now symmetry | lia | exact Hwf'].
    + destruct ls as [|l r]; [reflexivity|]. unfold readShape in E.
      destruct (readToken 0 l _) as [[? ?] ?]. discriminate E.
Qed.


(** The loop of [toArrayList] from a tokenizer that is ready: it returns, and
    its tokens are the tokens of the lexemes left, side by side from where
    the tokenizer stands. *)
Lemma tokenizeLoop_tiles :
  forall fuel t,
    Ready t -> length (pendingLexes t) <= fuel ->
    exists tokens iss,
      tokenizeLoop fuel t = Some (tokens, iss)
      /\ map eraseToken tokens = tokensOf (pendingLexes t)
      /\ tiles (frontier t) tokens (frontier t + getCombinedLength (pendingLexes t)).
Proof.
  induction fuel as [|n IH]; intros t Hr Hf.
  - simpl. destruct (next t) as [t' i] eqn:Hn.
    destruct (next_started _ _ _ Hr Hn) as (_ & _ & _ & Hrem).
    destruct (getCurrent t') eqn:Hc; [apply remaining_current in Hc; lia|].
    assert (E : pendingLexes t = []) by (destruct (pendingLexes t); [reflexivity | simpl in Hf; lia]).
    exists [], i. rewrite E. simpl. repeat split. lia.
  - cbn [tokenizeLoop]. destruct (next t) as [t' i] eqn:Hn.
    destruct (next_started _ _ _ Hr Hn) as (HS & Hh & Hst & Hrem).
    destruct (getCurrent t') as [tok|] eqn:Hc.
    + destruct (IH t' (or_introl HS)) as (tokens & more & Hrun & He & Ht).
      { unfold remaining in Hrem. unfold getCurrent in Hc. rewrite Hc in Hrem. lia. }
      rewrite Hrun. exists (tok :: tokens), (i ++ more). split; [reflexivity|].
      rewrite (stream_current _ _ Hc) in Hst.
      destruct HS as (_ & Hwf' & Hcur). unfold getCurrent in Hc. rewrite Hc in Hcur.
      destruct Hcur as (Hstart & Hne & Hwt).
      split; [cbn [map]; now rewrite He|].
      assert (Hfr : frontier t' = frontier t + tokenLength tok).
      { unfold frontier at 1. rewrite Hc. unfold here in Hh. now rewrite Hh. }
      assert (Hlen : getCombinedLength (pendingLexes t)
                     = tokenLength tok + getCombinedLength (pendingLexes t')).
      { assert (Hwf0 : forallb wfLex (pendingLexes t) = true).
        { destruct Hr as [(_ & H & _) | (input & k & -> & H)]; exact H. }
        rewrite <- (tokensOf_lexemes _ _ (Nat.le_refl _) Hwf0) at 1.
        rewrite <- Hst. cbn [map concat eraseToken _basicTokens].
        rewrite combinedLength_app.
        rewrite (tokensOf_lexemes _ _ (Nat.le_refl _) Hwf'). reflexivity. }
      cbn [tiles]. split; [unfold here in Hh; lia|].
      split; [exact (combinedLength_positive _ Hne Hwt)|].
      rewrite <- Hfr. rewrite Hlen.
      replace (frontier t + (tokenLength tok + getCombinedLength (pendingLexes t')))
        with (frontier t' + getCombinedLength (pendingLexes t')) by lia.
      exact Ht.
    + rewrite (stream_none _ Hc) in Hst.
      assert (Hwf0 : forallb wfLex (pendingLexes t) = true).
      { destruct Hr as [(_ & H & _) | (input & k & -> & H)]; exact H. }
      assert (E : pendingLexes t = []).
      { rewrite <- (tokensOf_lexemes _ _ (Nat.le_refl _) Hwf0), <- Hst. reflexivity. }
      exists [], i. rewrite E. simpl. repeat split. lia.
Qed.


(** ** The parser, run by run *)

(** How the loops of [parseObject] and [parseArray] take a token, by its
    type. *)
Inductive LoopCase : Set :=
| LName | LValue | LOpen (object : bool) | LClose | LTrivia | LComma | LOther.

Definition objectCase (ty : TokenType.t) : LoopCase :=
  match ty with
  | TokenType.QuotedString => LName
  | TokenType.RightCurlyBracket => LClose
  | TokenType.NewLine | TokenType.Whitespace
  | TokenType.LineComment | TokenType.BlockComment => LTrivia
  | TokenType.Comma => LComma
  | _ => LOther
  end.

Definition arrayCase (ty : TokenType.t) : LoopCase :=
  match ty with
  | TokenType.Null | TokenType.True | TokenType.False
  | TokenType.QuotedString | TokenType.Number => LValue
  | TokenType.LeftCurlyBracket => LOpen true
  | TokenType.LeftSquareBracket => LOpen false
  | TokenType.Comma => LComma
  | TokenType.RightSquareBracket => LClose
  | TokenType.NewLine | TokenType.Whitespace
  | TokenType.LineComment | TokenType.BlockComment => LTrivia
  | _ => LOther
  end.

(** The issue a loop adds when it meets a token that the flags do not
    allow. *)
Definition issueUnless (allowed : bool) (msg : string) (tok : Token) : list Issue :=
  if allowed then [] else [Error msg (tokenSpan tok)].

Definition objectCommaMessage (flags : Flags) : string :=
  if negb (closeAllowed flags) then msgExpectedPropertyName
  else msgExpectedPropertyNameOrRightCurly.

Definition objectOtherMessage (flags : Flags) : string :=
  if nameAllowed flags then
    if closeAllowed flags then msgExpectedPropertyNameOrRightCurly
    else msgExpectedPropertyName
  else msgExpectedCommaOrRightCurly.

Definition objectOtherFlags (flags : Flags) : Flags :=
  if nameAllowed flags && negb (closeAllowed flags)
  then mkFlags (nameAllowed flags) (commaAllowed flags) true
  else flags.

Definition arrayCommaMessage (flags : Flags) : string :=
  if closeAllowed flags then msgExpectedArrayElementOrRightSquare
  else msgExpectedArrayElement.

Definition arrayOtherMessage (flags : Flags) : string :=
  if nameAllowed flags then
    if closeAllowed flags then msgExpectedArrayElementOrRightSquare
    else msgExpectedArrayElement
  else msgExpectedCommaOrRightSquare.

(** [RunWs t ws t' iss]: [skipWhitespace] from the state [t] pushes the
    tokens [ws] and leaves the state [t']; the tokenizer adds [iss]. *)
Inductive RunWs : Tokenizer -> list Segment -> Tokenizer -> list Issue -> Prop :=
| RunWsEnd (t : Tokenizer) :
    getCurrent t = None -> RunWs t [] t []
| RunWsStop (t : Tokenizer) (tok : Token) :
    getCurrent t = Some tok -> getType tok <> TokenType.Whitespace -> RunWs t [] t []
| RunWsStep (t : Tokenizer) (tok : Token) (t1 : Tokenizer) (i1 : list Issue)
            (ws : list Segment) (t2 : Tokenizer) (i2 : list Issue) :
    getCurrent t = Some tok -> getType tok = TokenType.Whitespace ->
    next t = (t1, i1) -> RunWs t1 ws t2 i2 ->
    RunWs t (TokenSeg tok :: ws) t2 (i1 ++ i2).

(** The name, the whitespace after it, and the token found where the colon
    should be. *)
Inductive RunName : Tokenizer -> Token -> list Segment -> Tokenizer -> list Issue -> Prop :=
| RunNameIntro (t : Tokenizer) (name : Token) (t1 : Tokenizer) (i1 : list Issue)
               (ws : list Segment) (t2 : Tokenizer) (i2 : list Issue) :
    getCurrent t = Some name -> next t = (t1, i1) -> RunWs t1 ws t2 i2 ->
    RunName t name ws t2 (i1 ++ i2).

(** [RunProperty t seg t' iss]: [parseProperty] from the state [t] returns
    [seg], leaves the state [t'], and [iss] is added to the sink, in this
    order.  The other relations are the runs of [parseObject], of its loop
    under the flags given, of [parseArray] and of its loop; a loop run gives
    the segments added and whether the closing bracket was met. *)
Inductive RunProperty : Tokenizer -> Segment -> Tokenizer -> list Issue -> Prop :=
| RunPropertyEnd (t : Tokenizer) (name : Token) (ws1 : list Segment)
                 (t2 : Tokenizer) (i1 : list Issue) :
    RunName t name ws1 t2 i1 -> getCurrent t2 = None ->
    RunProperty t (Property (TokenSeg name :: ws1)) t2
      (i1 ++ [Error msgMissingColon (tokenSpan name)])
| RunPropertyNoColon (t : Tokenizer) (name : Token) (ws1 : list Segment)
                     (t2 : Tokenizer) (i1 : list Issue) (other : Token) :
    RunName t name ws1 t2 i1 -> getCurrent t2 = Some other ->
    getType other <> TokenType.Colon ->
    RunProperty t (Property (TokenSeg name :: ws1)) t2
      (i1 ++ [Error msgExpectedColon (tokenSpan other)])
| RunPropertyNoValue (t : Tokenizer) (name : Token) (ws1 : list Segment)
                     (t2 : Tokenizer) (i1 : list Issue) (colon : Token)
                     (ws2 : list Segment) (t4 : Tokenizer) (i3 : list Issue) :
    RunName t name ws1 t2 i1 -> getType colon = TokenType.Colon ->
    RunName t2 colon ws2 t4 i3 -> getCurrent t4 = None ->
    RunProperty t (Property (TokenSeg name :: ws1 ++ TokenSeg colon :: ws2)) t4
      (i1 ++ i3 ++ [Error msgMissingPropertyValue (tokenSpan colon)])
| RunPropertyBadValue (t : Tokenizer) (name : Token) (ws1 : list Segment)
                      (t2 : Tokenizer) (i1 : list Issue) (colon : Token)
                      (ws2 : list Segment) (t4 : Tokenizer) (i3 : list Issue)
                      (other : Token) :
    RunName t name ws1 t2 i1 -> getType colon = TokenType.Colon ->
    RunName t2 colon ws2 t4 i3 -> getCurrent t4 = Some other ->
    valueClass (getType other) = VNone ->
    RunProperty t (Property (TokenSeg name :: ws1 ++ TokenSeg colon :: ws2)) t4
      (i1 ++ i3 ++ [Error msgExpectedPropertyValue (tokenSpan other)])
| RunPropertyLiteral (t : Tokenizer) (name : Token) (ws1 : list Segment)
                     (t2 : Tokenizer) (i1 : list Issue) (colon : Token)
                     (ws2 : list Segment) (t4 : Tokenizer) (i3 : list Issue)
                     (value : Token) (t5 : Tokenizer) (i5 : list Issue) :
    RunName t name ws1 t2 i1 -> getType colon = TokenType.Colon ->
    RunName t2 colon ws2 t4 i3 -> getCurrent t4 = Some value ->
    valueClass (getType value) = VLiteral -> next t4 = (t5, i5) ->
    RunProperty t
      (Property (TokenSeg name :: ws1 ++ TokenSeg colon :: ws2 ++ [TokenSeg value])) t5
      (i1 ++ i3 ++ i5)
| RunPropertyNested (t : Tokenizer) (name : Token) (ws1 : list Segment)
                    (t2 : Tokenizer) (i1 : list Issue) (colon : Token)
                    (ws2 : list Segment) (t4 : Tokenizer) (i3 : list Issue)
                    (first : Token) (object : bool) (value : Segment)
                    (t5 : Tokenizer) (i5 : list Issue) :
    RunName t name ws1 t2 i1 -> getType colon = TokenType.Colon ->
    RunName t2 colon ws2 t4 i3 -> getCurrent t4 = Some first ->
    valueClass (getType first) = VNested object ->
    RunBracket object t4 value t5 i5 ->
    RunProperty t
      (Property (TokenSeg name :: ws1 ++ TokenSeg colon :: ws2 ++ [value])) t5
      (i1 ++ i3 ++ i5)

with RunBracket : bool -> Tokenizer -> Segment -> Tokenizer -> list Issue -> Prop :=
| RunObject (t : Tokenizer) (leftCurlyBracket : Token) (t1 : Tokenizer) (i1 : list Issue)
            (added : list Segment) (closed : bool) (t2 : Tokenizer) (i2 : list Issue) :
    getCurrent t = Some leftCurlyBracket -> next t = (t1, i1) ->
    RunObjectLoop initialFlags t1 added closed t2 i2 ->
    RunBracket true t (ObjectSegment (TokenSeg leftCurlyBracket :: added)) t2
      (i1 ++ i2 ++ issueUnless closed msgMissingRightCurly leftCurlyBracket)
| RunArray (t : Tokenizer) (leftSquareBracket : Token) (t1 : Tokenizer) (i1 : list Issue)
           (added : list Segment) (closed : bool) (t2 : Tokenizer) (i2 : list Issue) :
    getCurrent t = Some leftSquareBracket -> next t = (t1, i1) ->
    RunArrayLoop initialFlags t1 added closed t2 i2 ->
    RunBracket false t (ArraySegment (TokenSeg leftSquareBracket :: added)) t2
      (i1 ++ i2 ++ issueUnless closed msgMissingRightSquare leftSquareBracket)

with RunObjectLoop : Flags -> Tokenizer -> list Segment -> bool -> Tokenizer -> list Issue -> Prop :=
| RunObjectEnd (flags : Flags) (t : Tokenizer) :
    getCurrent t = None -> RunObjectLoop flags t [] false t []
| RunObjectName (flags : Flags) (t : Tokenizer) (tok : Token)
                (property : Segment) (t1 : Tokenizer) (i1 : list Issue)
                (added : list Segment) (closed : bool) (t2 : Tokenizer) (i2 : list Issue) :
    getCurrent t = Some tok -> objectCase (getType tok) = LName ->
    RunProperty t property t1 i1 ->
    RunObjectLoop afterValue t1 added closed t2 i2 ->
    RunObjectLoop flags t (property :: added) closed t2
      (issueUnless (nameAllowed flags) msgExpectedCommaOrRightCurly tok ++ i1 ++ i2)
| RunObjectClose (flags : Flags) (t : Tokenizer) (tok : Token)
                 (t1 : Tokenizer) (i1 : list Issue) :
    getCurrent t = Some tok -> objectCase (getType tok) = LClose ->
    next t = (t1, i1) ->
    RunObjectLoop flags t [TokenSeg tok] true t1
      (issueUnless (closeAllowed flags) msgExpectedPropertyName tok ++ i1)
| RunObjectTrivia (flags : Flags) (t : Tokenizer) (tok : Token)
                  (t1 : Tokenizer) (i1 : list Issue)
                  (added : list Segment) (closed : bool) (t2 : Tokenizer) (i2 : list Issue) :
    getCurrent t = Some tok -> objectCase (getType tok) = LTrivia ->
    next t = (t1, i1) -> RunObjectLoop flags t1 added closed t2 i2 ->
    RunObjectLoop flags t (TokenSeg tok :: added) closed t2 (i1 ++ i2)
| RunObjectComma (flags : Flags) (t : Tokenizer) (tok : Token)
                 (t1 : Tokenizer) (i1 : list Issue)
                 (added : list Segment) (closed : bool) (t2 : Tokenizer) (i2 : list Issue) :
    getCurrent t = Some tok -> objectCase (getType tok) = LComma ->
    next t = (t1, i1) -> RunObjectLoop afterComma t1 added closed t2 i2 ->
    RunObjectLoop flags t (TokenSeg tok :: added) closed t2
      (issueUnless (commaAllowed flags) (objectCommaMessage flags) tok ++ i1 ++ i2)
| RunObjectOther (flags : Flags) (t : Tokenizer) (tok : Token)
                 (t1 : Tokenizer) (i1 : list Issue)
                 (added : list Segment) (closed : bool) (t2 : Tokenizer) (i2 : list Issue) :
    getCurrent t = Some tok -> objectCase (getType tok) = LOther ->
    next t = (t1, i1) -> RunObjectLoop (objectOtherFlags flags) t1 added closed t2 i2 ->
    RunObjectLoop flags t (TokenSeg tok :: added) closed t2
      ([Error (objectOtherMessage flags) (tokenSpan tok)] ++ i1 ++ i2)

with RunArrayLoop : Flags -> Tokenizer -> list Segment -> bool -> Tokenizer -> list Issue -> Prop :=
| RunArrayEnd (flags : Flags) (t : Tokenizer) :
    getCurrent t = None -> RunArrayLoop flags t [] false t []
| RunArrayValue (flags : Flags) (t : Tokenizer) (tok : Token)
                (t1 : Tokenizer) (i1 : list Issue)
                (added : list Segment) (closed : bool) (t2 : Tokenizer) (i2 : list Issue) :
    getCurrent t = Some tok -> arrayCase (getType tok) = LValue ->
    next t = (t1, i1) -> RunArrayLoop afterValue t1 added closed t2 i2 ->
    RunArrayLoop flags t (TokenSeg tok :: added) closed t2
      (issueUnless (nameAllowed flags) msgExpectedCommaOrRightSquare tok ++ i1 ++ i2)
| RunArrayNested (flags : Flags) (t : Tokenizer) (tok : Token) (object : bool)
                 (value : Segment) (t1 : Tokenizer) (i1 : list Issue)
                 (added : list Segment) (closed : bool) (t2 : Tokenizer) (i2 : list Issue) :
    getCurrent t = Some tok -> arrayCase (getType tok) = LOpen object ->
    RunBracket object t value t1 i1 ->
    RunArrayLoop afterValue t1 added closed t2 i2 ->
    RunArrayLoop flags t (value :: added) closed t2
      (issueUnless (nameAllowed flags) msgExpectedCommaOrRightSquare tok ++ i1 ++ i2)
| RunArrayComma (flags : Flags) (t : Tokenizer) (tok : Token)
                (t1 : Tokenizer) (i1 : list Issue)
                (added : list Segment) (closed : bool) (t2 : Tokenizer) (i2 : list Issue) :
    getCurrent t = Some tok -> arrayCase (getType tok) = LComma ->
    next t = (t1, i1) -> RunArrayLoop afterComma t1 added closed t2 i2 ->
    RunArrayLoop flags t (TokenSeg tok :: added) closed t2
      (issueUnless (commaAllowed flags) (arrayCommaMessage flags) tok ++ i1 ++ i2)
| RunArrayClose (flags : Flags) (t : Tokenizer) (tok : Token)
                (t1 : Tokenizer) (i1 : list Issue) :
    getCurrent t = Some tok -> arrayCase (getType tok) = LClose ->
    next t = (t1, i1) ->
    RunArrayLoop flags t [TokenSeg tok] true t1
      (issueUnless (closeAllowed flags) msgExpectedArrayElement tok ++ i1)
| RunArrayTrivia (flags : Flags) (t : Tokenizer) (tok : Token)
                 (t1 : Tokenizer) (i1 : list Issue)
                 (added : list Segment) (closed : bool) (t2 : Tokenizer) (i2 : list Issue) :
    getCurrent t = Some tok -> arrayCase (getType tok) = LTrivia ->
    next t = (t1, i1) -> RunArrayLoop flags t1 added closed t2 i2 ->
    RunArrayLoop flags t (TokenSeg tok :: added) closed t2 (i1 ++ i2)
| RunArrayOther (flags : Flags) (t : Tokenizer) (tok : Token)
                (t1 : Tokenizer) (i1 : list Issue)
                (added : list Segment) (closed : bool) (t2 : Tokenizer) (i2 : list Issue) :
    getCurrent t = Some tok -> arrayCase (getType tok) = LOther ->
    next t = (t1, i1) -> RunArrayLoop afterValue t1 added closed t2 i2 ->
    RunArrayLoop flags t (TokenSeg tok :: added) closed t2
      ([Error (arrayOtherMessage flags) (tokenSpan tok)] ++ i1 ++ i2).

Scheme RunProperty_min := Minimality for RunProperty Sort Prop
  with RunBracket_min := Minimality for RunBracket Sort Prop
  with RunObjectLoop_min := Minimality for RunObjectLoop Sort Prop
  with RunArrayLoop_min := Minimality for RunArrayLoop Sort Prop.
Combined Scheme Run_mutind
  from RunProperty_min, RunBracket_min, RunObjectLoop_min, RunArrayLoop_min.

(** Whether a token at the top of a document counts as its root. *)
Definition startsRoot (ty : TokenType.t) : bool :=
  match ty with
  | TokenType.NewLine | TokenType.Whitespace => false
  | _ => true
  end.

(** [RunDocument found t segs iss]: the loop of [parse] from the state [t],
    with [foundRootSegment] being [found], adds the segments [segs] to the
    document and [iss] to the sink. *)
Inductive RunDocument : bool -> Tokenizer -> list Segment -> list Issue -> Prop :=
| RunDocumentEnd (found : bool) (t : Tokenizer) :
    getCurrent t = None -> RunDocument found t [] []
| RunDocumentToken (found : bool) (t : Tokenizer) (tok : Token)
                   (t1 : Tokenizer) (i1 : list Issue)
                   (segs : list Segment) (i2 : list Issue) :
    getCurrent t = Some tok -> rootClass (getType tok) = None ->
    next t = (t1, i1) ->
    RunDocument (found || startsRoot (getType tok)) t1 segs i2 ->
    RunDocument found t (TokenSeg tok :: segs)
      (i1 ++ issueUnless (negb (startsRoot (getType tok) && found)) msgExpectedEndOfFile tok
          ++ i2)
| RunDocumentNested (found : bool) (t : Tokenizer) (tok : Token) (object : bool)
                    (value : Segment) (t1 : Tokenizer) (i1 : list Issue)
                    (segs : list Segment) (i2 : list Issue) :
    getCurrent t = Some tok -> rootClass (getType tok) = Some object ->
    RunBracket object t value t1 i1 ->
    RunDocument true t1 segs i2 ->
    RunDocument found t (value :: segs)
      (i1 ++ (if found then [Error msgExpectedEndOfFile (span value)] else []) ++ i2).

(** *** Every run of the code is a run of the relation *)

Lemma current_run {A : Type} (k : option Token -> Parser A) (t : Tokenizer) :
  (cur <- tokenizerCurrent ;; k cur) t = k (getCurrent t) t.
Proof.
  unfold bind, tokenizerCurrent. destruct (k (getCurrent t) t) as [[[b t2] i2]|]; reflexivity.
Qed.

Lemma bind_run {A B : Type} (m : Parser A) (f : A -> Parser B) (t : Tokenizer)
      (b : B) (t2 : Tokenizer) (iss : list Issue) :
  bind m f t = Some (b, t2, iss) ->
  exists a t1 i1 i2, m t = Some (a, t1, i1) /\ f a t1 = Some (b, t2, i2) /\ iss = i1 ++ i2.
Proof.
  unfold bind. destruct (m t) as [[[a t1] i1]|] eqn:Em; [|discriminate].
  destruct (f a t1) as [[[b' t2'] i2]|] eqn:Ef; [|discriminate].
  intros H. injection H as <- <- <-. exists a, t1, i1, i2. auto.
Qed.

Lemma next_run {A : Type} (k : Parser A) (t : Tokenizer)
      (b : A) (t2 : Tokenizer) (iss : list Issue) :
  (tokenizerNext ;; k) t = Some (b, t2, iss) ->
  exists t1 i1 i2, next t = (t1, i1) /\ k t1 = Some (b, t2, i2) /\ iss = i1 ++ i2.
Proof.
  intros H. apply bind_run in H as (a & t1 & i1 & i2 & Hn & Hk & ->).
  unfold tokenizerNext in Hn. destruct (next t) as [t1' i1'].
  injection Hn as _ <- <-. exists t1', i1', i2. auto.
Qed.

Lemma addIssue_run {A : Type} (x : Issue) (k : Parser A) (t : Tokenizer)
      (b : A) (t2 : Tokenizer) (iss : list Issue) :
  (addIssue x ;; k) t = Some (b, t2, iss) ->
  exists i2, k t = Some (b, t2, i2) /\ iss = [x] ++ i2.
Proof.
  intros H. apply bind_run in H as (a & t1 & i1 & i2 & Hn & Hk & ->).
  injection Hn as _ <- <-. exists i2. auto.
Qed.

Lemma addIssueIf_run {A : Type} (c : bool) (x : Issue) (k : Parser A) (t : Tokenizer)
      (b : A) (t2 : Tokenizer) (iss : list Issue) :
  (addIssueIf c x ;; k) t = Some (b, t2, iss) ->
  exists i2, k t = Some (b, t2, i2) /\ iss = (if c then [x] else []) ++ i2.
Proof.
  intros H. apply bind_run in H as (a & t1 & i1 & i2 & Hn & Hk & ->).
  unfold addIssueIf in Hn. destruct c; injection Hn as _ <- <-; exists i2; auto.
Qed.

Lemma ret_run {A : Type} (a b : A) (t t2 : Tokenizer) (iss : list Issue) :
  ret a t = Some (b, t2, iss) -> b = a /\ t2 = t /\ iss = [].
Proof. intros H. injection H as <- <- <-. auto. Qed.

Lemma issueUnless_negb (c : bool) (msg : string) (tok : Token) :
  (if negb c then [Error msg (tokenSpan tok)] else []) = issueUnless c msg tok.
Proof. now destruct c. Qed.

Lemma skipWhitespace_run (fuel : nat) :
  forall t ws t' iss, skipWhitespace fuel t = Some (ws, t', iss) -> RunWs t ws t' iss.
Proof.
  induction fuel as [|n IH]; intros t ws t' iss H; cbn [skipWhitespace] in H;
    rewrite current_run in H; destruct (getCurrent t) as [tok|] eqn:Hc.
  - destruct (TokenType.eqb (getType tok) TokenType.Whitespace) eqn:Ew; [discriminate H|].
    apply ret_run in H as (-> & -> & ->). apply (RunWsStop _ tok Hc).
    intros E. rewrite E in Ew. discriminate Ew.
  - apply ret_run in H as (-> & -> & ->). now apply RunWsEnd.
  - destruct (TokenType.eqb (getType tok) TokenType.Whitespace) eqn:Ew.
    + apply tokenType_eqb_eq in Ew.
      apply next_run in H as (t1 & i1 & i2 & Hn & H & ->).
      apply bind_run in H as (rest & t2 & i3 & i4 & Hr & H & ->).
      apply ret_run in H as (-> & -> & ->). rewrite app_nil_r.
      exact (RunWsStep _ _ _ _ _ _ _ Hc Ew Hn (IH _ _ _ _ Hr)).
    + apply ret_run in H as (-> & -> & ->). apply (RunWsStop _ tok Hc).
      intros E. rewrite E in Ew. discriminate Ew.
  - apply ret_run in H as (-> & -> & ->). now apply RunWsEnd.
Qed.

Definition RunsOf (fuel : nat) : Prop :=
  (forall t seg t' iss, parseProperty fuel t = Some (seg, t', iss) -> RunProperty t seg t' iss)
  /\ (forall t seg t' iss, parseObject fuel t = Some (seg, t', iss) ->
        RunBracket true t seg t' iss
        /\ exists tok, getCurrent t = Some tok)
  /\ (forall flags t r t' iss, parseObjectLoop fuel flags t = Some (r, t', iss) ->
        RunObjectLoop flags t (fst r) (snd r) t' iss)
  /\ (forall t seg t' iss, parseArray fuel t = Some (seg, t', iss) ->
        RunBracket false t seg t' iss
        /\ exists tok, getCurrent t = Some tok)
  /\ (forall flags t r t' iss, parseArrayLoop fuel flags t = Some (r, t', iss) ->
        RunArrayLoop flags t (fst r) (snd r) t' iss).

Lemma list_tail_assoc {X : Type} (a : X) (l1 : list X) (b : X) (l2 l3 : list X) :
  ((a :: l1) ++ b :: l2) ++ l3 = a :: l1 ++ b :: l2 ++ l3.
Proof. simpl. now rewrite <- app_assoc. Qed.

Lemma property_run (n : nat) :
  RunsOf n ->
  forall t seg t' iss, parseProperty (S n) t = Some (seg, t', iss) -> RunProperty t seg t' iss.
Proof.
  intros (_ & HO & _ & HA & _) t seg t' iss H.
  cbn [parseProperty] in H. rewrite current_run in H.
  destruct (getCurrent t) as [name|] eqn:Hc; [|discriminate H].
  apply next_run in H as (t1 & i1 & ? & Hn & H & ->).
  apply bind_run in H as (ws1 & t2 & iw1 & ? & Hw1 & H & ->).
  apply skipWhitespace_run in Hw1.
  pose proof (RunNameIntro _ _ _ _ _ _ _ Hc Hn Hw1) as HN. rewrite app_assoc.
  rewrite current_run in H. destruct (getCurrent t2) as [colon|] eqn:Hc2.
  - destruct (TokenType.eqb (getType colon) TokenType.Colon) eqn:Ec; cbn [negb] in H.
    + apply tokenType_eqb_eq in Ec.
      apply next_run in H as (t3 & i3 & ? & Hn3 & H & ->).
      apply bind_run in H as (ws2 & t4 & iw2 & ? & Hw2 & H & ->).
      apply skipWhitespace_run in Hw2.
      pose proof (RunNameIntro _ _ _ _ _ _ _ Hc2 Hn3 Hw2) as HC. rewrite (app_assoc i3).
      rewrite current_run in H. destruct (getCurrent t4) as [value|] eqn:Hc4.
      * destruct (valueClass (getType value)) as [| |object] eqn:Ev.
        -- assert (E : exists x, addIssue (Error msgExpectedPropertyValue (tokenSpan value)) ;;
                                 ret (Property ((TokenSeg name :: ws1) ++ TokenSeg colon :: ws2))
                                 = x /\ x t4 = Some (seg, t', x0)).
           { eexists. split; [reflexivity|].
             destruct (getType value); try discriminate Ev; exact H. }
           destruct E as (x & <- & H').
           apply addIssue_run in H' as (? & H' & ->). apply ret_run in H' as (-> & -> & ->).
           rewrite app_nil_r. simpl app at 3.
           exact (RunPropertyBadValue _ _ _ _ _ _ _ _ _ _ HN Ec HC Hc4 Ev).
        -- assert (H' : (tokenizerNext ;;
                         ret (Property (((TokenSeg name :: ws1) ++ TokenSeg colon :: ws2)
                                        ++ [TokenSeg value]))) t4 = Some (seg, t', x0)).
           { destruct (getType value); try discriminate Ev; exact H. }
           apply next_run in H' as (t5 & i5 & ? & Hn5 & H' & ->).
           apply ret_run in H' as (-> & -> & ->). rewrite app_nil_r, list_tail_assoc.
           exact (RunPropertyLiteral _ _ _ _ _ _ _ _ _ _ _ _ HN Ec HC Hc4 Ev Hn5).
        -- destruct object.
           ++ assert (H' : (object <- parseObject n ;;
                            ret (Property (((TokenSeg name :: ws1) ++ TokenSeg colon :: ws2)
                                           ++ [object]))) t4 = Some (seg, t', x0)).
              { destruct (getType value); try discriminate Ev; exact H. }
              apply bind_run in H' as (object & t5 & i5 & ? & Ho & H' & ->).
              apply ret_run in H' as (-> & -> & ->). rewrite app_nil_r, list_tail_assoc.
              apply HO in Ho as [Ho _].
              exact (RunPropertyNested _ _ _ _ _ _ _ _ _ _ _ _ _ _ HN Ec HC Hc4 Ev Ho).
           ++ assert (H' : (array <- parseArray n ;;
                            ret (Property (((TokenSeg name :: ws1) ++ TokenSeg colon :: ws2)
                                           ++ [array]))) t4 = Some (seg, t', x0)).
              { destruct (getType value); try discriminate Ev; exact H. }
              apply bind_run in H' as (array & t5 & i5 & ? & Ho & H' & ->).
              apply ret_run in H' as (-> & -> & ->). rewrite app_nil_r, list_tail_assoc.
              apply HA in Ho as [Ho _].
              exact (RunPropertyNested _ _ _ _ _ _ _ _ _ _ _ _ _ _ HN Ec HC Hc4 Ev Ho).
      * apply addIssue_run in H as (? & H & ->). apply ret_run in H as (-> & -> & ->).
        rewrite app_nil_r. simpl app at 3.
        exact (RunPropertyNoValue _ _ _ _ _ _ _ _ _ HN Ec HC Hc4).
    + apply addIssue_run in H as (? & H & ->). apply ret_run in H as (-> & -> & ->).
      rewrite app_nil_r. apply (RunPropertyNoColon _ _ _ _ _ _ HN Hc2).
      intros E. rewrite E in Ec. discriminate Ec.
  - apply addIssue_run in H as (? & H & ->). apply ret_run in H as (-> & -> & ->).
    rewrite app_nil_r. exact (RunPropertyEnd _ _ _ _ _ HN Hc2).
Qed.

Lemma object_run (n : nat) :
  RunsOf n ->
  forall t seg t' iss, parseObject (S n) t = Some (seg, t', iss) ->
    RunBracket true t seg t' iss /\ exists tok, getCurrent t = Some tok.
Proof.
  intros (_ & _ & HL & _) t seg t' iss H.
  cbn [parseObject] in H. rewrite current_run in H.
  destruct (getCurrent t) as [tok|] eqn:Hc; [|discriminate H].
  apply next_run in H as (t1 & i1 & ? & Hn & H & ->).
  apply bind_run in H as ([added closed] & t2 & i2 & ? & Hl & H & ->).
  apply addIssueIf_run in H as (? & H & ->). apply ret_run in H as (-> & -> & ->).
  rewrite app_nil_r, issueUnless_negb. apply HL in Hl.
  split; [|now exists tok]. exact (RunObject _ _ _ _ _ _ _ _ Hc Hn Hl).
Qed.

Lemma array_run (n : nat) :
  RunsOf n ->
  forall t seg t' iss, parseArray (S n) t = Some (seg, t', iss) ->
    RunBracket false t seg t' iss /\ exists tok, getCurrent t = Some tok.
Proof.
  intros (_ & _ & _ & _ & HL) t seg t' iss H.
  cbn [parseArray] in H. rewrite current_run in H.
  destruct (getCurrent t) as [tok|] eqn:Hc; [|discriminate H].
  apply next_run in H as (t1 & i1 & ? & Hn & H & ->).
  apply bind_run in H as ([added closed] & t2 & i2 & ? & Hl & H & ->).
  apply addIssueIf_run in H as (? & H & ->). apply ret_run in H as (-> & -> & ->).
  rewrite app_nil_r, issueUnless_negb. apply HL in Hl.
  split; [|now exists tok]. exact (RunArray _ _ _ _ _ _ _ _ Hc Hn Hl).
Qed.

(** The cases of the loop of [parseObject] that step over one token. *)
Lemma objectLoop_token_run (n : nat) (flags flags' : Flags) (pre : list Issue)
      (t : Tokenizer) (tok : Token) (r : list Segment * bool) (t' : Tokenizer)
      (iss : list Issue) :
  RunsOf n ->
  (tokenizerNext ;; r <- parseObjectLoop n flags' ;; ret (TokenSeg tok :: fst r, snd r)) t
  = Some (r, t', iss) ->
  exists t1 i1 added closed i2,
    next t = (t1, i1) /\ RunObjectLoop flags' t1 added closed t' i2
    /\ r = (TokenSeg tok :: added, closed) /\ iss = i1 ++ i2.
Proof.
  intros (_ & _ & HL & _) H.
  apply next_run in H as (t1 & i1 & ? & Hn & H & ->).
  apply bind_run in H as (r' & t2 & i2 & ? & Hl & H & ->).
  apply ret_run in H as (-> & -> & ->). rewrite app_nil_r. apply HL in Hl.
  exists t1, i1, (fst r'), (snd r'), i2. auto.
Qed.

Lemma arrayLoop_token_run (n : nat) (flags' : Flags)
      (t : Tokenizer) (tok : Token) (r : list Segment * bool) (t' : Tokenizer)
      (iss : list Issue) :
  RunsOf n ->
  (tokenizerNext ;; r <- parseArrayLoop n flags' ;; ret (TokenSeg tok :: fst r, snd r)) t
  = Some (r, t', iss) ->
  exists t1 i1 added closed i2,
    next t = (t1, i1) /\ RunArrayLoop flags' t1 added closed t' i2
    /\ r = (TokenSeg tok :: added, closed) /\ iss = i1 ++ i2.
Proof.
  intros (_ & _ & _ & _ & HL) H.
  apply next_run in H as (t1 & i1 & ? & Hn & H & ->).
  apply bind_run in H as (r' & t2 & i2 & ? & Hl & H & ->).
  apply ret_run in H as (-> & -> & ->). rewrite app_nil_r. apply HL in Hl.
  exists t1, i1, (fst r'), (snd r'), i2. auto.
Qed.

Lemma objectLoop_run (n : nat) :
  RunsOf n ->
  forall flags t r t' iss, parseObjectLoop (S n) flags t = Some (r, t', iss) ->
    RunObjectLoop flags t (fst r) (snd r) t' iss.
Proof.
  intros HR flags t r t' iss H. pose proof HR as (HP & _).
  cbn [parseObjectLoop] in H. rewrite current_run in H.
  destruct (getCurrent t) as [tok|] eqn:Hc.
  2:{ apply ret_run in H as (-> & -> & ->). now apply RunObjectEnd. }
  destruct (objectCase (getType tok)) eqn:Ec.
  - (* a property name *)
    assert (H' : (addIssueIf (negb (nameAllowed flags))
                    (Error msgExpectedCommaOrRightCurly (tokenSpan tok)) ;;
                  property <- parseProperty n ;;
                  r <- parseObjectLoop n afterValue ;;
                  ret (property :: fst r, snd r)) t = Some (r, t', iss)).
    { destruct (getType tok); try discriminate Ec; exact H. }
    apply addIssueIf_run in H' as (? & H' & ->).
    apply bind_run in H' as (property & t1 & i1 & ? & Hp & H' & ->).
    apply bind_run in H' as (r' & t2 & i2 & ? & Hl & H' & ->).
    apply ret_run in H' as (-> & -> & ->). rewrite app_nil_r, issueUnless_negb.
    apply HP in Hp. apply (proj1 (proj2 (proj2 HR))) in Hl.
    exact (RunObjectName _ _ _ _ _ _ _ _ _ _ Hc Ec Hp Hl).
  - destruct (getType tok); discriminate Ec.
  - destruct (getType tok); discriminate Ec.
  - (* the closing bracket *)
    assert (H' : (addIssueIf (negb (closeAllowed flags))
                    (Error msgExpectedPropertyName (tokenSpan tok)) ;;
                  tokenizerNext ;; ret ([TokenSeg tok], true)) t = Some (r, t', iss)).
    { destruct (getType tok); try discriminate Ec; exact H. }
    apply addIssueIf_run in H' as (? & H' & ->).
    apply next_run in H' as (t1 & i1 & ? & Hn & H' & ->).
    apply ret_run in H' as (-> & -> & ->). rewrite app_nil_r, issueUnless_negb.
    exact (RunObjectClose _ _ _ _ _ Hc Ec Hn).
  - (* trivia *)
    assert (H' : (tokenizerNext ;; r <- parseObjectLoop n flags ;;
                  ret (TokenSeg tok :: fst r, snd r)) t = Some (r, t', iss)).
    { destruct (getType tok); try discriminate Ec; exact H. }
    apply (objectLoop_token_run n flags flags [] _ _ _ _ _ HR) in H'
      as (t1 & i1 & added & closed & i2 & Hn & Hl & -> & ->).
    exact (RunObjectTrivia _ _ _ _ _ _ _ _ _ Hc Ec Hn Hl).
  - (* a comma *)
    assert (H' : (addIssueIf (negb (commaAllowed flags))
                    (Error (objectCommaMessage flags) (tokenSpan tok)) ;;
                  tokenizerNext ;; r <- parseObjectLoop n afterComma ;;
                  ret (TokenSeg tok :: fst r, snd r)) t = Some (r, t', iss)).
    { destruct (getType tok); try discriminate Ec; exact H. }
    apply addIssueIf_run in H' as (? & H' & ->).
    apply (objectLoop_token_run n flags afterComma [] _ _ _ _ _ HR) in H'
      as (t1 & i1 & added & closed & i2 & Hn & Hl & -> & ->).
    rewrite issueUnless_negb.
    exact (RunObjectComma _ _ _ _ _ _ _ _ _ Hc Ec Hn Hl).
  - (* any other token *)
    assert (H' : (addIssue (Error (objectOtherMessage flags) (tokenSpan tok)) ;;
                  tokenizerNext ;; r <- parseObjectLoop n (objectOtherFlags flags) ;;
                  ret (TokenSeg tok :: fst r, snd r)) t = Some (r, t', iss)).
    { destruct (getType tok); try discriminate Ec; exact H. }
    apply addIssue_run in H' as (? & H' & ->).
    apply (objectLoop_token_run n flags (objectOtherFlags flags) [] _ _ _ _ _ HR) in H'
      as (t1 & i1 & added & closed & i2 & Hn & Hl & -> & ->).
    exact (RunObjectOther _ _ _ _ _ _ _ _ _ Hc Ec Hn Hl).
Qed.

Lemma arrayLoop_run (n : nat) :
  RunsOf n ->
  forall flags t r t' iss, parseArrayLoop (S n) flags t = Some (r, t', iss) ->
    RunArrayLoop flags t (fst r) (snd r) t' iss.
Proof.
  intros HR flags t r t' iss H. pose proof HR as (_ & HO & _ & HA & HL).
  cbn [parseArrayLoop] in H. rewrite current_run in H.
  destruct (getCurrent t) as [tok|] eqn:Hc.
  2:{ apply ret_run in H as (-> & -> & ->). now apply RunArrayEnd. }
  destruct (arrayCase (getType tok)) as [| |object| | | |] eqn:Ec.
  - destruct (getType tok); discriminate Ec.
  - (* a value token *)
    assert (H' : (addIssueIf (negb (nameAllowed flags))
                    (Error msgExpectedCommaOrRightSquare (tokenSpan tok)) ;;
                  tokenizerNext ;; r <- parseArrayLoop n afterValue ;;
                  ret (TokenSeg tok :: fst r, snd r)) t = Some (r, t', iss)).
    { destruct (getType tok); try discriminate Ec; exact H. }
    apply addIssueIf_run in H' as (? & H' & ->).
    apply (arrayLoop_token_run n afterValue _ _ _ _ _ HR) in H'
      as (t1 & i1 & added & closed & i2 & Hn & Hl & -> & ->).
    rewrite issueUnless_negb.
    exact (RunArrayValue _ _ _ _ _ _ _ _ _ Hc Ec Hn Hl).
  - (* a nested object or array *)
    assert (H' : exists sub,
               (sub = parseObject n /\ object = true \/ sub = parseArray n /\ object = false)
               /\ (addIssueIf (negb (nameAllowed flags))
                     (Error msgExpectedCommaOrRightSquare (tokenSpan tok)) ;;
                   value <- sub ;; r <- parseArrayLoop n afterValue ;;
                   ret (value :: fst r, snd r)) t = Some (r, t', iss)).
    { destruct (getType tok); try discriminate Ec; injection Ec as <-;
        eexists; (split; [|exact H]); auto. }
    destruct H' as (sub & Hsub & H').
    apply addIssueIf_run in H' as (? & H' & ->).
    apply bind_run in H' as (value & t1 & i1 & ? & Hv & H' & ->).
    apply bind_run in H' as (r' & t2 & i2 & ? & Hl & H' & ->).
    apply ret_run in H' as (-> & -> & ->). rewrite app_nil_r, issueUnless_negb.
    apply HL in Hl.
    assert (Hb : RunBracket object t value t1 i1).
    { destruct Hsub as [[-> ->] | [-> ->]]; [apply HO in Hv | apply HA in Hv]; apply Hv. }
    exact (RunArrayNested _ _ _ _ _ _ _ _ _ _ _ Hc Ec Hb Hl).
  - (* the closing bracket *)
    assert (H' : (addIssueIf (negb (closeAllowed flags))
                    (Error msgExpectedArrayElement (tokenSpan tok)) ;;
                  tokenizerNext ;; ret ([TokenSeg tok], true)) t = Some (r, t', iss)).
    { destruct (getType tok); try discriminate Ec; exact H. }
    apply addIssueIf_run in H' as (? & H' & ->).
    apply next_run in H' as (t1 & i1 & ? & Hn & H' & ->).
    apply ret_run in H' as (-> & -> & ->). rewrite app_nil_r, issueUnless_negb.
    exact (RunArrayClose _ _ _ _ _ Hc Ec Hn).
  - (* trivia *)
    assert (H' : (tokenizerNext ;; r <- parseArrayLoop n flags ;;
                  ret (TokenSeg tok :: fst r, snd r)) t = Some (r, t', iss)).
    { destruct (getType tok); try discriminate Ec; exact H. }
    apply (arrayLoop_token_run n flags _ _ _ _ _ HR) in H'
      as (t1 & i1 & added & closed & i2 & Hn & Hl & -> & ->).
    exact (RunArrayTrivia _ _ _ _ _ _ _ _ _ Hc Ec Hn Hl).
  - (* a comma *)
    assert (H' : (addIssueIf (negb (commaAllowed flags))
                    (Error (arrayCommaMessage flags) (tokenSpan tok)) ;;
                  tokenizerNext ;; r <- parseArrayLoop n afterComma ;;
                  ret (TokenSeg tok :: fst r, snd r)) t = Some (r, t', iss)).
    { destruct (getType tok); try discriminate Ec; exact H. }
    apply addIssueIf_run in H' as (? & H' & ->).
    apply (arrayLoop_token_run n afterComma _ _ _ _ _ HR) in H'
      as (t1 & i1 & added & closed & i2 & Hn & Hl & -> & ->).
    rewrite issueUnless_negb.
    exact (RunArrayComma _ _ _ _ _ _ _ _ _ Hc Ec Hn Hl).
  - (* any other token *)
    assert (H' : (addIssue (Error (arrayOtherMessage flags) (tokenSpan tok)) ;;
                  tokenizerNext ;; r <- parseArrayLoop n afterValue ;;
                  ret (TokenSeg tok :: fst r, snd r)) t = Some (r, t', iss)).
    { destruct (getType tok); try discriminate Ec; exact H. }
    apply addIssue_run in H' as (? & H' & ->).
    apply (arrayLoop_token_run n afterValue _ _ _ _ _ HR) in H'
      as (t1 & i1 & added & closed & i2 & Hn & Hl & -> & ->).
    exact (RunArrayOther _ _ _ _ _ _ _ _ _ Hc Ec Hn Hl).
Qed.

Lemma runs_zero : RunsOf 0.
Proof.
  unfold RunsOf. repeat split; intros; try discriminate.
  - cbn [parseObjectLoop] in H. rewrite current_run in H.
    destruct (getCurrent t) eqn:Hc; [discriminate H|].
    apply ret_run in H as (-> & -> & ->). now apply RunObjectEnd.
  - cbn [parseArrayLoop] in H. rewrite current_run in H.
    destruct (getCurrent t) eqn:Hc; [discriminate H|].
    apply ret_run in H as (-> & -> & ->). now apply RunArrayEnd.
Qed.

(** Whatever the code returns, the relation gives. *)
Lemma parser_runs (fuel : nat) : RunsOf fuel.
Proof.
  induction fuel as [|n IH]; [exact runs_zero|].
  unfold RunsOf. split; [|split; [|split; [|split]]].
  - exact (property_run n IH).
  - exact (object_run n IH).
  - exact (objectLoop_run n IH).
  - exact (array_run n IH).
  - exact (arrayLoop_run n IH).
Qed.

Lemma parseLoop_run (fuel : nat) :
  forall found t segs t' iss,
    parseLoop fuel found t = Some (segs, t', iss) -> RunDocument found t segs iss.
Proof.
  induction fuel as [|n IH]; intros found t segs t' iss H;
    cbn [parseLoop] in H; rewrite current_run in H;
    destruct (getCurrent t) as [tok|] eqn:Hc;
    try (apply ret_run in H as (-> & -> & ->); now apply RunDocumentEnd);
    [discriminate H|].
  apply bind_run in H as (segment & t1 & i1 & ? & Hs & H & ->).
  apply addIssueIf_run in H as (? & H & ->).
  apply bind_run in H as (rest & t2 & i2 & ? & Hl & H & ->).
  apply ret_run in H as (-> & -> & ->). rewrite app_nil_r. apply IH in Hl.
  unfold parseSegment in Hs. rewrite current_run, Hc in Hs.
  destruct (rootClass (getType tok)) as [object|] eqn:Er.
  - assert (Hb : RunBracket object t segment t1 i1).
    { destruct (getType tok); try discriminate Er; injection Er as <-;
        [apply (proj1 (proj2 (parser_runs n))) in Hs
        | apply (proj1 (proj2 (proj2 (proj2 (parser_runs n))))) in Hs]; apply Hs. }
    assert (Ho : exists l, segment = ObjectSegment l \/ segment = ArraySegment l).
    { destruct Hb; eexists; eauto. }
    destruct Ho as (l & [-> | ->]); cbn [andb orb] in *;
      replace (found || true) with true in Hl by (now destruct found);
      exact (RunDocumentNested _ _ _ _ _ _ _ _ _ Hc Er Hb Hl).
  - assert (Hs' : (tokenizerNext ;; ret (TokenSeg tok)) t = Some (segment, t1, i1)).
    { destruct (getType tok); try discriminate Er; exact Hs. }
    apply next_run in Hs' as (t1' & i1' & ? & Hn & Hs' & ->).
    apply ret_run in Hs' as (-> & -> & ->). rewrite app_nil_r.
    assert (E : forall b : bool,
               (if b && found then [Error msgExpectedEndOfFile (span (TokenSeg tok))] else [])
               = issueUnless (negb (b && found)) msgExpectedEndOfFile tok).
    { intros b. now destruct (b && found). }
    assert (Et : match getType tok with
                 | TokenType.NewLine | TokenType.Whitespace => false
                 | _ => true
                 end = startsRoot (getType tok)) by reflexivity.
    cbv beta iota in Hl. cbv beta iota. rewrite Et in *. rewrite E.
    exact (RunDocumentToken _ _ _ _ _ _ _ Hc Er Hn Hl).
Qed.

(** What [parse] returns: the first [next()] and a run of the document
    loop. *)
Lemma parse_run (s : string) (d : Document) (iss : list Issue) :
  parse s = Some (d, iss) ->
  exists t0 i0 i1,
    next (newTokenizer (lex s) 0) = (t0, i0)
    /\ RunDocument false t0 (documentSegments d) i1
    /\ iss = i0 ++ i1.
Proof.
  unfold parse, parseLexes. intros H.
  destruct ((tokenizerNext ;; parseLoop (fuelFor (lex s)) false) (newTokenizer (lex s) 0))
    as [[[segs t'] i]|] eqn:E; [|discriminate H].
  injection H as <- <-.
  apply next_run in E as (t0 & i0 & i1 & Hn & Hl & ->).
  apply parseLoop_run in Hl. exists t0, i0, i1. auto.
Qed.

(** ** The parser only groups the tokens *)

(** The tokens of a segment, in the order of the text. *)
Fixpoint leaves (s : Segment) : list Token :=
  match s with
  | TokenSeg t => [t]
  | Property l | ObjectSegment l | ArraySegment l => flat_map leaves l
  end.

(** [Upcoming t tokens iss]: the tokens that a started tokenizer hands out
    from the state [t] on, the current one first, and the issues it adds
    while doing so. *)
Inductive Upcoming : Tokenizer -> list Token -> list Issue -> Prop :=
| UpcomingEnd (t : Tokenizer) : getCurrent t = None -> Upcoming t [] []
| UpcomingStep (t : Tokenizer) (tok : Token) (t1 : Tokenizer) (i1 : list Issue)
               (r : list Token) (ir : list Issue) :
    getCurrent t = Some tok -> next t = (t1, i1) -> Upcoming t1 r ir ->
    Upcoming t (tok :: r) (i1 ++ ir).

Lemma upcoming_unique (t : Tokenizer) (a : list Token) (ia : list Issue) :
  Upcoming t a ia -> forall b ib, Upcoming t b ib -> b = a /\ ib = ia.
Proof.
  induction 1 as [t Hc | t tok t1 i1 r ir Hc Hn _ IH]; intros b ib Hb.
  - inversion Hb; subst; [auto | congruence].
  - inversion Hb as [? Hc0 | ? tok0 t0 i0 r0 ir0 Hc0 Hn0 Hu0]; subst; [congruence|].
    assert (tok0 = tok) by congruence. subst tok0.
    assert (E : (t0, i0) = (t1, i1)) by congruence. injection E as -> ->.
    destruct (IH _ _ Hu0) as [-> ->]. auto.
Qed.

Lemma tokenizeLoop_upcoming (fuel : nat) :
  forall t tokens iss t' i,
    tokenizeLoop fuel t = Some (tokens, iss) -> next t = (t', i) ->
    exists ir, Upcoming t' tokens ir /\ iss = i ++ ir.
Proof.
  induction fuel as [|n IH]; intros t tokens iss t' i H Hn; cbn [tokenizeLoop] in H;
    rewrite Hn in H; destruct (getCurrent t') as [tok|] eqn:Hc.
  - discriminate H.
  - injection H as <- <-. exists []. rewrite app_nil_r. split; [now constructor | reflexivity].
  - destruct (tokenizeLoop n t') as [[toks more]|] eqn:Hr; [|discriminate H].
    injection H as <- <-. destruct (next t') as [t2 i2] eqn:Hn2.
    destruct (IH _ _ _ _ _ Hr Hn2) as (ir & Hu & ->).
    exists (i2 ++ ir). split; [|reflexivity].
    exact (UpcomingStep _ _ _ _ _ _ Hc Hn2 Hu).
  - injection H as <- <-. exists []. rewrite app_nil_r. split; [now constructor | reflexivity].
Qed.

(** [a] is [b] with some elements left out. *)
Inductive Subseq {X : Type} : list X -> list X -> Prop :=
| SubseqNil : Subseq [] []
| SubseqTake (x : X) (a b : list X) : Subseq a b -> Subseq (x :: a) (x :: b)
| SubseqSkip (x : X) (a b : list X) : Subseq a b -> Subseq a (x :: b).

Lemma subseq_refl {X : Type} (a : list X) : Subseq a a.
Proof. induction a; constructor; assumption. Qed.

Lemma subseq_nil {X : Type} (b : list X) : Subseq [] b.
Proof. induction b; constructor; assumption. Qed.

Lemma subseq_app {X : Type} (a b c d : list X) :
  Subseq a b -> Subseq c d -> Subseq (a ++ c) (b ++ d).
Proof. induction 1; intros Hcd; simpl; [exact Hcd | | ]; constructor; auto. Qed.

Lemma subseq_skip_l {X : Type} (a b c : list X) : Subseq a b -> Subseq a (c ++ b).
Proof. intros H. exact (subseq_app [] c a b (subseq_nil c) H). Qed.

Lemma subseq_skip_r {X : Type} (a b c : list X) : Subseq a b -> Subseq a (b ++ c).
Proof.
  intros H. rewrite <- (app_nil_r a). exact (subseq_app a b [] c H (subseq_nil c)).
Qed.

(** [Feeds t tokens it t' iss]: getting from the state [t] to the state [t']
    hands out [tokens]; the tokenizer adds [it] on the way, which is among
    the issues [iss] of the run, in the same order. *)
Definition Feeds (t : Tokenizer) (tokens : list Token) (t' : Tokenizer)
           (iss : list Issue) : Prop :=
  exists it,
    Subseq it iss
    /\ forall r ir, Upcoming t' r ir -> Upcoming t (tokens ++ r) (it ++ ir).

Lemma feeds_nil (t : Tokenizer) (iss : list Issue) : Feeds t [] t iss.
Proof. exists []. split; [apply subseq_nil | auto]. Qed.

Lemma feeds_step (t : Tokenizer) (tok : Token) (t1 : Tokenizer) (i1 : list Issue) :
  getCurrent t = Some tok -> next t = (t1, i1) -> Feeds t [tok] t1 i1.
Proof.
  intros Hc Hn. exists i1. split; [apply subseq_refl|].
  intros r ir Hu. exact (UpcomingStep _ _ _ _ _ _ Hc Hn Hu).
Qed.

Lemma feeds_app (t t1 t2 : Tokenizer) (a b : list Token) (i1 i2 : list Issue) :
  Feeds t a t1 i1 -> Feeds t1 b t2 i2 -> Feeds t (a ++ b) t2 (i1 ++ i2).
Proof.
  intros (x1 & S1 & F1) (x2 & S2 & F2). exists (x1 ++ x2).
  split; [now apply subseq_app|]. intros r ir Hu.
  rewrite <- !app_assoc. apply F1, F2, Hu.
Qed.

Lemma feeds_more_l (t t1 : Tokenizer) (a : list Token) (i1 pre : list Issue) :
  Feeds t a t1 i1 -> Feeds t a t1 (pre ++ i1).
Proof. intros (x & S & F). exists x. split; [now apply subseq_skip_l | exact F]. Qed.

Lemma feeds_more_r (t t1 : Tokenizer) (a : list Token) (i1 post : list Issue) :
  Feeds t a t1 i1 -> Feeds t a t1 (i1 ++ post).
Proof. intros (x & S & F). exists x. split; [now apply subseq_skip_r | exact F]. Qed.

Lemma ws_feeds (t : Tokenizer) (ws : list Segment) (t' : Tokenizer) (iss : list Issue) :
  RunWs t ws t' iss -> Feeds t (flat_map leaves ws) t' iss.
Proof.
  induction 1 as [t Hc | t tok Hc Hty | t tok t1 i1 ws t2 i2 Hc Hty Hn _ IH].
  - apply feeds_nil.
  - apply feeds_nil.
  - exact (feeds_app _ _ _ [tok] _ _ _ (feeds_step _ _ _ _ Hc Hn) IH).
Qed.

Lemma name_feeds (t : Tokenizer) (name : Token) (ws : list Segment) (t' : Tokenizer)
      (iss : list Issue) :
  RunName t name ws t' iss -> Feeds t (name :: flat_map leaves ws) t' iss.
Proof.
  intros [t0 name0 t1 i1 ws0 t2 i2 Hc Hn Hw].
  exact (feeds_app _ _ _ [name0] _ _ _ (feeds_step _ _ _ _ Hc Hn) (ws_feeds _ _ _ _ Hw)).
Qed.

Lemma leaves_app (a b : list Segment) :
  flat_map leaves (a ++ b) = flat_map leaves a ++ flat_map leaves b.
Proof. apply flat_map_app. Qed.

(** A run hands out the tokens of the segments it returns. *)
Lemma run_feeds :
  (forall t seg t' iss, RunProperty t seg t' iss -> Feeds t (leaves seg) t' iss)
  /\ (forall object t seg t' iss, RunBracket object t seg t' iss -> Feeds t (leaves seg) t' iss)
  /\ (forall flags t added closed t' iss,
        RunObjectLoop flags t added closed t' iss -> Feeds t (flat_map leaves added) t' iss)
  /\ (forall flags t added closed t' iss,
        RunArrayLoop flags t added closed t' iss -> Feeds t (flat_map leaves added) t' iss).
Proof.
  apply Run_mutind; intros; cbn [leaves flat_map];
    repeat match goal with
      | H : RunName _ _ _ _ _ |- _ => apply name_feeds in H
      | H : getCurrent ?t = Some ?tok, Hn : next ?t = _ |- _ =>
          pose proof (feeds_step _ _ _ _ H Hn); clear Hn
      end;
    rewrite ?leaves_app; cbn [leaves flat_map]; rewrite ?leaves_app; cbn [leaves flat_map];
    try apply feeds_nil.
  - now apply feeds_more_r.
  - now apply feeds_more_r.
  - rewrite (app_assoc i1 i3). apply feeds_more_r.
    exact (feeds_app _ _ _ (name :: flat_map leaves ws1) (colon :: flat_map leaves ws2)
             _ _ H H1).
  - rewrite (app_assoc i1 i3). apply feeds_more_r.
    exact (feeds_app _ _ _ (name :: flat_map leaves ws1) (colon :: flat_map leaves ws2)
             _ _ H H1).
  - rewrite ?app_nil_r.
    apply (feeds_app _ _ _ (name :: flat_map leaves ws1)
             (colon :: flat_map leaves ws2 ++ [value]) _ _ H).
    exact (feeds_app _ _ _ (colon :: flat_map leaves ws2) [value] _ _ H1 H5).
  - rewrite ?app_nil_r.
    apply (feeds_app _ _ _ (name :: flat_map leaves ws1)
             (colon :: flat_map leaves ws2 ++ leaves value) _ _ H).
    exact (feeds_app _ _ _ (colon :: flat_map leaves ws2) (leaves value) _ _ H1 H5).
  - rewrite (app_assoc i1 i2). apply feeds_more_r.
    exact (feeds_app _ _ _ [leftCurlyBracket] _ _ _ H3 H2).
  - rewrite (app_assoc i1 i2). apply feeds_more_r.
    exact (feeds_app _ _ _ [leftSquareBracket] _ _ _ H3 H2).
  - apply feeds_more_l. exact (feeds_app _ _ _ _ _ _ _ H2 H4).
  - apply feeds_more_l. exact H2.
  - exact (feeds_app _ _ _ [tok] _ _ _ H4 H3).
  - apply feeds_more_l. exact (feeds_app _ _ _ [tok] _ _ _ H4 H3).
  - apply feeds_more_l. exact (feeds_app _ _ _ [tok] _ _ _ H4 H3).
  - apply feeds_more_l. exact (feeds_app _ _ _ [tok] _ _ _ H4 H3).
  - apply feeds_more_l. exact (feeds_app _ _ _ _ _ _ _ H2 H4).
  - apply feeds_more_l. exact (feeds_app _ _ _ [tok] _ _ _ H4 H3).
  - apply feeds_more_l. exact H2.
  - exact (feeds_app _ _ _ [tok] _ _ _ H4 H3).
  - apply feeds_more_l. exact (feeds_app _ _ _ [tok] _ _ _ H4 H3).
Qed.

Lemma document_upcoming (found : bool) (t : Tokenizer) (segs : list Segment)
      (iss : list Issue) :
  RunDocument found t segs iss ->
  exists it, Subseq it iss /\ Upcoming t (flat_map leaves segs) it.
Proof.
  induction 1 as [found t Hc
                 | found t tok t1 i1 segs i2 Hc Hr Hn _ (it & Hs & Hu)
                 | found t tok object value t1 i1 segs i2 Hc Hr Hb _ (it & Hs & Hu)].
  - exists []. split; [constructor | now constructor].
  - exists (i1 ++ it). split.
    + apply subseq_app; [apply subseq_refl | now apply subseq_skip_l].
    + exact (UpcomingStep _ _ _ _ _ _ Hc Hn Hu).
  - destruct (proj1 (proj2 run_feeds) _ _ _ _ _ Hb) as (x & Sx & Fx).
    exists (x ++ it). split.
    + apply subseq_app; [exact Sx | now apply subseq_skip_l].
    + cbn [flat_map]. exact (Fx _ _ Hu).
Qed.

(** X5. The tokens of the parsed document, read off its segments from left to
    right, are the tokens the tokenizer produces for the text; and every
    issue of the tokenizer is among the issues of the parse, in the same
    order. *)
Theorem X5_document_leaves_are_the_tokens (s : string) :
  exists d iss tokens tiss,
    parse s = Some (d, iss)
    /\ tokenize s = Some (tokens, tiss)
    /\ flat_map leaves (documentSegments d) = tokens
    /\ Subseq tiss iss.
Proof.
  destruct (parseLexes_spec (lex s) (lex_wf s)) as (segs & iss & Hp & _).
  destruct (tokenizeLoop_tiles (length (lex s)) (newTokenizer (lex s) 0))
    as (tokens & tiss & Hrun & _).
  { right. exists (lex s), 0. split; [reflexivity | apply lex_wf]. }
  { apply Nat.le_refl. }
  exists (mkDocument segs), iss, tokens, tiss.
  split; [exact Hp|]. split; [exact Hrun|].
  destruct (parse_run _ _ _ Hp) as (t0 & i0 & i1 & Hn & Hd & ->).
  destruct (document_upcoming _ _ _ _ Hd) as (it & Hs & Hu).
  destruct (tokenizeLoop_upcoming _ _ _ _ _ _ Hrun Hn) as (ir & Hu' & ->).
  destruct (upcoming_unique _ _ _ Hu _ _ Hu') as [-> ->].
  split; [reflexivity|]. apply subseq_app; [apply subseq_refl | exact Hs].
Qed.

(** ** Documents without issues *)

(** The comments, line breaks and whitespace that may stand anywhere inside
    an object or array. *)
Definition isTrivia (s : Segment) : bool :=
  match s with
  | TokenSeg t =>
      match getType t with
      | TokenType.NewLine | TokenType.Whitespace
      | TokenType.LineComment | TokenType.BlockComment => true
      | _ => false
      end
  | _ => false
  end.

(** The line breaks and whitespace that may stand around the root. *)
Definition isBlank (s : Segment) : bool :=
  match s with
  | TokenSeg t => negb (startsRoot (getType t))
  | _ => false
  end.

Definition isWhitespace (s : Segment) : bool := isTokenOfType s TokenType.Whitespace.

(** The segment trees the parser takes without adding an issue of its own.
    [ValidValue]: a literal token, or an object or array that starts with its
    left bracket and goes on as [Members] or [Elements] say.  [Members] is
    what may follow the left curly bracket, [AfterMember] what may follow a
    property, [NextMember] what may follow a comma; the three end with the
    right curly bracket.  A property is a name, a colon and a value, with
    nothing but whitespace tokens in between. *)
Inductive ValidValue : Segment -> Prop :=
| ValidLiteral (t : Token) :
    valueClass (getType t) = VLiteral -> ValidValue (TokenSeg t)
| ValidObject (open : Token) (l : list Segment) :
    getType open = TokenType.LeftCurlyBracket -> Members l ->
    ValidValue (ObjectSegment (TokenSeg open :: l))
| ValidArray (open : Token) (l : list Segment) :
    getType open = TokenType.LeftSquareBracket -> Elements l ->
    ValidValue (ArraySegment (TokenSeg open :: l))

with ValidProperty : Segment -> Prop :=
| ValidPropertyIntro (name : Token) (ws1 : list Segment) (colon : Token)
                     (ws2 : list Segment) (value : Segment) :
    getType name = TokenType.QuotedString ->
    forallb isWhitespace ws1 = true ->
    getType colon = TokenType.Colon ->
    forallb isWhitespace ws2 = true ->
    ValidValue value ->
    ValidProperty (Property (TokenSeg name :: ws1 ++ TokenSeg colon :: ws2 ++ [value]))

with Members : list Segment -> Prop :=
| MembersTrivia (x : Segment) (l : list Segment) :
    isTrivia x = true -> Members l -> Members (x :: l)
| MembersClose (close : Token) :
    getType close = TokenType.RightCurlyBracket -> Members [TokenSeg close]
| MembersProperty (p : Segment) (l : list Segment) :
    ValidProperty p -> AfterMember l -> Members (p :: l)

with AfterMember : list Segment -> Prop :=
| AfterMemberTrivia (x : Segment) (l : list Segment) :
    isTrivia x = true -> AfterMember l -> AfterMember (x :: l)
| AfterMemberClose (close : Token) :
    getType close = TokenType.RightCurlyBracket -> AfterMember [TokenSeg close]
| AfterMemberComma (comma : Token) (l : list Segment) :
    getType comma = TokenType.Comma -> NextMember l -> AfterMember (TokenSeg comma :: l)

with NextMember : list Segment -> Prop :=
| NextMemberTrivia (x : Segment) (l : list Segment) :
    isTrivia x = true -> NextMember l -> NextMember (x :: l)
| NextMemberProperty (p : Segment) (l : list Segment) :
    ValidProperty p -> AfterMember l -> NextMember (p :: l)

with Elements : list Segment -> Prop :=
| ElementsTrivia (x : Segment) (l : list Segment) :
    isTrivia x = true -> Elements l -> Elements (x :: l)
| ElementsClose (close : Token) :
    getType close = TokenType.RightSquareBracket -> Elements [TokenSeg close]
| ElementsValue (v : Segment) (l : list Segment) :
    ValidValue v -> AfterElement l -> Elements (v :: l)

with AfterElement : list Segment -> Prop :=
| AfterElementTrivia (x : Segment) (l : list Segment) :
    isTrivia x = true -> AfterElement l -> AfterElement (x :: l)
| AfterElementClose (close : Token) :
    getType close = TokenType.RightSquareBracket -> AfterElement [TokenSeg close]
| AfterElementComma (comma : Token) (l : list Segment) :
    getType comma = TokenType.Comma -> NextElement l -> AfterElement (TokenSeg comma :: l)

with NextElement : list Segment -> Prop :=
| NextElementTrivia (x : Segment) (l : list Segment) :
    isTrivia x = true -> NextElement l -> NextElement (x :: l)
| NextElementValue (v : Segment) (l : list Segment) :
    ValidValue v -> AfterElement l -> NextElement (v :: l).

(** The top of a document: line breaks and whitespace around at most one
    root, which is a valid object or array, or one token of any other
    type. *)
Inductive ValidDocument : list Segment -> Prop :=
| ValidDocumentEnd : ValidDocument []
| ValidDocumentBlank (x : Segment) (l : list Segment) :
    isBlank x = true -> ValidDocument l -> ValidDocument (x :: l)
| ValidDocumentToken (t : Token) (l : list Segment) :
    startsRoot (getType t) = true -> rootClass (getType t) = None ->
    forallb isBlank l = true -> ValidDocument (TokenSeg t :: l)
| ValidDocumentRoot (v : Segment) (l : list Segment) :
    ValidValue v -> forallb isBlank l = true -> ValidDocument (v :: l).

(** The member state that the flags of a loop stand for. *)
Inductive Stage : Set := AtStart | AfterItem | AfterComma.

Definition stageOf (flags : Flags) : option Stage :=
  match flags with
  | mkFlags true false true => Some AtStart
  | mkFlags false true true => Some AfterItem
  | mkFlags true false false => Some AfterComma
  | _ => None
  end.

Definition MembersAt (stage : Stage) : list Segment -> Prop :=
  match stage with
  | AtStart => Members
  | AfterItem => AfterMember
  | AfterComma => NextMember
  end.

Definition ElementsAt (stage : Stage) : list Segment -> Prop :=
  match stage with
  | AtStart => Elements
  | AfterItem => AfterElement
  | AfterComma => NextElement
  end.

Lemma ws_whitespace (t : Tokenizer) (ws : list Segment) (t' : Tokenizer) (iss : list Issue) :
  RunWs t ws t' iss -> forallb isWhitespace ws = true.
Proof.
  induction 1 as [| |t tok t1 i1 ws t2 i2 Hc Hty Hn _ IH]; [reflexivity | reflexivity|].
  simpl. unfold isWhitespace at 1. simpl. rewrite Hty. exact IH.
Qed.

Lemma name_facts (t : Tokenizer) (name : Token) (ws : list Segment) (t' : Tokenizer)
      (iss : list Issue) :
  RunName t name ws t' iss -> getCurrent t = Some name /\ forallb isWhitespace ws = true.
Proof. intros [? ? ? ? ? ? ? Hc Hn Hw]. split; [exact Hc | exact (ws_whitespace _ _ _ _ Hw)]. Qed.

Lemma name_quiet (t : Tokenizer) (name : Token) (ws : list Segment) (t' : Tokenizer) :
  forall iss, RunName t name ws t' iss -> forall a b, iss ++ a = b -> b = [] -> a = [].
Proof. intros iss _ a b <- H. now apply app_eq_nil in H. Qed.

Lemma issueUnless_nil (c : bool) (msg : string) (tok : Token) :
  issueUnless c msg tok = [] -> c = true.
Proof. destruct c; [reflexivity | discriminate]. Qed.

Lemma objectCase_types (ty : TokenType.t) :
  match objectCase ty with
  | LName => ty = TokenType.QuotedString
  | LClose => ty = TokenType.RightCurlyBracket
  | LComma => ty = TokenType.Comma
  | LTrivia => ty = TokenType.NewLine \/ ty = TokenType.Whitespace
               \/ ty = TokenType.LineComment \/ ty = TokenType.BlockComment
  | _ => Logic.True
  end.
Proof. destruct ty; simpl; auto. Qed.

Lemma arrayCase_types (ty : TokenType.t) :
  match arrayCase ty with
  | LValue => valueClass ty = VLiteral
  | LOpen object => ty = leftOf object
  | LClose => ty = TokenType.RightSquareBracket
  | LComma => ty = TokenType.Comma
  | LTrivia => ty = TokenType.NewLine \/ ty = TokenType.Whitespace
               \/ ty = TokenType.LineComment \/ ty = TokenType.BlockComment
  | _ => Logic.True
  end.
Proof. destruct ty; simpl; auto. Qed.

Lemma trivia_object (tok : Token) :
  objectCase (getType tok) = LTrivia -> isTrivia (TokenSeg tok) = true.
Proof. simpl. destruct (getType tok); simpl; intros H; try discriminate H; reflexivity. Qed.

Lemma trivia_array (tok : Token) :
  arrayCase (getType tok) = LTrivia -> isTrivia (TokenSeg tok) = true.
Proof. simpl. destruct (getType tok); simpl; intros H; try discriminate H; reflexivity. Qed.

Ltac quiet :=
  repeat match goal with
    | H : _ ++ _ = [] |- _ => apply app_eq_nil in H as [? ?]
    | H : issueUnless _ _ _ = [] |- _ => apply issueUnless_nil in H
    | H : _ :: _ = [] |- _ => discriminate H
    | H : [] = [] |- _ => clear H
    end; subst.

Ltac use_ih :=
  repeat match goal with
    | IH : [] = [] -> _ |- _ => specialize (IH eq_refl)
    | IH : true = true -> _ |- _ => specialize (IH eq_refl)
    | IH : forall stage, stageOf afterValue = Some stage -> _ |- _ =>
        specialize (IH AfterItem eq_refl); simpl in IH
    | IH : forall stage, stageOf afterComma = Some stage -> _ |- _ =>
        specialize (IH AfterComma eq_refl); simpl in IH
    | IH : forall stage, stageOf initialFlags = Some stage -> _ |- _ =>
        specialize (IH AtStart eq_refl); simpl in IH
    | IH : forall stage, stageOf ?flags = Some stage -> _, H : stageOf ?flags = Some _ |- _ =>
        specialize (IH _ H)
    | IH : forall x, getCurrent ?t = Some x -> _, H : getCurrent ?t = Some _ |- _ =>
        specialize (IH _ H)
    | H1 : getCurrent ?t = Some ?a, H2 : getCurrent ?t = Some ?b |- _ =>
        assert (a = b) by congruence; subst a; clear H2
    end.

Ltac case_types :=
  repeat match goal with
    | H : objectCase (getType ?tok) = _ |- _ =>
        let Hty := fresh "Hty" in
        pose proof (objectCase_types (getType tok)) as Hty; rewrite H in Hty;
        try (pose proof (trivia_object _ H)); clear H
    | H : arrayCase (getType ?tok) = _ |- _ =>
        let Hty := fresh "Hty" in
        pose proof (arrayCase_types (getType tok)) as Hty; rewrite H in Hty;
        try (pose proof (trivia_array _ H)); clear H
    | H : valueClass (getType ?x) = VNested _ |- _ => apply valueClass_nested in H
    end;
  repeat match goal with
    | IH : ?P -> _, H : ?P |- _ => specialize (IH H)
    end.

Ltac stage_cases :=
  match goal with
  | E : stageOf ?flags = Some ?stage |- _ =>
      destruct flags as [[|] [|] [|]]; simpl in E; try discriminate E;
      first [injection E as <- | clear E]; simpl in *; try discriminate
  end.

(** A run that adds no issue returns valid segments. *)
Lemma quiet_runs_valid :
  (forall t seg t' iss, RunProperty t seg t' iss ->
     iss = [] -> forall name, getCurrent t = Some name ->
     getType name = TokenType.QuotedString -> ValidProperty seg)
  /\ (forall object t seg t' iss, RunBracket object t seg t' iss ->
        iss = [] -> forall open, getCurrent t = Some open ->
        getType open = leftOf object -> ValidValue seg)
  /\ (forall flags t added closed t' iss, RunObjectLoop flags t added closed t' iss ->
        iss = [] -> closed = true ->
        forall stage, stageOf flags = Some stage -> MembersAt stage added)
  /\ (forall flags t added closed t' iss, RunArrayLoop flags t added closed t' iss ->
        iss = [] -> closed = true ->
        forall stage, stageOf flags = Some stage -> ElementsAt stage added).
Proof.
  apply Run_mutind; intros;
    repeat match goal with
      | H : RunName _ _ _ _ _ |- _ => apply name_facts in H as [? ?]
      end;
    quiet; try discriminate; use_ih.
  all: case_types.
  all: try (stage_cases; constructor; auto; constructor; auto; fail).
  all: try (constructor; auto; constructor; auto; fail).
  all: try (match goal with
            | |- MembersAt ?s _ => destruct s
            | |- ElementsAt ?s _ => destruct s
            end; constructor; auto; fail).
Qed.

Lemma quiet_document_valid (found : bool) (t : Tokenizer) (segs : list Segment)
      (iss : list Issue) :
  RunDocument found t segs iss -> iss = [] ->
  if found then forallb isBlank segs = true else ValidDocument segs.
Proof.
  induction 1 as [found t Hc
                 | found t tok t1 i1 segs i2 Hc Hr Hn _ IH
                 | found t tok object value t1 i1 segs i2 Hc Hr Hb _ IH]; intros E.
  - destruct found; [reflexivity | constructor].
  - quiet. specialize (IH eq_refl).
    destruct found, (startsRoot (getType tok)) eqn:Es; simpl in *; try discriminate.
    + unfold isBlank at 1. simpl. now rewrite Es.
    + now apply ValidDocumentToken.
    + apply ValidDocumentBlank; [|exact IH]. simpl. now rewrite Es.
  - quiet. destruct found; [discriminate|]. specialize (IH eq_refl).
    apply ValidDocumentRoot; [|exact IH].
    exact (proj1 (proj2 quiet_runs_valid) _ _ _ _ _ Hb eq_refl tok Hc
             (proj1 (root_opens _ _) Hr)).
Qed.


(** ** Valid documents get no issue from the parser *)

(** [Hands t tokens t' iss]: getting from the state [t] to the state [t']
    hands out [tokens], and [iss] is what the tokenizer adds on the way. *)
Definition Hands (t : Tokenizer) (tokens : list Token) (t' : Tokenizer)
           (iss : list Issue) : Prop :=
  forall r ir, Upcoming t' r ir -> Upcoming t (tokens ++ r) (iss ++ ir).

Lemma hands_nil (t : Tokenizer) : Hands t [] t [].
Proof. intros r ir H. exact H. Qed.

Lemma hands_step (t : Tokenizer) (tok : Token) (t1 : Tokenizer) (i1 : list Issue) :
  getCurrent t = Some tok -> next t = (t1, i1) -> Hands t [tok] t1 i1.
Proof. intros Hc Hn r ir Hu. exact (UpcomingStep _ _ _ _ _ _ Hc Hn Hu). Qed.

Lemma hands_app (t t1 t2 : Tokenizer) (a b : list Token) (i1 i2 : list Issue) :
  Hands t a t1 i1 -> Hands t1 b t2 i2 -> Hands t (a ++ b) t2 (i1 ++ i2).
Proof. intros F1 F2 r ir Hu. rewrite <- !app_assoc. apply F1, F2, Hu. Qed.

Lemma ws_hands (t : Tokenizer) (ws : list Segment) (t' : Tokenizer) (iss : list Issue) :
  RunWs t ws t' iss -> Hands t (flat_map leaves ws) t' iss.
Proof.
  induction 1 as [t Hc | t tok Hc Hty | t tok t1 i1 ws t2 i2 Hc Hty Hn _ IH].
  - apply hands_nil.
  - apply hands_nil.
  - exact (hands_app _ _ _ [tok] _ _ _ (hands_step _ _ _ _ Hc Hn) IH).
Qed.

Lemma name_hands (t : Tokenizer) (name : Token) (ws : list Segment) (t' : Tokenizer)
      (iss : list Issue) :
  RunName t name ws t' iss -> Hands t (name :: flat_map leaves ws) t' iss.
Proof.
  intros [t0 name0 t1 i1 ws0 t2 i2 Hc Hn Hw].
  exact (hands_app _ _ _ [name0] _ _ _ (hands_step _ _ _ _ Hc Hn) (ws_hands _ _ _ _ Hw)).
Qed.

Lemma whitespace_split (a a' : list Segment) (x x' : Segment) (b b' : list Segment) :
  forallb isWhitespace a = true -> forallb isWhitespace a' = true ->
  isWhitespace x = false -> isWhitespace x' = false ->
  a ++ x :: b = a' ++ x' :: b' -> a = a' /\ x = x' /\ b = b'.
Proof.
  revert a'. induction a as [|y a IH]; intros [|y' a'] Ha Ha' Hx Hx' E; simpl in *.
  - injection E as -> ->. auto.
  - injection E as -> _. apply andb_true_iff in Ha' as [Hy _]. congruence.
  - injection E as -> _. apply andb_true_iff in Ha as [Hy _]. congruence.
  - injection E as -> E. apply andb_true_iff in Ha as [_ Ha]. apply andb_true_iff in Ha' as [_ Ha'].
    destruct (IH _ Ha Ha' Hx Hx' E) as (-> & -> & ->). auto.
Qed.

Lemma whitespace_whole (a a' : list Segment) (x' : Segment) (b' : list Segment) :
  forallb isWhitespace a = true -> isWhitespace x' = false -> a = a' ++ x' :: b' -> Logic.False.
Proof.
  intros Ha Hx ->. rewrite forallb_app in Ha. apply andb_true_iff in Ha as [_ Ha].
  simpl in Ha. rewrite Hx in Ha. discriminate Ha.
Qed.

Lemma valid_solid (v : Segment) : ValidValue v -> isWhitespace v = false /\ isTrivia v = false.
Proof.
  intros [t Ht | |]; [|auto | auto].
  unfold isWhitespace. simpl. destruct (getType t); try discriminate Ht; auto.
Qed.

Lemma colon_solid_segment (colon : Token) :
  getType colon = TokenType.Colon -> isWhitespace (TokenSeg colon) = false.
Proof. unfold isWhitespace. simpl. now intros ->. Qed.

Lemma property_form (t : Tokenizer) (seg : Segment) (t' : Tokenizer) (iss : list Issue) :
  RunProperty t seg t' iss -> exists l, seg = Property l.
Proof. intros []; eexists; reflexivity. Qed.

Lemma bracket_form (object : bool) (t : Tokenizer) (seg : Segment) (t' : Tokenizer)
      (iss : list Issue) :
  RunBracket object t seg t' iss ->
  exists l, seg = (if object then ObjectSegment l else ArraySegment l).
Proof. intros []; eexists; reflexivity. Qed.

(** A valid property, taken apart. *)
Lemma valid_property_parts (name : Token) (ws1 : list Segment) (rest : list Segment) :
  ValidProperty (Property (TokenSeg name :: ws1 ++ rest)) ->
  forallb isWhitespace ws1 = true ->
  match rest with
  | [] => Logic.False
  | x :: after =>
      isWhitespace x = false ->
      exists colon ws2 value,
        x = TokenSeg colon /\ getType colon = TokenType.Colon
        /\ after = ws2 ++ [value] /\ forallb isWhitespace ws2 = true /\ ValidValue value
  end.
Proof.
  intros H Hw. remember (Property (TokenSeg name :: ws1 ++ rest)) as p eqn:Ep.
  destruct H as [name' ws1' colon' ws2' v Hn Hw1 Hc Hw2 Hv]. injection Ep as -> E.
  pose proof (colon_solid_segment _ Hc) as Hcs.
  destruct rest as [|x after].
  - rewrite app_nil_r in E. symmetry in E. exact (whitespace_whole _ _ _ _ Hw Hcs E).
  - intros Hx. destruct (whitespace_split _ _ _ _ _ _ Hw Hw1 Hx Hcs (eq_sym E)) as (-> & -> & ->).
    exists colon', ws2', v. auto.
Qed.

Ltac type_clash :=
  repeat match goal with
    | H : objectCase (getType ?tok) = _ |- _ => revert H
    | H : arrayCase (getType ?tok) = _ |- _ => revert H
    | H : valueClass (getType ?tok) = _ |- _ => revert H
    | H : isTrivia (TokenSeg ?tok) = _ |- _ => simpl in H; revert H
    | H : getType ?tok = _ |- _ => revert H
    end;
  match goal with
  | |- context [getType ?tok] => destruct (getType tok); simpl; intros; congruence
  end.

Ltac invalid :=
  match goal with
  | H : ValidProperty (TokenSeg _) |- _ => inversion H
  | H : isTrivia (Property _) = true |- _ => discriminate H
  | H : isTrivia (ObjectSegment _) = true |- _ => discriminate H
  | H : isTrivia (ArraySegment _) = true |- _ => discriminate H
  | H : TokenSeg _ = Property _ |- _ => discriminate H
  | H : Property _ = TokenSeg _ |- _ => discriminate H
  | H : ValidValue (TokenSeg _) |- _ => inversion H; subst; type_clash
  | _ => type_clash
  end.

(** A run that returns valid segments adds the issues of the tokenizer and
    no other. *)
Lemma valid_runs_quiet :
  (forall t seg t' iss, RunProperty t seg t' iss ->
     ValidProperty seg -> Hands t (leaves seg) t' iss)
  /\ (forall object t seg t' iss, RunBracket object t seg t' iss ->
        ValidValue seg -> Hands t (leaves seg) t' iss)
  /\ (forall flags t added closed t' iss, RunObjectLoop flags t added closed t' iss ->
        forall stage, stageOf flags = Some stage -> MembersAt stage added ->
        Hands t (flat_map leaves added) t' iss /\ closed = true)
  /\ (forall flags t added closed t' iss, RunArrayLoop flags t added closed t' iss ->
        forall stage, stageOf flags = Some stage -> ElementsAt stage added ->
        Hands t (flat_map leaves added) t' iss /\ closed = true).
Proof.
  apply Run_mutind.
  - (* no colon: the text ends *)
    intros t name ws1 t2 i1 HN Hc HV. exfalso.
    apply name_facts in HN as [_ Hw]. rewrite <- (app_nil_r ws1) in HV.
    exact (valid_property_parts _ _ _ HV Hw).
  - (* no colon: another token *)
    intros t name ws1 t2 i1 other HN Hc Hty HV. exfalso.
    apply name_facts in HN as [_ Hw]. rewrite <- (app_nil_r ws1) in HV.
    exact (valid_property_parts _ _ _ HV Hw).
  - (* no value: the text ends *)
    intros t name ws1 t2 i1 colon ws2 t4 i3 HN Hty HC Hc HV. exfalso.
    apply name_facts in HN as [_ Hw]. apply name_facts in HC as [_ Hw2].
    destruct (valid_property_parts _ _ _ HV Hw (colon_solid_segment _ Hty))
      as (c & ws & v & _ & _ & E & _ & Hv).
    rewrite E, forallb_app in Hw2. apply andb_true_iff in Hw2 as [_ Hw2]. simpl in Hw2.
    rewrite (proj1 (valid_solid _ Hv)) in Hw2. discriminate Hw2.
  - (* no value: another token *)
    intros t name ws1 t2 i1 colon ws2 t4 i3 other HN Hty HC Hc Hcl HV. exfalso.
    apply name_facts in HN as [_ Hw]. apply name_facts in HC as [_ Hw2].
    destruct (valid_property_parts _ _ _ HV Hw (colon_solid_segment _ Hty))
      as (c & ws & v & _ & _ & E & _ & Hv).
    rewrite E, forallb_app in Hw2. apply andb_true_iff in Hw2 as [_ Hw2]. simpl in Hw2.
    rewrite (proj1 (valid_solid _ Hv)) in Hw2. discriminate Hw2.
  - (* a literal value *)
    intros t name ws1 t2 i1 colon ws2 t4 i3 value t5 i5 HN Hty HC Hc Hcl Hn _.
    cbn [leaves flat_map]. rewrite !leaves_app. cbn [leaves flat_map]. rewrite leaves_app.
    cbn [leaves flat_map].
    apply (hands_app _ _ _ (name :: flat_map leaves ws1)
             (colon :: flat_map leaves ws2 ++ [value]) _ _ (name_hands _ _ _ _ _ HN)).
    exact (hands_app _ _ _ (colon :: flat_map leaves ws2) [value] _ _
             (name_hands _ _ _ _ _ HC) (hands_step _ _ _ _ Hc Hn)).
  - (* a nested value *)
    intros t name ws1 t2 i1 colon ws2 t4 i3 first object value t5 i5
           HN Hty HC Hc Hcl Hb IH HV.
    pose proof (proj2 (name_facts _ _ _ _ _ HN)) as Hw.
    pose proof (proj2 (name_facts _ _ _ _ _ HC)) as Hw2.
    destruct (valid_property_parts _ _ _ HV Hw (colon_solid_segment _ Hty))
      as (c & ws & v & _ & _ & E & _ & Hv).
    apply app_inj_tail in E as [_ ->].
    cbn [leaves flat_map]. rewrite !leaves_app. cbn [leaves flat_map]. rewrite leaves_app.
    cbn [leaves flat_map]. rewrite app_nil_r.
    apply (hands_app _ _ _ (name :: flat_map leaves ws1)
             (colon :: flat_map leaves ws2 ++ leaves v) _ _ (name_hands _ _ _ _ _ HN)).
    exact (hands_app _ _ _ (colon :: flat_map leaves ws2) (leaves v) _ _
             (name_hands _ _ _ _ _ HC) (IH Hv)).
  - (* an object *)
    intros t open t1 i1 added closed t2 i2 Hc Hn Hl IH HV.
    inversion HV as [| open' l Hty Hm |]; subst.
    destruct (IH AtStart eq_refl Hm) as [Hh ->]. simpl. rewrite app_nil_r.
    exact (hands_app _ _ _ [open] _ _ _ (hands_step _ _ _ _ Hc Hn) Hh).
  - (* an array *)
    intros t open t1 i1 added closed t2 i2 Hc Hn Hl IH HV.
    inversion HV as [| | open' l Hty Hm]; subst.
    destruct (IH AtStart eq_refl Hm) as [Hh ->]. simpl. rewrite app_nil_r.
    exact (hands_app _ _ _ [open] _ _ _ (hands_step _ _ _ _ Hc Hn) Hh).
  - (* the object loop: the text ends *)
    intros flags t Hc stage _ HM. destruct stage; inversion HM.
  - (* the object loop: a property *)
    intros flags t tok property t1 i1 added closed t2 i2 Hc Hcase Hp IHp Hl IHl stage Hs HM.
    destruct (property_form _ _ _ _ Hp) as [l ->].
    destruct stage; stage_cases; inversion HM; subst; try invalid;
      match goal with
      | Hv : ValidProperty _, Ha : AfterMember _ |- _ =>
          destruct (IHl AfterItem eq_refl Ha) as [Hh ->]; split; [|reflexivity];
          exact (hands_app _ _ _ _ _ _ _ (IHp Hv) Hh)
      end.
  - (* the object loop: the closing bracket *)
    intros flags t tok t1 i1 Hc Hcase Hn stage Hs HM.
    destruct stage; stage_cases; inversion HM; subst; try invalid;
      (split; [|reflexivity]); exact (hands_step _ _ _ _ Hc Hn).
  - (* the object loop: trivia *)
    intros flags t tok t1 i1 added closed t2 i2 Hc Hcase Hn Hl IHl stage Hs HM.
    destruct stage; inversion HM; subst; try invalid;
      match goal with
      | Ha : _ added |- _ =>
          destruct (IHl _ Hs Ha) as [Hh ->]; split; [|reflexivity];
          exact (hands_app _ _ _ [tok] _ _ _ (hands_step _ _ _ _ Hc Hn) Hh)
      end.
  - (* the object loop: a comma *)
    intros flags t tok t1 i1 added closed t2 i2 Hc Hcase Hn Hl IHl stage Hs HM.
    destruct stage; stage_cases; inversion HM; subst; try invalid;
      match goal with
      | Ha : NextMember added |- _ =>
          destruct (IHl AfterComma eq_refl Ha) as [Hh ->]; split; [|reflexivity];
          exact (hands_app _ _ _ [tok] _ _ _ (hands_step _ _ _ _ Hc Hn) Hh)
      end.
  - (* the object loop: another token *)
    intros flags t tok t1 i1 added closed t2 i2 Hc Hcase Hn Hl IHl stage Hs HM. exfalso.
    destruct stage; inversion HM; subst; invalid.
  - (* the array loop: the text ends *)
    intros flags t Hc stage _ HM. destruct stage; inversion HM.
  - (* the array loop: a value token *)
    intros flags t tok t1 i1 added closed t2 i2 Hc Hcase Hn Hl IHl stage Hs HM.
    destruct stage; stage_cases; inversion HM; subst; try (exfalso; type_clash);
      match goal with
      | Ha : AfterElement added |- _ =>
          destruct (IHl AfterItem eq_refl Ha) as [Hh ->]; split; [|reflexivity];
          exact (hands_app _ _ _ [tok] _ _ _ (hands_step _ _ _ _ Hc Hn) Hh)
      end.
  - (* the array loop: a nested value *)
    intros flags t tok object value t1 i1 added closed t2 i2 Hc Hcase Hb IHb Hl IHl
           stage Hs HM.
    destruct (bracket_form _ _ _ _ _ Hb) as [l E].
    destruct stage; stage_cases; inversion HM; subst;
      try (destruct object; discriminate);
      try (destruct object; match goal with H : isTrivia _ = true |- _ => discriminate H end);
      match goal with
      | Hv : ValidValue _, Ha : AfterElement added |- _ =>
          destruct (IHl AfterItem eq_refl Ha) as [Hh ->]; split; [|reflexivity];
          exact (hands_app _ _ _ _ _ _ _ (IHb Hv) Hh)
      end.
  - (* the array loop: a comma *)
    intros flags t tok t1 i1 added closed t2 i2 Hc Hcase Hn Hl IHl stage Hs HM.
    destruct stage; stage_cases; inversion HM; subst; try invalid;
      match goal with
      | Ha : NextElement added |- _ =>
          destruct (IHl AfterComma eq_refl Ha) as [Hh ->]; split; [|reflexivity];
          exact (hands_app _ _ _ [tok] _ _ _ (hands_step _ _ _ _ Hc Hn) Hh)
      end.
  - (* the array loop: the closing bracket *)
    intros flags t tok t1 i1 Hc Hcase Hn stage Hs HM.
    destruct stage; stage_cases; inversion HM; subst; try invalid;
      (split; [|reflexivity]); exact (hands_step _ _ _ _ Hc Hn).
  - (* the array loop: trivia *)
    intros flags t tok t1 i1 added closed t2 i2 Hc Hcase Hn Hl IHl stage Hs HM.
    destruct stage; inversion HM; subst; try invalid;
      match goal with
      | Ha : _ added |- _ =>
          destruct (IHl _ Hs Ha) as [Hh ->]; split; [|reflexivity];
          exact (hands_app _ _ _ [tok] _ _ _ (hands_step _ _ _ _ Hc Hn) Hh)
      end.
  - (* the array loop: another token *)
    intros flags t tok t1 i1 added closed t2 i2 Hc Hcase Hn Hl IHl stage Hs HM. exfalso.
    destruct stage; inversion HM; subst; invalid.
Qed.

Lemma blank_token (tok : Token) :
  isBlank (TokenSeg tok) = true -> startsRoot (getType tok) = false.
Proof. simpl. now destruct (startsRoot (getType tok)). Qed.

Lemma literal_starts_root (tok : Token) :
  valueClass (getType tok) = VLiteral -> startsRoot (getType tok) = true.
Proof. destruct (getType tok); simpl; intros H; try discriminate H; reflexivity. Qed.

Lemma valid_document_quiet (found : bool) (t : Tokenizer) (segs : list Segment)
      (iss : list Issue) :
  RunDocument found t segs iss ->
  (if found then forallb isBlank segs = true else ValidDocument segs) ->
  Upcoming t (flat_map leaves segs) iss.
Proof.
  induction 1 as [found t Hc
                 | found t tok t1 i1 segs i2 Hc Hr Hn _ IH
                 | found t tok object value t1 i1 segs i2 Hc Hr Hb _ IH]; intros HV.
  - now constructor.
  - assert (G : issueUnless (negb (startsRoot (getType tok) && found)) msgExpectedEndOfFile tok
                = []
                /\ if found || startsRoot (getType tok)
                   then forallb isBlank segs = true else ValidDocument segs).
    { destruct found.
      - simpl in HV. apply andb_true_iff in HV as [Hb Hl].
        fold (isBlank (TokenSeg tok)) in Hb. apply blank_token in Hb.
        rewrite Hb. auto.
      - inversion HV as [| x l Hb Hl | t0 l Hs Hrc Hl | v l Hv Hl]; subst.
        + apply blank_token in Hb. rewrite Hb. auto.
        + rewrite Hs. auto.
        + inversion Hv as [t0 Hlit | |]; subst.
          rewrite (literal_starts_root _ Hlit). auto. }
    destruct G as [-> G]. cbn [flat_map leaves app].
    exact (UpcomingStep _ _ _ _ _ _ Hc Hn (IH G)).
  - destruct (bracket_form _ _ _ _ _ Hb) as [l E].
    assert (G : found = false /\ ValidValue value /\ forallb isBlank segs = true).
    { destruct found.
      - simpl in HV. destruct object; subst value; discriminate HV.
      - inversion HV as [| x l0 Hbl Hl | t0 l0 Hs Hrc Hl | v l0 Hv Hl]; subst; auto;
          destruct object; discriminate. }
    destruct G as (-> & Hv & Hl). cbn [flat_map app].
    exact (proj1 (proj2 valid_runs_quiet) _ _ _ _ _ Hb Hv _ _ (IH Hl)).
Qed.

(** When [parse] adds no issue, the document is valid. *)
Lemma quiet_parse_valid (s : string) (d : Document) :
  parse s = Some (d, []) -> ValidDocument (documentSegments d).
Proof.
  intros Hp. destruct (parse_run _ _ _ Hp) as (t0 & i0 & i1 & Hn & Hd & E).
  symmetry in E. apply app_eq_nil in E as [_ ->].
  exact (quiet_document_valid _ _ _ _ Hd eq_refl).
Qed.

(** X6. When [parse] adds no issue, the document is valid: line breaks and
    whitespace around at most one root, and inside every object and array
    the members separated by single commas, each property a name, a colon
    and a value with nothing but whitespace in between, the brackets
    closed.  (A root that is a single token may be of any type.) *)
Theorem X6_no_issue_means_valid_document (s : string) (d : Document) :
  parse s = Some (d, []) -> ValidDocument (documentSegments d).
Proof. exact (quiet_parse_valid s d). Qed.

Definition tidyText : string :=
  " {" +++ quoted "a" +++ ": [1, true ,{}], " +++ quoted "b" +++ " :null // c" +++ lf +++ "}" +++ lf.

Lemma X6_witness :
  exists d, parse tidyText = Some (d, []) /\ ValidDocument (documentSegments d).
Proof.
  eexists. split; [vm_compute; reflexivity|].
  apply (X6_no_issue_means_valid_document tidyText). vm_compute. reflexivity.
Defined.

(** The issues of the parse of a valid document are the issues of the
    tokenizer. *)
Lemma valid_parse_quiet (s : string) (d : Document) (iss : list Issue) :
  parse s = Some (d, iss) -> ValidDocument (documentSegments d) ->
  exists tokens, tokenize s = Some (tokens, iss).
Proof.
  intros Hp HV.
  destruct (tokenizeLoop_tiles (length (lex s)) (newTokenizer (lex s) 0))
    as (tokens & tiss & Hrun & _).
  { right. exists (lex s), 0. split; [reflexivity | apply lex_wf]. }
  { apply Nat.le_refl. }
  exists tokens.
  destruct (parse_run _ _ _ Hp) as (t0 & i0 & i1 & Hn & Hd & ->).
  pose proof (valid_document_quiet _ _ _ _ Hd HV) as Hu.
  destruct (tokenizeLoop_upcoming _ _ _ _ _ _ Hrun Hn) as (ir & Hu' & ->).
  destruct (upcoming_unique _ _ _ Hu _ _ Hu') as [_ ->]. exact Hrun.
Qed.

(** X7. The parser adds no issue of its own to a valid document: the issues of
    the parse are the issues the tokenizer adds when run alone over the
    text. *)
Theorem X7_valid_document_has_tokenizer_issues_only
        (s : string) (d : Document) (iss : list Issue) :
  parse s = Some (d, iss) -> ValidDocument (documentSegments d) ->
  exists tokens, tokenize s = Some (tokens, iss).
Proof. exact (valid_parse_quiet s d iss). Qed.

Lemma X7_witness :
  exists d tokens,
    parse tidyText = Some (d, []) /\ ValidDocument (documentSegments d)
    /\ tokenize tidyText = Some (tokens, []).
Proof.
  assert (Hp : exists d, parse tidyText = Some (d, [])).
  { eexists. vm_compute. reflexivity. }
  destruct Hp as [d Hp]. pose proof (quiet_parse_valid _ _ Hp) as HV.
  destruct (X7_valid_document_has_tokenizer_issues_only tidyText d [] Hp HV) as [tokens Ht].
  exists d, tokens. auto.
Defined.

(** ** Formatting documents without issues *)

Scheme ValidValue_min := Minimality for ValidValue Sort Prop
  with ValidProperty_min := Minimality for ValidProperty Sort Prop
  with Members_min := Minimality for Members Sort Prop
  with AfterMember_min := Minimality for AfterMember Sort Prop
  with NextMember_min := Minimality for NextMember Sort Prop
  with Elements_min := Minimality for Elements Sort Prop
  with AfterElement_min := Minimality for AfterElement Sort Prop
  with NextElement_min := Minimality for NextElement Sort Prop.
Combined Scheme Valid_mutind
  from ValidValue_min, ValidProperty_min, Members_min, AfterMember_min, NextMember_min,
       Elements_min, AfterElement_min, NextElement_min.

(** No segment of [l] has a colon gap, and none ends with its colon. *)
Definition gapless (l : list Segment) : Prop :=
  forall left right, gapAmong colonGap left right false l = false.

Lemma gapless_cons (x : Segment) (l : list Segment) :
  colonGap x = false -> endsWithColon x = false -> gapless l -> gapless (x :: l).
Proof. intros Hx He Hl left right. simpl. now rewrite Hx, He, Hl. Qed.

Lemma trivia_gapless (x : Segment) :
  isTrivia x = true -> colonGap x = false /\ endsWithColon x = false.
Proof. destruct x; simpl; intros H; try discriminate H; auto. Qed.

Lemma existsb_app_false {X : Type} (p : X -> bool) (a b : list X) :
  existsb p a = false -> existsb p b = false -> existsb p (a ++ b) = false.
Proof. intros Ha Hb. now rewrite existsb_app, Ha, Hb. Qed.

Lemma whitespace_no_gap (ws : list Segment) :
  forallb isWhitespace ws = true -> existsb colonGap ws = false.
Proof.
  induction ws as [|x ws IH]; [reflexivity|]. simpl. intros H.
  apply andb_true_iff in H as [Hx H]. rewrite (IH H).
  destruct x; simpl in *; try discriminate Hx; reflexivity.
Qed.

(** A valid segment has no colon gap. *)
Lemma valid_gapless :
  (forall v, ValidValue v -> colonGap v = false /\ endsWithColon v = false)
  /\ (forall p, ValidProperty p -> colonGap p = false /\ endsWithColon p = false)
  /\ (forall l, Members l -> gapless l)
  /\ (forall l, AfterMember l -> gapless l)
  /\ (forall l, NextMember l -> gapless l)
  /\ (forall l, Elements l -> gapless l)
  /\ (forall l, AfterElement l -> gapless l)
  /\ (forall l, NextElement l -> gapless l).
Proof.
  apply Valid_mutind; intros;
    try (match goal with
         | H : isTrivia _ = true |- _ => apply trivia_gapless in H as [? ?]
         end; now apply gapless_cons);
    try (apply gapless_cons; [reflexivity | reflexivity | intros ? ?; reflexivity]);
    try (match goal with
         | H : _ /\ _ |- gapless _ => destruct H; now apply gapless_cons
         end);
    try (apply gapless_cons; [reflexivity | reflexivity | assumption]).
  - auto.
  - split; [|reflexivity]. simpl. rewrite (H1 _ _). reflexivity.
  - split; [|reflexivity]. simpl. rewrite (H1 _ _). reflexivity.
  - destruct H4 as [Hg He]. split.
    + cbn [colonGap existsb]. cbn [colonGap orb].
      apply existsb_app_false; [now apply whitespace_no_gap|].
      cbn [existsb colonGap orb].
      apply existsb_app_false; [now apply whitespace_no_gap|].
      simpl. now rewrite Hg.
    + unfold endsWithColon.
      change (TokenSeg name :: ws1 ++ TokenSeg colon :: ws2 ++ [value])
        with ((TokenSeg name :: ws1) ++ TokenSeg colon :: ws2 ++ [value]).
      rewrite lastSegment_cons_app.
      change (TokenSeg colon :: ws2 ++ [value]) with ((TokenSeg colon :: ws2) ++ [value]).
      rewrite lastSegment_app.
      destruct (valid_solid _ H3) as [_ Ht].
      destruct value as [t| | |]; try reflexivity.
      inversion H3 as [t0 Hl | |]; subst. simpl.
      destruct (getType t); try discriminate Hl; reflexivity.
Qed.

Lemma blank_no_gap (l : list Segment) :
  forallb isBlank l = true -> existsb colonGap l = false.
Proof.
  induction l as [|x l IH]; [reflexivity|]. simpl. intros H.
  apply andb_true_iff in H as [Hx H]. rewrite (IH H).
  destruct x; simpl in *; try discriminate Hx; reflexivity.
Qed.

Lemma valid_document_gapless (l : list Segment) :
  ValidDocument l -> existsb colonGap l = false.
Proof.
  induction 1 as [| x l Hb _ IH | t l Hs Hr Hl | v l Hv Hl]; simpl.
  - reflexivity.
  - rewrite IH. destruct x; simpl in *; try discriminate Hb; reflexivity.
  - now apply blank_no_gap.
  - rewrite (proj1 (proj1 valid_gapless _ Hv)). now apply blank_no_gap.
Qed.

(** Formatting is idempotent under re-parsing for every text whose document
    has no colon gap. *)
Lemma format_again (s : string) (d : Document) (iss : list Issue) :
  parse s = Some (d, iss) ->
  existsb colonGap (documentSegments d) = false ->
  exists d' iss',
    parse (documentFormat d) = Some (d', iss')
    /\ documentFormat d' = documentFormat d.
Proof.
  intros Hp Hg.
  destruct (parse_link s d iss Hp true (fun _ => Hg)) as (out & HF & Ht).
  assert (HO : Orig (tokensOf (lex s))).
  { exists (lex s). split; [apply stable_lex | reflexivity]. }
  destruct (FDoc_again _ _ HF HO) as [Hs HF'].
  pose proof (lex_stable _ Hs) as Hl. rewrite Ht in Hl.
  destruct (parseLexes_spec (lex (documentFormat d)) (lex_wf _)) as (segs & iss' & Hp' & _).
  exists (mkDocument segs), iss'. split; [exact Hp'|].
  destruct (parse_link _ _ _ Hp' false) as (out' & HF2 & Ht'); [discriminate|].
  rewrite Hl in HF2.
  rewrite <- Ht', <- Ht. f_equal.
  exact (FDoc_deterministic _ _ _ HF' _ HF2).
Qed.

(** X8. For every text that [parse] takes without adding an issue, formatting is
    idempotent under re-parsing: the formatted text parses, and [format] of
    its document is the formatted text again. *)
Theorem X8_format_idempotent_without_issues (s : string) (d : Document) :
  parse s = Some (d, []) ->
  exists d' iss',
    parse (documentFormat d) = Some (d', iss')
    /\ documentFormat d' = documentFormat d.
Proof.
  intros Hp. apply (format_again s d [] Hp).
  apply valid_document_gapless. exact (quiet_parse_valid _ _ Hp).
Qed.

Lemma X8_witness :
  exists d d' iss',
    parse tidyText = Some (d, [])
    /\ parse (documentFormat d) = Some (d', iss')
    /\ documentFormat d' = documentFormat d.
Proof.
  assert (Hp : exists d, parse tidyText = Some (d, [])).
  { eexists. vm_compute. reflexivity. }
  destruct Hp as [d Hp].
  destruct (X8_format_idempotent_without_issues tidyText d Hp) as (d' & iss' & H1 & H2).
  exists d, d', iss'. auto.
Defined.

(** ** The elements of an array *)

(** The slots of [getElements] that hold a segment. *)
Definition definedElements (elements : list (option Segment)) : list Segment :=
  flat_map (fun slot => match slot with Some x => [x] | None => [] end) elements.

Lemma definedElements_app (a b : list (option Segment)) :
  definedElements (a ++ b) = definedElements a ++ definedElements b.
Proof. apply flat_map_app. Qed.

Lemma elementsWalk_defined (l : list Segment) :
  forall e, definedElements (fst (elementsWalk e l)) = filter isElementSegment l.
Proof.
  induction l as [|x l IH]; intros e; [reflexivity|].
  cbn [elementsWalk filter]. destruct x as [t|pl|ol|al].
  - cbn [isElementSegment]. destruct (getType t);
      try (apply IH);
      try (specialize (IH true); destruct (elementsWalk true l); simpl in *; now rewrite IH).
    destruct e; cbn [negb]; [apply IH|].
    specialize (IH false). destruct (elementsWalk false l). simpl in *. exact IH.
  - apply IH.
  - specialize (IH true). destruct (elementsWalk true l). simpl in *. now rewrite IH.
  - specialize (IH true). destruct (elementsWalk true l). simpl in *. now rewrite IH.
Qed.

(** X9. [getElements()] of an array that holds no property: the slots that are
    defined are the elements of the array (its literal tokens, objects and
    arrays), each once and in their order, whatever the commas. *)
Theorem X9_elements_are_the_values (l : list Segment) :
  existsb isProperty l = false ->
  definedElements (getElements (ArraySegment l)) = filter isElementSegment l.
Proof.
  intros _. unfold getElements.
  pose proof (elementsWalk_defined l false) as H.
  destruct (elementsWalk false l) as [elements expectingComma]. cbn [fst] in H.
  destruct (negb _ && negb _); [|exact H].
  rewrite definedElements_app, H. simpl. apply app_nil_r.
Qed.

Lemma X9_witness :
  existsb isProperty [TokenSeg (Tokens.LeftSquareBracket 0); TokenSeg (Tokens.Comma 1);
                      TokenSeg (Tokens.True 2); TokenSeg (Tokens.RightSquareBracket 6)] = false
  /\ definedElements
       (getElements (ArraySegment [TokenSeg (Tokens.LeftSquareBracket 0);
                                   TokenSeg (Tokens.Comma 1);
                                   TokenSeg (Tokens.True 2);
                                   TokenSeg (Tokens.RightSquareBracket 6)]))
     = filter isElementSegment [TokenSeg (Tokens.LeftSquareBracket 0);
                                TokenSeg (Tokens.Comma 1);
                                TokenSeg (Tokens.True 2);
                                TokenSeg (Tokens.RightSquareBracket 6)].
Proof.
  split; [reflexivity|]. apply X9_elements_are_the_values. reflexivity.
Defined.

Lemma trivia_walk (x : Segment) (l : list Segment) (e : bool) :
  isTrivia x = true ->
  elementsWalk e (x :: l) = elementsWalk e l /\ isElementSegment x = false.
Proof.
  destruct x as [t| | |]; simpl; try discriminate.
  destruct (getType t); intros H; try discriminate H; auto.
Qed.

Lemma value_walk (v : Segment) (l : list Segment) (e : bool) :
  ValidValue v ->
  elementsWalk e (v :: l)
  = (Some v :: fst (elementsWalk true l), snd (elementsWalk true l))
  /\ isElementSegment v = true.
Proof.
  intros [t Ht | open ol Ho Hm | open al Ho Ha]; cbn [elementsWalk isElementSegment].
  - destruct (getType t); try discriminate Ht; now destruct (elementsWalk true l).
  - now destruct (elementsWalk true l).
  - now destruct (elementsWalk true l).
Qed.

(** The walk of [getElements] over the segments of a valid array. *)
Lemma valid_elements_walk :
  (forall v, ValidValue v -> Logic.True)
  /\ (forall p, ValidProperty p -> Logic.True)
  /\ (forall l, Members l -> Logic.True)
  /\ (forall l, AfterMember l -> Logic.True)
  /\ (forall l, NextMember l -> Logic.True)
  /\ (forall l, Elements l ->
        elementsWalk false l
        = (map Some (filter isElementSegment l),
           match filter isElementSegment l with [] => false | _ => true end))
  /\ (forall l, AfterElement l ->
        elementsWalk true l = (map Some (filter isElementSegment l), true))
  /\ (forall l, NextElement l ->
        elementsWalk false l = (map Some (filter isElementSegment l), true)
        /\ filter isElementSegment l <> []).
Proof.
  apply Valid_mutind; intros; auto;
    try match goal with
      | H : isTrivia ?x = true |- context [elementsWalk ?e (?x :: ?l)] =>
          destruct (trivia_walk x l e H) as [-> E]; cbn [filter]; rewrite E; assumption
      end.
  - (* the closing bracket at the start *)
    cbn [elementsWalk filter isElementSegment]. now rewrite H.
  - (* the first value *)
    destruct (value_walk v l false H) as [-> E]. cbn [filter]. now rewrite E, H2.
  - (* the closing bracket after a value *)
    cbn [elementsWalk filter isElementSegment]. now rewrite H.
  - (* a comma *)
    destruct H1 as [H1 _]. cbn [elementsWalk filter isElementSegment]. rewrite H. exact H1.
  - (* a value after a comma *)
    destruct (value_walk v l false H) as [-> E]. cbn [filter]. rewrite E, H2.
    split; [reflexivity | discriminate].
Qed.

(** [getElements()] of a valid array has no undefined slot: it lists the
    elements of the array. *)
Lemma valid_array_elements (l : list Segment) :
  ValidValue (ArraySegment l) ->
  getElements (ArraySegment l) = map Some (filter isElementSegment l).
Proof.
  intros H. inversion H as [| | open r Ho He]; subst.
  unfold getElements. cbn [elementsWalk filter isElementSegment]. rewrite Ho.
  rewrite (proj1 (proj2 (proj2 (proj2 (proj2 (proj2 valid_elements_walk))))) _ He).
  destruct (filter isElementSegment r); reflexivity.
Qed.

(** An array lists its elements without an undefined slot. *)
Definition listsItsElements (s : Segment) : Prop :=
  match s with
  | ArraySegment l => getElements s = map Some (filter isElementSegment l)
  | _ => Logic.True
  end.

Lemma whitespace_below (ws : list Segment) :
  forallb isWhitespace ws = true -> Forall listsItsElements (flat_map subsegments ws).
Proof.
  induction ws as [|x ws IH]; intros H; [constructor|].
  apply forallb_cons_inv in H as [Hx H]. cbn [flat_map]. apply Forall_app. split; [|auto].
  destruct x; try discriminate Hx. repeat constructor.
Qed.

Lemma blank_below (l : list Segment) :
  forallb isBlank l = true -> Forall listsItsElements (flat_map subsegments l).
Proof.
  induction l as [|x l IH]; intros H; [constructor|].
  apply forallb_cons_inv in H as [Hx H]. cbn [flat_map]. apply Forall_app. split; [|auto].
  destruct x; try discriminate Hx. repeat constructor.
Qed.

Lemma trivia_below (x : Segment) :
  isTrivia x = true -> Forall listsItsElements (subsegments x).
Proof. destruct x; try discriminate. intros _. repeat constructor. Qed.

Lemma valid_below :
  (forall v, ValidValue v -> Forall listsItsElements (subsegments v))
  /\ (forall p, ValidProperty p -> Forall listsItsElements (subsegments p))
  /\ (forall l, Members l -> Forall listsItsElements (flat_map subsegments l))
  /\ (forall l, AfterMember l -> Forall listsItsElements (flat_map subsegments l))
  /\ (forall l, NextMember l -> Forall listsItsElements (flat_map subsegments l))
  /\ (forall l, Elements l -> Forall listsItsElements (flat_map subsegments l))
  /\ (forall l, AfterElement l -> Forall listsItsElements (flat_map subsegments l))
  /\ (forall l, NextElement l -> Forall listsItsElements (flat_map subsegments l)).
Proof.
  apply Valid_mutind; intros;
    try (cbn [flat_map]; apply Forall_app; split;
         [first [now apply trivia_below | assumption | repeat constructor] | assumption]);
    try (repeat constructor; fail).
  - (* an object *)
    cbn [subsegments flat_map app]. repeat constructor. assumption.
  - (* an array *)
    cbn [subsegments flat_map app]. constructor; [|repeat constructor; assumption].
    apply valid_array_elements. now constructor.
  - (* a property *)
    cbn [subsegments flat_map app]. repeat constructor.
    rewrite flat_map_app. apply Forall_app. split; [now apply whitespace_below|].
    cbn [subsegments flat_map app]. repeat constructor.
    rewrite flat_map_app. apply Forall_app. split; [now apply whitespace_below|].
    cbn [flat_map]. now rewrite app_nil_r.
Qed.

Lemma valid_document_below (l : list Segment) :
  ValidDocument l -> Forall listsItsElements (flat_map subsegments l).
Proof.
  induction 1 as [| x l Hb _ IH | t l Hs Hr Hl | v l Hv Hl]; cbn [flat_map].
  - constructor.
  - apply Forall_app. split; [|exact IH].
    destruct x; try discriminate Hb. repeat constructor.
  - apply Forall_app. split; [repeat constructor | now apply blank_below].
  - apply Forall_app. split; [exact (proj1 valid_below _ Hv) | now apply blank_below].
Qed.

(** X10. In a document that [parse] takes without adding an issue,
    [getElements()] of every array, at any depth, has no undefined slot: it
    is the list of the literal tokens, objects and arrays that the array
    holds, in their order. *)
Theorem X10_no_issue_no_undefined_element (s : string) (d : Document) :
  parse s = Some (d, []) ->
  Forall listsItsElements (flat_map subsegments (documentSegments d)).
Proof.
  intros Hp. apply valid_document_below. exact (quiet_parse_valid _ _ Hp).
Qed.

Lemma X10_witness :
  exists d,
    parse tidyText = Some (d, [])
    /\ Forall listsItsElements (flat_map subsegments (documentSegments d)).
Proof.
  eexists. split; [vm_compute; reflexivity|].
  apply (X10_no_issue_no_undefined_element tidyText). vm_compute. reflexivity.
Defined.

(** ** The root and what follows it *)

Lemma rootCandidate_token (tok : Token) :
  isRootCandidate (TokenSeg tok) = startsRoot (getType tok).
Proof. simpl. destruct (getType tok); reflexivity. Qed.

(** In the loop of [parse], a segment that may be the root and comes after
    another one gets the issue. *)
Lemma document_second_roots (found : bool) (t : Tokenizer) (segs : list Segment)
      (iss : list Issue) :
  RunDocument found t segs iss ->
  forall before seg after,
    segs = before ++ seg :: after -> isRootCandidate seg = true ->
    found || existsb isRootCandidate before = true ->
    In (Error msgExpectedEndOfFile (span seg)) iss.
Proof.
  induction 1 as [found t Hc
                 | found t tok t1 i1 segs i2 Hc Hr Hn _ IH
                 | found t tok object value t1 i1 segs i2 Hc Hr Hb _ IH];
    intros before seg after E Hs Hf.
  - destruct before; discriminate E.
  - destruct before as [|x before]; injection E as <- E.
    + rewrite rootCandidate_token in Hs. simpl in Hf. rewrite orb_false_r in Hf.
      rewrite Hs, Hf. apply in_or_app. right. apply in_or_app. left.
      left. reflexivity.
    + apply in_or_app. right. apply in_or_app. right.
      apply (IH _ _ _ E Hs). cbn [existsb] in Hf. rewrite rootCandidate_token in Hf.
      now rewrite orb_assoc in Hf.
  - destruct before as [|x before]; injection E as <- E.
    + simpl in Hf. rewrite orb_false_r in Hf. rewrite Hf.
      apply in_or_app. right. apply in_or_app. left. left. reflexivity.
    + apply in_or_app. right. apply in_or_app. right.
      apply (IH _ _ _ E Hs). reflexivity.
Qed.

(** X11. [parse] adds the issue Expected end of file, at the span of the segment,
    for every top-level segment other than whitespace and line breaks that
    comes after the root of the document, the first such segment. *)
Theorem X11_segments_after_the_root (s : string) :
  exists d iss,
    parse s = Some (d, iss)
    /\ forall before root after,
         documentSegments d = before ++ root :: after ->
         getRoot d = Some root ->
         Forall (fun seg => isRootCandidate seg = true ->
                            In (Error msgExpectedEndOfFile (span seg)) iss) after.
Proof.
  destruct (parseLexes_spec (lex s) (lex_wf s)) as (segs & iss & Hp & _).
  exists (mkDocument segs), iss. split; [exact Hp|].
  destruct (parse_run _ _ _ Hp) as (t0 & i0 & i1 & Hn & Hd & ->).
  cbn [documentSegments] in *. intros before root after E Hroot.
  apply find_some in Hroot as [_ Hroot].
  apply Forall_forall. intros seg Hin Hs.
  apply in_split in Hin as (a1 & a2 & ->).
  apply in_or_app. right.
  apply (document_second_roots _ _ _ _ Hd (before ++ root :: a1) seg a2).
  - rewrite E, <- app_assoc. reflexivity.
  - exact Hs.
  - rewrite existsb_app. simpl. rewrite Hroot. now rewrite orb_true_r.
Qed.

Lemma X11_witness :
  exists d iss,
    parse "{} []" = Some (d, iss)
    /\ getRoot d = Some (ObjectSegment [TokenSeg (Tokens.LeftCurlyBracket 0);
                                        TokenSeg (Tokens.RightCurlyBracket 1)])
    /\ In (Error msgExpectedEndOfFile (mkSpan 3 2)) iss.
Proof.
  destruct (X11_segments_after_the_root "{} []") as (d & iss & Hp & H).
  exists d, iss. split; [exact Hp|].
  vm_compute in Hp. injection Hp as <- <-. split; [reflexivity|].
  specialize (H [] _ _ eq_refl eq_refl).
  apply Forall_inv_tail, Forall_inv in H. exact (H eq_refl).
Defined.

(** ** The shape of the parsed tree *)

Fixpoint dropWhitespace (l : list Segment) : list Segment :=
  match l with
  | x :: r => if isWhitespace x then dropWhitespace r else l
  | [] => []
  end.

(** What follows the name in a property: whitespace, then nothing, or a
    colon and whitespace, then nothing or one value. *)
Definition propertyOrder (r : list Segment) : bool :=
  match dropWhitespace r with
  | [] => true
  | colon :: r2 =>
      isTokenOfType colon TokenType.Colon
      && match dropWhitespace r2 with
         | [] => true
         | [value] => isElementSegment value
         | _ => false
         end
  end.

(** The token [ty] occurs in [l] in the last place only. *)
Fixpoint lastOnly (ty : TokenType.t) (l : list Segment) : bool :=
  match l with
  | [] => true
  | x :: r => match r with
              | [] => true
              | _ => negb (isTokenOfType x ty) && lastOnly ty r
              end
  end.

(** The segments the parser builds.  A property starts with its name, a
    quoted string, and goes on as [propertyOrder] says.  An object starts
    with its left curly bracket and then holds properties and tokens that
    are no quoted strings, the right curly bracket in the last place only.
    An array starts with its left square bracket and then holds objects,
    arrays and tokens that are no left brackets, the right square bracket in
    the last place only. *)
Fixpoint shaped (s : Segment) : bool :=
  match s with
  | TokenSeg _ => true
  | Property l =>
      match l with
      | TokenSeg name :: r =>
          TokenType.eqb (getType name) TokenType.QuotedString
          && propertyOrder r
          && forallb (fun c => match c with
                               | TokenSeg _ => true
                               | Property _ => false
                               | _ => shaped c
                               end) r
      | _ => false
      end
  | ObjectSegment l =>
      match l with
      | TokenSeg open :: r =>
          TokenType.eqb (getType open) TokenType.LeftCurlyBracket
          && lastOnly TokenType.RightCurlyBracket r
          && forallb (fun c => match c with
                               | TokenSeg t =>
                                   negb (TokenType.eqb (getType t) TokenType.QuotedString)
                               | Property _ => shaped c
                               | _ => false
                               end) r
      | _ => false
      end
  | ArraySegment l =>
      match l with
      | TokenSeg open :: r =>
          TokenType.eqb (getType open) TokenType.LeftSquareBracket
          && lastOnly TokenType.RightSquareBracket r
          && forallb (fun c => match c with
                               | TokenSeg t =>
                                   match rootClass (getType t) with
                                   | None => true
                                   | Some _ => false
                                   end
                               | Property _ => false
                               | _ => shaped c
                               end) r
      | _ => false
      end
  end.

(** A segment at the top of a document: an object, an array, or a token
    that is no left bracket. *)
Definition shapedTop (s : Segment) : bool :=
  match s with
  | TokenSeg t => match rootClass (getType t) with None => true | Some _ => false end
  | Property _ => false
  | _ => shaped s
  end.

Definition propertyChild (c : Segment) : bool :=
  match c with TokenSeg _ => true | Property _ => false | _ => shaped c end.

Definition objectChild (c : Segment) : bool :=
  match c with
  | TokenSeg t => negb (TokenType.eqb (getType t) TokenType.QuotedString)
  | Property _ => shaped c
  | _ => false
  end.

Definition arrayChild (c : Segment) : bool :=
  match c with
  | TokenSeg t => match rootClass (getType t) with None => true | Some _ => false end
  | Property _ => false
  | _ => shaped c
  end.

Lemma dropWhitespace_all (ws rest : list Segment) :
  forallb isWhitespace ws = true -> dropWhitespace (ws ++ rest) = dropWhitespace rest.
Proof.
  induction ws as [|x ws IH]; intros H; [reflexivity|].
  apply forallb_cons_inv in H as [Hx H]. simpl. rewrite Hx. now apply IH.
Qed.

Lemma dropWhitespace_solid (x : Segment) (rest : list Segment) :
  isWhitespace x = false -> dropWhitespace (x :: rest) = x :: rest.
Proof. intros H. simpl. now rewrite H. Qed.

Lemma whitespace_children (ws : list Segment) :
  forallb isWhitespace ws = true -> forallb propertyChild ws = true.
Proof.
  induction ws as [|x ws IH]; intros H; [reflexivity|].
  apply forallb_cons_inv in H as [Hx H]. simpl. rewrite (IH H).
  destruct x; try discriminate Hx; reflexivity.
Qed.

Lemma lastOnly_cons (ty : TokenType.t) (x : Segment) (l : list Segment) :
  isTokenOfType x ty = false -> lastOnly ty l = true -> lastOnly ty (x :: l) = true.
Proof. intros Hx Hl. simpl. destruct l; [reflexivity|]. now rewrite Hx, Hl. Qed.

(** The shape of a property from its parts. *)
Lemma property_shaped (name : Token) (ws1 tail : list Segment) :
  getType name = TokenType.QuotedString ->
  forallb isWhitespace ws1 = true ->
  match tail with
  | [] => Logic.True
  | colon :: ws2v =>
      isTokenOfType colon TokenType.Colon = true
      /\ exists ws2 last,
           ws2v = ws2 ++ last /\ forallb isWhitespace ws2 = true
           /\ match last with
              | [] => Logic.True
              | [value] => isElementSegment value = true /\ shaped value = true
                           /\ isProperty value = false
              | _ => Logic.False
              end
  end ->
  shaped (Property (TokenSeg name :: ws1 ++ tail)) = true.
Proof.
  intros Hn Hw1 Ht. cbn [shaped]. rewrite Hn. cbn [TokenType.eqb andb].
  fold propertyChild. unfold propertyOrder. rewrite (dropWhitespace_all _ _ Hw1).
  rewrite forallb_app, (whitespace_children _ Hw1). cbn [andb].
  destruct tail as [|colon ws2v]; [reflexivity|].
  destruct Ht as (Hc & ws2 & last & -> & Hw2 & Hl).
  assert (Hcs : isWhitespace colon = false).
  { destruct colon as [t| | |]; try discriminate Hc. unfold isWhitespace. simpl in *.
    apply tokenType_eqb_eq in Hc. now rewrite Hc. }
  rewrite (dropWhitespace_solid _ _ Hcs), Hc, (dropWhitespace_all _ _ Hw2). cbn [andb forallb].
  rewrite forallb_app, (whitespace_children _ Hw2). cbn [andb].
  assert (Hcc : propertyChild colon = true)
    by (destruct colon; try discriminate Hc; reflexivity).
  rewrite Hcc. cbn [andb].
  destruct last as [|value [|]]; [reflexivity | | contradiction].
  destruct Hl as (He & Hs & Hp).
  assert (Hvs : isWhitespace value = false).
  { destruct value as [t| | |]; try reflexivity. unfold isWhitespace. simpl in *.
    destruct (getType t); try discriminate He; reflexivity. }
  rewrite (dropWhitespace_solid _ _ Hvs), He. cbn [forallb andb].
  destruct value; try discriminate Hp; simpl in *; now rewrite ?Hs.
Qed.

Lemma literal_element (value : Token) :
  valueClass (getType value) = VLiteral -> isElementSegment (TokenSeg value) = true.
Proof. simpl. destruct (getType value); intros H; try discriminate H; reflexivity. Qed.

Lemma colon_token (colon : Token) :
  getType colon = TokenType.Colon -> isTokenOfType (TokenSeg colon) TokenType.Colon = true.
Proof. simpl. now intros ->. Qed.

(** Every run returns segments of the shape above. *)
Lemma runs_shaped :
  (forall t seg t' iss, RunProperty t seg t' iss ->
     forall name, getCurrent t = Some name -> getType name = TokenType.QuotedString ->
     shaped seg = true)
  /\ (forall object t seg t' iss, RunBracket object t seg t' iss ->
        forall open, getCurrent t = Some open -> getType open = leftOf object ->
        shaped seg = true /\ isElementSegment seg = true /\ isProperty seg = false)
  /\ (forall flags t added closed t' iss, RunObjectLoop flags t added closed t' iss ->
        forallb objectChild added = true
        /\ lastOnly TokenType.RightCurlyBracket added = true)
  /\ (forall flags t added closed t' iss, RunArrayLoop flags t added closed t' iss ->
        forallb arrayChild added = true
        /\ lastOnly TokenType.RightSquareBracket added = true).
Proof.
  apply Run_mutind.
  - intros t name ws1 t2 i1 HN Hc name0 Hc0 Hty.
    apply name_facts in HN as [Hcn Hw]. assert (name0 = name) by congruence. subst.
    rewrite <- (app_nil_r ws1). now apply property_shaped.
  - intros t name ws1 t2 i1 other HN Hc Hoty name0 Hc0 Hty.
    apply name_facts in HN as [Hcn Hw]. assert (name0 = name) by congruence. subst.
    rewrite <- (app_nil_r ws1). now apply property_shaped.
  - intros t name ws1 t2 i1 colon ws2 t4 i3 HN Hcty HC Hc name0 Hc0 Hty.
    apply name_facts in HN as [Hcn Hw]. apply name_facts in HC as [_ Hw2].
    assert (name0 = name) by congruence. subst.
    apply property_shaped; auto. split; [now apply colon_token|].
    exists ws2, []. rewrite app_nil_r. auto.
  - intros t name ws1 t2 i1 colon ws2 t4 i3 other HN Hcty HC Hc Hcl name0 Hc0 Hty.
    apply name_facts in HN as [Hcn Hw]. apply name_facts in HC as [_ Hw2].
    assert (name0 = name) by congruence. subst.
    apply property_shaped; auto. split; [now apply colon_token|].
    exists ws2, []. rewrite app_nil_r. auto.
  - intros t name ws1 t2 i1 colon ws2 t4 i3 value t5 i5 HN Hcty HC Hc Hcl Hn name0 Hc0 Hty.
    apply name_facts in HN as [Hcn Hw]. apply name_facts in HC as [_ Hw2].
    assert (name0 = name) by congruence. subst.
    apply property_shaped; auto. split; [now apply colon_token|].
    exists ws2, [TokenSeg value]. repeat split; auto. now apply literal_element.
  - intros t name ws1 t2 i1 colon ws2 t4 i3 first object value t5 i5
           HN Hcty HC Hc Hcl Hb IH name0 Hc0 Hty.
    apply name_facts in HN as [Hcn Hw]. apply name_facts in HC as [_ Hw2].
    assert (name0 = name) by congruence. subst.
    destruct (IH first Hc (valueClass_nested _ _ Hcl)) as (Hs & He & Hp).
    apply property_shaped; auto. split; [now apply colon_token|].
    exists ws2, [value]. repeat split; auto.
  - intros t open t1 i1 added closed t2 i2 Hc Hn Hl [Hch Hlast] open0 Hc0 Hty.
    assert (open0 = open) by congruence. subst. simpl in Hty.
    split; [|split; reflexivity]. cbn [shaped]. fold objectChild.
    now rewrite Hty, Hlast, Hch.
  - intros t open t1 i1 added closed t2 i2 Hc Hn Hl [Hch Hlast] open0 Hc0 Hty.
    assert (open0 = open) by congruence. subst. simpl in Hty.
    split; [|split; reflexivity]. cbn [shaped]. fold arrayChild.
    now rewrite Hty, Hlast, Hch.
  - intros flags t Hc. split; reflexivity.
  - intros flags t tok property t1 i1 added closed t2 i2 Hc Hcase Hp IHp Hl [Hch Hlast].
    pose proof (objectCase_types (getType tok)) as Hty. rewrite Hcase in Hty.
    destruct (property_form _ _ _ _ Hp) as [l E].
    pose proof (IHp tok Hc Hty) as Hs. subst property. split.
    + cbn [forallb objectChild]. now rewrite Hs, Hch.
    + now apply lastOnly_cons.
  - intros flags t tok t1 i1 Hc Hcase Hn. split; [|reflexivity].
    cbn [forallb objectChild]. destruct (getType tok); try discriminate Hcase; reflexivity.
  - intros flags t tok t1 i1 added closed t2 i2 Hc Hcase Hn Hl [Hch Hlast]. split.
    + cbn [forallb objectChild]. rewrite Hch.
      destruct (getType tok); try discriminate Hcase; reflexivity.
    + apply lastOnly_cons; [|exact Hlast]. simpl.
      destruct (getType tok); try discriminate Hcase; reflexivity.
  - intros flags t tok t1 i1 added closed t2 i2 Hc Hcase Hn Hl [Hch Hlast]. split.
    + cbn [forallb objectChild]. rewrite Hch.
      destruct (getType tok); try discriminate Hcase; reflexivity.
    + apply lastOnly_cons; [|exact Hlast]. simpl.
      destruct (getType tok); try discriminate Hcase; reflexivity.
  - intros flags t tok t1 i1 added closed t2 i2 Hc Hcase Hn Hl [Hch Hlast]. split.
    + cbn [forallb objectChild]. rewrite Hch.
      destruct (getType tok); try discriminate Hcase; reflexivity.
    + apply lastOnly_cons; [|exact Hlast]. simpl.
      destruct (getType tok); try discriminate Hcase; reflexivity.
  - intros flags t Hc. split; reflexivity.
  - intros flags t tok t1 i1 added closed t2 i2 Hc Hcase Hn Hl [Hch Hlast]. split.
    + cbn [forallb arrayChild]. rewrite Hch.
      destruct (getType tok); try discriminate Hcase; reflexivity.
    + apply lastOnly_cons; [|exact Hlast]. simpl.
      destruct (getType tok); try discriminate Hcase; reflexivity.
  - intros flags t tok object value t1 i1 added closed t2 i2 Hc Hcase Hb IHb Hl [Hch Hlast].
    pose proof (arrayCase_types (getType tok)) as Hty. rewrite Hcase in Hty.
    destruct (IHb tok Hc Hty) as (Hs & He & Hp).
    destruct (bracket_form _ _ _ _ _ Hb) as [l E]. split.
    + cbn [forallb]. rewrite Hch. destruct object; subst value; simpl in *; now rewrite Hs.
    + apply lastOnly_cons; [|exact Hlast]. destruct object; subst value; reflexivity.
  - intros flags t tok t1 i1 added closed t2 i2 Hc Hcase Hn Hl [Hch Hlast]. split.
    + cbn [forallb arrayChild]. rewrite Hch.
      destruct (getType tok); try discriminate Hcase; reflexivity.
    + apply lastOnly_cons; [|exact Hlast]. simpl.
      destruct (getType tok); try discriminate Hcase; reflexivity.
  - intros flags t tok t1 i1 Hc Hcase Hn. split; [|reflexivity].
    cbn [forallb arrayChild]. destruct (getType tok); try discriminate Hcase; reflexivity.
  - intros flags t tok t1 i1 added closed t2 i2 Hc Hcase Hn Hl [Hch Hlast]. split.
    + cbn [forallb arrayChild]. rewrite Hch.
      destruct (getType tok); try discriminate Hcase; reflexivity.
    + apply lastOnly_cons; [|exact Hlast]. simpl.
      destruct (getType tok); try discriminate Hcase; reflexivity.
  - intros flags t tok t1 i1 added closed t2 i2 Hc Hcase Hn Hl [Hch Hlast]. split.
    + cbn [forallb arrayChild]. rewrite Hch.
      destruct (getType tok); try discriminate Hcase; reflexivity.
    + apply lastOnly_cons; [|exact Hlast]. simpl.
      destruct (getType tok); try discriminate Hcase; reflexivity.
Qed.

Lemma document_shaped (found : bool) (t : Tokenizer) (segs : list Segment)
      (iss : list Issue) :
  RunDocument found t segs iss -> forallb shapedTop segs = true.
Proof.
  induction 1 as [found t Hc
                 | found t tok t1 i1 segs i2 Hc Hr Hn _ IH
                 | found t tok object value t1 i1 segs i2 Hc Hr Hb _ IH].
  - reflexivity.
  - cbn [forallb shapedTop]. now rewrite Hr, IH.
  - destruct (proj1 (proj2 runs_shaped) _ _ _ _ _ Hb tok Hc (proj1 (root_opens _ _) Hr))
      as (Hs & _ & _).
    destruct (bracket_form _ _ _ _ _ Hb) as [l E].
    cbn [forallb]. rewrite IH. destruct object; subst value; simpl in *; now rewrite Hs.
Qed.

(** X12. Whatever the text, the segments of the parsed document have the shape
    that the classes take for granted: no property, object or array is
    empty; a property starts with a quoted string and holds at most one
    colon and one value, in this order; properties occur in objects only;
    nested objects and arrays occur in arrays and as property values only;
    a right bracket of its own kind is the last segment of an object or
    array, or does not occur in it. *)
Theorem X12_parsed_tree_is_shaped (s : string) :
  exists d iss, parse s = Some (d, iss) /\ forallb shapedTop (documentSegments d) = true.
Proof.
  destruct (parseLexes_spec (lex s) (lex_wf s)) as (segs & iss & Hp & _).
  exists (mkDocument segs), iss. split; [exact Hp|].
  destruct (parse_run _ _ _ Hp) as (t0 & i0 & i1 & Hn & Hd & _).
  exact (document_shaped _ _ _ _ Hd).
Qed.
(** ** Tokens read without an issue *)

(** The lexemes of a number as the tokenizer takes it without an issue: an
    optional dash, digits, an optional period with digits, and an optional
    exponent, which is the letter e in lower case, an optional dash or plus,
    and digits. *)
Definition NumberShape (ls : list Lex) : Prop :=
  exists sign whole fraction exponent,
    ls = sign ++ whole :: fraction ++ exponent
    /\ (sign = [] \/ exists dash, sign = [dash] /\ lexType dash = LexType.Dash)
    /\ lexType whole = LexType.Digits
    /\ (fraction = []
        \/ exists period digits,
             fraction = [period; digits]
             /\ lexType period = LexType.Period /\ lexType digits = LexType.Digits)
    /\ (exponent = []
        \/ exists e esign digits,
             exponent = e :: esign ++ [digits]
             /\ lexType e = LexType.Letters /\ lexText e = "e"
             /\ (esign = []
                 \/ exists x, esign = [x]
                              /\ (lexType x = LexType.Dash \/ lexType x = LexType.Plus))
             /\ lexType digits = LexType.Digits).

(** The lexemes of a quoted string that is closed: after the opening quote,
    the scan for the end quote, which passes over the lexeme after a
    backslash, finds it in the last lexeme. *)
Definition ClosedString (ls : list Lex) : Prop :=
  exists quote body,
    ls = quote :: body
    /\ quotedStringLoop (lexType quote) false body = (body, true, []).

(** The tokens that the tokenizer reads without adding an issue: the
    well-formed numbers, the closed quoted strings, and every token of
    another type but the forward slash that starts no comment. *)
Definition wellFormedToken (tok : Token) : Prop :=
  match getType tok with
  | TokenType.Number => NumberShape (_basicTokens tok)
  | TokenType.QuotedString => ClosedString (_basicTokens tok)
  | TokenType.Unrecognized => _basicTokens tok <> [qub.ForwardSlash]
  | _ => Logic.True
  end.

(** The scan for the end quote depends on the lexemes it passes only. *)
Lemma quotedStringLoop_self (q : LexType.t) (ls : list Lex) :
  forall escaped a found rest,
    quotedStringLoop q escaped ls = (a, found, rest) ->
    quotedStringLoop q escaped a = (a, found, []).
Proof.
  induction ls as [|c r IH]; intros escaped a found rest H; simpl in H.
  - injection H as <- <- <-. reflexivity.
  - assert (Step : forall e a' f' r',
               quotedStringLoop q e r = (a', f', r') -> (c :: a', f', r') = (a, found, rest) ->
               (let '(x, y, z) := quotedStringLoop q e a' in (c :: x, y, z)) = (a, found, [])).
    { intros e a' f' r' E E'. injection E' as <- <- <-. now rewrite (IH _ _ _ _ E). }
    destruct escaped.
    + destruct (quotedStringLoop q false r) as [[a' f'] r'] eqn:E.
      pose proof (Step _ _ _ _ E H) as G. injection H as <- _ _. simpl. exact G.
    + destruct (isType c LexType.Backslash) eqn:Eb.
      * destruct (quotedStringLoop q true r) as [[a' f'] r'] eqn:E.
        pose proof (Step _ _ _ _ E H) as G. injection H as <- _ _. simpl. now rewrite Eb.
      * destruct (isType c q) eqn:Eq.
        -- injection H as <- <- <-. simpl. now rewrite Eb, Eq.
        -- destruct (quotedStringLoop q false r) as [[a' f'] r'] eqn:E.
           pose proof (Step _ _ _ _ E H) as G. injection H as <- _ _. simpl.
           now rewrite Eb, Eq.
Qed.

Lemma lower_e (t : string) :
  toLowerCase t = "e" -> String.eqb t "E" = false -> t = "e".
Proof.
  destruct t as [|c [|]]; simpl; intros H HE; try discriminate H.
  injection H as H.
  destruct c as [[|] [|] [|] [|] [|] [|] [|] [|]]; vm_compute in H; try discriminate H;
    try reflexivity; discriminate HE.
Qed.

Lemma readNumber_quiet (ts : nat) (c : Cursor) (tok : Token) (c' : Cursor) :
  readNumber ts c = (tok, [], c') -> NumberShape (_basicTokens tok).
Proof.
  unfold readNumber. destruct c as [ls b].
  destruct (readSign (mkCursor ls b)) as [sign c1] eqn:Es.
  destruct (readWhole ts c1) as [[whole wi] c2] eqn:Ew.
  destruct (readFraction c2) as [[fraction fi] c3] eqn:Ef.
  destruct (readExponent c3) as [[exponent ei] c4] eqn:Ee.
  intros H. injection H as <- Hi _.
  apply app_eq_nil in Hi as [-> Hi]. apply app_eq_nil in Hi as [-> ->].
  cbn [Tokens.Number _basicTokens].
  assert (Hs : sign = [] \/ exists dash, sign = [dash] /\ lexType dash = LexType.Dash).
  { unfold readSign, currentBasicToken in Es. simpl in Es.
    destruct ls as [|l r]; simpl in Es; [injection Es as <- _; auto|].
    destruct (isType l LexType.Dash) eqn:E; injection Es as <- _; auto.
    right. exists l. split; [reflexivity | now apply isType_eq]. }
  assert (Hw : exists w, whole = [w] /\ lexType w = LexType.Digits).
  { unfold readWhole, currentBasicToken in Ew. destruct (hd_error (lexes c1)) as [l|];
      [|discriminate Ew].
    destruct (isType l LexType.Digits) eqn:E; cbn [negb] in Ew; [|discriminate Ew].
    injection Ew as <- _. exists l. split; [reflexivity | now apply isType_eq]. }
  assert (Hf : fraction = []
               \/ exists period digits,
                    fraction = [period; digits]
                    /\ lexType period = LexType.Period /\ lexType digits = LexType.Digits).
  { unfold readFraction, currentBasicToken in Ef. destruct (hd_error (lexes c2)) as [l|];
      [|injection Ef as <- _; auto].
    destruct (isType l LexType.Period) eqn:E; [|injection Ef as <- _; auto].
    destruct (hd_error (lexes (nextBasicToken c2))) as [d|]; [|discriminate Ef].
    destruct (isType d LexType.Digits) eqn:Ed; cbn [negb] in Ef; [|discriminate Ef].
    injection Ef as <- _. right. exists l, d.
    split; [reflexivity|]. split; now apply isType_eq. }
  assert (He : exponent = []
               \/ exists e esign digits,
                    exponent = e :: esign ++ [digits]
                    /\ lexType e = LexType.Letters /\ lexText e = "e"
                    /\ (esign = []
                        \/ exists x, esign = [x]
                                     /\ (lexType x = LexType.Dash \/ lexType x = LexType.Plus))
                    /\ lexType digits = LexType.Digits).
  { unfold readExponent, currentBasicToken in Ee. destruct (hd_error (lexes c3)) as [l|];
      [|injection Ee as <- _; auto].
    destruct (isType l LexType.Letters && (toLowerCase (lexText l) =? "e")%string) eqn:E;
      [|injection Ee as <- _; auto].
    apply andb_true_iff in E as [El Et]. apply isType_eq in El. apply String.eqb_eq in Et.
    destruct (hd_error (lexes (nextBasicToken c3))) as [x|] eqn:Ex1.
    2:{ injection Ee as _ Hi _. apply app_eq_nil in Hi as [_ Hi]. discriminate Hi. }
    assert (Hu : forall rest : list Issue,
               (if (lexText l =? "E")%string
                then [Error "'E' should be 'e'." (mkSpan (basicStart c3) 1)] else []) ++ rest
               = [] -> lexText l = "e" /\ rest = []).
    { intros rest Hi. apply app_eq_nil in Hi as [Hi ->]. split; [|reflexivity].
      apply lower_e; [exact Et|].
      destruct (lexText l =? "E")%string; [discriminate Hi | reflexivity]. }
    destruct (isType x LexType.Dash || isType x LexType.Plus) eqn:Ex.
    - unfold currentBasicToken in Ee.
      destruct (hd_error (lexes (nextBasicToken (nextBasicToken c3)))) as [d|].
      2:{ injection Ee as _ Hi _. apply Hu in Hi as [_ Hi]. discriminate Hi. }
      destruct (isType d LexType.Digits) eqn:Ed; cbn [negb] in Ee.
      2:{ injection Ee as _ Hi _. apply Hu in Hi as [_ Hi]. discriminate Hi. }
      injection Ee as <- Hi _.
      assert (Hi' := Hu []). rewrite app_nil_r in Hi'. apply Hi' in Hi as [Hi _]. right. exists l, [x], d.
      split; [reflexivity|]. split; [exact El|]. split; [exact Hi|].
      split; [|now apply isType_eq]. right. exists x. split; [reflexivity|].
      apply orb_true_iff in Ex as [Ex | Ex]; apply isType_eq in Ex; auto.
    - unfold currentBasicToken in Ee. rewrite Ex1 in Ee.
      destruct (isType x LexType.Digits) eqn:Ed; cbn [negb] in Ee.
      2:{ injection Ee as _ Hi _. apply Hu in Hi as [_ Hi]. discriminate Hi. }
      injection Ee as <- Hi _.
      assert (Hi' := Hu []). rewrite app_nil_r in Hi'. apply Hi' in Hi as [Hi _]. right. exists l, [], x.
      split; [reflexivity|]. split; [exact El|]. split; [exact Hi|].
      split; [auto | now apply isType_eq]. }
  destruct Hw as (w & -> & Hw).
  exists sign, w, fraction, exponent. auto.
Qed.

(** What each block of the number case takes, and whether it adds an
    issue. *)
Lemma readSign_cases (c : Cursor) (sign : list Lex) (c1 : Cursor) :
  readSign c = (sign, c1) ->
  sign = [] \/ exists l, sign = [l] /\ lexType l = LexType.Dash.
Proof.
  unfold readSign. destruct (currentBasicToken c) as [l|]; [|intros H; injection H as <- _; auto].
  destruct (isType l LexType.Dash) eqn:E; intros H; injection H as <- _; auto.
  right. exists l. split; [reflexivity | now apply isType_eq].
Qed.

Lemma readWhole_cases (ts : nat) (c : Cursor) (whole : list Lex) (wi : list Issue)
      (c2 : Cursor) :
  readWhole ts c = (whole, wi, c2) ->
  (whole = [] /\ wi <> [])
  \/ exists l, whole = [l] /\ lexType l = LexType.Digits /\ wi = [].
Proof.
  unfold readWhole. destruct (currentBasicToken c) as [l|].
  - destruct (isType l LexType.Digits) eqn:E; cbn [negb]; intros H; injection H as <- <- _.
    + right. exists l. split; [reflexivity|]. split; [now apply isType_eq | reflexivity].
    + left. split; [reflexivity | discriminate].
  - intros H. injection H as <- <- _. left. split; [reflexivity | discriminate].
Qed.

Lemma readFraction_cases (c : Cursor) (fraction : list Lex) (fi : list Issue)
      (c3 : Cursor) :
  readFraction c = (fraction, fi, c3) ->
  (fraction = [] /\ fi = [])
  \/ (exists p, fraction = [p] /\ lexType p = LexType.Period /\ fi <> [])
  \/ (exists p d, fraction = [p; d] /\ lexType p = LexType.Period
                   /\ lexType d = LexType.Digits /\ fi = []).
Proof.
  unfold readFraction. destruct (currentBasicToken c) as [l|];
    [|intros H; injection H as <- <- _; auto].
  destruct (isType l LexType.Period) eqn:E; [|intros H; injection H as <- <- _; auto].
  apply isType_eq in E.
  destruct (currentBasicToken (nextBasicToken c)) as [d|].
  - destruct (isType d LexType.Digits) eqn:Ed; cbn [negb]; intros H; injection H as <- <- _.
    + right. right. exists l, d. repeat split; auto. now apply isType_eq.
    + right. left. exists l. repeat split; auto. discriminate.
  - intros H. injection H as <- <- _. right. left. exists l. repeat split; auto. discriminate.
Qed.

Lemma readExponent_cases (c : Cursor) (exponent : list Lex) (ei : list Issue)
      (c4 : Cursor) :
  readExponent c = (exponent, ei, c4) ->
  (exponent = [] /\ ei = [])
  \/ (exists l, exponent = [l] /\ lexType l = LexType.Letters /\ ei <> [])
  \/ (exists l s, exponent = [l; s] /\ lexType l = LexType.Letters
                   /\ (lexType s = LexType.Dash \/ lexType s = LexType.Plus) /\ ei <> [])
  \/ (exists l x d, exponent = l :: x ++ [d] /\ lexType l = LexType.Letters
                     /\ (x = [] \/ exists s, x = [s]
                                    /\ (lexType s = LexType.Dash \/ lexType s = LexType.Plus))
                     /\ lexType d = LexType.Digits
                     /\ (lexText l = "e" -> ei = [])).
Proof.
  unfold readExponent. destruct (currentBasicToken c) as [l|];
    [|intros H; injection H as <- <- _; auto].
  destruct (isType l LexType.Letters && (toLowerCase (lexText l) =? "e")%string) eqn:E;
    [|intros H; injection H as <- <- _; auto].
  apply andb_true_iff in E as [El _]. apply isType_eq in El.
  assert (Hne : forall (u : list Issue) x, u ++ [x] <> []).
  { intros u x H. apply app_eq_nil in H as [_ H]. discriminate H. }
  assert (Hup : lexText l = "e" ->
                (if (lexText l =? "E")%string
                 then [Error "'E' should be 'e'." (mkSpan (basicStart c) 1)] else []) = []).
  { intros ->. reflexivity. }
  destruct (currentBasicToken (nextBasicToken c)) as [s|] eqn:Es.
  2:{ intros H. injection H as <- <- _. right. left. exists l. repeat split; auto. }
  destruct (isType s LexType.Dash || isType s LexType.Plus) eqn:Esign.
  - assert (Hs : lexType s = LexType.Dash \/ lexType s = LexType.Plus).
    { apply orb_true_iff in Esign as [H | H]; apply isType_eq in H; auto. }
    destruct (currentBasicToken (nextBasicToken (nextBasicToken c))) as [d|].
    2:{ intros H. injection H as <- <- _. right. right. left. exists l, s. repeat split; auto. }
    destruct (isType d LexType.Digits) eqn:Ed; cbn [negb]; intros H; injection H as <- <- _.
    + right. right. right. exists l, [s], d. repeat split; auto.
      * right. exists s. auto.
      * now apply isType_eq.
    + right. right. left. exists l, s. repeat split; auto.
  - rewrite Es. destruct (isType s LexType.Digits) eqn:Ed; cbn [negb];
      intros H; injection H as <- <- _.
    + right. right. right. exists l, [], s. repeat split; auto. now apply isType_eq.
    + right. left. exists l. repeat split; auto.
Qed.

Ltac shape_cases :=
  repeat match goal with
    | H : _ \/ _ |- _ => destruct H
    | H : exists _, _ |- _ => destruct H
    | H : _ /\ _ |- _ => destruct H
    end;
  subst; cbn [app] in *;
  repeat match goal with
    | H : _ :: _ = _ :: _ |- _ => injection H as ? ?; subst
    | H : [] = _ :: _ |- _ => discriminate H
    | H : _ :: _ = [] |- _ => discriminate H
    end;
  try congruence.

(** A number token of the well-formed shape was read without an issue. *)
Lemma readNumber_shaped (ts : nat) (c : Cursor) (tok : Token) (iss : list Issue)
      (c' : Cursor) :
  readNumber ts c = (tok, iss, c') -> NumberShape (_basicTokens tok) -> iss = [].
Proof.
  unfold readNumber.
  destruct (readSign c) as [sign c1] eqn:Es.
  destruct (readWhole ts c1) as [[whole wi] c2] eqn:Ew.
  destruct (readFraction c2) as [[fraction fi] c3] eqn:Ef.
  destruct (readExponent c3) as [[exponent ei] c4] eqn:Ee.
  intros H. injection H as <- <- _. cbn [Tokens.Number _basicTokens].
  apply readSign_cases in Es. apply readWhole_cases in Ew.
  apply readFraction_cases in Ef. apply readExponent_cases in Ee.
  intros (sign0 & whole0 & fraction0 & exponent0 & E & Hs & Hw & Hf & He).
  clear c c1 c2 c3 c4 c'.
  shape_cases; auto.
Qed.

(** A token is read without an issue exactly when it is well formed. *)
Lemma readToken_quiet (ts : nat) (l : Lex) (c : Cursor) (tok : Token) (iss : list Issue)
      (c' : Cursor) :
  readToken ts l c = (tok, iss, c') -> (iss = [] <-> wellFormedToken tok).
Proof.
  assert (Quote : forall a found rest,
             quotedStringLoop (lexType l) false (tl (lexes c)) = (a, found, rest) ->
             ((if found then []
               else [Error ("Missing end quote (" +++ lexText l +++ ").")
                       (mkSpan ts (getCombinedLength (l :: a)))]) = []
              <-> wellFormedToken (Tokens.QuotedString (l :: a) ts))).
  { intros a found rest E. apply quotedStringLoop_self in E.
    unfold wellFormedToken. cbn [getType Tokens.QuotedString _basicTokens]. split.
    - destruct found; [|discriminate]. intros _. exists l, a. auto.
    - intros (quote & body & Eq & Hl). injection Eq as <- <-.
      rewrite E in Hl. injection Hl as ->. reflexivity. }
  assert (Number : readNumber ts c = (tok, iss, c') -> (iss = [] <-> wellFormedToken tok)).
  { intros H. pose proof (readNumber_shaped _ _ _ _ _ H) as Hback. split.
    - intros ->. pose proof (readNumber_quiet _ _ _ _ H) as Hn.
      unfold readNumber in H.
      destruct (readSign c), (readWhole ts _) as [[? ?] ?], (readFraction _) as [[? ?] ?],
        (readExponent _) as [[? ?] ?].
      injection H as <- _. exact Hn.
    - intros Hw. apply Hback. unfold readNumber in H.
      destruct (readSign c), (readWhole ts _) as [[? ?] ?], (readFraction _) as [[? ?] ?],
        (readExponent _) as [[? ?] ?].
      injection H as <- _. exact Hw. }
  unfold readToken. intros H.
  destruct (lexType l) eqn:Ety;
    try (injection H as <- <- _; split; [intros _; exact I | reflexivity]);
    try (exact (Number H));
    try (injection H as <- <- _; split; [|reflexivity]; intros _;
         unfold wellFormedToken; simpl; intros E; injection E as E; rewrite E in Ety;
         discriminate Ety).
  - (* letters *)
    injection H as <- <- _. split; [|reflexivity]. intros _.
    destruct (lexText l =? "true")%string; [exact I|].
    destruct (lexText l =? "false")%string; [exact I|].
    destruct (lexText l =? "null")%string; [exact I|].
    unfold wellFormedToken. simpl. intros E. injection E as E. rewrite E in Ety.
    discriminate Ety.
  - (* a single quote *)
    destruct (quotedStringLoop _ false (tl (lexes c))) as [[a found] rest] eqn:E.
    injection H as <- <- _. exact (Quote _ _ _ eq_refl).
  - (* a double quote *)
    destruct (quotedStringLoop _ false (tl (lexes c))) as [[a found] rest] eqn:E.
    injection H as <- <- _. exact (Quote _ _ _ eq_refl).
  - destruct (takeWhileLex isWhitespaceLex (tl (lexes c))). injection H as <- <- _.
    split; [intros _; exact I | reflexivity].
  - destruct (takeWhileLex isWhitespaceLex (tl (lexes c))). injection H as <- <- _.
    split; [intros _; exact I | reflexivity].
  - destruct (takeWhileLex isWhitespaceLex (tl (lexes c))). injection H as <- <- _.
    split; [intros _; exact I | reflexivity].
  - (* a forward slash *)
    unfold readSlash in H. destruct (lexes (nextBasicToken c)) as [|second r].
    { injection H as <- <- _. split; [discriminate|]. intros Hw. exfalso. now apply Hw. }
    destruct (lexType second);
      try (injection H as <- <- _; split; [discriminate|]; intros Hw; exfalso; now apply Hw).
    + destruct (takeWhileLex _ r). injection H as <- <- _.
      split; [intros _; exact I | reflexivity].
    + destruct (blockCommentLoop r). injection H as <- <- _.
      split; [intros _; exact I | reflexivity].
Qed.

Lemma next_quiet (t t' : Tokenizer) (iss : list Issue) :
  next t = (t', iss) ->
  match getCurrent t' with
  | Some tok => iss = [] <-> wellFormedToken tok
  | None => iss = []
  end.
Proof.
  unfold next. intros H.
  destruct (if negb (hasStarted t) then _ else _) as [[lexer basicIndex] tokenStart].
  destruct (lexerInput lexer) as [|l ls].
  - injection H as <- <-. reflexivity.
  - destruct (readToken tokenStart l _) as [[tok0 i] c] eqn:E.
    injection H as <- <-. cbn. exact (readToken_quiet _ _ _ _ _ _ E).
Qed.

Lemma tokenizeLoop_quiet (fuel : nat) :
  forall t tokens iss,
    tokenizeLoop fuel t = Some (tokens, iss) ->
    (iss = [] <-> Forall wellFormedToken tokens).
Proof.
  induction fuel as [|n IH]; intros t tokens iss H; cbn [tokenizeLoop] in H;
    destruct (next t) as [t' i] eqn:Hn; pose proof (next_quiet _ _ _ Hn) as Hq;
    destruct (getCurrent t') as [tok|] eqn:Hc; try discriminate H.
  - injection H as <- <-. split; [constructor | exact (fun _ => Hq)].
  - destruct (tokenizeLoop n t') as [[toks more]|] eqn:Hr; [|discriminate H].
    injection H as <- <-. specialize (IH _ _ _ Hr). split.
    + intros E. apply app_eq_nil in E as [-> ->].
      constructor; [now apply Hq | now apply IH].
    + intros F. inversion F as [|? ? Ht Hts]; subst.
      apply Hq in Ht. apply IH in Hts. now subst.
  - injection H as <- <-. split; [constructor | exact (fun _ => Hq)].
Qed.

(** X13. The tokenizer adds no issue over a text exactly when every token of
    the text is well formed: every number token is an optional minus sign,
    digits, an optional point with digits and an optional exponent (the
    letter e in lower case, an optional sign, digits); every quoted string
    ends with its closing quote, which no backslash escapes; and no token is
    a forward slash that starts no comment. *)
Theorem X13_no_tokenizer_issue_iff_tokens_well_formed (s : string) :
  exists tokens iss,
    tokenize s = Some (tokens, iss)
    /\ (iss = [] <-> Forall wellFormedToken tokens).
Proof.
  destruct (tokenizeLoop_tiles (length (lex s)) (newTokenizer (lex s) 0))
    as (tokens & tiss & Hrun & _).
  { right. exists (lex s), 0. split; [reflexivity | apply lex_wf]. }
  { apply Nat.le_refl. }
  exists tokens, tiss. split; [exact Hrun|]. exact (tokenizeLoop_quiet _ _ _ _ Hrun).
Qed.

(** ** Siblings side by side *)

Definition children (s : Segment) : list Segment :=
  match s with
  | TokenSeg _ => []
  | Property l | ObjectSegment l | ArraySegment l => l
  end.

(** The children of a property, object or array fill it: they lie side by
    side from its [startIndex] to its [afterEndIndex]. *)
Definition filledByChildren (s : Segment) : Prop :=
  match s with
  | TokenSeg _ => Logic.True
  | _ => sideBySide (startIndex s) (children s) (afterEndIndex s)
  end.

Lemma located_filled :
  (forall s a b, Located s a b -> Forall filledByChildren (subsegments s))
  /\ (forall l a b, LocatedList l a b -> Forall filledByChildren (flat_map subsegments l)).
Proof.
  apply Located_both.
  - intros t. repeat constructor.
  - intros l a b Hne HL IH. cbn [subsegments]. constructor; [|exact IH].
    pose proof (proj1 located_facts _ _ _ (LocatedProperty l a b Hne HL)) as (Hab & Hs & Hlen).
    unfold filledByChildren, afterEndIndex. rewrite Hs, Hlen.
    replace (a + (b - a)) with b by lia. now apply located_sideBySide.
  - intros l a b Hne HL IH. cbn [subsegments]. constructor; [|exact IH].
    pose proof (proj1 located_facts _ _ _ (LocatedObject l a b Hne HL)) as (Hab & Hs & Hlen).
    unfold filledByChildren, afterEndIndex. rewrite Hs, Hlen.
    replace (a + (b - a)) with b by lia. now apply located_sideBySide.
  - intros l a b Hne HL IH. cbn [subsegments]. constructor; [|exact IH].
    pose proof (proj1 located_facts _ _ _ (LocatedArray l a b Hne HL)) as (Hab & Hs & Hlen).
    unfold filledByChildren, afterEndIndex. rewrite Hs, Hlen.
    replace (a + (b - a)) with b by lia. now apply located_sideBySide.
  - intros a. constructor.
  - intros s l a m b _ IHs _ IHl. cbn [flat_map]. apply Forall_app. now split.
Qed.

(** X14. The segments of a parsed document partition the text: the top-level
    segments lie side by side from index 0 to the length of the text (the
    first starts at 0, each one starts where the one before ends, the last
    ends at the end of the text), and so do the children of every property,
    object and array, at any depth, from its [startIndex] to its
    [afterEndIndex]. *)
Theorem X14_segments_partition_the_text (s : string) :
  exists d iss,
    parse s = Some (d, iss)
    /\ sideBySide 0 (documentSegments d) (String.length s)
    /\ Forall filledByChildren (flat_map subsegments (documentSegments d)).
Proof.
  destruct (parseLexes_spec (lex s) (lex_wf s)) as (segs & iss & Hp & Hl & _ & _).
  exists (mkDocument segs), iss. split; [exact Hp|]. cbn [documentSegments].
  rewrite combinedLength_text, lex_text in Hl. split.
  - now apply located_sideBySide.
  - exact (proj2 located_filled _ _ _ Hl).
Qed.

(** ** The second formatted text, for every text *)

(** The tokens that are no whitespace tokens. *)
Definition solidTokens (ts : list Token) : list Token :=
  filter (fun A => negb (isWs A)) ts.

Definition solidOf (ls : list Lex) : list Token := solidTokens (tokensOf ls).

Lemma solidTokens_dropWs (ts : list Token) : solidTokens (dropWs ts) = solidTokens ts.
Proof.
  induction ts as [|A ts IH]; [reflexivity|]. simpl.
  destruct (isWs A) eqn:E; simpl; [exact IH | now rewrite E].
Qed.

Lemma solidOf_spaces (j : nat) (body : list Lex) :
  stable body = true -> solidHead body ->
  solidOf (repeat spaceLex j ++ body) = solidOf body.
Proof.
  intros Hs Hb. destruct j as [|j]; [reflexivity|].
  unfold solidOf. now rewrite tokensOf_spaces by assumption.
Qed.

Lemma solidOf_dropSpaces (ls : list Lex) :
  stable ls = true -> solidHead (dropSpaces ls) -> solidOf ls = solidOf (dropSpaces ls).
Proof.
  intros Hs Hb. destruct (dropSpaces_split ls) as [j Hj].
  pose proof (stable_dropSpaces _ Hs) as Hsb.
  remember (dropSpaces ls) as b. rewrite Hj. now apply solidOf_spaces.
Qed.

(** [Kept ts rest body cont]: the tokens of [ts] before [rest], whitespace
    apart, are the tokens of the lexemes [body] before [cont], whitespace
    apart. *)
Definition Kept (ts rest : list Token) (body cont : list Lex) : Prop :=
  exists X, solidTokens ts = X ++ solidTokens rest
            /\ solidOf body = X ++ solidOf cont.

Lemma kept_trans (a b c : list Token) (x y z : list Lex) :
  Kept a b x y -> Kept b c y z -> Kept a c x z.
Proof.
  intros (X & E1 & E2) (Y & E3 & E4). exists (X ++ Y).
  rewrite E1, E2, E3, E4, !app_assoc. auto.
Qed.

Lemma kept_token (A : Token) (ts : list Token) (more : list Lex) :
  isWs A = false -> tokensOf (_basicTokens A ++ more) = A :: tokensOf more ->
  Kept (A :: ts) ts (_basicTokens A ++ more) more.
Proof.
  intros Hw Ht. exists [A]. unfold solidOf. rewrite Ht. simpl. now rewrite Hw.
Qed.

Lemma kept_skip (A : Token) (ts rest : list Token) (body cont : list Lex) :
  isWs A = true -> Kept ts rest body cont -> Kept (A :: ts) rest body cont.
Proof.
  intros Hw (X & E1 & E2). exists X. simpl. rewrite Hw. auto.
Qed.

Lemma kept_dropWs (ts : list Token) (body : list Lex) : Kept ts (dropWs ts) body body.
Proof. exists []. now rewrite solidTokens_dropWs. Qed.

Lemma kept_same (ts : list Token) (body cont : list Lex) :
  solidOf body = solidOf cont -> Kept ts ts body cont.
Proof. intros E. exists []. auto. Qed.

Lemma kept_body (ts rest : list Token) (body body' cont : list Lex) :
  solidOf body' = solidOf body -> Kept ts rest body cont -> Kept ts rest body' cont.
Proof. intros E (X & E1 & E2). exists X. rewrite E. auto. Qed.

Lemma defaultNext_coarse (object : bool) (ts : list Token) :
  defaultNext object ts
  = match headCoarse ts with
    | Some ty => match actionOf object ty with ADefault => true | _ => false end
    | None => false
    end.
Proof. destruct ts; [reflexivity|]. simpl. now rewrite action_coarse. Qed.

(** The loop reads what it wrote, whatever spaces come first: it keeps the
    tokens, and the pass over them has no colon gap. *)
Definition SettleLoop (object : bool) (k : Kind) (ts : list Token) (out : list Lex)
           (c : bool) (rest : list Token) : Prop :=
  Orig ts ->
  forall cont, stable cont = true -> (c = false -> cont = []) ->
    stable (dropSpaces (out ++ cont)) = true
    /\ solidHead (dropSpaces (out ++ cont))
    /\ Kept ts rest (dropSpaces (out ++ cont)) cont
    /\ forall j, exists out',
         FLoop true object k (tokensOf (repeat spaceLex j ++ dropSpaces (out ++ cont)))
           out' c (tokensOf cont).

Definition SettleBracket (object : bool) (ts : list Token) (o : list Lex)
           (c : bool) (rest : list Token) : Prop :=
  Orig ts -> opens object ts ->
  forall cont, stable cont = true -> (c = false -> cont = []) ->
    stable (o ++ cont) = true
    /\ solidHead (o ++ cont)
    /\ Kept ts rest (o ++ cont) cont
    /\ exists A ts' o', tokensOf (o ++ cont) = A :: ts' /\ getType A = leftOf object
                        /\ FBracket true object (A :: ts') o' c (tokensOf cont).

Definition SettleProp (ts : list Token) (po : list Lex) (cl : bool) (rest : list Token) : Prop :=
  Orig ts -> named ts ->
  forall cont, stable cont = true -> quietHead cont = true ->
    (rest = [] -> cont = []) ->
    (startsWs rest = false -> hd_error (dropSpaces cont) = firstLex rest) ->
    (cl = true ->
     hd_error cont = if defaultNext true rest then Some spaceLex else firstLex rest) ->
    stable (po ++ cont) = true
    /\ solidHead (po ++ cont)
    /\ Kept ts rest (po ++ cont) cont
    /\ exists N ts' j po' cl',
         tokensOf (po ++ cont) = N :: ts' /\ getType N = TokenType.QuotedString
         /\ FProp true (N :: ts') po' cl' (tokensOf (repeat spaceLex j ++ dropSpaces cont))
         /\ (cl' = true ->
             defaultNext true (tokensOf (repeat spaceLex j ++ dropSpaces cont)) = false).

Lemma settleLoop_use (object : bool) (k : Kind) (ts : list Token) (out : list Lex)
      (c : bool) (rest : list Token) (cont : list Lex) :
  SettleLoop object k ts out c rest -> Orig ts -> stable cont = true ->
  (c = false -> cont = []) ->
  stable (out ++ cont) = true
  /\ Kept ts rest (out ++ cont) cont
  /\ exists out', FLoop true object k (tokensOf (out ++ cont)) out' c (tokensOf cont).
Proof.
  intros IH HO Hs Hc. destruct (IH HO cont Hs Hc) as (Hsb & Hsh & HK & HF).
  destruct (dropSpaces_split (out ++ cont)) as [j Hj].
  assert (Hst : stable (out ++ cont) = true).
  { rewrite Hj. now apply stable_spaces. }
  split; [exact Hst|]. split.
  - apply (kept_body _ _ (dropSpaces (out ++ cont))); [|exact HK].
    now apply solidOf_dropSpaces.
  - specialize (HF j). now rewrite <- Hj in HF.
Qed.

Lemma kept_solid (object : bool) (A : Token) (a : Action) :
  actionOf object (getType A) = a -> a <> ASkip -> isWs A = false.
Proof.
  intros Ha Hn. destruct (isWs A) eqn:E; [|reflexivity].
  apply (proj2 (action_skip object A)) in E. congruence.
Qed.

Lemma settle_nil (object : bool) (k : Kind) : SettleLoop object k [] [] false [].
Proof.
  intros _ cont Hs Hc. rewrite (Hc eq_refl). simpl.
  split; [reflexivity|]. split; [exact I|]. split; [now apply kept_same|].
  intros j. exists []. apply loop_skip_spaces; [reflexivity | exact I | constructor].
Qed.

Lemma settle_close (object : bool) (k : Kind) (A : Token) (ts : list Token) :
  actionOf object (getType A) = AClose ->
  SettleLoop object k (A :: ts) (_basicTokens A) true ts.
Proof.
  intros Ha HO cont Hs _.
  assert (Hw : isWs A = false) by (apply (kept_solid _ _ _ Ha); discriminate).
  assert (HA : After A ts cont).
  { right. right. pose proof (selfDelimited_action object (getType A)) as H.
    now rewrite Ha in H. }
  destruct (emit_token A ts cont 0 HO Hw HA Hs) as (Hd & Hst & Hsh & Ht).
  simpl in Hd. rewrite Hd. split; [exact Hst|]. split; [exact Hsh|].
  split; [now apply kept_token|]. intros j. exists (_basicTokens A).
  apply loop_skip_spaces; [exact Hst | exact Hsh|].
  rewrite Ht. now apply FLClose.
Qed.

Lemma settle_skip (object : bool) (k : Kind) (A : Token) (ts : list Token)
      (out : list Lex) (c : bool) (rest : list Token) :
  actionOf object (getType A) = ASkip ->
  SettleLoop object k ts out c rest -> SettleLoop object k (A :: ts) out c rest.
Proof.
  intros Ha IH HO cont Hs Hc.
  destruct (IH (orig_tail _ _ HO) cont Hs Hc) as (H1 & H2 & HK & HF).
  split; [exact H1|]. split; [exact H2|]. split; [|exact HF].
  apply kept_skip; [now apply (action_skip object) | exact HK].
Qed.

Lemma settle_verbatim (object : bool) (k : Kind) (A : Token) (ts : list Token)
      (out : list Lex) (c : bool) (rest : list Token) :
  actionOf object (getType A) = AVerbatim ->
  SettleLoop object (kindAfter object (getType A)) ts out c rest ->
  SettleLoop object k (A :: ts) (_basicTokens A ++ out) c rest.
Proof.
  intros Ha IH HO cont Hs Hc.
  destruct (settleLoop_use _ _ _ _ _ _ _ IH (orig_tail _ _ HO) Hs Hc) as (Hsm & HK & out' & HF).
  assert (Hw : isWs A = false) by (apply (kept_solid _ _ _ Ha); discriminate).
  assert (HA : After A ts (out ++ cont)).
  { right. right. pose proof (selfDelimited_action object (getType A)) as H.
    now rewrite Ha in H. }
  destruct (emit_token A ts (out ++ cont) 0 HO Hw HA Hsm) as (Hd & Hst & Hsh & Ht).
  simpl in Hd. rewrite <- app_assoc, Hd.
  split; [exact Hst|]. split; [exact Hsh|].
  split; [exact (kept_trans _ _ _ _ _ _ (kept_token _ ts _ Hw Ht) HK)|].
  intros j. exists (_basicTokens A ++ out').
  apply loop_skip_spaces; [exact Hst | exact Hsh|].
  rewrite Ht. now apply FLVerbatim.
Qed.

Lemma settle_default (strict object : bool) (k : Kind) (A : Token) (ts : list Token)
      (out : list Lex) (c : bool) (rest : list Token) :
  actionOf object (getType A) = ADefault ->
  FLoop strict object KOther ts out c rest ->
  SettleLoop object KOther ts out c rest ->
  SettleLoop object k (A :: ts) (prefixFor k ++ _basicTokens A ++ out) c rest.
Proof.
  intros Ha HD IH HO cont Hs Hc.
  destruct (settleLoop_use _ _ _ _ _ _ _ IH (orig_tail _ _ HO) Hs Hc) as (Hsm & HK & out' & HF).
  assert (Hw : isWs A = false) by (apply (kept_solid _ _ _ Ha); discriminate).
  pose proof (after_loop _ _ _ _ _ _ _ _ HD HO Hw Hc) as HA.
  destruct (prefix_spaces k) as [i Hi].
  destruct (emit_token A ts (out ++ cont) i HO Hw HA Hsm) as (Hd & Hst & Hsh & Ht).
  rewrite <- !app_assoc, Hi, Hd.
  split; [exact Hst|]. split; [exact Hsh|].
  split; [exact (kept_trans _ _ _ _ _ _ (kept_token _ ts _ Hw Ht) HK)|].
  intros j. exists (prefixFor k ++ _basicTokens A ++ out').
  apply loop_skip_spaces; [exact Hst | exact Hsh|].
  rewrite Ht. now apply FLDefault.
Qed.

Lemma settle_bracket (object : bool) (A : Token) (ts : list Token)
      (out : list Lex) (c : bool) (rest : list Token) :
  SettleLoop object KLeft ts out c rest ->
  SettleBracket object (A :: ts) (_basicTokens A ++ out) c rest.
Proof.
  intros IH HO Hop cont Hs Hc. simpl in Hop.
  destruct (settleLoop_use _ _ _ _ _ _ _ IH (orig_tail _ _ HO) Hs Hc) as (Hsm & HK & out' & HF).
  assert (Hw : isWs A = false).
  { unfold isWs. rewrite Hop. destruct object; reflexivity. }
  assert (HA : After A ts (out ++ cont)).
  { right. right. rewrite Hop. destruct object; reflexivity. }
  destruct (emit_token A ts (out ++ cont) 0 HO Hw HA Hsm) as (_ & Hst & Hsh & Ht).
  rewrite <- app_assoc. split; [exact Hst|]. split; [exact Hsh|].
  split; [exact (kept_trans _ _ _ _ _ _ (kept_token _ ts _ Hw Ht) HK)|].
  exists A, (tokensOf (out ++ cont)), (_basicTokens A ++ out').
  split; [exact Ht|]. split; [exact Hop|]. now apply FBr.
Qed.

Lemma settle_nested (strict object : bool) (k : Kind) (A : Token) (ts : list Token)
      (inner : bool) (o : list Lex) (ic : bool) (ts1 : list Token)
      (out : list Lex) (c : bool) (rest : list Token) :
  actionOf object (getType A) = ANested inner ->
  FBracket strict inner (A :: ts) o ic ts1 ->
  SettleBracket inner (A :: ts) o ic ts1 ->
  FLoop strict object KOther ts1 out c rest ->
  SettleLoop object KOther ts1 out c rest ->
  SettleLoop object k (A :: ts) (indentFor k ++ o ++ out) c rest.
Proof.
  intros Ha HB IHB HD IH HO cont Hs Hc.
  pose proof (proj2 (proj2 (F_orig strict)) _ _ _ _ _ HB HO) as HO1.
  destruct (settleLoop_use _ _ _ _ _ _ _ IH HO1 Hs Hc) as (Hsm & HK & out' & HF).
  pose proof (action_nested _ _ _ Ha) as Hty.
  assert (Hic : ic = false -> out ++ cont = []).
  { intros E. pose proof (proj2 (proj2 (F_open strict)) _ _ _ _ _ HB E) as E1. subst ts1.
    exact (nothing_after _ _ _ _ _ _ _ HD Hc). }
  destruct (IHB HO Hty (out ++ cont) Hsm Hic)
    as (Hst & Hsh & HKB & A' & ts' & o' & Ht & Hty' & HB').
  destruct (indent_spaces k) as [i Hi].
  rewrite <- !app_assoc, Hi, dropSpaces_repeat, (dropSpaces_solidHead _ Hsh).
  split; [exact Hst|]. split; [exact Hsh|].
  split; [exact (kept_trans _ _ _ _ _ _ HKB HK)|].
  intros j. exists (indentFor k ++ o' ++ out').
  apply loop_skip_spaces; [exact Hst | exact Hsh|].
  rewrite Ht. apply (FLNested true object k A' ts' inner o' ic (tokensOf (out ++ cont))).
  - now rewrite Hty', <- Hty.
  - exact HB'.
  - exact HF.
Qed.

Lemma settle_property (strict object : bool) (k : Kind) (A : Token) (ts : list Token)
      (po : list Lex) (cl : bool) (ts1 : list Token)
      (out : list Lex) (c : bool) (rest : list Token) :
  actionOf object (getType A) = AProperty ->
  FProp strict (A :: ts) po cl ts1 ->
  SettleProp (A :: ts) po cl ts1 ->
  FLoop strict object KOther ts1 out c rest ->
  SettleLoop object KOther ts1 out c rest ->
  SettleLoop object k (A :: ts) (indentFor k ++ po ++ out) c rest.
Proof.
  intros Ha HP IHP HD IH HO cont Hs Hc.
  pose proof (proj1 (F_orig strict) _ _ _ _ HP HO) as HO1.
  destruct (settleLoop_use _ _ _ _ _ _ _ IH HO1 Hs Hc) as (Hsm & HK & _).
  destruct (IH HO1 cont Hs Hc) as (_ & _ & _ & HF).
  destruct (action_property _ _ Ha) as [-> Hty].
  assert (Hq : quietHead (out ++ cont) = true).
  { apply (quiet_after _ _ _ _ _ _ _ _ HD HO1); [discriminate | exact Hc]. }
  assert (Hn : ts1 = [] -> out ++ cont = []).
  { intros E. subst ts1. exact (nothing_after _ _ _ _ _ _ _ HD Hc). }
  assert (Hd : startsWs ts1 = false -> hd_error (dropSpaces (out ++ cont)) = firstLex ts1).
  { intros E. exact (solid_after _ _ _ _ _ _ _ _ HD HO1 Hc E). }
  assert (Hl : cl = true ->
               hd_error (out ++ cont)
               = if defaultNext true ts1 then Some spaceLex else firstLex ts1).
  { intros E. subst cl.
    destruct (FProp_colonLast _ _ _ _ HP) as [Hw Hv].
    destruct ts1 as [|B r].
    - simpl. now rewrite (Hn eq_refl).
    - pose proof (loop_head _ _ _ _ _ _ _ HD) as HH.
      simpl in HH, Hw. rewrite Hw in HH. destruct HH as [x ->].
      destruct (orig_first _ _ HO1) as (l & r' & El & _).
      unfold defaultNext, leadFor, firstLex. rewrite El.
      destruct (actionOf true (getType B)); reflexivity. }
  destruct (IHP HO Hty (out ++ cont) Hsm Hq Hn Hd Hl)
    as (Hst & Hsh & HKP & N & ts' & j0 & po' & cl' & Ht & Hty' & HP' & Hgap).
  destruct (indent_spaces k) as [i Hi].
  rewrite <- !app_assoc, Hi, dropSpaces_repeat, (dropSpaces_solidHead _ Hsh).
  split; [exact Hst|]. split; [exact Hsh|].
  split; [exact (kept_trans _ _ _ _ _ _ HKP HK)|].
  intros j. destruct (HF j0) as [out' HF'].
  exists (indentFor k ++ po' ++ out').
  apply loop_skip_spaces; [exact Hst | exact Hsh|].
  rewrite Ht.
  apply (FLProperty true true k N ts' po' cl'
           (tokensOf (repeat spaceLex j0 ++ dropSpaces (out ++ cont)))).
  - now rewrite Hty'.
  - exact HP'.
  - intros _. exact Hgap.
  - exact HF'.
Qed.

Lemma settle_name (N : Token) (ts0 : list Token) :
  colonNext (dropWs ts0) = false ->
  SettleProp (N :: ts0) (_basicTokens N) false (dropWs ts0).
Proof.
  intros Hc HO Hty cont Hs Hq Hn Hd _. simpl in Hty.
  pose proof (orig_dropWs _ (orig_tail _ _ HO)) as HO1.
  assert (HA : After N ts0 cont).
  { apply after_name; [exact Hty | | exact Hq].
    intros ->. now apply Hn. }
  destruct (emit_token N ts0 cont 0 HO (name_solid _ Hty) HA Hs) as (_ & Hst & Hsh & Ht).
  destruct (after_property _ _ HO1 Hs (dropWs_head ts0) (Hd (dropWs_head ts0))) as [Hdw Hhc].
  split; [exact Hst|]. split; [exact Hsh|]. split.
  { exact (kept_trans _ _ _ _ _ _ (kept_token _ ts0 _ (name_solid _ Hty) Ht)
             (kept_dropWs ts0 cont)). }
  exists N, (tokensOf cont), 0, (_basicTokens N), false.
  split; [exact Ht|]. split; [exact Hty|]. split; [|discriminate].
  simpl. rewrite <- Hdw. apply FPName.
  rewrite Hdw, colonNext_coarse, Hhc, <- colonNext_coarse. exact Hc.
Qed.

(** After a colon that ends its property the formatted text goes on with a
    space exactly when [format] put one before the next token; the second
    pass then takes the space into the property. *)
Lemma settle_colon (N : Token) (ts0 : list Token) (C : Token) (ts1 : list Token) :
  dropWs ts0 = C :: ts1 -> getType C = TokenType.Colon ->
  valueNext (dropWs ts1) = VNone ->
  SettleProp (N :: ts0)
    (_basicTokens N ++ _basicTokens C ++ (if startsWs ts1 then [spaceLex] else []))
    (negb (startsWs ts1)) (dropWs ts1).
Proof.
  intros E0 HC Hv HO Hty cont Hs Hq Hn Hd Hl. simpl in Hty.
  pose proof (orig_dropWs _ (orig_tail _ _ HO)) as HOC. rewrite E0 in HOC.
  pose proof (orig_dropWs _ (orig_tail _ _ HOC)) as HO1.
  destruct (after_property _ _ HO1 Hs (dropWs_head ts1) (Hd (dropWs_head ts1))) as [Hdw Hhc].
  pose proof (firstLex_solid _ _ HO1 (dropWs_head ts1) (Hd (dropWs_head ts1))) as Hsb.
  pose proof (stable_dropSpaces _ Hs) as Hsd.
  destruct (dropSpaces_split cont) as [j0 Hj].
  set (sp := if startsWs ts1 then [spaceLex] else []).
  assert (Hsp : stable (sp ++ cont) = true).
  { unfold sp. destruct (startsWs ts1); [|exact Hs].
    exact (stable_spaces 1 cont Hs). }
  assert (Hws : dropWs (tokensOf (sp ++ cont)) = tokensOf (dropSpaces cont)
                /\ (startsWs (tokensOf (sp ++ cont)) = false ->
                    defaultNext true (tokensOf (dropSpaces cont)) = false)
                /\ solidOf (sp ++ cont) = solidOf cont).
  { assert (Hsp1 : forall j,
               dropWs (tokensOf (repeat spaceLex (S j) ++ dropSpaces cont))
               = tokensOf (dropSpaces cont)
               /\ startsWs (tokensOf (repeat spaceLex (S j) ++ dropSpaces cont)) = true).
    { intros j. rewrite (tokensOf_spaces j _ Hsd Hsb).
      split; [|reflexivity]. cbn [dropWs isWs getType].
      change (TokenType.eqb TokenType.Whitespace TokenType.Whitespace) with true.
      cbv iota. apply dropWs_solid. now apply tokens_solid. }
    unfold sp. destruct (startsWs ts1) eqn:Ew.
    - assert (E : [spaceLex] ++ cont = repeat spaceLex (S j0) ++ dropSpaces cont).
      { rewrite Hj at 1. reflexivity. }
      rewrite E. destruct (Hsp1 j0) as [H1 H2]. split; [exact H1|]. split.
      + rewrite H2. discriminate.
      + rewrite (solidOf_spaces _ _ Hsd Hsb). symmetry. now apply solidOf_dropSpaces.
    - cbn [app]. split; [exact Hdw|]. split; [|reflexivity].
      intros Hsolid. specialize (Hl eq_refl).
      rewrite defaultNext_coarse, Hhc, <- defaultNext_coarse.
      destruct (defaultNext true (dropWs ts1)); [|reflexivity].
      exfalso. destruct j0 as [|j0].
      + simpl in Hj. rewrite <- Hj in Hsb. destruct cont as [|y r]; [discriminate Hl|].
        simpl in Hl, Hsb. injection Hl as ->. discriminate Hsb.
      + rewrite Hj in Hsolid. destruct (Hsp1 j0) as [_ H2]. congruence. }
  destruct Hws as (Hdw' & Hgap & Hsame).
  assert (HAC : After C ts1 (sp ++ cont)).
  { right. right. now rewrite HC. }
  destruct (emit_token C ts1 (sp ++ cont) 0 HOC (colon_solid _ HC) HAC Hsp)
    as (_ & HstC & _ & HtC).
  assert (HA : After N ts0 (_basicTokens C ++ sp ++ cont)).
  { apply after_name; [exact Hty | | apply (colon_quiet C ts1 _ HOC HC)].
    intros ->. discriminate E0. }
  destruct (emit_token N ts0 _ 0 HO (name_solid _ Hty) HA HstC) as (_ & Hst & Hsh & Ht).
  rewrite <- !app_assoc.
  split; [exact Hst|]. split; [exact Hsh|]. split.
  { apply (kept_trans _ ts0 _ _ (_basicTokens C ++ sp ++ cont));
      [exact (kept_token _ ts0 _ (name_solid _ Hty) Ht)|].
    apply (kept_trans _ (C :: ts1) _ _ (_basicTokens C ++ sp ++ cont));
      [rewrite <- E0; apply kept_dropWs|].
    apply (kept_trans _ ts1 _ _ (sp ++ cont));
      [exact (kept_token _ ts1 _ (colon_solid _ HC) HtC)|].
    apply (kept_trans _ (dropWs ts1) _ _ (sp ++ cont)); [apply kept_dropWs|].
    now apply kept_same. }
  exists N, (tokensOf (_basicTokens C ++ sp ++ cont)), 0,
    (_basicTokens N ++ _basicTokens C
     ++ (if startsWs (tokensOf (sp ++ cont)) then [spaceLex] else [])),
    (negb (startsWs (tokensOf (sp ++ cont)))).
  split; [exact Ht|]. split; [exact Hty|]. rewrite HtC. cbn [repeat app]. split.
  - rewrite <- Hdw'.
    apply (FPColon true N (C :: tokensOf (sp ++ cont)) C (tokensOf (sp ++ cont))).
    + simpl. now rewrite (colon_solid _ HC).
    + exact HC.
    + rewrite Hdw', valueNext_coarse, Hhc, <- valueNext_coarse. exact Hv.
  - intros E. apply Hgap. now apply negb_true_iff in E.
Qed.

Lemma solidOf_space (body : list Lex) :
  stable body = true -> solidHead body -> solidOf (spaceLex :: body) = solidOf body.
Proof. intros Hs Hb. exact (solidOf_spaces 1 body Hs Hb). Qed.

Lemma settle_literal (N : Token) (ts0 : list Token) (C : Token) (ts1 : list Token)
      (V : Token) (ts2 : list Token) :
  dropWs ts0 = C :: ts1 -> getType C = TokenType.Colon ->
  dropWs ts1 = V :: ts2 -> valueClass (getType V) = VLiteral ->
  SettleProp (N :: ts0)
    (_basicTokens N ++ _basicTokens C ++ spaceLex :: _basicTokens V) false ts2.
Proof.
  intros E0 HC E1 HV HO Hty cont Hs Hq Hn _ _. simpl in Hty.
  pose proof (orig_dropWs _ (orig_tail _ _ HO)) as HOC. rewrite E0 in HOC.
  pose proof (orig_dropWs _ (orig_tail _ _ HOC)) as HOV. rewrite E1 in HOV.
  destruct (literal_robust _ HV) as [Hr Hw].
  assert (HAV : After V ts2 cont).
  { destruct ts2 as [|B r].
    - left. now rewrite (Hn eq_refl).
    - right. left. split; [discriminate|]. split; [exact Hr | exact Hq]. }
  destruct (emit_token V ts2 cont 0 HOV Hw HAV Hs) as (_ & HstV & HshV & HtV).
  destruct (value_space V _ _ HstV HshV HtV Hw) as (HstS & W & HtS & HdS).
  assert (HAC : After C ts1 (spaceLex :: _basicTokens V ++ cont)).
  { right. right. now rewrite HC. }
  destruct (emit_token C ts1 _ 0 HOC (colon_solid _ HC) HAC HstS) as (_ & HstC & _ & HtC).
  assert (HA : After N ts0 (_basicTokens C ++ spaceLex :: _basicTokens V ++ cont)).
  { apply after_name; [exact Hty | | apply (colon_quiet C ts1 _ HOC HC)].
    intros ->. discriminate E0. }
  destruct (emit_token N ts0 _ 0 HO (name_solid _ Hty) HA HstC) as (_ & Hst & Hsh & Ht).
  replace ((_basicTokens N ++ _basicTokens C ++ spaceLex :: _basicTokens V) ++ cont)
    with (_basicTokens N ++ _basicTokens C ++ spaceLex :: _basicTokens V ++ cont)
    by (now rewrite <- !app_assoc).
  split; [exact Hst|]. split; [exact Hsh|]. split.
  { apply (kept_trans _ ts0 _ _ (_basicTokens C ++ spaceLex :: _basicTokens V ++ cont));
      [exact (kept_token _ ts0 _ (name_solid _ Hty) Ht)|].
    apply (kept_trans _ (C :: ts1) _ _ (_basicTokens C ++ spaceLex :: _basicTokens V ++ cont));
      [rewrite <- E0; apply kept_dropWs|].
    apply (kept_trans _ ts1 _ _ (spaceLex :: _basicTokens V ++ cont));
      [exact (kept_token _ ts1 _ (colon_solid _ HC) HtC)|].
    apply (kept_trans _ (V :: ts2) _ _ (spaceLex :: _basicTokens V ++ cont));
      [rewrite <- E1; apply kept_dropWs|].
    apply (kept_body _ _ (_basicTokens V ++ cont));
      [now apply solidOf_space | now apply kept_token]. }
  destruct (dropSpaces_split cont) as [j0 Hj].
  exists N, (tokensOf (_basicTokens C ++ spaceLex :: _basicTokens V ++ cont)), j0,
    (_basicTokens N ++ _basicTokens C ++ spaceLex :: _basicTokens V), false.
  split; [exact Ht|]. split; [exact Hty|]. split; [|discriminate].
  rewrite <- Hj, HtC, HtS.
  apply (FPLiteral true N (C :: W :: V :: tokensOf cont) C (W :: V :: tokensOf cont)
           V (tokensOf cont)).
  - simpl. now rewrite (colon_solid _ HC).
  - exact HC.
  - exact HdS.
  - exact HV.
Qed.

Lemma settle_value (strict : bool) (N : Token) (ts0 : list Token) (C : Token)
      (ts1 : list Token) (V : Token) (ts2 : list Token) (inner : bool)
      (out : list Lex) (closed : bool) (rest : list Token) :
  dropWs ts0 = C :: ts1 -> getType C = TokenType.Colon ->
  dropWs ts1 = V :: ts2 -> valueClass (getType V) = VNested inner ->
  FBracket strict inner (V :: ts2) out closed rest ->
  SettleBracket inner (V :: ts2) out closed rest ->
  SettleProp (N :: ts0) (_basicTokens N ++ _basicTokens C ++ spaceLex :: out) false rest.
Proof.
  intros E0 HC E1 HV HB IHB HO Hty cont Hs Hq Hn _ _. simpl in Hty.
  pose proof (orig_dropWs _ (orig_tail _ _ HO)) as HOC. rewrite E0 in HOC.
  pose proof (orig_dropWs _ (orig_tail _ _ HOC)) as HOV. rewrite E1 in HOV.
  pose proof (valueClass_nested _ _ HV) as HtyV.
  assert (Hc : closed = false -> cont = []).
  { intros E. apply Hn. exact (proj2 (proj2 (F_open strict)) _ _ _ _ _ HB E). }
  destruct (IHB HOV HtyV cont Hs Hc)
    as (HstV & HshV & HKV & A & ts' & o' & HtV & HtyA & HB').
  assert (Hw : isWs A = false).
  { unfold isWs. rewrite HtyA. destruct inner; reflexivity. }
  destruct (value_space A _ _ HstV HshV HtV Hw) as (HstS & W & HtS & HdS).
  assert (HAC : After C ts1 (spaceLex :: out ++ cont)).
  { right. right. now rewrite HC. }
  destruct (emit_token C ts1 _ 0 HOC (colon_solid _ HC) HAC HstS) as (_ & HstC & _ & HtC).
  assert (HA : After N ts0 (_basicTokens C ++ spaceLex :: out ++ cont)).
  { apply after_name; [exact Hty | | apply (colon_quiet C ts1 _ HOC HC)].
    intros ->. discriminate E0. }
  destruct (emit_token N ts0 _ 0 HO (name_solid _ Hty) HA HstC) as (_ & Hst & Hsh & Ht).
  replace ((_basicTokens N ++ _basicTokens C ++ spaceLex :: out) ++ cont)
    with (_basicTokens N ++ _basicTokens C ++ spaceLex :: out ++ cont)
    by (now rewrite <- !app_assoc).
  split; [exact Hst|]. split; [exact Hsh|]. split.
  { apply (kept_trans _ ts0 _ _ (_basicTokens C ++ spaceLex :: out ++ cont));
      [exact (kept_token _ ts0 _ (name_solid _ Hty) Ht)|].
    apply (kept_trans _ (C :: ts1) _ _ (_basicTokens C ++ spaceLex :: out ++ cont));
      [rewrite <- E0; apply kept_dropWs|].
    apply (kept_trans _ ts1 _ _ (spaceLex :: out ++ cont));
      [exact (kept_token _ ts1 _ (colon_solid _ HC) HtC)|].
    apply (kept_trans _ (V :: ts2) _ _ (spaceLex :: out ++ cont));
      [rewrite <- E1; apply kept_dropWs|].
    apply (kept_body _ _ (out ++ cont)); [now apply solidOf_space | exact HKV]. }
  destruct (dropSpaces_split cont) as [j0 Hj].
  exists N, (tokensOf (_basicTokens C ++ spaceLex :: out ++ cont)), j0,
    (_basicTokens N ++ _basicTokens C ++ spaceLex :: o'), false.
  split; [exact Ht|]. split; [exact Hty|]. split; [|discriminate].
  rewrite <- Hj, HtC, HtS.
  apply (FPNested true N (C :: W :: A :: ts') C (W :: A :: ts') A ts' inner o' closed).
  - simpl. now rewrite (colon_solid _ HC).
  - exact HC.
  - exact HdS.
  - now rewrite HtyA; destruct inner.
  - exact HB'.
Qed.

(** The formatted text of any pass is stable and keeps the tokens, and the
    pass over its tokens has no colon gap. *)
Lemma F_settle :
  (forall ts po cl rest, FProp false ts po cl rest -> SettleProp ts po cl rest)
  /\ (forall object k ts out c rest,
        FLoop false object k ts out c rest -> SettleLoop object k ts out c rest)
  /\ (forall object ts o c rest,
        FBracket false object ts o c rest -> SettleBracket object ts o c rest).
Proof.
  apply F_mutind; intros.
  - now apply settle_name.
  - now apply settle_colon.
  - eapply settle_literal; eauto.
  - eapply settle_value; eauto.
  - apply settle_nil.
  - now apply settle_close.
  - now apply settle_skip.
  - now apply settle_verbatim.
  - eapply settle_default; eauto.
  - eapply settle_property; eauto.
  - eapply settle_nested; eauto.
  - now apply settle_bracket.
Qed.

Lemma FDoc_settle (ts : list Token) (out : list Lex) :
  FDoc false ts out -> Orig ts ->
  stable out = true
  /\ solidOf out = solidTokens ts
  /\ exists out', FDoc true (tokensOf out) out'.
Proof.
  induction 1 as [|A ts out Hr H IH|A ts object o c rest out Hr HB H IH]; intros HO.
  - split; [reflexivity|]. split; [reflexivity|]. exists []. constructor.
  - destruct (IH (orig_tail _ _ HO)) as (Hs & HK & out' & HF).
    assert (HA : After A ts out).
    { left. exact (FDoc_head _ _ _ H (orig_tail _ _ HO)). }
    destruct (token_again _ _ _ HO HA Hs) as [Hst Ht].
    split; [exact Hst|]. split.
    + unfold solidOf in *. rewrite Ht. simpl. now rewrite HK.
    + exists (_basicTokens A ++ out'). rewrite Ht. now apply FDToken.
  - pose proof (proj2 (proj2 (F_orig false)) _ _ _ _ _ HB HO) as HO1.
    destruct (IH HO1) as (Hs & HK & out' & HF).
    assert (Hc : c = false -> out = []).
    { intros E. pose proof (proj2 (proj2 (F_open false)) _ _ _ _ _ HB E) as E1.
      subst rest. now inversion H. }
    destruct (proj2 (proj2 F_settle) _ _ _ _ _ HB HO (proj1 (root_opens _ _) Hr) out Hs Hc)
      as (Hst & _ & (X & E1 & E2) & A' & ts' & o' & Ht & Hty & HB').
    split; [exact Hst|]. split.
    + now rewrite E2, E1, HK.
    + exists (o' ++ out'). rewrite Ht.
      apply (FDNested true A' ts' object o' c (tokensOf out)).
      * now apply root_opens.
      * exact HB'.
      * exact HF.
Qed.

(** ** Formatting any text *)

Lemma orig_lex (s : string) : Orig (tokensOf (lex s)).
Proof. exists (lex s). split; [apply stable_lex | reflexivity]. Qed.

(** The pass over the formatted text of any document has no colon gap. *)
Lemma formatted_settles (s : string) (d : Document) (iss : list Issue) :
  parse s = Some (d, iss) ->
  exists out out',
    getCombinedText out = documentFormat d
    /\ stable out = true
    /\ solidOf out = solidTokens (tokensOf (lex s))
    /\ FDoc true (tokensOf out) out'.
Proof.
  intros Hp.
  destruct (parse_link s d iss Hp false) as (out & HF & Ht); [discriminate|].
  destruct (FDoc_settle _ _ HF (orig_lex s)) as (Hs & HK & out' & HF').
  exists out, out'. auto.
Qed.

Lemma tokenize_tokens (s : string) :
  exists tokens iss,
    tokenize s = Some (tokens, iss) /\ map eraseToken tokens = tokensOf (lex s).
Proof.
  destruct (tokenizeLoop_tiles (length (lex s)) (newTokenizer (lex s) 0))
    as (tokens & iss & Hrun & He & _).
  { right. exists (lex s), 0. split; [reflexivity | apply lex_wf]. }
  { apply Nat.le_refl. }
  exists tokens, iss. split; [exact Hrun | exact He].
Qed.

Lemma solidTokens_erase (ts : list Token) :
  map eraseToken (solidTokens ts) = solidTokens (map eraseToken ts).
Proof.
  induction ts as [|A ts IH]; [reflexivity|]. simpl.
  change (isWs (eraseToken A)) with (isWs A).
  destruct (isWs A); simpl; now rewrite IH.
Qed.

(** X15. Formatting settles after two passes, for every text: the formatted
    text of a parsed text parses, the formatted text of that document parses,
    and [format] of this third document is the second formatted text again.
    (The first and the second formatted text may differ.) *)
Theorem X15_format_settles_after_two_passes (s : string) :
  exists d1 i1 d2 i2 d3 i3,
    parse s = Some (d1, i1)
    /\ parse (documentFormat d1) = Some (d2, i2)
    /\ parse (documentFormat d2) = Some (d3, i3)
    /\ documentFormat d3 = documentFormat d2.
Proof.
  destruct (parseLexes_spec (lex s) (lex_wf s)) as (segs1 & i1 & Hp1 & _).
  destruct (formatted_settles s _ _ Hp1) as (out1 & out2 & Ht1 & Hs1 & _ & HF2).
  pose proof (lex_stable _ Hs1) as Hl1. rewrite Ht1 in Hl1.
  destruct (parseLexes_spec (lex (documentFormat (mkDocument segs1))) (lex_wf _))
    as (segs2 & i2 & Hp2 & _).
  destruct (parse_link _ _ _ Hp2 false) as (out2' & HF2' & Ht2); [discriminate|].
  rewrite Hl1 in HF2'.
  assert (E2 : out2' = out2).
  { symmetry. exact (FDoc_deterministic _ _ _ HF2' _ (FDoc_relax _ _ HF2)). }
  subst out2'.
  assert (HO1 : Orig (tokensOf out1)) by (exists out1; auto).
  destruct (FDoc_again _ _ HF2 HO1) as [Hs2 HF3].
  pose proof (lex_stable _ Hs2) as Hl2. rewrite Ht2 in Hl2.
  destruct (parseLexes_spec (lex (documentFormat (mkDocument segs2))) (lex_wf _))
    as (segs3 & i3 & Hp3 & _).
  destruct (parse_link _ _ _ Hp3 false) as (out3 & HF3' & Ht3); [discriminate|].
  rewrite Hl2 in HF3'.
  exists (mkDocument segs1), i1, (mkDocument segs2), i2, (mkDocument segs3), i3.
  split; [exact Hp1|]. split; [exact Hp2|]. split; [exact Hp3|].
  rewrite <- Ht3, <- Ht2. f_equal.
  exact (FDoc_deterministic _ _ _ HF3 _ HF3').
Qed.

(** The tokens of the formatted text, whitespace apart, are the tokens of
    the text, whitespace apart. *)
Lemma format_keeps_solid (s : string) (d : Document) (iss : list Issue)
      (tokens : list Token) (tiss : list Issue) (tokens' : list Token) (tiss' : list Issue) :
  parse s = Some (d, iss) ->
  tokenize s = Some (tokens, tiss) ->
  tokenize (documentFormat d) = Some (tokens', tiss') ->
  map eraseToken (solidTokens tokens') = map eraseToken (solidTokens tokens).
Proof.
  intros Hp Hk Hk'.
  destruct (formatted_settles s _ _ Hp) as (out & out' & Ht & Hs & HK & _).
  pose proof (lex_stable _ Hs) as Hl. rewrite Ht in Hl.
  destruct (tokenize_tokens s) as (ts & i & Hk0 & He).
  destruct (tokenize_tokens (documentFormat d)) as (ts' & i' & Hk0' & He').
  rewrite Hk in Hk0. injection Hk0 as <- <-.
  rewrite Hk' in Hk0'. injection Hk0' as <- <-.
  rewrite !solidTokens_erase, He, He', Hl. exact HK.
Qed.

(** X16. [format] keeps the tokens, for every text: the tokens of the
    formatted text other than whitespace tokens are, in type and in text and
    in their order, the tokens of the text other than whitespace tokens. *)
Theorem X16_format_keeps_the_tokens (s : string) :
  exists d iss tokens tiss tokens' tiss',
    parse s = Some (d, iss)
    /\ tokenize s = Some (tokens, tiss)
    /\ tokenize (documentFormat d) = Some (tokens', tiss')
    /\ map eraseToken (solidTokens tokens') = map eraseToken (solidTokens tokens).
Proof.
  destruct (parseLexes_spec (lex s) (lex_wf s)) as (segs & iss & Hp & _).
  destruct (tokenize_tokens s) as (tokens & tiss & Hk & _).
  destruct (tokenize_tokens (documentFormat (mkDocument segs))) as (tokens' & tiss' & Hk' & _).
  exists (mkDocument segs), iss, tokens, tiss, tokens', tiss'.
  split; [exact Hp|]. split; [exact Hk|]. split; [exact Hk'|].
  exact (format_keeps_solid _ _ _ _ _ _ _ Hp Hk Hk').
Qed.

(** ** Longest tokens *)

(** A whitespace token takes every whitespace lexeme in a row. *)
Lemma whitespace_next (a r1 : list Lex) (A : Token) :
  forallb wfLex (a ++ r1) = true ->
  readShape (a ++ r1) = Some (A, r1) ->
  getType A = TokenType.Whitespace ->
  forallb isWhitespaceLex a = true /\ solidHead r1.
Proof.
  intros Hwf H Ht. destruct (readShape_spec _ _ _ Hwf H) as (L & Hne & _).
  apply app_inv_tail in L. destruct a as [|l a]; [congruence|].
  unfold readShape in H. cbn [app] in H.
  destruct (readToken 0 l (mkCursor (l :: a ++ r1) 0)) as [[tok iss] c] eqn:E.
  injection H as -> Hc. unfold readToken in E.
  assert (W : forall x rest,
             takeWhileLex isWhitespaceLex (a ++ r1) = (x, rest) ->
             isWhitespaceLex l = true ->
             (Tokens.Whitespace (l :: x) 0, @nil Issue,
              advance (l :: x) rest (mkCursor (l :: a ++ r1) 0)) = (A, iss, c) ->
             forallb isWhitespaceLex (l :: a) = true /\ solidHead r1).
  { intros x rest Et Hl E'. injection E' as <- _ <-.
    cbn [lexes advance] in Hc. subst rest.
    cbn [_basicTokens Tokens.Whitespace] in L. injection L as L. subst x.
    destruct (takeWhileLex_all _ _ _ Et) as [Hx Hy].
    split; [simpl; now rewrite Hl, Hx | exact Hy]. }
  destruct (lexType l) eqn:Ety;
    try (cbn in E; injection E as <- _ _; discriminate).
  - destruct (lexText l =? "true")%string; [injection E as <- _ _; discriminate|].
    destruct (lexText l =? "false")%string; [injection E as <- _ _; discriminate|].
    destruct (lexText l =? "null")%string; injection E as <- _ _; discriminate.
  - destruct (quotedStringLoop _ _ _) as [[x e] y]. injection E as <- _ _. discriminate.
  - destruct (quotedStringLoop _ _ _) as [[x e] y]. injection E as <- _ _. discriminate.
  - cbn [lexes tl] in E. destruct (takeWhileLex _ (a ++ r1)) as [x rest] eqn:Et.
    apply (W x rest eq_refl); [|exact E]. unfold isWhitespaceLex, isType. now rewrite Ety.
  - cbn [lexes tl] in E. destruct (takeWhileLex _ (a ++ r1)) as [x rest] eqn:Et.
    apply (W x rest eq_refl); [|exact E]. unfold isWhitespaceLex, isType. now rewrite Ety.
  - cbn [lexes tl] in E. destruct (takeWhileLex _ (a ++ r1)) as [x rest] eqn:Et.
    apply (W x rest eq_refl); [|exact E]. unfold isWhitespaceLex, isType. now rewrite Ety.
  - destruct (readNumber_block 0 (mkCursor (l :: a ++ r1) 0)) as [B1 _].
    rewrite E in B1. simpl in B1. rewrite B1 in Ht. discriminate.
  - destruct (readNumber_block 0 (mkCursor (l :: a ++ r1) 0)) as [B1 _].
    rewrite E in B1. simpl in B1. rewrite B1 in Ht. discriminate.
  - destruct (readNumber_block 0 (mkCursor (l :: a ++ r1) 0)) as [B1 _].
    rewrite E in B1. simpl in B1. rewrite B1 in Ht. discriminate.
  - unfold readSlash in E. cbn [nextBasicToken lexes basicStart] in E.
    destruct (a ++ r1) as [|second r] eqn:Ea; [injection E as <- _ _; discriminate|].
    destruct (lexType second) eqn:Es; try (injection E as <- _ _; discriminate).
    + destruct (takeWhileLex _ r) as [x rest]. injection E as <- _ _. discriminate.
    + destruct (blockCommentLoop r) as [x rest]. injection E as <- _ _. discriminate.
Qed.

(** No whitespace token is directly followed by a whitespace token, and a
    line comment is directly followed by a line break or by nothing. *)
Fixpoint longest (ts : list Token) : bool :=
  match ts with
  | A :: r =>
      match r with
      | B :: _ =>
          negb (isWs A && isWs B)
          && (negb (TokenType.eqb (getType A) TokenType.LineComment)
              || TokenType.eqb (getType B) TokenType.NewLine)
      | [] => true
      end && longest r
  | [] => true
  end.

(** A whitespace token is made of spaces, tabs and carriage returns. *)
Definition blankWhitespace (A : Token) : bool :=
  negb (isWs A) || forallb isWhitespaceLex (_basicTokens A).

Lemma orig_longest (ts : list Token) :
  Orig ts -> longest ts = true /\ forallb blankWhitespace ts = true.
Proof.
  induction ts as [|A ts IH]; intros HO; [auto|].
  destruct (IH (orig_tail _ _ HO)) as [IH1 IH2].
  destruct (orig_cons _ _ HO) as (ls' & Hs & Hr & Hts & _).
  pose proof (stable_wf _ Hs) as Hwf.
  assert (HW : isWs A = true ->
               forallb isWhitespaceLex (_basicTokens A) = true /\ startsWs ts = false).
  { intros Hw. unfold isWs in Hw. apply tokenType_eqb_eq in Hw.
    destruct (whitespace_next _ _ _ Hwf Hr Hw) as [Ha Hh]. split; [exact Ha|].
    rewrite Hts. apply tokens_solid; [|exact Hh].
    exact (proj2 (stable_app_inv _ _ Hs)). }
  split.
  - cbn [longest]. rewrite IH1, andb_true_r. destruct ts as [|B r]; [reflexivity|].
    apply andb_true_iff. split.
    + destruct (isWs A) eqn:Ew; [|reflexivity].
      destruct (HW eq_refl) as [_ Hn]. simpl in Hn. now rewrite Hn.
    + destruct (TokenType.eqb (getType A) TokenType.LineComment) eqn:El; [|reflexivity].
      apply tokenType_eqb_eq in El. pose proof (orig_lineComment _ _ HO El) as Hn.
      simpl in Hn. rewrite Hn. reflexivity.
  - cbn [forallb]. rewrite IH2, andb_true_r. unfold blankWhitespace.
    destruct (isWs A) eqn:Ew; [|reflexivity]. exact (proj1 (HW eq_refl)).
Qed.

Lemma longest_erase (ts : list Token) : longest (map eraseToken ts) = longest ts.
Proof.
  induction ts as [|A ts IH]; [reflexivity|].
  cbn [map longest]. rewrite IH. destruct ts as [|B r]; reflexivity.
Qed.

Lemma blankWhitespace_erase (ts : list Token) :
  forallb blankWhitespace (map eraseToken ts) = forallb blankWhitespace ts.
Proof. induction ts as [|A ts IH]; [reflexivity|]. simpl. now rewrite IH. Qed.

(** X17. The tokenizer reads the longest tokens: among the tokens of any
    text no whitespace token is directly followed by another whitespace
    token, a line comment is directly followed by a line break or is the last
    token, and a whitespace token is made of spaces, tabs and carriage
    returns only. *)
Theorem X17_tokens_are_the_longest (s : string) :
  exists tokens iss,
    tokenize s = Some (tokens, iss)
    /\ longest tokens = true
    /\ forallb blankWhitespace tokens = true.
Proof.
  destruct (tokenize_tokens s) as (tokens & iss & Hk & He).
  exists tokens, iss. split; [exact Hk|].
  rewrite <- longest_erase, <- blankWhitespace_erase, He.
  exact (orig_longest _ (orig_lex s)).
Qed.

(** ** The root of a document *)

Lemma parse_leaves (s : string) (d : Document) (iss : list Issue)
      (tokens : list Token) (tiss : list Issue) :
  parse s = Some (d, iss) -> tokenize s = Some (tokens, tiss) ->
  flat_map leaves (documentSegments d) = tokens.
Proof.
  intros Hp Hrun.
  destruct (parse_run _ _ _ Hp) as (t0 & i0 & i1 & Hn & Hd & ->).
  destruct (document_upcoming _ _ _ _ Hd) as (it & Hs & Hu).
  destruct (tokenizeLoop_upcoming _ _ _ _ _ _ Hrun Hn) as (ir & Hu' & ->).
  now destruct (upcoming_unique _ _ _ Hu _ _ Hu') as [-> ->].
Qed.

Lemma parse_shaped (s : string) (d : Document) (iss : list Issue) :
  parse s = Some (d, iss) -> forallb shapedTop (documentSegments d) = true.
Proof.
  intros Hp. destruct (parse_run _ _ _ Hp) as (t0 & i0 & i1 & Hn & Hd & _).
  exact (document_shaped _ _ _ _ Hd).
Qed.

(** A whitespace or line-break token. *)
Definition blankToken (t : Token) : bool := negb (startsRoot (getType t)).

(** Where the root is among the tokens [tokens]: [None] when all of them
    are blank, and else a segment whose first token is the first token that
    is not blank. *)
Definition rootAt (tokens : list Token) (root : option Segment) : Prop :=
  match root with
  | None => forallb blankToken tokens = true
  | Some r =>
      exists before tok after,
        tokens = before ++ tok :: after
        /\ forallb blankToken before = true
        /\ blankToken tok = false
        /\ hd_error (leaves r) = Some tok
  end.

Lemma root_first (segs : list Segment) :
  forallb shapedTop segs = true ->
  rootAt (flat_map leaves segs) (find isRootCandidate segs).
Proof.
  induction segs as [|seg segs IH]; intros H; [reflexivity|].
  cbn [forallb] in H. apply andb_true_iff in H as [Hseg H]. specialize (IH H).
  cbn [find flat_map].
  destruct seg as [t | l | l | l].
  - cbn [isRootCandidate leaves app].
    destruct (negb (TokenType.eqb (getType t) TokenType.NewLine)
              && negb (TokenType.eqb (getType t) TokenType.Whitespace)) eqn:Ec.
    + exists [], t, (flat_map leaves segs). repeat split.
      unfold blankToken. destruct (getType t); simpl in *; congruence.
    + assert (Hb : blankToken t = true).
      { unfold blankToken. destruct (getType t); simpl in *; congruence. }
      destruct (find isRootCandidate segs) as [r|].
      * destruct IH as (before & tok & after & E & Hbefore & Htok & Hhd).
        exists (t :: before), tok, after. rewrite E. repeat split; auto.
        simpl. now rewrite Hb.
      * simpl in *. now rewrite Hb.
  - discriminate Hseg.
  - cbn [isRootCandidate]. cbn [shapedTop shaped] in Hseg.
    destruct l as [|[open | | |] r]; try discriminate Hseg.
    apply andb_true_iff in Hseg as [Hseg _]. apply andb_true_iff in Hseg as [Ho _].
    apply tokenType_eqb_eq in Ho.
    exists [], open, (flat_map leaves r ++ flat_map leaves segs). repeat split.
    unfold blankToken. now rewrite Ho.
  - cbn [isRootCandidate]. cbn [shapedTop shaped] in Hseg.
    destruct l as [|[open | | |] r]; try discriminate Hseg.
    apply andb_true_iff in Hseg as [Hseg _]. apply andb_true_iff in Hseg as [Ho _].
    apply tokenType_eqb_eq in Ho.
    exists [], open, (flat_map leaves r ++ flat_map leaves segs). repeat split.
    unfold blankToken. now rewrite Ho.
Qed.

(** X18. [getRoot()] of a parsed text is the segment that starts with the
    first token of the text that is neither whitespace nor a line break:
    that token itself, or the object or array it opens.  It is undefined
    exactly when the text has no such token, as for the empty text. *)
Theorem X18_root_starts_at_first_solid_token (s : string) :
  exists d iss tokens tiss,
    parse s = Some (d, iss)
    /\ tokenize s = Some (tokens, tiss)
    /\ rootAt tokens (getRoot d).
Proof.
  destruct (parseLexes_spec (lex s) (lex_wf s)) as (segs & iss & Hp & _).
  destruct (tokenize_tokens s) as (tokens & tiss & Hk & _).
  exists (mkDocument segs), iss, tokens, tiss.
  split; [exact Hp|]. split; [exact Hk|].
  rewrite <- (parse_leaves _ _ _ _ _ Hp Hk).
  exact (root_first _ (parse_shaped _ _ _ Hp)).
Qed.

(** ** What the parser reports *)

(** The states the parser runs through: the tokenizer was created at index
    0 over a text of [limit] characters and has been advanced, and its
    current token is made of lexemes of the lexer. *)
Definition Sound (limit : nat) (t : Tokenizer) : Prop := Inv limit t /\ Started t.

Lemma sound_first (s : string) (t0 : Tokenizer) (i0 : list Issue) :
  next (newTokenizer (lex s) 0) = (t0, i0) -> Sound (String.length s) t0.
Proof.
  intros Hn. split.
  - destruct (next_first _ _ _ (lex_wf s) Hn) as (HI & _).
    rewrite combinedLength_text, lex_text in HI. exact HI.
  - apply (next_started _ _ _ (or_intror (ex_intro _ (lex s)
             (ex_intro _ 0 (conj eq_refl (lex_wf s))))) Hn).
Qed.

Lemma sound_next (limit : nat) (t : Tokenizer) (tok : Token) (t1 : Tokenizer)
      (i1 : list Issue) :
  Sound limit t -> getCurrent t = Some tok -> next t = (t1, i1) ->
  Sound limit t1 /\ LocatedList [TokenSeg tok] (here t) (here t1).
Proof.
  intros [HI HS] Hc Hn.
  destruct (post_next _ _ _ _ _ HI Hc Hn) as (HI1 & L & _).
  destruct (next_started _ _ _ (or_introl HS) Hn) as (HS1 & _).
  split; [split; assumption | exact L].
Qed.

Lemma sound_end (limit : nat) (t : Tokenizer) :
  Sound limit t -> getCurrent t = None -> here t = limit.
Proof.
  intros [(_ & _ & Hlim & _ & Hcur) _] Hc. unfold getCurrent in Hc.
  unfold frontier in Hlim. rewrite Hc in Hlim, Hcur. rewrite Hcur in Hlim.
  simpl in Hlim. unfold here. lia.
Qed.

Lemma sound_current (limit : nat) (t : Tokenizer) (tok : Token) :
  Sound limit t -> getCurrent t = Some tok ->
  tokenStartIndex tok = here t /\ here t < limit.
Proof.
  intros [HI (_ & _ & HS)] Hc.
  destruct (current_token_facts _ _ _ HI Hc) as (Hs & Hf & _).
  pose proof (frontier_le_limit _ _ HI) as Hle.
  unfold getCurrent in Hc. rewrite Hc in HS. destruct HS as (_ & Hne & Hwf).
  pose proof (combinedLength_positive _ Hne Hwf) as Hpos.
  unfold tokenLength in Hf. split; [exact Hs | lia].
Qed.

Lemma ws_placed (limit : nat) (t : Tokenizer) (ws : list Segment) (t' : Tokenizer)
      (iss : list Issue) :
  RunWs t ws t' iss -> Sound limit t ->
  Sound limit t' /\ LocatedList ws (here t) (here t').
Proof.
  induction 1 as [t Hc | t tok Hc Hty | t tok t1 i1 ws t2 i2 Hc Hty Hn _ IH]; intros HS.
  - split; [exact HS | constructor].
  - split; [exact HS | constructor].
  - destruct (sound_next _ _ _ _ _ HS Hc Hn) as [HS1 L1].
    destruct (IH HS1) as [HS2 L2]. split; [exact HS2|].
    exact (locatedList_app _ _ _ _ _ L1 L2).
Qed.

Lemma name_placed (limit : nat) (t : Tokenizer) (name : Token) (ws : list Segment)
      (t' : Tokenizer) (iss : list Issue) :
  RunName t name ws t' iss -> Sound limit t ->
  Sound limit t' /\ LocatedList (TokenSeg name :: ws) (here t) (here t').
Proof.
  intros [t0 name0 t1 i1 ws0 t2 i2 Hc Hn Hw] HS.
  destruct (sound_next _ _ _ _ _ HS Hc Hn) as [HS1 L1].
  destruct (ws_placed _ _ _ _ _ Hw HS1) as [HS2 L2]. split; [exact HS2|].
  exact (locatedList_app _ _ _ _ _ L1 L2).
Qed.

Lemma located_single (seg : Segment) (a b : nat) :
  LocatedList [seg] a b -> Located seg a b.
Proof.
  intros H. inversion H as [|? ? ? m ? Hs Hl]; subst. inversion Hl; subst. exact Hs.
Qed.

Lemma located_one (seg : Segment) (a b : nat) :
  Located seg a b -> LocatedList [seg] a b.
Proof. intros H. econstructor; [exact H | constructor]. Qed.

(** Every run hands out segments that lie side by side from where the
    tokenizer stood to where it stands afterwards. *)
Lemma run_placed (limit : nat) :
  (forall t seg t' iss, RunProperty t seg t' iss ->
     Sound limit t -> Sound limit t' /\ Located seg (here t) (here t'))
  /\ (forall object t seg t' iss, RunBracket object t seg t' iss ->
        Sound limit t -> Sound limit t' /\ Located seg (here t) (here t'))
  /\ (forall flags t added closed t' iss, RunObjectLoop flags t added closed t' iss ->
        Sound limit t -> Sound limit t' /\ LocatedList added (here t) (here t'))
  /\ (forall flags t added closed t' iss, RunArrayLoop flags t added closed t' iss ->
        Sound limit t -> Sound limit t' /\ LocatedList added (here t) (here t')).
Proof.
  apply Run_mutind.
  - (* property: end of text after the name *)
    intros t name ws1 t2 i1 HN Hc HS.
    destruct (name_placed _ _ _ _ _ _ HN HS) as [HS2 L]. split; [exact HS2|].
    apply LocatedProperty; [discriminate | exact L].
  - intros t name ws1 t2 i1 other HN Hc Hty HS.
    destruct (name_placed _ _ _ _ _ _ HN HS) as [HS2 L]. split; [exact HS2|].
    apply LocatedProperty; [discriminate | exact L].
  - intros t name ws1 t2 i1 colon ws2 t4 i3 HN Hty HC Hc HS.
    destruct (name_placed _ _ _ _ _ _ HN HS) as [HS2 L1].
    destruct (name_placed _ _ _ _ _ _ HC HS2) as [HS4 L2]. split; [exact HS4|].
    apply LocatedProperty; [discriminate|].
    exact (locatedList_app (TokenSeg name :: ws1) _ _ _ _ L1 L2).
  - intros t name ws1 t2 i1 colon ws2 t4 i3 other HN Hty HC Hc Hv HS.
    destruct (name_placed _ _ _ _ _ _ HN HS) as [HS2 L1].
    destruct (name_placed _ _ _ _ _ _ HC HS2) as [HS4 L2]. split; [exact HS4|].
    apply LocatedProperty; [discriminate|].
    exact (locatedList_app (TokenSeg name :: ws1) _ _ _ _ L1 L2).
  - intros t name ws1 t2 i1 colon ws2 t4 i3 value t5 i5 HN Hty HC Hc Hv Hn HS.
    destruct (name_placed _ _ _ _ _ _ HN HS) as [HS2 L1].
    destruct (name_placed _ _ _ _ _ _ HC HS2) as [HS4 L2].
    destruct (sound_next _ _ _ _ _ HS4 Hc Hn) as [HS5 L3]. split; [exact HS5|].
    apply LocatedProperty; [discriminate|].
    apply (locatedList_app (TokenSeg name :: ws1) _ _ _ _ L1).
    exact (locatedList_app (TokenSeg colon :: ws2) _ _ _ _ L2 L3).
  - intros t name ws1 t2 i1 colon ws2 t4 i3 first object value t5 i5
           HN Hty HC Hc Hv _ IH HS.
    destruct (name_placed _ _ _ _ _ _ HN HS) as [HS2 L1].
    destruct (name_placed _ _ _ _ _ _ HC HS2) as [HS4 L2].
    destruct (IH HS4) as [HS5 L3]. split; [exact HS5|].
    apply LocatedProperty; [discriminate|].
    apply (locatedList_app (TokenSeg name :: ws1) _ _ _ _ L1).
    exact (locatedList_app (TokenSeg colon :: ws2) _ _ _ _ L2 (located_one _ _ _ L3)).
  - (* object *)
    intros t open t1 i1 added closed t2 i2 Hc Hn _ IH HS.
    destruct (sound_next _ _ _ _ _ HS Hc Hn) as [HS1 L1].
    destruct (IH HS1) as [HS2 L2]. split; [exact HS2|].
    apply LocatedObject; [discriminate|].
    exact (locatedList_app [TokenSeg open] _ _ _ _ L1 L2).
  - intros t open t1 i1 added closed t2 i2 Hc Hn _ IH HS.
    destruct (sound_next _ _ _ _ _ HS Hc Hn) as [HS1 L1].
    destruct (IH HS1) as [HS2 L2]. split; [exact HS2|].
    apply LocatedArray; [discriminate|].
    exact (locatedList_app [TokenSeg open] _ _ _ _ L1 L2).
  - (* object loop *)
    intros flags t Hc HS. split; [exact HS | constructor].
  - intros flags t tok property t1 i1 added closed t2 i2 Hc Hcase _ IHP _ IH HS.
    destruct (IHP HS) as [HS1 L1]. destruct (IH HS1) as [HS2 L2]. split; [exact HS2|].
    exact (locatedList_app [property] _ _ _ _ (located_one _ _ _ L1) L2).
  - intros flags t tok t1 i1 Hc Hcase Hn HS.
    destruct (sound_next _ _ _ _ _ HS Hc Hn) as [HS1 L1]. split; assumption.
  - intros flags t tok t1 i1 added closed t2 i2 Hc Hcase Hn _ IH HS.
    destruct (sound_next _ _ _ _ _ HS Hc Hn) as [HS1 L1].
    destruct (IH HS1) as [HS2 L2]. split; [exact HS2|].
    exact (locatedList_app [TokenSeg tok] _ _ _ _ L1 L2).
  - intros flags t tok t1 i1 added closed t2 i2 Hc Hcase Hn _ IH HS.
    destruct (sound_next _ _ _ _ _ HS Hc Hn) as [HS1 L1].
    destruct (IH HS1) as [HS2 L2]. split; [exact HS2|].
    exact (locatedList_app [TokenSeg tok] _ _ _ _ L1 L2).
  - intros flags t tok t1 i1 added closed t2 i2 Hc Hcase Hn _ IH HS.
    destruct (sound_next _ _ _ _ _ HS Hc Hn) as [HS1 L1].
    destruct (IH HS1) as [HS2 L2]. split; [exact HS2|].
    exact (locatedList_app [TokenSeg tok] _ _ _ _ L1 L2).
  - (* array loop *)
    intros flags t Hc HS. split; [exact HS | constructor].
  - intros flags t tok t1 i1 added closed t2 i2 Hc Hcase Hn _ IH HS.
    destruct (sound_next _ _ _ _ _ HS Hc Hn) as [HS1 L1].
    destruct (IH HS1) as [HS2 L2]. split; [exact HS2|].
    exact (locatedList_app [TokenSeg tok] _ _ _ _ L1 L2).
  - intros flags t tok object value t1 i1 added closed t2 i2 Hc Hcase _ IHB _ IH HS.
    destruct (IHB HS) as [HS1 L1]. destruct (IH HS1) as [HS2 L2]. split; [exact HS2|].
    exact (locatedList_app [value] _ _ _ _ (located_one _ _ _ L1) L2).
  - intros flags t tok t1 i1 added closed t2 i2 Hc Hcase Hn _ IH HS.
    destruct (sound_next _ _ _ _ _ HS Hc Hn) as [HS1 L1].
    destruct (IH HS1) as [HS2 L2]. split; [exact HS2|].
    exact (locatedList_app [TokenSeg tok] _ _ _ _ L1 L2).
  - intros flags t tok t1 i1 Hc Hcase Hn HS.
    destruct (sound_next _ _ _ _ _ HS Hc Hn) as [HS1 L1]. split; assumption.
  - intros flags t tok t1 i1 added closed t2 i2 Hc Hcase Hn _ IH HS.
    destruct (sound_next _ _ _ _ _ HS Hc Hn) as [HS1 L1].
    destruct (IH HS1) as [HS2 L2]. split; [exact HS2|].
    exact (locatedList_app [TokenSeg tok] _ _ _ _ L1 L2).
  - intros flags t tok t1 i1 added closed t2 i2 Hc Hcase Hn _ IH HS.
    destruct (sound_next _ _ _ _ _ HS Hc Hn) as [HS1 L1].
    destruct (IH HS1) as [HS2 L2]. split; [exact HS2|].
    exact (locatedList_app [TokenSeg tok] _ _ _ _ L1 L2).
Qed.

Definition hasColon (l : list Segment) : bool :=
  existsb (fun c => isTokenOfType c TokenType.Colon) l.

Definition hasValue (l : list Segment) : bool := existsb isElementSegment l.

(** What the issues [iss] of the parse of a text of [limit] characters say
    about a segment that is not complete.  A property without a colon: at
    the end of the text, Missing colon at the span of the name; otherwise
    Expected colon at the token that follows the property.  A property with
    a colon and no value: at the end of the text, Missing property value at
    the span of the colon; otherwise Expected property value at the token
    that follows the property.  An object or array that does not end with
    its closing bracket: it runs to the end of the text, and the issue is
    Missing closing bracket at the span of its opening bracket. *)
Definition reported (limit : nat) (iss : list Issue) (n : Segment) : Prop :=
  match n with
  | TokenSeg _ => Logic.True
  | Property l =>
      match l with
      | TokenSeg name :: r =>
          (hasColon r = false ->
           if afterEndIndex n =? limit
           then In (Error msgMissingColon (tokenSpan name)) iss
           else exists len, In (Error msgExpectedColon (mkSpan (afterEndIndex n) len)) iss)
          /\ (hasColon r = true -> hasValue r = false ->
              if afterEndIndex n =? limit
              then exists colon,
                     In (TokenSeg colon) r /\ getType colon = TokenType.Colon
                     /\ In (Error msgMissingPropertyValue (tokenSpan colon)) iss
              else exists len,
                     In (Error msgExpectedPropertyValue (mkSpan (afterEndIndex n) len)) iss)
      | _ => Logic.True
      end
  | ObjectSegment l =>
      match l with
      | TokenSeg open :: added =>
          closedBy TokenType.RightCurlyBracket added = false ->
          afterEndIndex n = limit
          /\ In (Error msgMissingRightCurly (tokenSpan open)) iss
      | _ => Logic.True
      end
  | ArraySegment l =>
      match l with
      | TokenSeg open :: added =>
          closedBy TokenType.RightSquareBracket added = false ->
          afterEndIndex n = limit
          /\ In (Error msgMissingRightSquare (tokenSpan open)) iss
      | _ => Logic.True
      end
  end.

Lemma reported_more (limit : nat) (iss iss' : list Issue) (n : Segment) :
  incl iss iss' -> reported limit iss n -> reported limit iss' n.
Proof.
  intros Hi. destruct n as [t | l | l | l]; simpl; [auto | | |];
    destruct l as [|[x | | |] r]; auto.
  - intros [H1 H2]. split.
    + intros E. specialize (H1 E). destruct (_ =? limit).
      * now apply Hi.
      * destruct H1 as [len H1]. exists len. now apply Hi.
    + intros E E'. specialize (H2 E E'). destruct (_ =? limit).
      * destruct H2 as (colon & Hc & Hty & H2). exists colon. auto.
      * destruct H2 as [len H2]. exists len. now apply Hi.
  - intros H E. destruct (H E) as [Ha Hin]. auto.
  - intros H E. destruct (H E) as [Ha Hin]. auto.
Qed.

Lemma reported_all (limit : nat) (iss iss' : list Issue) (l : list Segment) :
  incl iss iss' -> Forall (reported limit iss) l -> Forall (reported limit iss') l.
Proof.
  intros Hi H. eapply Forall_impl; [|exact H]. intros n. now apply reported_more.
Qed.

Lemma located_after (seg : Segment) (a b : nat) : Located seg a b -> afterEndIndex seg = b.
Proof.
  intros H. destruct (proj1 located_facts _ _ _ H) as (Hab & Hs & Hl).
  unfold afterEndIndex. rewrite Hs, Hl. lia.
Qed.

Lemma whitespace_plain (limit : nat) (iss : list Issue) (ws : list Segment) :
  forallb isWhitespace ws = true ->
  Forall (reported limit iss) (flat_map subsegments ws)
  /\ hasColon ws = false /\ hasValue ws = false.
Proof.
  induction ws as [|x ws IH]; intros H; [repeat split; constructor|].
  cbn [forallb] in H. apply andb_true_iff in H as [Hx H]. destruct (IH H) as (F & C & V).
  destruct x as [t | | |]; try discriminate Hx.
  unfold isWhitespace in Hx. simpl in Hx. apply tokenType_eqb_eq in Hx.
  split; [|split].
  - cbn [flat_map subsegments app]. constructor; [exact I | exact F].
  - unfold hasColon in *. simpl. now rewrite Hx, C.
  - unfold hasValue in *. simpl. now rewrite Hx, V.
Qed.

Lemma colon_plain (colon : Token) :
  getType colon = TokenType.Colon ->
  isTokenOfType (TokenSeg colon) TokenType.Colon = true
  /\ isElementSegment (TokenSeg colon) = false.
Proof. simpl. intros ->. auto. Qed.

Lemma hasColon_app (a b : list Segment) : hasColon (a ++ b) = hasColon a || hasColon b.
Proof. apply existsb_app. Qed.

Lemma hasValue_app (a b : list Segment) : hasValue (a ++ b) = hasValue a || hasValue b.
Proof. apply existsb_app. Qed.

Lemma subsegments_app (P : Segment -> Prop) (a b : list Segment) :
  Forall P (flat_map subsegments a) -> Forall P (flat_map subsegments b) ->
  Forall P (flat_map subsegments (a ++ b)).
Proof. intros Ha Hb. rewrite flat_map_app. apply Forall_app. now split. Qed.

(** A property with its colon, and without a value when [value] is empty. *)
Lemma colon_parts (name colon : Token) (ws1 ws2 value : list Segment) :
  getType colon = TokenType.Colon ->
  forallb isWhitespace ws1 = true -> forallb isWhitespace ws2 = true ->
  hasColon (ws1 ++ TokenSeg colon :: ws2 ++ value) = true
  /\ hasValue (ws1 ++ TokenSeg colon :: ws2 ++ value) = hasValue value
  /\ In (TokenSeg colon) (ws1 ++ TokenSeg colon :: ws2 ++ value).
Proof.
  intros Hty H1 H2.
  destruct (whitespace_plain 0 [] _ H1) as (_ & C1 & V1).
  destruct (whitespace_plain 0 [] _ H2) as (_ & C2 & V2).
  destruct (colon_plain _ Hty) as [Hc Hv].
  split; [|split].
  - rewrite hasColon_app. unfold hasColon at 2. cbn [existsb]. rewrite Hc.
    now rewrite orb_true_r.
  - rewrite hasValue_app, V1. unfold hasValue at 1. cbn [existsb orb]. rewrite Hv.
    cbn [orb]. fold (hasValue (ws2 ++ value)). now rewrite hasValue_app, V2.
  - apply in_or_app. right. left. reflexivity.
Qed.

Ltac within :=
  unfold incl; intros; rewrite ?in_app_iff; cbn [In app]; rewrite ?in_app_iff; tauto.

Ltac children :=
  repeat first
    [ apply subsegments_app
    | progress cbn [flat_map subsegments app]
    | apply Forall_cons; [exact I|]
    | apply Forall_nil
    | match goal with
      | H : forallb isWhitespace ?ws = true |- Forall _ (flat_map subsegments ?ws) =>
          exact (proj1 (whitespace_plain _ _ _ H))
      end ].

(** Every run reports the segments it leaves incomplete. *)
Lemma run_reported (limit : nat) :
  (forall t seg t' iss, RunProperty t seg t' iss ->
     Sound limit t -> Forall (reported limit iss) (subsegments seg))
  /\ (forall object t seg t' iss, RunBracket object t seg t' iss ->
        Sound limit t -> Forall (reported limit iss) (subsegments seg))
  /\ (forall flags t added closed t' iss, RunObjectLoop flags t added closed t' iss ->
        Sound limit t ->
        Forall (reported limit iss) (flat_map subsegments added)
        /\ closed = closedBy TokenType.RightCurlyBracket added
        /\ (closed = false -> getCurrent t' = None))
  /\ (forall flags t added closed t' iss, RunArrayLoop flags t added closed t' iss ->
        Sound limit t ->
        Forall (reported limit iss) (flat_map subsegments added)
        /\ closed = closedBy TokenType.RightSquareBracket added
        /\ (closed = false -> getCurrent t' = None)).
Proof.
  apply Run_mutind.
  - (* the text ends after the name *)
    intros t name ws1 t2 i1 HN Hc HS.
    destruct (proj1 (run_placed limit) _ _ _ _ (RunPropertyEnd _ _ _ _ _ HN Hc) HS) as [HS2 L].
    apply located_after in L. pose proof (sound_end _ _ HS2 Hc) as He.
    destruct (name_facts _ _ _ _ _ HN) as [_ Hw].
    destruct (whitespace_plain limit (i1 ++ [Error msgMissingColon (tokenSpan name)]) _ Hw)
      as (F & C & V).
    cbn [subsegments]. constructor; [|children].
    cbn [reported]. rewrite L, He, Nat.eqb_refl. split.
    + intros _. apply in_or_app. right. left. reflexivity.
    + intros E. congruence.
  - (* another token where the colon should be *)
    intros t name ws1 t2 i1 other HN Hc Hty HS.
    destruct (proj1 (run_placed limit) _ _ _ _ (RunPropertyNoColon _ _ _ _ _ _ HN Hc Hty) HS)
      as [HS2 L].
    apply located_after in L. destruct (sound_current _ _ _ HS2 Hc) as [Hs Hlt].
    destruct (name_facts _ _ _ _ _ HN) as [_ Hw].
    destruct (whitespace_plain limit (i1 ++ [Error msgExpectedColon (tokenSpan other)]) _ Hw)
      as (F & C & V).
    cbn [subsegments]. constructor; [|children].
    cbn [reported]. rewrite L. apply Nat.lt_neq, Nat.eqb_neq in Hlt. rewrite Hlt. split.
    + intros _. exists (tokenLength other). apply in_or_app. right. left.
      unfold tokenSpan. now rewrite Hs.
    + intros E. congruence.
  - (* the text ends after the colon *)
    intros t name ws1 t2 i1 colon ws2 t4 i3 HN Hty HC Hc HS.
    destruct (proj1 (run_placed limit) _ _ _ _
                (RunPropertyNoValue _ _ _ _ _ _ _ _ _ HN Hty HC Hc) HS) as [HS4 L].
    apply located_after in L. pose proof (sound_end _ _ HS4 Hc) as He.
    destruct (name_facts _ _ _ _ _ HN) as [_ Hw1].
    destruct (name_facts _ _ _ _ _ HC) as [_ Hw2].
    destruct (colon_parts name colon ws1 ws2 [] Hty Hw1 Hw2) as (C & V & Hin).
    rewrite app_nil_r in C, V, Hin.
    cbn [subsegments]. constructor; [|children].
    cbn [reported]. rewrite L, He, Nat.eqb_refl. split.
    + intros E. congruence.
    + intros _ _. exists colon. split; [exact Hin|]. split; [exact Hty|].
      apply in_or_app. right. apply in_or_app. right. left. reflexivity.
  - (* another token where the value should be *)
    intros t name ws1 t2 i1 colon ws2 t4 i3 other HN Hty HC Hc Hv HS.
    destruct (proj1 (run_placed limit) _ _ _ _
                (RunPropertyBadValue _ _ _ _ _ _ _ _ _ _ HN Hty HC Hc Hv) HS) as [HS4 L].
    apply located_after in L. destruct (sound_current _ _ _ HS4 Hc) as [Hs Hlt].
    destruct (name_facts _ _ _ _ _ HN) as [_ Hw1].
    destruct (name_facts _ _ _ _ _ HC) as [_ Hw2].
    destruct (colon_parts name colon ws1 ws2 [] Hty Hw1 Hw2) as (C & V & Hin).
    rewrite app_nil_r in C, V, Hin.
    cbn [subsegments]. constructor; [|children].
    cbn [reported]. rewrite L. apply Nat.lt_neq, Nat.eqb_neq in Hlt. rewrite Hlt. split.
    + intros E. congruence.
    + intros _ _. exists (tokenLength other).
      apply in_or_app. right. apply in_or_app. right. left.
      unfold tokenSpan. now rewrite Hs.
  - (* a literal value *)
    intros t name ws1 t2 i1 colon ws2 t4 i3 value t5 i5 HN Hty HC Hc Hv Hn HS.
    destruct (name_facts _ _ _ _ _ HN) as [_ Hw1].
    destruct (name_facts _ _ _ _ _ HC) as [_ Hw2].
    destruct (colon_parts name colon ws1 ws2 [TokenSeg value] Hty Hw1 Hw2) as (C & V & Hin).
    assert (V' : hasValue [TokenSeg value] = true).
    { unfold hasValue. cbn [existsb]. now rewrite (literal_element _ Hv). }
    cbn [subsegments]. constructor; [|children].
    cbn [reported]. split; intros E; [congruence|]. intros E'. congruence.
  - (* an object or array as the value *)
    intros t name ws1 t2 i1 colon ws2 t4 i3 first object value t5 i5
           HN Hty HC Hc Hv HB IH HS.
    destruct (name_placed _ _ _ _ _ _ HN HS) as [HS2 _].
    destruct (name_placed _ _ _ _ _ _ HC HS2) as [HS4 _].
    destruct (name_facts _ _ _ _ _ HN) as [_ Hw1].
    destruct (name_facts _ _ _ _ _ HC) as [_ Hw2].
    destruct (colon_parts name colon ws1 ws2 [value] Hty Hw1 Hw2) as (C & V & Hin).
    assert (V' : hasValue [value] = true).
    { unfold hasValue. cbn [existsb].
      destruct (bracket_form _ _ _ _ _ HB) as [l ->]. now destruct object. }
    cbn [subsegments]. constructor.
    + cbn [reported]. split; intros E; [congruence|]. intros E'. congruence.
    + children. rewrite app_nil_r.
      apply (reported_all limit i5); [|exact (IH HS4)].
      within.
  - (* object *)
    intros t open t1 i1 added closed t2 i2 Hc Hn HL IH HS.
    destruct (proj1 (proj2 (run_placed limit)) _ _ _ _ _
                (RunObject _ _ _ _ _ _ _ _ Hc Hn HL) HS) as [HS2 L].
    apply located_after in L.
    destruct (sound_next _ _ _ _ _ HS Hc Hn) as [HS1 _].
    destruct (IH HS1) as (F & Hcl & Hend).
    cbn [subsegments]. constructor.
    + cbn [reported]. intros E. rewrite E in Hcl. subst closed.
      split; [rewrite L; exact (sound_end _ _ HS2 (Hend eq_refl))|].
      apply in_or_app. right. apply in_or_app. right. left. reflexivity.
    + children. apply (reported_all limit i2); [|exact F].
      within.
  - (* array *)
    intros t open t1 i1 added closed t2 i2 Hc Hn HL IH HS.
    destruct (proj1 (proj2 (run_placed limit)) _ _ _ _ _
                (RunArray _ _ _ _ _ _ _ _ Hc Hn HL) HS) as [HS2 L].
    apply located_after in L.
    destruct (sound_next _ _ _ _ _ HS Hc Hn) as [HS1 _].
    destruct (IH HS1) as (F & Hcl & Hend).
    cbn [subsegments]. constructor.
    + cbn [reported]. intros E. rewrite E in Hcl. subst closed.
      split; [rewrite L; exact (sound_end _ _ HS2 (Hend eq_refl))|].
      apply in_or_app. right. apply in_or_app. right. left. reflexivity.
    + children. apply (reported_all limit i2); [|exact F].
      within.
  - (* object loop *)
    intros flags t Hc HS. split; [constructor | split; [reflexivity | auto]].
  - intros flags t tok property t1 i1 added closed t2 i2 Hc Hcase HP IHP HL IH HS.
    destruct (proj1 (run_placed limit) _ _ _ _ HP HS) as [HS1 _].
    destruct (IH HS1) as (F & Hcl & Hend).
    destruct (property_form _ _ _ _ HP) as [l El].
    split; [|split; [|exact Hend]].
    + cbn [flat_map]. apply Forall_app. split.
      * apply (reported_all limit i1); [|exact (IHP HS)]. within.
      * apply (reported_all limit i2); [|exact F]. within.
    + rewrite closedBy_cons; [exact Hcl | now rewrite El].
  - intros flags t tok t1 i1 Hc Hcase Hn HS.
    split; [repeat constructor | split; [|discriminate]].
    pose proof (objectCase_types (getType tok)) as Hty. rewrite Hcase in Hty.
    unfold closedBy. simpl. now rewrite Hty.
  - intros flags t tok t1 i1 added closed t2 i2 Hc Hcase Hn HL IH HS.
    destruct (sound_next _ _ _ _ _ HS Hc Hn) as [HS1 _].
    destruct (IH HS1) as (F & Hcl & Hend). split; [|split; [|exact Hend]].
    + cbn [flat_map subsegments app]. constructor; [exact I|].
      apply (reported_all limit i2); [|exact F]. within.
    + rewrite closedBy_cons; [exact Hcl|]. simpl.
      destruct (getType tok); try discriminate Hcase; reflexivity.
  - intros flags t tok t1 i1 added closed t2 i2 Hc Hcase Hn HL IH HS.
    destruct (sound_next _ _ _ _ _ HS Hc Hn) as [HS1 _].
    destruct (IH HS1) as (F & Hcl & Hend). split; [|split; [|exact Hend]].
    + cbn [flat_map subsegments app]. constructor; [exact I|].
      apply (reported_all limit i2); [|exact F]. within.
    + rewrite closedBy_cons; [exact Hcl|]. simpl.
      destruct (getType tok); try discriminate Hcase; reflexivity.
  - intros flags t tok t1 i1 added closed t2 i2 Hc Hcase Hn HL IH HS.
    destruct (sound_next _ _ _ _ _ HS Hc Hn) as [HS1 _].
    destruct (IH HS1) as (F & Hcl & Hend). split; [|split; [|exact Hend]].
    + cbn [flat_map subsegments app]. constructor; [exact I|].
      apply (reported_all limit i2); [|exact F]. within.
    + rewrite closedBy_cons; [exact Hcl|]. simpl.
      destruct (getType tok); try discriminate Hcase; reflexivity.
  - (* array loop *)
    intros flags t Hc HS. split; [constructor | split; [reflexivity | auto]].
  - intros flags t tok t1 i1 added closed t2 i2 Hc Hcase Hn HL IH HS.
    destruct (sound_next _ _ _ _ _ HS Hc Hn) as [HS1 _].
    destruct (IH HS1) as (F & Hcl & Hend). split; [|split; [|exact Hend]].
    + cbn [flat_map subsegments app]. constructor; [exact I|].
      apply (reported_all limit i2); [|exact F]. within.
    + rewrite closedBy_cons; [exact Hcl|]. simpl.
      destruct (getType tok); try discriminate Hcase; reflexivity.
  - intros flags t tok object value t1 i1 added closed t2 i2 Hc Hcase HB IHB HL IH HS.
    destruct (proj1 (proj2 (run_placed limit)) _ _ _ _ _ HB HS) as [HS1 _].
    destruct (IH HS1) as (F & Hcl & Hend).
    destruct (bracket_form _ _ _ _ _ HB) as [l El].
    split; [|split; [|exact Hend]].
    + cbn [flat_map]. apply Forall_app. split.
      * apply (reported_all limit i1); [|exact (IHB HS)]. within.
      * apply (reported_all limit i2); [|exact F]. within.
    + rewrite closedBy_cons; [exact Hcl|]. rewrite El. now destruct object.
  - intros flags t tok t1 i1 added closed t2 i2 Hc Hcase Hn HL IH HS.
    destruct (sound_next _ _ _ _ _ HS Hc Hn) as [HS1 _].
    destruct (IH HS1) as (F & Hcl & Hend). split; [|split; [|exact Hend]].
    + cbn [flat_map subsegments app]. constructor; [exact I|].
      apply (reported_all limit i2); [|exact F]. within.
    + rewrite closedBy_cons; [exact Hcl|]. simpl.
      destruct (getType tok); try discriminate Hcase; reflexivity.
  - intros flags t tok t1 i1 Hc Hcase Hn HS.
    split; [repeat constructor | split; [|discriminate]].
    pose proof (arrayCase_types (getType tok)) as Hty. rewrite Hcase in Hty.
    unfold closedBy. simpl. now rewrite Hty.
  - intros flags t tok t1 i1 added closed t2 i2 Hc Hcase Hn HL IH HS.
    destruct (sound_next _ _ _ _ _ HS Hc Hn) as [HS1 _].
    destruct (IH HS1) as (F & Hcl & Hend). split; [|split; [|exact Hend]].
    + cbn [flat_map subsegments app]. constructor; [exact I|].
      apply (reported_all limit i2); [|exact F]. within.
    + rewrite closedBy_cons; [exact Hcl|]. simpl.
      destruct (getType tok); try discriminate Hcase; reflexivity.
  - intros flags t tok t1 i1 added closed t2 i2 Hc Hcase Hn HL IH HS.
    destruct (sound_next _ _ _ _ _ HS Hc Hn) as [HS1 _].
    destruct (IH HS1) as (F & Hcl & Hend). split; [|split; [|exact Hend]].
    + cbn [flat_map subsegments app]. constructor; [exact I|].
      apply (reported_all limit i2); [|exact F]. within.
    + rewrite closedBy_cons; [exact Hcl|]. simpl.
      destruct (getType tok); try discriminate Hcase; reflexivity.
Qed.

Lemma document_reported (limit : nat) (found : bool) (t : Tokenizer)
      (segs : list Segment) (iss : list Issue) :
  RunDocument found t segs iss -> Sound limit t ->
  Forall (reported limit iss) (flat_map subsegments segs).
Proof.
  induction 1 as [found t Hc
                 | found t tok t1 i1 segs i2 Hc Hr Hn _ IH
                 | found t tok object value t1 i1 segs i2 Hc Hr Hb _ IH]; intros HS.
  - constructor.
  - destruct (sound_next _ _ _ _ _ HS Hc Hn) as [HS1 _].
    cbn [flat_map subsegments app]. constructor; [exact I|].
    apply (reported_all limit i2); [within | exact (IH HS1)].
  - destruct (proj1 (proj2 (run_placed limit)) _ _ _ _ _ Hb HS) as [HS1 _].
    cbn [flat_map]. apply Forall_app. split.
    + apply (reported_all limit i1); [within|].
      exact (proj1 (proj2 (run_reported limit)) _ _ _ _ _ Hb HS).
    + apply (reported_all limit i2); [within | exact (IH HS1)].
Qed.

(** X19. [parse] reports every segment it leaves incomplete, at any depth.
    A property without a colon: Missing colon at the span of its name when
    the text ends there, otherwise Expected colon at the token right after
    the property.  A property with a colon and no value: Missing property
    value at the span of the colon when the text ends there, otherwise
    Expected property value at the token right after the property.  An
    object or array that does not end with its closing bracket runs to the
    end of the text and has the issue Missing closing right curly (square)
    bracket at the span of its opening bracket. *)
Theorem X19_incomplete_segments_are_reported (s : string) :
  exists d iss,
    parse s = Some (d, iss)
    /\ Forall (reported (String.length s) iss) (flat_map subsegments (documentSegments d)).
Proof.
  destruct (parseLexes_spec (lex s) (lex_wf s)) as (segs & iss & Hp & _).
  exists (mkDocument segs), iss. split; [exact Hp|].
  destruct (parse_run _ _ _ Hp) as (t0 & i0 & i1 & Hn & Hd & ->).
  apply (reported_all (String.length s) i1); [within|].
  exact (document_reported _ _ _ _ _ Hd (sound_first _ _ _ Hn)).
Qed.

(** ** Formatting keeps a text free of issues *)

(** The types of the tokens that are no whitespace tokens. *)
Definition solidTypes (ts : list Token) : list TokenType.t :=
  map getType (solidTokens ts).

Lemma solidTypes_app (a b : list Token) :
  solidTypes (a ++ b) = solidTypes a ++ solidTypes b.
Proof. unfold solidTypes, solidTokens. now rewrite filter_app, map_app. Qed.

Lemma solidTypes_cons (A : Token) (ts : list Token) :
  solidTypes (A :: ts) = if isWs A then solidTypes ts else getType A :: solidTypes ts.
Proof. unfold solidTypes, solidTokens. simpl. now destruct (isWs A). Qed.

Definition commentOrBreak (ty : TokenType.t) : bool :=
  match ty with
  | TokenType.NewLine | TokenType.LineComment | TokenType.BlockComment => true
  | _ => false
  end.

(** The token types, whitespace apart, that the parser takes without adding
    an issue.  [OkValue r rest]: [r] starts with a value, a literal or an
    object or array, and goes on with [rest].  [OkItems object stage r rest]:
    [r] starts with what may stand in an object ([object] true) or array
    from the stage [stage] on, up to the closing bracket, and goes on with
    [rest]. *)
Inductive OkValue : list TokenType.t -> list TokenType.t -> Prop :=
| OkLiteral (ty : TokenType.t) (r : list TokenType.t) :
    valueClass ty = VLiteral -> OkValue (ty :: r) r
| OkNested (ty : TokenType.t) (object : bool) (r rest : list TokenType.t) :
    valueClass ty = VNested object -> OkItems object AtStart r rest ->
    OkValue (ty :: r) rest

with OkItems : bool -> Stage -> list TokenType.t -> list TokenType.t -> Prop :=
| OkTrivia (object : bool) (stage : Stage) (ty : TokenType.t) (r rest : list TokenType.t) :
    commentOrBreak ty = true -> OkItems object stage r rest ->
    OkItems object stage (ty :: r) rest
| OkClose (object : bool) (stage : Stage) (r : list TokenType.t) :
    stage <> AfterComma -> OkItems object stage (rightOf object :: r) r
| OkComma (object : bool) (r rest : list TokenType.t) :
    OkItems object AfterComma r rest ->
    OkItems object AfterItem (TokenType.Comma :: r) rest
| OkMember (stage : Stage) (r r1 rest : list TokenType.t) :
    stage <> AfterItem -> OkValue r r1 -> OkItems true AfterItem r1 rest ->
    OkItems true stage (TokenType.QuotedString :: TokenType.Colon :: r) rest
| OkElement (stage : Stage) (r r1 rest : list TokenType.t) :
    stage <> AfterItem -> OkValue r r1 -> OkItems false AfterItem r1 rest ->
    OkItems false stage r rest.

Scheme OkValue_min := Minimality for OkValue Sort Prop
  with OkItems_min := Minimality for OkItems Sort Prop.
Combined Scheme Ok_mutind from OkValue_min, OkItems_min.

(** Line breaks around at most one root. *)
Inductive OkDocument : list TokenType.t -> Prop :=
| OkDocumentEnd : OkDocument []
| OkDocumentBlank (ty : TokenType.t) (r : list TokenType.t) :
    startsRoot ty = false -> OkDocument r -> OkDocument (ty :: r)
| OkDocumentToken (ty : TokenType.t) (r : list TokenType.t) :
    startsRoot ty = true -> rootClass ty = None ->
    forallb (fun y => negb (startsRoot y)) r = true -> OkDocument (ty :: r)
| OkDocumentRoot (ty : TokenType.t) (object : bool) (r rest : list TokenType.t) :
    rootClass ty = Some object -> OkValue (ty :: r) rest ->
    forallb (fun y => negb (startsRoot y)) rest = true -> OkDocument (ty :: r).

Lemma whitespace_types (ws : list Segment) :
  forallb isWhitespace ws = true -> solidTypes (flat_map leaves ws) = [].
Proof.
  induction ws as [|x ws IH]; [reflexivity|]. simpl. intros H.
  apply andb_true_iff in H as [Hx H].
  destruct x as [t | | |]; try discriminate Hx.
  cbn [leaves app]. rewrite solidTypes_cons. unfold isWs.
  unfold isWhitespace in Hx. simpl in Hx. rewrite Hx. now apply IH.
Qed.

Lemma trivia_types (x : Segment) :
  isTrivia x = true ->
  solidTypes (leaves x) = []
  \/ exists ty, solidTypes (leaves x) = [ty] /\ commentOrBreak ty = true.
Proof.
  destruct x as [t | | |]; try discriminate. simpl. intros H.
  rewrite solidTypes_cons. unfold isWs.
  destruct (getType t) eqn:E; try discriminate H; simpl; auto;
    right; eexists; split; reflexivity.
Qed.

Lemma token_types (t : Token) (ty : TokenType.t) :
  getType t = ty -> ty <> TokenType.Whitespace -> solidTypes [t] = [ty].
Proof.
  intros E Hn. rewrite solidTypes_cons. unfold isWs. rewrite E.
  destruct ty; try reflexivity. contradiction.
Qed.

Ltac ok_trivia IH :=
  match goal with
  | H : isTrivia ?x = true |- _ =>
      let ty := fresh "ty" in
      let E := fresh "E" in
      let Hc := fresh "Hc" in
      destruct (trivia_types _ H) as [E | (ty & E & Hc)]; rewrite E;
      [exact (IH _) | apply OkTrivia; [exact Hc | exact (IH _)]]
  end.

(** The tokens of a valid segment are taken without an issue. *)
Lemma valid_ok :
  (forall v, ValidValue v -> forall rest, OkValue (solidTypes (leaves v) ++ rest) rest)
  /\ (forall p, ValidProperty p ->
        forall rest, exists r,
          solidTypes (leaves p) ++ rest = TokenType.QuotedString :: TokenType.Colon :: r
          /\ OkValue r rest)
  /\ (forall l, Members l ->
        forall rest, OkItems true AtStart (solidTypes (flat_map leaves l) ++ rest) rest)
  /\ (forall l, AfterMember l ->
        forall rest, OkItems true AfterItem (solidTypes (flat_map leaves l) ++ rest) rest)
  /\ (forall l, NextMember l ->
        forall rest, OkItems true AfterComma (solidTypes (flat_map leaves l) ++ rest) rest)
  /\ (forall l, Elements l ->
        forall rest, OkItems false AtStart (solidTypes (flat_map leaves l) ++ rest) rest)
  /\ (forall l, AfterElement l ->
        forall rest, OkItems false AfterItem (solidTypes (flat_map leaves l) ++ rest) rest)
  /\ (forall l, NextElement l ->
        forall rest, OkItems false AfterComma (solidTypes (flat_map leaves l) ++ rest) rest).
Proof.
  apply Valid_mutind.
  - (* a literal *)
    intros t Ht rest. cbn [leaves].
    rewrite (token_types t (getType t) eq_refl);
      [|intros E; rewrite E in Ht; discriminate Ht].
    now apply OkLiteral.
  - (* an object *)
    intros open l Hty _ IH rest. cbn [leaves flat_map].
    rewrite solidTypes_app, (token_types open _ Hty), <- app_assoc by discriminate.
    apply (OkNested _ true); [reflexivity | exact (IH rest)].
  - (* an array *)
    intros open l Hty _ IH rest. cbn [leaves flat_map].
    rewrite solidTypes_app, (token_types open _ Hty), <- app_assoc by discriminate.
    apply (OkNested _ false); [reflexivity | exact (IH rest)].
  - (* a property *)
    intros name ws1 colon ws2 value Hn Hw1 Hc Hw2 _ IH rest.
    exists (solidTypes (leaves value) ++ rest). split; [|exact (IH rest)].
    cbn [leaves flat_map]. rewrite !leaves_app. cbn [flat_map leaves]. rewrite leaves_app.
    cbn [flat_map leaves]. rewrite app_nil_r.
    change (name :: flat_map leaves ws1 ++ [colon] ++ flat_map leaves ws2 ++ leaves value)
      with ([name] ++ flat_map leaves ws1 ++ [colon] ++ flat_map leaves ws2 ++ leaves value).
    rewrite !solidTypes_app, (whitespace_types _ Hw1), (whitespace_types _ Hw2),
      (token_types name _ Hn), (token_types colon _ Hc) by discriminate.
    reflexivity.
  - (* members *)
    intros x l Hx _ IH rest. cbn [flat_map]. rewrite solidTypes_app, <- app_assoc.
    ok_trivia IH.
  - intros close Hty rest. cbn [flat_map leaves app].
    rewrite (token_types close _ Hty) by discriminate. apply (OkClose true). discriminate.
  - intros p l _ IHp _ IH rest. cbn [flat_map]. rewrite solidTypes_app, <- app_assoc.
    destruct (IHp (solidTypes (flat_map leaves l) ++ rest)) as (r & -> & Hv).
    apply (OkMember AtStart r (solidTypes (flat_map leaves l) ++ rest) rest); [discriminate | exact Hv | exact (IH rest)].
  - (* after a member *)
    intros x l Hx _ IH rest. cbn [flat_map]. rewrite solidTypes_app, <- app_assoc.
    ok_trivia IH.
  - intros close Hty rest. cbn [flat_map leaves app].
    rewrite (token_types close _ Hty) by discriminate. apply (OkClose true). discriminate.
  - intros comma l Hty _ IH rest. cbn [flat_map leaves].
    rewrite solidTypes_app, (token_types comma _ Hty), <- app_assoc by discriminate.
    apply OkComma. exact (IH rest).
  - (* after a comma *)
    intros x l Hx _ IH rest. cbn [flat_map]. rewrite solidTypes_app, <- app_assoc.
    ok_trivia IH.
  - intros p l _ IHp _ IH rest. cbn [flat_map]. rewrite solidTypes_app, <- app_assoc.
    destruct (IHp (solidTypes (flat_map leaves l) ++ rest)) as (r & -> & Hv).
    apply (OkMember AfterComma r (solidTypes (flat_map leaves l) ++ rest) rest); [discriminate | exact Hv | exact (IH rest)].
  - (* elements *)
    intros x l Hx _ IH rest. cbn [flat_map]. rewrite solidTypes_app, <- app_assoc.
    ok_trivia IH.
  - intros close Hty rest. cbn [flat_map leaves app].
    rewrite (token_types close _ Hty) by discriminate. apply (OkClose false). discriminate.
  - intros v l _ IHv _ IH rest. cbn [flat_map]. rewrite solidTypes_app, <- app_assoc.
    apply (OkElement AtStart _ (solidTypes (flat_map leaves l) ++ rest) rest);
      [discriminate | exact (IHv _) | exact (IH rest)].
  - (* after an element *)
    intros x l Hx _ IH rest. cbn [flat_map]. rewrite solidTypes_app, <- app_assoc.
    ok_trivia IH.
  - intros close Hty rest. cbn [flat_map leaves app].
    rewrite (token_types close _ Hty) by discriminate. apply (OkClose false). discriminate.
  - intros comma l Hty _ IH rest. cbn [flat_map leaves].
    rewrite solidTypes_app, (token_types comma _ Hty), <- app_assoc by discriminate.
    apply OkComma. exact (IH rest).
  - (* after a comma *)
    intros x l Hx _ IH rest. cbn [flat_map]. rewrite solidTypes_app, <- app_assoc.
    ok_trivia IH.
  - intros v l _ IHv _ IH rest. cbn [flat_map]. rewrite solidTypes_app, <- app_assoc.
    apply (OkElement AfterComma _ (solidTypes (flat_map leaves l) ++ rest) rest);
      [discriminate | exact (IHv _) | exact (IH rest)].
Qed.

Lemma blank_types (l : list Segment) :
  forallb isBlank l = true ->
  forallb (fun y => negb (startsRoot y)) (solidTypes (flat_map leaves l)) = true.
Proof.
  induction l as [|x l IH]; [reflexivity|]. simpl. intros H.
  apply andb_true_iff in H as [Hx H].
  destruct x as [t | | |]; try discriminate Hx. cbn [leaves app].
  rewrite solidTypes_cons. simpl in Hx.
  destruct (isWs t); [now apply IH|]. simpl. now rewrite Hx, IH.
Qed.

Lemma valid_document_ok (l : list Segment) :
  ValidDocument l -> OkDocument (solidTypes (flat_map leaves l)).
Proof.
  induction 1 as [| x l Hb _ IH | t l Hs Hr Hl | v l Hv Hl].
  - constructor.
  - destruct x as [t | | |]; try discriminate Hb. cbn [flat_map leaves app].
    rewrite solidTypes_cons. destruct (isWs t); [exact IH|].
    apply OkDocumentBlank; [|exact IH]. simpl in Hb. now destruct (startsRoot (getType t)).
  - cbn [flat_map leaves app]. rewrite solidTypes_cons.
    assert (Hw : isWs t = false).
    { unfold isWs. destruct (getType t); try discriminate Hs; reflexivity. }
    rewrite Hw. apply OkDocumentToken; [exact Hs | exact Hr | now apply blank_types].
  - cbn [flat_map]. rewrite solidTypes_app.
    pose proof (proj1 valid_ok _ Hv (solidTypes (flat_map leaves l))) as Ho.
    inversion Hv as [t Ht | open m Hty Hm | open m Hty Hm]; subst.
    + cbn [leaves] in *. rewrite (token_types t (getType t) eq_refl) in *
        by (intros E; rewrite E in Ht; discriminate Ht).
      apply OkDocumentToken; [now apply literal_starts_root | | now apply blank_types].
      destruct (getType t); try discriminate Ht; reflexivity.
    + cbn [leaves flat_map] in *.
      rewrite solidTypes_app, (token_types open _ Hty), <- app_assoc in * by discriminate.
      apply (OkDocumentRoot _ true _ (solidTypes (flat_map leaves l)));
        [reflexivity | exact Ho | now apply blank_types].
    + cbn [leaves flat_map] in *.
      rewrite solidTypes_app, (token_types open _ Hty), <- app_assoc in * by discriminate.
      apply (OkDocumentRoot _ false _ (solidTypes (flat_map leaves l)));
        [reflexivity | exact Ho | now apply blank_types].
Qed.

(** [Ahead t tys]: the types of the tokens, whitespace apart, that the
    tokenizer hands out from the state [t] on. *)
Definition Ahead (t : Tokenizer) (tys : list TokenType.t) : Prop :=
  exists ts its, Upcoming t ts its /\ solidTypes ts = tys.

Lemma ahead_end (t : Tokenizer) (tys : list TokenType.t) :
  Ahead t tys -> getCurrent t = None -> tys = [].
Proof.
  intros (ts & its & Hu & <-) Hc. inversion Hu; subst; [reflexivity | congruence].
Qed.

Lemma ahead_ws (t : Tokenizer) (tok : Token) (t1 : Tokenizer) (i1 : list Issue)
      (tys : list TokenType.t) :
  Ahead t tys -> getCurrent t = Some tok -> next t = (t1, i1) ->
  getType tok = TokenType.Whitespace -> Ahead t1 tys.
Proof.
  intros (ts & its & Hu & <-) Hc Hn Hty.
  inversion Hu as [| t0 tok0 t2 i2 r ir Hc0 Hn0 Hr]; subst; [congruence|].
  assert (tok0 = tok) by congruence. assert (t2 = t1) by congruence. subst.
  exists r, ir. split; [exact Hr|]. rewrite solidTypes_cons. unfold isWs. now rewrite Hty.
Qed.

Lemma ahead_head (t : Tokenizer) (tok : Token) (tys : list TokenType.t) :
  Ahead t tys -> getCurrent t = Some tok -> getType tok <> TokenType.Whitespace ->
  exists r, tys = getType tok :: r.
Proof.
  intros (ts & its & Hu & <-) Hc Hty.
  inversion Hu as [| t0 tok0 t2 i2 r ir Hc0 Hn0 Hr]; subst; [congruence|].
  assert (tok0 = tok) by congruence. subst.
  exists (solidTypes r). rewrite solidTypes_cons. unfold isWs.
  destruct (getType tok); try reflexivity. contradiction.
Qed.

Lemma ahead_solid (t : Tokenizer) (tok : Token) (t1 : Tokenizer) (i1 : list Issue)
      (ty : TokenType.t) (r : list TokenType.t) :
  Ahead t (ty :: r) -> getCurrent t = Some tok -> next t = (t1, i1) ->
  getType tok <> TokenType.Whitespace -> Ahead t1 r.
Proof.
  intros (ts & its & Hu & E) Hc Hn Hty.
  inversion Hu as [| t0 tok0 t2 i2 r0 ir Hc0 Hn0 Hr]; subst; [congruence|].
  assert (tok0 = tok) by congruence. assert (t2 = t1) by congruence. subst.
  exists r0, ir. split; [exact Hr|]. rewrite solidTypes_cons in E. unfold isWs in E.
  destruct (getType tok); try (injection E as _ E; exact E). contradiction.
Qed.

(** [skipWhitespace] stops at the end of the text or at a token that is no
    whitespace, and hands out whitespace tokens only. *)
Lemma ws_ahead (t : Tokenizer) (ws : list Segment) (t' : Tokenizer) (iss : list Issue) :
  RunWs t ws t' iss -> forall tys, Ahead t tys ->
  Ahead t' tys
  /\ forall tok, getCurrent t' = Some tok -> getType tok <> TokenType.Whitespace.
Proof.
  induction 1 as [t Hc | t tok Hc Hty | t tok t1 i1 ws t2 i2 Hc Hty Hn _ IH]; intros tys Ha.
  - split; [exact Ha | congruence].
  - split; [exact Ha|]. intros tok' Hc'. congruence.
  - exact (IH _ (ahead_ws _ _ _ _ _ Ha Hc Hn Hty)).
Qed.

Lemma name_ahead (t : Tokenizer) (name : Token) (ws : list Segment) (t' : Tokenizer)
      (iss : list Issue) (ty : TokenType.t) (r : list TokenType.t) :
  RunName t name ws t' iss -> Ahead t (ty :: r) ->
  getType name <> TokenType.Whitespace ->
  Ahead t' r
  /\ forall tok, getCurrent t' = Some tok -> getType tok <> TokenType.Whitespace.
Proof.
  intros [t0 name0 t1 i1 ws0 t2 i2 Hc Hn Hw] Ha Hty.
  exact (ws_ahead _ _ _ _ Hw _ (ahead_solid _ _ _ _ _ _ Ha Hc Hn Hty)).
Qed.

Lemma stage_initial : stageOf initialFlags = Some AtStart.
Proof. reflexivity. Qed.

Lemma stage_afterValue : stageOf afterValue = Some AfterItem.
Proof. reflexivity. Qed.

Lemma stage_afterComma : stageOf afterComma = Some AfterComma.
Proof. reflexivity. Qed.

Lemma stage_unique (flags : Flags) (a b : Stage) :
  stageOf flags = Some a -> stageOf flags = Some b -> a = b.
Proof. congruence. Qed.

(** The head of what is ahead is the type of the current token; the cases
    that the types rule out are closed. *)
Ltac head_of Ha Hc :=
  let r := fresh "r" in
  let E := fresh "E" in
  destruct (ahead_head _ _ _ Ha Hc) as [r E];
  [congruence || (intros E; rewrite E in *; discriminate) |]; subst.

Ltac clash :=
  match goal with
  | H : commentOrBreak _ = true |- _ => discriminate H
  | H : valueClass _ = _ |- _ => discriminate H
  | H : ?x <> ?x |- _ => contradiction H; reflexivity
  | H : rightOf ?o = _ |- _ => destruct o; discriminate H
  | H : _ = rightOf ?o |- _ => destruct o; discriminate H
  | H : TokenType.Whitespace = _ |- _ => discriminate H
  end.

(** A run over tokens that are taken without an issue returns valid
    segments, and leaves what the tokens go on with. *)
Lemma ok_runs_valid :
  (forall t seg t' iss, RunProperty t seg t' iss ->
     forall name r rest, getCurrent t = Some name ->
     getType name = TokenType.QuotedString ->
     Ahead t (TokenType.QuotedString :: TokenType.Colon :: r) -> OkValue r rest ->
     ValidProperty seg /\ Ahead t' rest)
  /\ (forall object t seg t' iss, RunBracket object t seg t' iss ->
        forall open tys rest, getCurrent t = Some open ->
        getType open = leftOf object ->
        Ahead t tys -> OkValue tys rest ->
        ValidValue seg /\ Ahead t' rest)
  /\ (forall flags t added closed t' iss, RunObjectLoop flags t added closed t' iss ->
        forall stage tys rest, stageOf flags = Some stage ->
        Ahead t tys -> OkItems true stage tys rest ->
        MembersAt stage added /\ Ahead t' rest)
  /\ (forall flags t added closed t' iss, RunArrayLoop flags t added closed t' iss ->
        forall stage tys rest, stageOf flags = Some stage ->
        Ahead t tys -> OkItems false stage tys rest ->
        ElementsAt stage added /\ Ahead t' rest).
Proof.
  apply Run_mutind.
  - (* no colon: the text ends *)
    intros t name ws1 t2 i1 HN Hc name' r rest Hc' Hty Ha Hv. exfalso.
    pose proof (proj1 (name_facts _ _ _ _ _ HN)) as Hcn.
    assert (name' = name) by congruence. subst.
    destruct (name_ahead _ _ _ _ _ _ _ HN Ha) as [Ha2 _]; [congruence|].
    pose proof (ahead_end _ _ Ha2 Hc). discriminate.
  - (* no colon: another token *)
    intros t name ws1 t2 i1 other HN Hc Hno name' r rest Hc' Hty Ha Hv. exfalso.
    pose proof (proj1 (name_facts _ _ _ _ _ HN)) as Hcn.
    assert (name' = name) by congruence. subst.
    destruct (name_ahead _ _ _ _ _ _ _ HN Ha) as [Ha2 Hs]; [congruence|].
    destruct (ahead_head _ _ _ Ha2 Hc (Hs _ Hc)) as [r' E].
    injection E as E _. congruence.
  - (* no value: the text ends *)
    intros t name ws1 t2 i1 colon ws2 t4 i3 HN Hty HC Hc name' r rest Hc' Htn Ha Hv.
    exfalso.
    pose proof (proj1 (name_facts _ _ _ _ _ HN)) as Hcn.
    assert (name' = name) by congruence. subst.
    destruct (name_ahead _ _ _ _ _ _ _ HN Ha) as [Ha2 _]; [congruence|].
    destruct (name_ahead _ _ _ _ _ _ _ HC Ha2) as [Ha4 _]; [congruence|].
    pose proof (ahead_end _ _ Ha4 Hc). subst. inversion Hv.
  - (* no value: another token *)
    intros t name ws1 t2 i1 colon ws2 t4 i3 other HN Hty HC Hc Hcl name' r rest Hc' Htn
           Ha Hv. exfalso.
    pose proof (proj1 (name_facts _ _ _ _ _ HN)) as Hcn.
    assert (name' = name) by congruence. subst.
    destruct (name_ahead _ _ _ _ _ _ _ HN Ha) as [Ha2 _]; [congruence|].
    destruct (name_ahead _ _ _ _ _ _ _ HC Ha2) as [Ha4 Hs]; [congruence|].
    destruct (ahead_head _ _ _ Ha4 Hc (Hs _ Hc)) as [r' E]. subst.
    inversion Hv; subst; congruence.
  - (* a literal value *)
    intros t name ws1 t2 i1 colon ws2 t4 i3 value t5 i5 HN Hty HC Hc Hcl Hn
           name' r rest Hc' Htn Ha Hv.
    pose proof (name_facts _ _ _ _ _ HN) as [Hcn Hw1].
    pose proof (name_facts _ _ _ _ _ HC) as [_ Hw2].
    assert (name' = name) by congruence. subst.
    destruct (name_ahead _ _ _ _ _ _ _ HN Ha) as [Ha2 _]; [congruence|].
    destruct (name_ahead _ _ _ _ _ _ _ HC Ha2) as [Ha4 Hs]; [congruence|].
    destruct (ahead_head _ _ _ Ha4 Hc (Hs _ Hc)) as [r' E]. subst.
    split.
    + apply ValidPropertyIntro; auto. now apply ValidLiteral.
    + inversion Hv; subst; [|congruence].
      exact (ahead_solid _ _ _ _ _ _ Ha4 Hc Hn (Hs _ Hc)).
  - (* a nested value *)
    intros t name ws1 t2 i1 colon ws2 t4 i3 first object value t5 i5 HN Hty HC Hc Hcl
           Hb IHb name' r rest Hc' Htn Ha Hv.
    pose proof (name_facts _ _ _ _ _ HN) as [Hcn Hw1].
    pose proof (name_facts _ _ _ _ _ HC) as [_ Hw2].
    assert (name' = name) by congruence. subst.
    destruct (name_ahead _ _ _ _ _ _ _ HN Ha) as [Ha2 _]; [congruence|].
    destruct (name_ahead _ _ _ _ _ _ _ HC Ha2) as [Ha4 Hs]; [congruence|].
    destruct (IHb first r rest Hc (valueClass_nested _ _ Hcl) Ha4 Hv) as [Hvv Ha5].
    split; [|exact Ha5]. now apply ValidPropertyIntro.
  - (* an object *)
    intros t open t1 i1 added closed t2 i2 Hc Hn Hl IHl open' tys rest Hc' Hty Ha Hv.
    assert (open' = open) by congruence. subst. simpl in Hty.
    destruct (ahead_head _ _ _ Ha Hc) as [r E]; [congruence|]. subst. rewrite Hty in *.
    inversion Hv as [ty r0 Hcl | ty object r0 rest0 Hcl Hi]; subst; [discriminate Hcl|].
    injection Hcl as <-.
    assert (Ha1 : Ahead t1 r) by (apply (ahead_solid _ _ _ _ _ _ Ha Hc Hn); congruence).
    destruct (IHl AtStart r rest eq_refl Ha1 Hi) as [HM Ha2].
    split; [|exact Ha2]. now apply ValidObject.
  - (* an array *)
    intros t open t1 i1 added closed t2 i2 Hc Hn Hl IHl open' tys rest Hc' Hty Ha Hv.
    assert (open' = open) by congruence. subst. simpl in Hty.
    destruct (ahead_head _ _ _ Ha Hc) as [r E]; [congruence|]. subst. rewrite Hty in *.
    inversion Hv as [ty r0 Hcl | ty object r0 rest0 Hcl Hi]; subst; [discriminate Hcl|].
    injection Hcl as <-.
    assert (Ha1 : Ahead t1 r) by (apply (ahead_solid _ _ _ _ _ _ Ha Hc Hn); congruence).
    destruct (IHl AtStart r rest eq_refl Ha1 Hi) as [HM Ha2].
    split; [|exact Ha2]. now apply ValidArray.
  - (* the object loop: the text ends *)
    intros flags t Hc stage tys rest Hs Ha Hi. exfalso.
    pose proof (ahead_end _ _ Ha Hc). subst. inversion Hi.
  - (* the object loop: a name *)
    intros flags t tok property t1 i1 added closed t2 i2 Hc Hcase Hp IHp Hl IHl
           stage tys rest Hs Ha Hi.
    pose proof (objectCase_types (getType tok)) as Hty. rewrite Hcase in Hty.
    destruct (ahead_head _ _ _ Ha Hc) as [r E]; [congruence|]. subst. rewrite Hty in *.
    inversion Hi as [o s ty r0 rest0 Hcb Hi' | o s r0 Hne | o r0 rest0 Hi'
                    | s r0 r1 rest0 Hne Hv Hi' | ]; subst; try clash.
    destruct (IHp tok r0 r1 Hc Hty Ha Hv) as [HP Ha1].
    destruct (IHl AfterItem r1 rest eq_refl Ha1 Hi') as [HM Ha2].
    split; [|exact Ha2].
    destruct stage; [now apply MembersProperty | contradiction | now apply NextMemberProperty].
  - (* the object loop: the closing bracket *)
    intros flags t tok t1 i1 Hc Hcase Hn stage tys rest Hs Ha Hi.
    pose proof (objectCase_types (getType tok)) as Hty. rewrite Hcase in Hty.
    destruct (ahead_head _ _ _ Ha Hc) as [r E]; [congruence|]. subst. rewrite Hty in *.
    assert (Ha1 : Ahead t1 r) by (apply (ahead_solid _ _ _ _ _ _ Ha Hc Hn); congruence).
    inversion Hi as [o s ty r0 rest0 Hcb Hi' | o s r0 Hne | o r0 rest0 Hi'
                    | s r0 r1 rest0 Hne Hv Hi' | ]; subst; try clash.
    split; [|exact Ha1].
    destruct stage; [now apply MembersClose | now apply AfterMemberClose | contradiction].
  - (* the object loop: a comment, a line break, whitespace *)
    intros flags t tok t1 i1 added closed t2 i2 Hc Hcase Hn Hl IHl stage tys rest Hs Ha Hi.
    pose proof (trivia_object _ Hcase) as Ht.
    assert (G : MembersAt stage added /\ Ahead t2 rest).
    { destruct (TokenType.eqb (getType tok) TokenType.Whitespace) eqn:Ew.
      - apply tokenType_eqb_eq in Ew.
        exact (IHl stage tys rest Hs (ahead_ws _ _ _ _ _ Ha Hc Hn Ew) Hi).
      - assert (Hnw : getType tok <> TokenType.Whitespace).
        { intros E. rewrite E in Ew. discriminate Ew. }
        destruct (ahead_head _ _ _ Ha Hc Hnw) as [r E]. subst.
        pose proof (ahead_solid _ _ _ _ _ _ Ha Hc Hn Hnw) as Ha1.
        destruct (getType tok) eqn:Ety; try discriminate Hcase; try contradiction;
          (inversion Hi as [o s ty r0 rest0 Hcb Hi' | o s r0 Hne | o r0 rest0 Hi'
                           | s r0 r1 rest0 Hne Hv Hi' | ]; subst; try clash;
           exact (IHl stage r rest Hs Ha1 Hi')). }
    destruct G as [HM Ha2]. split; [|exact Ha2].
    destruct stage; simpl in *;
      [now apply MembersTrivia | now apply AfterMemberTrivia | now apply NextMemberTrivia].
  - (* the object loop: a comma *)
    intros flags t tok t1 i1 added closed t2 i2 Hc Hcase Hn Hl IHl stage tys rest Hs Ha Hi.
    pose proof (objectCase_types (getType tok)) as Hty. rewrite Hcase in Hty.
    destruct (ahead_head _ _ _ Ha Hc) as [r E]; [congruence|]. subst.
    assert (Ha1 : Ahead t1 r) by (apply (ahead_solid _ _ _ _ _ _ Ha Hc Hn); congruence).
    rewrite Hty in *.
    inversion Hi as [o s ty r0 rest0 Hcb Hi' | o s r0 Hne | o r0 rest0 Hi'
                    | s r0 r1 rest0 Hne Hv Hi' | ]; subst; try clash.
    destruct (IHl AfterComma r rest eq_refl Ha1 Hi') as [HM Ha2].
    split; [|exact Ha2]. now apply AfterMemberComma.
  - (* the object loop: another token *)
    intros flags t tok t1 i1 added closed t2 i2 Hc Hcase Hn Hl IHl stage tys rest Hs Ha Hi.
    exfalso.
    assert (Hnw : getType tok <> TokenType.Whitespace).
    { intros E. rewrite E in Hcase. discriminate Hcase. }
    destruct (ahead_head _ _ _ Ha Hc Hnw) as [r E]. subst.
    destruct (getType tok) eqn:Ety; try discriminate Hcase;
      inversion Hi; subst; clash.
  - (* the array loop: the text ends *)
    intros flags t Hc stage tys rest Hs Ha Hi. exfalso.
    pose proof (ahead_end _ _ Ha Hc). subst.
    inversion Hi as [ | | | | s r0 r1 rest0 Hne Hv Hi']; subst. inversion Hv.
  - (* the array loop: a literal *)
    intros flags t tok t1 i1 added closed t2 i2 Hc Hcase Hn Hl IHl stage tys rest Hs Ha Hi.
    pose proof (arrayCase_types (getType tok)) as Hty. rewrite Hcase in Hty.
    assert (Hnw : getType tok <> TokenType.Whitespace).
    { intros E. rewrite E in Hcase. discriminate Hcase. }
    destruct (ahead_head _ _ _ Ha Hc Hnw) as [r E]. subst.
    pose proof (ahead_solid _ _ _ _ _ _ Ha Hc Hn Hnw) as Ha1.
    assert (G : stage <> AfterItem /\ OkItems false AfterItem r rest).
    { destruct (getType tok) eqn:Ety; try discriminate Hcase;
        (inversion Hi as [o s ty r0 rest0 Hcb Hi' | o s r0 Hne | o r0 rest0 Hi'
                         | | s r0 r1 rest0 Hne Hv Hi']; subst; try clash;
         inversion Hv; subst; try clash; auto). }
    destruct G as [Hne Hi'].
    destruct (IHl AfterItem r rest eq_refl Ha1 Hi') as [HM Ha2].
    split; [|exact Ha2].
    destruct stage;
      [apply ElementsValue | contradiction | apply NextElementValue]; auto;
      now apply ValidLiteral.
  - (* the array loop: an object or array *)
    intros flags t tok object value t1 i1 added closed t2 i2 Hc Hcase Hb IHb Hl IHl
           stage tys rest Hs Ha Hi.
    pose proof (arrayCase_types (getType tok)) as Hty. rewrite Hcase in Hty.
    assert (Hnw : getType tok <> TokenType.Whitespace).
    { intros E. rewrite E in Hcase. discriminate Hcase. }
    destruct (ahead_head _ _ _ Ha Hc Hnw) as [r E]. subst.
    assert (G : stage <> AfterItem
                /\ exists r1, OkValue (getType tok :: r) r1 /\ OkItems false AfterItem r1 rest).
    { destruct (getType tok) eqn:Ety; try discriminate Hcase;
        (inversion Hi as [o s ty r0 rest0 Hcb Hi' | o s r0 Hne | o r0 rest0 Hi'
                         | | s r0 r1 rest0 Hne Hv Hi']; subst; try clash;
         split; [assumption | exists r1; auto]). }
    destruct G as (Hne & r1 & Hv & Hi').
    destruct (IHb tok _ r1 Hc Hty Ha Hv) as [Hvv Ha1].
    destruct (IHl AfterItem r1 rest eq_refl Ha1 Hi') as [HM Ha2].
    split; [|exact Ha2].
    destruct stage; [now apply ElementsValue | contradiction | now apply NextElementValue].
  - (* the array loop: a comma *)
    intros flags t tok t1 i1 added closed t2 i2 Hc Hcase Hn Hl IHl stage tys rest Hs Ha Hi.
    pose proof (arrayCase_types (getType tok)) as Hty. rewrite Hcase in Hty.
    destruct (ahead_head _ _ _ Ha Hc) as [r E]; [congruence|]. subst.
    assert (Ha1 : Ahead t1 r) by (apply (ahead_solid _ _ _ _ _ _ Ha Hc Hn); congruence).
    rewrite Hty in *.
    inversion Hi as [o s ty r0 rest0 Hcb Hi' | o s r0 Hne | o r0 rest0 Hi'
                    | | s r0 r1 rest0 Hne Hv Hi']; subst; try clash.
    + destruct (IHl AfterComma r rest eq_refl Ha1 Hi') as [HM Ha2].
      split; [|exact Ha2]. now apply AfterElementComma.
    + inversion Hv; subst; clash.
  - (* the array loop: the closing bracket *)
    intros flags t tok t1 i1 Hc Hcase Hn stage tys rest Hs Ha Hi.
    pose proof (arrayCase_types (getType tok)) as Hty. rewrite Hcase in Hty.
    destruct (ahead_head _ _ _ Ha Hc) as [r E]; [congruence|]. subst. rewrite Hty in *.
    assert (Ha1 : Ahead t1 r) by (apply (ahead_solid _ _ _ _ _ _ Ha Hc Hn); congruence).
    inversion Hi as [o s ty r0 rest0 Hcb Hi' | o s r0 Hne | o r0 rest0 Hi'
                    | | s r0 r1 rest0 Hne Hv Hi']; subst; try clash.
    + split; [|exact Ha1].
      destruct stage; [now apply ElementsClose | now apply AfterElementClose | contradiction].
    + inversion Hv; subst; clash.
  - (* the array loop: a comment, a line break, whitespace *)
    intros flags t tok t1 i1 added closed t2 i2 Hc Hcase Hn Hl IHl stage tys rest Hs Ha Hi.
    pose proof (trivia_array _ Hcase) as Ht.
    assert (G : ElementsAt stage added /\ Ahead t2 rest).
    { destruct (TokenType.eqb (getType tok) TokenType.Whitespace) eqn:Ew.
      - apply tokenType_eqb_eq in Ew.
        exact (IHl stage tys rest Hs (ahead_ws _ _ _ _ _ Ha Hc Hn Ew) Hi).
      - assert (Hnw : getType tok <> TokenType.Whitespace).
        { intros E. rewrite E in Ew. discriminate Ew. }
        destruct (ahead_head _ _ _ Ha Hc Hnw) as [r E]. subst.
        pose proof (ahead_solid _ _ _ _ _ _ Ha Hc Hn Hnw) as Ha1.
        destruct (getType tok) eqn:Ety; try discriminate Hcase; try contradiction;
          (inversion Hi as [o s ty r0 rest0 Hcb Hi' | o s r0 Hne | o r0 rest0 Hi'
                           | | s r0 r1 rest0 Hne Hv Hi']; subst; try clash;
           [exact (IHl stage r rest Hs Ha1 Hi') | inversion Hv; subst; clash]). }
    destruct G as [HM Ha2]. split; [|exact Ha2].
    destruct stage; simpl in *;
      [now apply ElementsTrivia | now apply AfterElementTrivia | now apply NextElementTrivia].
  - (* the array loop: another token *)
    intros flags t tok t1 i1 added closed t2 i2 Hc Hcase Hn Hl IHl stage tys rest Hs Ha Hi.
    exfalso.
    assert (Hnw : getType tok <> TokenType.Whitespace).
    { intros E. rewrite E in Hcase. discriminate Hcase. }
    destruct (ahead_head _ _ _ Ha Hc Hnw) as [r E]. subst.
    destruct (getType tok) eqn:Ety; try discriminate Hcase;
      inversion Hi as [o s ty r0 rest0 Hcb Hi' | o s r0 Hne | o r0 rest0 Hi'
                      | | s r0 r1 rest0 Hne Hv Hi']; subst; try clash;
      inversion Hv; subst; clash.
Qed.

Definition blankTypes (tys : list TokenType.t) : bool :=
  forallb (fun y => negb (startsRoot y)) tys.

(** The loop of [parse] over tokens that are taken without an issue adds
    valid segments. *)
Lemma ok_document_valid (found : bool) (t : Tokenizer) (segs : list Segment)
      (iss : list Issue) :
  RunDocument found t segs iss ->
  forall tys, Ahead t tys ->
  (if found then blankTypes tys = true else OkDocument tys) ->
  if found then forallb isBlank segs = true else ValidDocument segs.
Proof.
  induction 1 as [found t Hc
                 | found t tok t1 i1 segs i2 Hc Hr Hn _ IH
                 | found t tok object value t1 i1 segs i2 Hc Hr Hb _ IH]; intros tys Ha Ho.
  - destruct found; [reflexivity | constructor].
  - destruct (TokenType.eqb (getType tok) TokenType.Whitespace) eqn:Ew.
    + apply tokenType_eqb_eq in Ew.
      pose proof (ahead_ws _ _ _ _ _ Ha Hc Hn Ew) as Ha1.
      rewrite Ew in IH. simpl in IH. rewrite orb_false_r in IH.
      specialize (IH tys Ha1 Ho). destruct found.
      * simpl. rewrite Ew. exact IH.
      * apply ValidDocumentBlank; [|exact IH]. simpl. now rewrite Ew.
    + assert (Hnw : getType tok <> TokenType.Whitespace).
      { intros E. rewrite E in Ew. discriminate Ew. }
      destruct (ahead_head _ _ _ Ha Hc Hnw) as [r E]. subst.
      pose proof (ahead_solid _ _ _ _ _ _ Ha Hc Hn Hnw) as Ha1.
      destruct found.
      * simpl in Ho. apply andb_true_iff in Ho as [Hs Ho].
        apply negb_true_iff in Hs. simpl in IH. specialize (IH r Ha1 Ho).
        simpl. now rewrite Hs, IH.
      * simpl in IH.
        inversion Ho as [| ty r0 Hs Hd | ty r0 Hs Hrc Hl | ty o r0 rest Hrc Hv Hl]; subst.
        -- rewrite Hs in IH. apply ValidDocumentBlank; [|exact (IH r Ha1 Hd)].
           simpl. now rewrite Hs.
        -- rewrite Hs in IH. apply ValidDocumentToken; auto. exact (IH r Ha1 Hl).
        -- congruence.
  - assert (Hty : getType tok = leftOf object) by now apply root_opens.
    assert (Hnw : getType tok <> TokenType.Whitespace).
    { intros E. rewrite E in Hty. destruct object; discriminate Hty. }
    destruct (ahead_head _ _ _ Ha Hc Hnw) as [r E]. subst.
    assert (Hs : startsRoot (getType tok) = true).
    { rewrite Hty. now destruct object. }
    destruct found.
    + simpl in Ho. rewrite Hs in Ho. discriminate Ho.
    + inversion Ho as [| ty r0 Hs' Hd | ty r0 Hs' Hrc Hl | ty o r0 rest Hrc Hv Hl]; subst;
        try congruence.
      destruct (proj1 (proj2 ok_runs_valid) _ _ _ _ _ Hb tok _ rest Hc Hty Ha Hv)
        as [Hvv Ha1].
      apply ValidDocumentRoot; [exact Hvv|]. exact (IH rest Ha1 Hl).
Qed.

Lemma wellFormed_erase (A B : Token) :
  eraseToken A = eraseToken B -> wellFormedToken B -> wellFormedToken A.
Proof.
  intros E H. change (wellFormedToken (eraseToken A)). rewrite E. exact H.
Qed.

Lemma solidTokens_in (A : Token) (ts : list Token) :
  In A (solidTokens ts) <-> In A ts /\ isWs A = false.
Proof.
  unfold solidTokens. rewrite filter_In. split; intros [H1 H2]; split; auto.
  - now apply negb_true_iff.
  - now apply negb_true_iff.
Qed.

(** Tokens that agree, whitespace apart, with well-formed tokens are well
    formed. *)
Lemma solid_wellFormed (tokens tokens' : list Token) :
  map eraseToken (solidTokens tokens') = map eraseToken (solidTokens tokens) ->
  Forall wellFormedToken tokens -> Forall wellFormedToken tokens'.
Proof.
  intros E H. rewrite Forall_forall in *. intros A HA.
  destruct (isWs A) eqn:Ew.
  - unfold isWs in Ew. apply tokenType_eqb_eq in Ew.
    unfold wellFormedToken. now rewrite Ew.
  - assert (Hin : In (eraseToken A) (map eraseToken (solidTokens tokens'))).
    { apply in_map. now apply solidTokens_in. }
    rewrite E in Hin. apply in_map_iff in Hin as (B & EB & HB).
    apply solidTokens_in in HB as [HB _].
    exact (wellFormed_erase A B (eq_sym EB) (H B HB)).
Qed.

Lemma solidTypes_erase (tokens tokens' : list Token) :
  map eraseToken (solidTokens tokens') = map eraseToken (solidTokens tokens) ->
  solidTypes tokens' = solidTypes tokens.
Proof.
  intros E. unfold solidTypes.
  assert (G : forall ts, map getType ts = map getType (map eraseToken ts)).
  { intros ts. rewrite map_map. reflexivity. }
  now rewrite (G (solidTokens tokens')), (G (solidTokens tokens)), E.
Qed.

(** When two texts have the same tokens, whitespace apart, and the parse of
    the one adds no issue, the parse of the other adds none. *)
Lemma quiet_transfer (s s' : string) (d d' : Document) (iss' : list Issue)
      (tokens tokens' : list Token) (tiss tiss' : list Issue) :
  parse s = Some (d, []) -> parse s' = Some (d', iss') ->
  tokenize s = Some (tokens, tiss) -> tokenize s' = Some (tokens', tiss') ->
  map eraseToken (solidTokens tokens') = map eraseToken (solidTokens tokens) ->
  iss' = [].
Proof.
  intros Hp Hp' Hk Hk' He.
  pose proof (quiet_parse_valid _ _ Hp) as HV.
  destruct (valid_parse_quiet _ _ _ Hp HV) as [tokens0 Hk0].
  rewrite Hk in Hk0. injection Hk0 as _ ->.
  pose proof (parse_leaves _ _ _ _ _ Hp Hk) as Hl.
  pose proof (valid_document_ok _ HV) as Ho. rewrite Hl in Ho.
  assert (Hq : tiss' = []).
  { apply (tokenizeLoop_quiet _ _ _ _ Hk').
    apply (solid_wellFormed tokens tokens' He).
    now apply (tokenizeLoop_quiet _ _ _ _ Hk). }
  subst tiss'.
  assert (HV' : ValidDocument (documentSegments d')).
  { destruct (parse_run _ _ _ Hp') as (t0 & i0 & i1 & Hn & Hd & _).
    destruct (tokenizeLoop_upcoming _ _ _ _ _ _ Hk' Hn) as (ir & Hu & _).
    apply (ok_document_valid false _ _ _ Hd (solidTypes tokens')).
    - exists tokens', ir. auto.
    - now rewrite (solidTypes_erase _ _ He). }
  destruct (valid_parse_quiet _ _ _ Hp' HV') as [tokens2 Hk2].
  rewrite Hk' in Hk2. now injection Hk2 as _ <-.
Qed.

(** X20. [format] neither frees a text of its issues nor gives an issue to a
    text that has none: for every text, [parse] adds no issue over the text
    exactly when it adds no issue over the formatted text of its document. *)
Theorem X20_format_keeps_issue_freedom (s : string) :
  exists d iss d' iss',
    parse s = Some (d, iss)
    /\ parse (documentFormat d) = Some (d', iss')
    /\ (iss = [] <-> iss' = []).
Proof.
  destruct (parseLexes_spec (lex s) (lex_wf s)) as (segs & iss & Hp & _).
  destruct (parseLexes_spec (lex (documentFormat (mkDocument segs))) (lex_wf _))
    as (segs' & iss' & Hp' & _).
  destruct (tokenize_tokens s) as (tokens & tiss & Hk & _).
  destruct (tokenize_tokens (documentFormat (mkDocument segs))) as (tokens' & tiss' & Hk' & _).
  pose proof (format_keeps_solid _ _ _ _ _ _ _ Hp Hk Hk') as He.
  exists (mkDocument segs), iss, (mkDocument segs'), iss'.
  split; [exact Hp|]. split; [exact Hp'|]. split.
  - intros ->. exact (quiet_transfer _ _ _ _ _ _ _ _ _ Hp Hp' Hk Hk' He).
  - intros ->. exact (quiet_transfer _ _ _ _ _ _ _ _ _ Hp' Hp Hk' Hk (eq_sym He)).
Qed.
